(** * Numgrad expressions: the syntax tree, its s-expression rendering and
      the precedence-climbing expression parser.

    Shallow embedding of [lang/expr/expr.go]: the [expr] data structures with
    their [Sexp] methods, and the recursive-descent parser ([ParseExpr] and
    the methods of [parser]).  The packages [token] and the [Scanner] are not
    part of the source file; what the parser needs from them is modelled in
    the modules [token] and [Scanner] below. *)

From Stdlib Require Import ZArith List Bool Lia.
From Stdlib Require Import Strings.String Strings.Ascii.
From Stdlib Require Import Numbers.DecimalString.
Import ListNotations.

Set Warnings "-register-all".
Set Warnings "-notation-overridden".
Set Warnings "-ambiguous-paths".

Local Open Scope string_scope.
Local Open Scope Z_scope.

(* ------------------------------------------------------------------ *)
(** ** Formatting helpers ([fmt], [strings]) *)

Module fmt.

(** The double quote character, as [%q] and the raw strings of the source
    write it. *)
Definition dquote : string := String (ascii_of_nat 34) EmptyString.

(** The newline written as a backslash escape in Go string literals. *)
Definition newline : string := String (ascii_of_nat 10) EmptyString.

(** [%d] on an integer. *)
Definition decimal (z : Z) : string := NilZero.string_of_int (Z.to_int z).

Fixpoint spaces (n : nat) : string :=
  match n with
  | O => EmptyString
  | S k => String " "%char (spaces k)
  end.

(** [%5d]: right-justified in a field of at least five characters. *)
Definition decimal5 (z : Z) : string :=
  let d := decimal z in
  (spaces (5 - String.length d) ++ d)%string.

(** [%q] on a string without characters that need escaping. *)
Definition quoted (s : string) : string := (dquote ++ s ++ dquote)%string.

(** [strings.Join]. *)
Fixpoint Join (a : list string) (sep : string) : string :=
  match a with
  | [] => EmptyString
  | [x] => x
  | x :: rest => (x ++ sep ++ Join rest sep)%string
  end.

(** [s[1:]] on a non-empty string. *)
Definition drop1 (s : string) : string :=
  match s with
  | EmptyString => EmptyString
  | String _ rest => rest
  end.

End fmt.

(* ------------------------------------------------------------------ *)
(** ** Tokens *)

Module token.

(** Modelled from the spec: package [token] is not part of the source.  The
    constructors are the token names the source mentions, plus [Unknown], the
    zero value a scanner shows once its input is exhausted. *)
Inductive Token : Type :=
  | Unknown | Comment
  | Identifier | Int | Float | Imaginary | String
  | Add | Sub | Mul | Div | Rem | Pow
  | And | Or | Equal | NotEqual | Less | Greater
  | Not | Ref | Range
  | LeftParen | RightParen | LeftBracket | LeftBrace
  | Comma | Period.

Definition eq_dec (a b : Token) : {a = b} + {a <> b}.
Proof. decide equality. Defined.

Definition eqb (a b : Token) : bool := if eq_dec a b then true else false.

(** Every token, used to bound the precedence levels of an operator table. *)
Definition all : list Token :=
  [ Unknown; Comment; Identifier; Int; Float; Imaginary; String;
    Add; Sub; Mul; Div; Rem; Pow; And; Or; Equal; NotEqual; Less; Greater;
    Not; Ref; Range; LeftParen; RightParen; LeftBracket; LeftBrace;
    Comma; Period ].

(** Modelled from the spec: [Token.String] is not part of the source; the
    serialised trees of the spec show an operator by its name. *)
Definition Token_String (t : Token) : string :=
  match t with
  | Unknown => "Unknown" | Comment => "Comment"
  | Identifier => "Identifier" | Int => "Int" | Float => "Float"
  | Imaginary => "Imaginary" | String => "String"
  | Add => "Add" | Sub => "Sub" | Mul => "Mul" | Div => "Div"
  | Rem => "Rem" | Pow => "Pow"
  | And => "And" | Or => "Or" | Equal => "Equal" | NotEqual => "NotEqual"
  | Less => "Less" | Greater => "Greater"
  | Not => "Not" | Ref => "Ref" | Range => "Range"
  | LeftParen => "LeftParen" | RightParen => "RightParen"
  | LeftBracket => "LeftBracket" | LeftBrace => "LeftBrace"
  | Comma => "Comma" | Period => "Period"
  end.

(** Modelled from the spec: the operator table [Token.Precedence] is not part
    of the source.  It gives a binary operator a small positive level and
    every other token zero; multiplicative operators bind tighter than
    additive ones, which bind tighter than comparisons. *)
Definition Precedence (t : Token) : Z :=
  match t with
  | Equal | NotEqual | Less | Greater => 3
  | Add | Sub | Or | Pow => 4
  | Mul | Div | Rem | And => 5
  | _ => 0
  end.

End token.

(* ------------------------------------------------------------------ *)
(** ** Errors *)

(** [type Error struct { Offset int; Msg string }] *)
Record Error : Type := mkError { Offset : Z; Msg : string }.

(** The values of Go's [error] interface that occur in the package: the two
    [io] sentinels, an error reported by the scanner, a single parser
    [Error], and the aggregate [Errors]. *)
Inductive error : Type :=
  | io_EOF
  | io_ErrUnexpectedEOF
  | ScanError (msg : string)
  | ParserError (e : Error)
  | ParserErrors (es : list Error).

(** [func (e Error) Error() string] *)
Definition Error_Error (e : Error) : string :=
  ("numgrad: parser: " ++ Msg e ++ " (off " ++ fmt.decimal (Offset e) ++ ")")%string.

(** [func (e Errors) Error() string] *)
Fixpoint Errors_lines (e : list Error) : string :=
  match e with
  | [] => EmptyString
  | err :: rest =>
      ("off " ++ fmt.decimal5 (Offset err) ++ ": " ++ Msg err ++ fmt.newline
         ++ Errors_lines rest)%string
  end.

Definition Errors_Error (e : list Error) : string :=
  ("numgrad: parser erorrs:" ++ fmt.newline ++ Errors_lines e)%string.

Definition error_Error (e : error) : string :=
  match e with
  | io_EOF => "EOF"
  | io_ErrUnexpectedEOF => "unexpected EOF"
  | ScanError msg => msg
  | ParserError e => Error_Error e
  | ParserErrors es => Errors_Error es
  end.

(** [%v] on a value of type [error]. *)
Definition fmt_v_error (e : option error) : string :=
  match e with
  | None => "<nil>"
  | Some e => error_Error e
  end.

Definition is_EOF (e : option error) : bool :=
  match e with
  | Some io_EOF => true
  | _ => false
  end.

(* ------------------------------------------------------------------ *)
(** ** Literal values *)

(** The dynamic value of [BasicLiteral.Value] and of [Scanner.Literal]:
    [string], [*big.Int], [*big.Float], or the nil interface.  A [*big.Float]
    is kept as the text its [String] method gives. *)
Inductive literal : Type :=
  | LitNil
  | LitString (s : string)
  | LitInt (z : Z)
  | LitFloat (text : string).

(** [%T] *)
Definition fmt_T (v : literal) : string :=
  match v with
  | LitNil => "<nil>"
  | LitString _ => "string"
  | LitInt _ => "*big.Int"
  | LitFloat _ => "*big.Float"
  end.

(** [%s] *)
Definition fmt_s (v : literal) : string :=
  match v with
  | LitNil => "%!s(<nil>)"
  | LitString s => s
  | LitInt z => fmt.decimal z
  | LitFloat text => ("%!s(" ++ "*big.Float=" ++ text ++ ")")%string
  end.

(* ------------------------------------------------------------------ *)
(** ** Types of package [tipe], as far as [Sexp] looks at them *)

Module tipe.

(** Modelled from the spec: package [tipe] is not part of the source.  A
    value of the interface [tipe.Type] is the nil interface or a value of
    which only the text of its [Sexp] method is observed. *)
Inductive Tipe : Type :=
  | nilType
  | typeOf (sexp : string).

(** A pointer [*tipe.Func] or [*tipe.Table]: converted to [tipe.Type] it is
    never the nil interface, so [tipeSexp] always calls its [Sexp] method;
    the text that call gives stands for the pointer. *)
Record Ptr : Type := mkPtr { Ptr_Sexp : string }.

Definition ofPtr (p : Ptr) : Tipe := typeOf (Ptr_Sexp p).

End tipe.

(* ------------------------------------------------------------------ *)
(** ** Expressions and their s-expressions *)

Module expr.

(** The eleven types that implement [Expr]. *)
Inductive Kind : Type :=
  | KBinary | KUnary | KBad | KSelector | KBasicLiteral | KFuncLiteral
  | KCompLiteral | KTableLiteral | KIdent | KCall | KTableIndex.

(** [FuncLiteral.Body], an [interface{}]: nil, a value with a [Sexp] method
    (kept as the text the method gives), or a value without one (kept as the
    name of its dynamic type). *)
Inductive body : Type :=
  | BodyNil
  | BodySexp (sexp : string)
  | BodyOther (T : string).

(** [type Range struct { Start, End, Exact Expr }] *)
Record Range (E : Type) : Type := mkRange { Start : E; End_ : E; Exact : E }.
Arguments mkRange {E}.
Arguments Start {E}.
Arguments End_ {E}.
Arguments Exact {E}.

(** A value of the interface [Expr]: the nil interface ([Nil]), a nil pointer
    of one of the eleven pointer types ([NilPtr]), or a pointer to a struct.
    The parser's [BinaryExpr], [UnaryExpr], [BadExpr] and [CallExpr] are the
    structs [Binary], [Unary], [Bad] and [Call].  [Selector.Right] is a
    [*Ident]: [None] is the nil pointer, [Some name] a pointer to
    [Ident{Name: name}]. *)
Inductive Expr : Type :=
  | Nil
  | NilPtr (k : Kind)
  | Binary (Op : token.Token) (Left Right : Expr)
  | Unary (Op : token.Token) (E : Expr)
  | Bad (Err : option error)
  | Selector (Left : Expr) (Right : option string)
  | BasicLiteral (Value : literal)
  | FuncLiteral (Name ReceiverName : string) (PointerReceiver : bool)
      (Type_ : tipe.Ptr) (ParamNames ResultNames : list string) (Body : body)
  | CompLiteral (Type_ : tipe.Tipe) (Names : list string) (Elements : list Expr)
  | TableLiteral (Type_ : tipe.Ptr) (ColNames : list Expr) (Rows : list (list Expr))
  | Ident (Name : string)
  | Call (Func : Expr) (Args : list Expr)
  | TableIndex (E : Expr) (ColNames : list string) (Cols Rows : Range Expr).

Definition isNil (e : Expr) : bool :=
  match e with
  | Nil => true
  | _ => false
  end.

(** A rendering either gives a string or panics on a nil pointer
    dereference ([None]). *)
Definition bindS (a : option string) (k : string -> option string) : option string :=
  match a with
  | Some s => k s
  | None => None
  end.

Notation "x <~ a ; k" := (bindS a (fun x => k))
  (at level 61, a at next level, right associativity).

(** [func tipeSexp(t tipe.Type) string] *)
Definition tipeSexp (t : tipe.Tipe) : string :=
  match t with
  | tipe.nilType => "niltype"
  | tipe.typeOf sexp => sexp
  end.

Section Methods.

(** The methods call [exprSexp] on their children; [exprSexp] calls the
    methods back through the interface. *)
Variable exprSexp : Expr -> option string.

(** [func exprsStr(e []Expr) string] *)
Fixpoint exprsStr (e : list Expr) : option string :=
  match e with
  | [] => Some EmptyString
  | arg :: rest =>
      a <~ exprSexp arg ;
      match rest with
      | [] => Some a
      | _ => b <~ exprsStr rest ; Some (a ++ " " ++ b)%string
      end
  end.

(** [func (e *Binary) Sexp() string], on a non-nil receiver *)
Definition Binary_Sexp (Op : token.Token) (Left Right : Expr) : option string :=
  l <~ exprSexp Left ;
  r <~ exprSexp Right ;
  Some ("(" ++ token.Token_String Op ++ " " ++ l ++ " " ++ r ++ ")")%string.

(** [func (e *Unary) Sexp() string], on a non-nil receiver *)
Definition Unary_Sexp (Op : token.Token) (E : Expr) : option string :=
  x <~ exprSexp E ;
  Some ("(" ++ token.Token_String Op ++ " " ++ x ++ ")")%string.

(** [func (e *Bad) Sexp() string], on a non-nil receiver *)
Definition Bad_Sexp (Err : option error) : option string :=
  Some ("(bad " ++ fmt_v_error Err ++ ")")%string.

(** [func (e *Ident) Sexp() string], on any receiver *)
Definition Ident_Sexp (e : option string) : option string :=
  match e with
  | None => Some "nilident"
  | Some Name => Some Name
  end.

(** [func (e *Selector) Sexp() string], on a non-nil receiver;
    [exprSexp(e.Right)] receives a non-nil interface holding the [*Ident]. *)
Definition Selector_Sexp (Left : Expr) (Right : option string) : option string :=
  l <~ exprSexp Left ;
  r <~ Ident_Sexp Right ;
  Some ("(sel " ++ l ++ " " ++ r ++ ")")%string.

(** [func (e *BasicLiteral) Sexp() string], on a non-nil receiver *)
Definition BasicLiteral_Sexp (Value : literal) : option string :=
  Some ("(lit " ++ fmt_T Value ++ " " ++ fmt_s Value ++ ")")%string.

(** [func (e *Call) Sexp() string], on a non-nil receiver *)
Definition Call_Sexp (Func : Expr) (Args : list Expr) : option string :=
  f <~ exprSexp Func ;
  a <~ exprsStr Args ;
  Some ("(call " ++ f ++ " " ++ a ++ ")")%string.

(** [func (e *FuncLiteral) Sexp() string], on a non-nil receiver *)
Definition FuncLiteral_Sexp (Name ReceiverName : string) (PointerReceiver : bool)
    (Type_ : tipe.Ptr) (Body : body) : option string :=
  let body :=
    match Body with
    | BodyNil => "nilbody"
    | BodySexp sexp => sexp
    | BodyOther T => ("badbody:" ++ T)%string
    end in
  if negb (String.eqb ReceiverName "") then
    let pointer := if PointerReceiver then "*" else "" in
    Some ("(method (" ++ pointer ++ ReceiverName ++ ") " ++ Name ++ " "
            ++ tipeSexp (tipe.ofPtr Type_) ++ " " ++ body ++ ")")%string
  else
    Some ("(func " ++ Name ++ " " ++ tipeSexp (tipe.ofPtr Type_) ++ " "
            ++ body ++ ")")%string.

(** [func (e *CompLiteral) Sexp() string], on a non-nil receiver *)
Definition CompLiteral_Sexp (Type_ : tipe.Tipe) (Names : list string)
    (Elements : list Expr) : option string :=
  let names :=
    if (0 <? Z.of_nat (List.length Names))
    then ("(" ++ fmt.Join Names " " ++ ")")%string
    else "" in
  els <~ exprsStr Elements ;
  Some ("(comp " ++ tipeSexp Type_ ++ " " ++ names ++ " " ++ els ++ ")")%string.

(** The loop [for _, row := range e.Rows { rows += " " + exprsStr(row) }]. *)
Fixpoint TableLiteral_rows (rows : string) (Rows : list (list Expr)) : option string :=
  match Rows with
  | [] => Some rows
  | row :: rest =>
      r <~ exprsStr row ;
      TableLiteral_rows (rows ++ " " ++ r)%string rest
  end.

(** [func (e *TableLiteral) Sexp() string], on a non-nil receiver *)
Definition TableLiteral_Sexp (Type_ : tipe.Ptr) (ColNames : list Expr)
    (Rows : list (list Expr)) : option string :=
  rows <~ TableLiteral_rows "" Rows ;
  let rows :=
    if negb (String.eqb rows "")
    then (" (" ++ fmt.drop1 rows ++ ")")%string
    else rows in
  cols <~ exprsStr ColNames ;
  Some ("(table " ++ tipeSexp (tipe.ofPtr Type_) ++ " " ++ cols ++ rows ++ ")")%string.

(** The closure [rangeSexp] inside the [Sexp] method of [TableIndex]. *)
Definition rangeSexp (r : Range Expr) : option string :=
  rs <~ (if negb (isNil (Start r)) || negb (isNil (End_ r)) then
           a <~ (if negb (isNil (Start r)) then exprSexp (Start r) else Some "") ;
           b <~ (if negb (isNil (End_ r)) then exprSexp (End_ r) else Some "") ;
           Some (a ++ ":" ++ b)%string
         else Some "") ;
  if negb (isNil (Exact r)) then
    let rs := if negb (String.eqb rs "") then (rs ++ " ")%string else rs in
    exact <~ exprSexp (Exact r) ;
    Some ("(" ++ rs ++ exact ++ ")")%string
  else
    Some ("(" ++ rs ++ ")")%string.

(** [func (e *TableIndex) Sexp() string], on a non-nil receiver; the
    separator of [strings.Join] is the three characters quote, bar, quote. *)
Definition TableIndex_Sexp (E : Expr) (ColNames : list string)
    (Cols Rows : Range Expr) : option string :=
  let names := fmt.Join ColNames (fmt.dquote ++ "|" ++ fmt.dquote) in
  let names :=
    if negb (String.eqb names "")
    then (" " ++ fmt.dquote ++ names ++ fmt.dquote)%string
    else names in
  x <~ exprSexp E ;
  c <~ rangeSexp Cols ;
  r <~ rangeSexp Rows ;
  Some ("(tableindex " ++ x ++ names ++ " " ++ c ++ " " ++ r)%string.

End Methods.

(** What each [Sexp] method does on a nil receiver: six of them test
    [e == nil] and return a sentinel, the other five read a field of [e]
    first, which panics. *)
Definition Sexp_nil (k : Kind) : option string :=
  match k with
  | KBinary => Some "nilbin"
  | KUnary => Some "nilunary"
  | KSelector => Some "nilsel"
  | KBasicLiteral => Some "nillit"
  | KIdent => Some "nilident"
  | KCall => Some "nilcall"
  | KBad | KFuncLiteral | KCompLiteral | KTableLiteral | KTableIndex => None
  end.

(** [func exprSexp(e Expr) string]: the nil interface gives ["nilexpr"],
    any other value is sent to the [Sexp] method of its dynamic type. *)
Fixpoint exprSexp (e : Expr) : option string :=
  match e with
  | Nil => Some "nilexpr"
  | NilPtr k => Sexp_nil k
  | Binary Op Left Right => Binary_Sexp exprSexp Op Left Right
  | Unary Op E => Unary_Sexp exprSexp Op E
  | Bad Err => Bad_Sexp Err
  | Selector Left Right => Selector_Sexp exprSexp Left Right
  | BasicLiteral Value => BasicLiteral_Sexp Value
  | FuncLiteral Name ReceiverName PointerReceiver Type_ _ _ Body =>
      FuncLiteral_Sexp Name ReceiverName PointerReceiver Type_ Body
  | CompLiteral Type_ Names Elements => CompLiteral_Sexp exprSexp Type_ Names Elements
  | TableLiteral Type_ ColNames Rows => TableLiteral_Sexp exprSexp Type_ ColNames Rows
  | Ident Name => Ident_Sexp (Some Name)
  | Call Func Args => Call_Sexp exprSexp Func Args
  | TableIndex E ColNames Cols Rows => TableIndex_Sexp exprSexp E ColNames Cols Rows
  end.

(** No nil pointer of a type whose [Sexp] method reads its receiver occurs
    in [e]. *)
Fixpoint guarded (e : Expr) : bool :=
  match e with
  | NilPtr k => match Sexp_nil k with Some _ => true | None => false end
  | Binary _ Left Right => guarded Left && guarded Right
  | Unary _ E => guarded E
  | Selector Left _ => guarded Left
  | CompLiteral _ _ Elements => List.forallb guarded Elements
  | TableLiteral _ ColNames Rows =>
      List.forallb guarded ColNames && List.forallb (List.forallb guarded) Rows
  | Call Func Args => guarded Func && List.forallb guarded Args
  | TableIndex E _ Cols Rows =>
      guarded E
      && (guarded (Start Cols) && guarded (End_ Cols) && guarded (Exact Cols))
      && (guarded (Start Rows) && guarded (End_ Rows) && guarded (Exact Rows))
  | Nil | Bad _ | BasicLiteral _ | Ident _ | FuncLiteral _ _ _ _ _ _ _ => true
  end.

(** [e.Sexp()], the method call through the interface: a nil interface has no
    method to call and panics. *)
Definition Sexp (e : Expr) : option string :=
  match e with
  | Nil => None
  | _ => exprSexp e
  end.

End expr.

(* ------------------------------------------------------------------ *)
(** ** The scanner, as the parser sees it *)

Module Scanner.

(** Modelled from the spec: the [Scanner] is not part of the source.  The
    parser reads its fields [Token], [Literal], [Offset], [r] (the rune the
    scanner looks at after the current token, negative once the bytes are
    used up) and [err], and calls [Next].  One [Item] holds the values of
    these fields after one call of [Next]. *)
Record Item : Type := mkItem {
  iToken : token.Token;
  iLiteral : literal;
  iOffset : Z;
  iR : Z;
  iErr : option string
}.

(** Modelled from the spec: a source is given by what the scanner makes of
    it, the items of the successive calls of [Next], and its length in
    bytes. *)
Record Source : Type := mkSource { scan : list Item; size : Z }.

(** Modelled from the spec: the state of a scanner.  The head of [items] is
    the current token; the empty list is the exhausted scanner. *)
Record T : Type := mkT { items : list Item; eofOffset : Z }.

(** The fields of a scanner that has not scanned yet. *)
Definition zero : Item := mkItem token.Unknown LitNil 0 0 None.

Definition NewScanner (src : Source) : T := mkT (zero :: scan src) (size src).

Definition Token (s : T) : token.Token :=
  match items s with
  | i :: _ => iToken i
  | [] => token.Unknown
  end.

Definition Literal (s : T) : literal :=
  match items s with
  | i :: _ => iLiteral i
  | [] => LitNil
  end.

Definition Offset (s : T) : Z :=
  match items s with
  | i :: _ => iOffset i
  | [] => eofOffset s
  end.

Definition r (s : T) : Z :=
  match items s with
  | i :: _ => iR i
  | [] => -1
  end.

Definition err (s : T) : option error :=
  match items s with
  | i :: _ => option_map ScanError (iErr i)
  | [] => Some io_EOF
  end.

(** Modelled from the spec: [Next] consumes the current token and returns
    the error of the new state: [io.EOF] at the end of the input, the
    scanner's own error on malformed input, nil otherwise. *)
Definition Next (s : T) : T * option error :=
  let s' := mkT (List.tl (items s)) (eofOffset s) in
  (s', err s').

(** The number of tokens, the current one included, that are still to be
    consumed. *)
Definition remaining (s : T) : nat := List.length (items s).

End Scanner.

(* ------------------------------------------------------------------ *)
(** ** The parser *)

Module Parser.

Import expr.

(** [type parser struct { s *Scanner; err []Error }] *)
Record parser : Type := mkParser { s : Scanner.T; err : list Error }.

(** What a method of [parser] does to the parser it is called on: it returns
    a value and leaves a new state, or it panics, or the model ran out of
    [fuel] (every call of a recursive method and every turn of a loop spends
    one unit). *)
Inductive result (A : Type) : Type :=
  | Done (a : A) (p : parser)
  | Panic (msg : string)
  | OutOfFuel.
Arguments Done {A}.
Arguments Panic {A}.
Arguments OutOfFuel {A}.

Definition M (A : Type) : Type := parser -> result A.

Definition ret {A} (a : A) : M A := fun p => Done a p.

Definition bind {A B} (m : M A) (k : A -> M B) : M B :=
  fun p =>
    match m p with
    | Done a p' => k a p'
    | Panic msg => Panic msg
    | OutOfFuel => OutOfFuel
    end.

Definition panic {A} (msg : string) : M A := fun _ => Panic msg.

(** Reading the scanner's fields through [p.s]. *)
Definition Token : M token.Token := fun p => Done (Scanner.Token (s p)) p.
Definition Literal : M literal := fun p => Done (Scanner.Literal (s p)) p.
Definition s_err : M (option error) := fun p => Done (Scanner.err (s p)) p.
Definition s_r : M Z := fun p => Done (Scanner.r (s p)) p.

Notation "x <- m ;; k" := (bind m (fun x => k))
  (at level 61, m at next level, right associativity).
Notation "m ;;; k" := (bind m (fun _ => k))
  (at level 61, right associativity).

(** [func newParser(src []byte) *parser] *)
Definition newParser (src : Scanner.Source) : parser :=
  mkParser (Scanner.NewScanner src) [].

(** [p.s.Next()], with the error it returns. *)
Definition s_Next : M (option error) :=
  fun p => let (s', e) := Scanner.Next (s p) in Done e (mkParser s' (err p)).

(** [func (p *parser) next()] *)
Fixpoint next (fuel : nat) : M unit :=
  match fuel with
  | O => fun _ => OutOfFuel
  | S fuel =>
      s_Next ;;;
      t <- Token ;;
      if token.eqb t token.Comment then next fuel else ret tt
  end.

(** [func (p *parser) error(msg string) error] *)
Definition error_ (msg : string) : M error :=
  fun p =>
    let e := mkError (Scanner.Offset (s p)) msg in
    Done (ParserError e) (mkParser (s p) (err p ++ [e])%list).

(** [func (p *parser) expect(t Token) bool] *)
Definition expect (t : token.Token) : M bool :=
  tok <- Token ;;
  let met := token.eqb t tok in
  if negb met then
    error_ ("expected " ++ fmt.quoted (token.Token_String t) ++ ", found "
              ++ fmt.quoted (token.Token_String tok)) ;;;
    ret met
  else ret met.

(** [func (p *parser) expectCommaOr(otherwise Token, msg string) bool] *)
Definition expectCommaOr (otherwise : token.Token) (msg : string) : M bool :=
  tok <- Token ;;
  if token.eqb tok token.Comma then ret true
  else if negb (token.eqb tok otherwise) then
    error_ ("missing ',' in " ++ msg ++ " (got " ++ token.Token_String tok ++ ")") ;;;
    ret true
  else ret false.

(** [func (p *parser) parseIdent() *Ident]; the type assertion
    [p.s.Literal.(string)] panics on a literal that is not a string. *)
Definition parseIdent (fuel : nat) : M Expr :=
  met <- expect token.Identifier ;;
  name <- (if met then
             lit <- Literal ;;
             match lit with
             | LitString name => ret name
             | _ => panic "interface conversion: interface is not string"
             end
           else ret "_") ;;
  next fuel ;;;
  ret (Ident name).

Section Grammar.

(** [Token.Precedence], the operator table. *)
Variable Precedence : token.Token -> Z.

(** The methods [parseExpr], [parseBinaryExpr], [parseUnaryExpr],
    [parsePrimaryExpr], [parseOperand] and [parseArgs] call each other; the
    two nested [for] loops of [parseBinaryExpr] and the [for] loop of
    [parseArgs] are the functions [parseBinaryExpr_levels],
    [parseBinaryExpr_run] and [parseArgs_loop]. *)
Fixpoint parseExpr (fuel : nat) (lhs : bool) : M Expr :=
  match fuel with
  | O => fun _ => OutOfFuel
  | S fuel => parseBinaryExpr fuel lhs 1
  end

with parseBinaryExpr (fuel : nat) (lhs : bool) (minPrec : Z) : M Expr :=
  match fuel with
  | O => fun _ => OutOfFuel
  | S fuel =>
      x <- parseUnaryExpr fuel lhs ;;
      tok <- Token ;;
      parseBinaryExpr_levels fuel minPrec (Precedence tok) x
  end

(** [for prec := p.s.Token.Precedence(); prec >= minPrec; prec-- { ... }] *)
with parseBinaryExpr_levels (fuel : nat) (minPrec prec : Z) (x : Expr) : M Expr :=
  match fuel with
  | O => fun _ => OutOfFuel
  | S fuel =>
      if prec >=? minPrec then
        x <- parseBinaryExpr_run fuel prec x ;;
        parseBinaryExpr_levels fuel minPrec (prec - 1) x
      else ret x
  end

(** The inner [for { ... }], left by [break] when the current token is not
    an operator of level [prec]. *)
with parseBinaryExpr_run (fuel : nat) (prec : Z) (x : Expr) : M Expr :=
  match fuel with
  | O => fun _ => OutOfFuel
  | S fuel =>
      op <- Token ;;
      if negb (Precedence op =? prec) then ret x
      else
        next fuel ;;;
        y <- parseBinaryExpr fuel false (prec + 1) ;;
        parseBinaryExpr_run fuel prec (Binary op x y)
  end

with parseUnaryExpr (fuel : nat) (lhs : bool) : M Expr :=
  match fuel with
  | O => fun _ => OutOfFuel
  | S fuel =>
      tok <- Token ;;
      match tok with
      | token.Add | token.Sub | token.Not =>
          let op := tok in
          next fuel ;;;
          e <- s_err ;;
          match e with
          | Some _ => ret (Bad e)
          | None =>
              x <- parseUnaryExpr fuel false ;;
              ret (Unary op x)
          end
      | token.Mul =>
          next fuel ;;;
          x <- parseUnaryExpr fuel false ;;
          ret (Unary token.Mul x)
      | _ => parsePrimaryExpr fuel lhs
      end
  end

(** Every branch of the [for { switch ... }] returns or panics, so the loop
    body runs once. *)
with parsePrimaryExpr (fuel : nat) (lhs : bool) : M Expr :=
  match fuel with
  | O => fun _ => OutOfFuel
  | S fuel =>
      x <- parseOperand fuel lhs ;;
      tok <- Token ;;
      match tok with
      | token.Period =>
          next fuel ;;;
          tok <- Token ;;
          match tok with
          | token.Identifier => panic "TODO parse selector"
          | token.LeftParen => panic "TODO parse type assertion"
          | _ => panic "TODO expect selector type assertion"
          end
      | token.LeftBracket => panic "TODO array index"
      | token.LeftParen =>
          args <- parseArgs fuel ;;
          ret (Call x args)
      | token.LeftBrace => panic "TODO could be composite literal"
      | _ => ret x
      end
  end

with parseOperand (fuel : nat) (lhs : bool) : M Expr :=
  match fuel with
  | O => fun _ => OutOfFuel
  | S fuel =>
      tok <- Token ;;
      match tok with
      | token.Identifier => parseIdent fuel
      | token.Int | token.Float | token.Imaginary | token.String =>
          lit <- Literal ;;
          let x := BasicLiteral lit in
          next fuel ;;;
          ret x
      | token.LeftParen =>
          next fuel ;;;
          e <- parseExpr fuel false ;;
          expect token.RightParen ;;;
          ret (Unary token.LeftParen e)
      | _ =>
          next fuel ;;;
          e <- error_ "expected operand" ;;
          ret (Bad (Some e))
      end
  end

with parseArgs (fuel : nat) : M (list Expr) :=
  match fuel with
  | O => fun _ => OutOfFuel
  | S fuel =>
      expect token.LeftParen ;;;
      next fuel ;;;
      args <- parseArgs_loop fuel [] ;;
      expect token.RightParen ;;;
      next fuel ;;;
      ret args
  end

(** [for p.s.Token != RightParen && p.s.r > 0 { ... }] *)
with parseArgs_loop (fuel : nat) (args : list Expr) : M (list Expr) :=
  match fuel with
  | O => fun _ => OutOfFuel
  | S fuel =>
      tok <- Token ;;
      r <- s_r ;;
      if negb (token.eqb tok token.RightParen) && (r >? 0) then
        e <- parseExpr fuel false ;;
        let args := (args ++ [e])%list in
        more <- expectCommaOr token.RightParen "arguments" ;;
        if negb more then ret args
        else
          next fuel ;;;
          parseArgs_loop fuel args
      else ret args
  end.

(** [func ParseExpr(src []byte) (expr Expr, err error)]; the final state of
    the parser is kept next to the two results. *)
Definition ParseExpr (fuel : nat) (src : Scanner.Source) : result (Expr * option error) :=
  (e <- s_Next ;;
   match e with
   | Some e =>
       let e := match e with io_EOF => io_ErrUnexpectedEOF | _ => e end in
       ret (Nil, Some e)
   | None =>
       x <- parseExpr fuel false ;;
       fun p =>
         let e := if (Z.of_nat (List.length (err p)) >? 0)
                  then Some (ParserErrors (err p)) else None in
         let e := match e with
                  | None => if negb (is_EOF (Scanner.err (s p)))
                            then Scanner.err (s p) else e
                  | Some _ => e
                  end in
         Done (x, e) p
   end) (newParser src).

End Grammar.

End Parser.

(* ------------------------------------------------------------------ *)
(** ** Sources written as text *)

Module Lex.

(** Modelled from the spec: the scanner's tokenization rules are not part of
    the source.  This small scanner covers what the examples need: decimal
    integers, identifiers, blanks and one-character operators and
    punctuation.  Each item carries the byte offset of its token and the
    rune that follows the token ([-1] at the end of the text). *)
Definition rune (c : ascii) : Z := Z.of_nat (nat_of_ascii c).

Definition lookahead (text : string) : Z :=
  match text with
  | EmptyString => -1
  | String c _ => rune c
  end.

Definition isDigit (c : ascii) : bool := (48 <=? rune c) && (rune c <=? 57).

Definition isLetter (c : ascii) : bool :=
  ((65 <=? rune c) && (rune c <=? 90)) || ((97 <=? rune c) && (rune c <=? 122))
  || (rune c =? 95).

Definition isSpace (c : ascii) : bool :=
  (rune c =? 32) || (rune c =? 9) || (rune c =? 10) || (rune c =? 13).

Definition punct (c : ascii) : option token.Token :=
  match rune c with
  | 43 => Some token.Add
  | 45 => Some token.Sub
  | 42 => Some token.Mul
  | 47 => Some token.Div
  | 37 => Some token.Rem
  | 33 => Some token.Not
  | 40 => Some token.LeftParen
  | 41 => Some token.RightParen
  | 91 => Some token.LeftBracket
  | 123 => Some token.LeftBrace
  | 44 => Some token.Comma
  | 46 => Some token.Period
  | _ => None
  end.

(** The number or name being read. *)
Inductive word : Type :=
  | NoWord
  | Number (value : Z) (start : Z)
  | Name (text : string) (start : Z).

Definition flush (w : word) (r : Z) : list Scanner.Item :=
  match w with
  | NoWord => []
  | Number value start => [Scanner.mkItem token.Int (LitInt value) start r None]
  | Name text start => [Scanner.mkItem token.Identifier (LitString text) start r None]
  end.

Definition extend (w : word) (c : ascii) : option word :=
  match w with
  | NoWord => None
  | Number value start =>
      if isDigit c then Some (Number (10 * value + (rune c - 48)) start) else None
  | Name text start =>
      if isLetter c || isDigit c
      then Some (Name (text ++ String c EmptyString) start) else None
  end.

Fixpoint words (text : string) (off : Z) (w : word) : list Scanner.Item :=
  match text with
  | EmptyString => flush w (-1)
  | String c rest =>
      match extend w c with
      | Some w' => words rest (off + 1) w'
      | None =>
          (flush w (rune c) ++
           (if isDigit c then words rest (off + 1) (Number (rune c - 48) off)
            else if isLetter c then words rest (off + 1) (Name (String c EmptyString) off)
            else if isSpace c then words rest (off + 1) NoWord
            else
              match punct c with
              | Some t =>
                  Scanner.mkItem t LitNil off (lookahead rest) None
                    :: words rest (off + 1) NoWord
              | None =>
                  Scanner.mkItem token.Unknown LitNil off (lookahead rest)
                    (Some "unexpected character")
                    :: words rest (off + 1) NoWord
              end))%list
      end
  end.

Definition source (text : string) : Scanner.Source :=
  Scanner.mkSource (words text 0 NoWord) (Z.of_nat (String.length text)).

End Lex.

(* ------------------------------------------------------------------ *)
(** ** Sample sources and trees *)

Module Sample.

Import expr.

Definition int (z : Z) : Expr := BasicLiteral (LitInt z).


(** The tree of [1 + 2 * 3]. *)
Definition add_mul : Expr :=
  Binary token.Add (int 1) (Binary token.Mul (int 2) (int 3)).

(** The tree of [(1 + 2)]. *)
Definition paren_add : Expr :=
  Unary token.LeftParen (Binary token.Add (int 1) (int 2)).

(** A comment followed by the literal [1], as a scanner that reports
    comments hands it over. *)
Definition comment_then_one : Scanner.Source :=
  Scanner.mkSource
    [ Scanner.mkItem token.Comment (LitString "/* c */") 0 32 None;
      Scanner.mkItem token.Int (LitInt 1) 8 (-1) None ]
    9.

(** The tokens at which [parseOperand] builds a [BasicLiteral]. *)
Definition is_literal (t : token.Token) : bool :=
  match t with
  | token.Int | token.Float | token.Imaginary | token.String => true
  | _ => false
  end.

(** The tokens at which [parsePrimaryExpr] does not return its operand. *)
Definition is_suffix (t : token.Token) : bool :=
  match t with
  | token.Period | token.LeftBracket | token.LeftParen | token.LeftBrace => true
  | _ => false
  end.

(** The tokens at which [parseUnaryExpr] builds a [Unary] or [Bad] node. *)
Definition is_prefix (t : token.Token) : bool :=
  match t with
  | token.Add | token.Sub | token.Not | token.Mul => true
  | _ => false
  end.

(** The operators of a [Binary] node, as the comment on its field [Op]
    lists them. *)
Definition is_binary_op (t : token.Token) : bool :=
  match t with
  | token.Add | token.Sub | token.Mul | token.Div | token.Rem | token.Pow
  | token.And | token.Or | token.Equal | token.NotEqual | token.Less
  | token.Greater => true
  | _ => false
  end.

(** An operator table gives a positive level to binary operators only. *)
Definition operator_table (Precedence : token.Token -> Z) : Prop :=
  forall t, 1 <= Precedence t -> is_binary_op t = true.

Definition literal_of (i : Scanner.Item) : Expr :=
  BasicLiteral (Scanner.iLiteral i).

(** A first operand and then operators, each with the operand on its
    right. *)
Definition operands (rest : list (Scanner.Item * Scanner.Item)) : list Scanner.Item :=
  List.flat_map (fun oi => [fst oi; snd oi]) rest.

Definition chain (first : Scanner.Item)
    (rest : list (Scanner.Item * Scanner.Item)) : list Scanner.Item :=
  first :: operands rest.

(** Every operator of the chain has level [q] and every operand on the
    right is a literal. *)
Definition same_level (Precedence : token.Token -> Z) (q : Z)
    (rest : list (Scanner.Item * Scanner.Item)) : Prop :=
  List.Forall
    (fun oi => Precedence (Scanner.iToken (fst oi)) = q
               /\ is_literal (Scanner.iToken (snd oi)) = true) rest.

(** The tree that nests the chain to the left. *)
Definition left_nested (x : Expr)
    (rest : list (Scanner.Item * Scanner.Item)) : Expr :=
  List.fold_left
    (fun acc oi => Binary (Scanner.iToken (fst oi)) acc (literal_of (snd oi)))
    rest x.

(** The token a scanner shows on the items [l]. *)
Definition first_token (l : list Scanner.Item) : token.Token :=
  Scanner.Token (Scanner.mkT l 0).

(** Items at which a chain of operands ends: the first of them is neither a
    comment, nor a suffix of a primary expression, nor an operator. *)
Definition stops (Precedence : token.Token -> Z) (tail : list Scanner.Item) : Prop :=
  first_token tail <> token.Comment
  /\ is_suffix (first_token tail) = false
  /\ Precedence (first_token tail) < 1.

(** The arguments of a call: none, or a first argument and then commas,
    each with the argument on its right. *)
Definition arguments : Type :=
  option (Scanner.Item * list (Scanner.Item * Scanner.Item)).

Definition arg_items (a : arguments) : list Scanner.Item :=
  match a with
  | None => []
  | Some (first, rest) => chain first rest
  end.

Definition arg_trees (a : arguments) : list Expr :=
  match a with
  | None => []
  | Some (first, rest) =>
      literal_of first :: List.map (fun ca => literal_of (snd ca)) rest
  end.

(** Every separator is a comma and every argument on the right a literal
    that is not the last token of the text. *)
Definition comma_separated (rest : list (Scanner.Item * Scanner.Item)) : Prop :=
  List.Forall
    (fun ca => Scanner.iToken (fst ca) = token.Comma
               /\ is_literal (Scanner.iToken (snd ca)) = true
               /\ 0 < Scanner.iR (snd ca)) rest.

Definition literal_arguments (a : arguments) : Prop :=
  match a with
  | None => True
  | Some (first, rest) =>
      is_literal (Scanner.iToken first) = true
      /\ 0 < Scanner.iR first
      /\ comma_separated rest
  end.

(** The tree of [f(1, 2, 3)]. *)
Definition call_f_123 : Expr := Call (Ident "f") [int 1; int 2; int 3].

(** The tree of [f()]. *)
Definition call_f : Expr := Call (Ident "f") [].

Definition missing_comma (off : Z) (got : token.Token) : Error :=
  mkError off ("missing ',' in arguments (got " ++ token.Token_String got ++ ")").

(** [1 + /*a*/ /*b*/ /*c*/ 2], as a scanner that reports comments hands
    it over. *)
Definition commented : Scanner.Source :=
  Scanner.mkSource
    [ Scanner.mkItem token.Int (LitInt 1) 0 32 None;
      Scanner.mkItem token.Add LitNil 2 32 None;
      Scanner.mkItem token.Comment (LitString "/*a*/") 4 32 None;
      Scanner.mkItem token.Comment (LitString "/*b*/") 10 32 None;
      Scanner.mkItem token.Comment (LitString "/*c*/") 16 32 None;
      Scanner.mkItem token.Int (LitInt 2) 22 (-1) None ]
    23.

(** The parser on [commented] when [+] is the current token. *)
Definition commented_at_plus : Parser.parser :=
  Parser.mkParser (Scanner.mkT (List.tl (Scanner.scan commented)) 23) [].

(** The parser on [commented] when [2] is the current token. *)
Definition commented_at_two : Parser.parser :=
  Parser.mkParser
    (Scanner.mkT [Scanner.mkItem token.Int (LitInt 2) 22 (-1) None] 23) [].

(** The tree of [1 + 2]. *)
Definition add_1_2 : Expr := Binary token.Add (int 1) (int 2).

(** The tree of [1 * 2]. *)
Definition mul_1_2 : Expr := Binary token.Mul (int 1) (int 2).

Definition expected_operand (off : Z) : Error := mkError off "expected operand".

Definition expected_found (off : Z) (want got : token.Token) : Error :=
  mkError off ("expected " ++ fmt.quoted (token.Token_String want) ++ ", found "
                 ++ fmt.quoted (token.Token_String got)).

(** The state of a parser whose scanner is exhausted. *)
Definition exhausted (size : Z) (errs : list Error) : Parser.parser :=
  Parser.mkParser (Scanner.mkT [] size) errs.

(** The tree of [f(1, 2) * -3]. *)
Definition call_times_neg : Expr :=
  Binary token.Mul (Call (Ident "f") [int 1; int 2]) (Unary token.Sub (int 3)).

(** The parser on the source [1 2] once the literal [1] is parsed. *)
Definition one_two_at_two : Parser.parser :=
  Parser.mkParser (Scanner.mkT [Scanner.mkItem token.Int (LitInt 2) 2 (-1) None] 3) [].

(** The parser on the source [(1 + 2) * 3] when [ParseExpr] returns. *)
Definition paren_times_three_at_close : Parser.parser :=
  Parser.mkParser
    (Scanner.mkT
       [ Scanner.mkItem token.RightParen LitNil 6 32 None;
         Scanner.mkItem token.Mul LitNil 8 32 None;
         Scanner.mkItem token.Int (LitInt 3) 10 (-1) None ] 11) [].

(** The errors recorded on the source [(1 + ) 2]. *)
Definition two_errors : list Error :=
  [ expected_operand 7; expected_found 7 token.RightParen token.Int ].

(** The items of the source [f(1]. *)
Definition call_cut_short : list Scanner.Item :=
  [ Scanner.mkItem token.Identifier (LitString "f") 0 40 None;
    Scanner.mkItem token.LeftParen LitNil 1 49 None;
    Scanner.mkItem token.Int (LitInt 1) 2 (-1) None ].

(** The errors recorded on the source [f(, 1]. *)
Definition three_errors : list Error :=
  [ expected_operand 4; missing_comma 4 token.Int;
    expected_found 5 token.RightParen token.Unknown ].

(** The items at which [parseOperand] builds a leaf and consumes one token:
    a literal, or an identifier that carries its name. *)
Definition is_leaf (i : Scanner.Item) : bool :=
  match Scanner.iToken i with
  | token.Identifier =>
      match Scanner.iLiteral i with
      | LitString _ => true
      | _ => false
      end
  | t => is_literal t
  end.

(** The leaf [parseOperand] builds at such an item. *)
Definition leaf_of (i : Scanner.Item) : Expr :=
  match Scanner.iToken i, Scanner.iLiteral i with
  | token.Identifier, LitString name => Ident name
  | _, l => BasicLiteral l
  end.





(** The items of the arguments of [f(a + 1, -b)], and their trees. *)
Definition sum_and_negation_items : list Scanner.Item :=
  [ Scanner.mkItem token.Identifier (LitString "a") 2 32 None;
    Scanner.mkItem token.Add LitNil 4 32 None;
    Scanner.mkItem token.Int (LitInt 1) 6 44 None;
    Scanner.mkItem token.Comma LitNil 7 32 None;
    Scanner.mkItem token.Sub LitNil 9 98 None;
    Scanner.mkItem token.Identifier (LitString "b") 10 41 None ].

Definition sum_and_negation : list Expr :=
  [ Binary token.Add (Ident "a") (int 1); Unary token.Sub (Ident "b") ].

(** The parser on the source [f(1, 2] when [parseArgs] is called, and the
    error recorded for the closing parenthesis that is absent. *)
Definition unclosed_call_at_paren : Parser.parser :=
  Parser.mkParser
    (Scanner.mkT
       [ Scanner.mkItem token.LeftParen LitNil 1 49 None;
         Scanner.mkItem token.Int (LitInt 1) 2 44 None;
         Scanner.mkItem token.Comma LitNil 3 32 None;
         Scanner.mkItem token.Int (LitInt 2) 5 (-1) None ] 6) [].

(** The tree of [((1)], and the parser when [ParseExpr] returns it. *)
Definition paren_paren_one : Expr :=
  Unary token.LeftParen (Unary token.LeftParen (int 1)).

Definition paren_paren_at_close : Parser.parser :=
  Parser.mkParser
    (Scanner.mkT [Scanner.mkItem token.RightParen LitNil 3 (-1) None] 4) [].

(** The tree of [f(1) * 3]. *)
Definition call_times_three : Expr :=
  Binary token.Mul (Call (Ident "f") [int 1]) (int 3).

End Sample.

(* ------------------------------------------------------------------ *)
(** ** Measures used by the proofs *)

Module Measure.

(** The nesting depth of a tree: one more than the deepest child. *)
Fixpoint depth (e : expr.Expr) : nat :=
  let deepest := List.fold_right (fun a m => Nat.max (depth a) m) O in
  match e with
  | expr.Nil | expr.NilPtr _ => O
  | expr.Binary _ l r => S (Nat.max (depth l) (depth r))
  | expr.Unary _ x => S (depth x)
  | expr.Selector l _ => S (depth l)
  | expr.Call f args => S (Nat.max (depth f) (deepest args))
  | expr.CompLiteral _ _ els => S (deepest els)
  | expr.TableLiteral _ cols rows =>
      S (Nat.max (deepest cols)
           (List.fold_right (fun row m => Nat.max (deepest row) m) O rows))
  | expr.TableIndex x _ c r =>
      S (Nat.max (depth x)
           (Nat.max
              (Nat.max (depth (expr.Start c))
                 (Nat.max (depth (expr.End_ c)) (depth (expr.Exact c))))
              (Nat.max (depth (expr.Start r))
                 (Nat.max (depth (expr.End_ r)) (depth (expr.Exact r))))))
  | expr.Bad _ | expr.BasicLiteral _ | expr.Ident _
  | expr.FuncLiteral _ _ _ _ _ _ _ => 1%nat
  end.

(** The tokens a parser has still to consume. *)
Definition remaining (p : Parser.parser) : nat := Scanner.remaining (Parser.s p).

(** The highest level of an operator table, over all tokens. *)
Definition levels (Precedence : token.Token -> Z) : nat :=
  List.fold_right (fun t m => Nat.max (Z.to_nat (Precedence t)) m) O token.all.

(** A call has halted within [n] remaining tokens when it did not run out of
    fuel and, if it returned, left at most [n] tokens. *)
Definition halts {A} (r : Parser.result A) (n : nat) : Prop :=
  match r with
  | Parser.Done _ p => (remaining p <= n)%nat
  | Parser.Panic _ => True
  | Parser.OutOfFuel => False
  end.

(** The fuel one token is charged with. *)
Definition cost (Precedence : token.Token -> Z) : nat :=
  (levels Precedence + 6)%nat.

(** Fuel [fuel] covers the tokens that remain in [p] and [d] more units. *)
Definition within (Precedence : token.Token -> Z) (d : nat) (p : Parser.parser)
    (fuel : nat) : Prop :=
  (cost Precedence * remaining p + d <= fuel)%nat.

(** Fuel that is enough for [ParseExpr] on a source of [n] items. *)
Definition enough (Precedence : token.Token -> Z) (n : nat) : nat :=
  (cost Precedence * (n + 1))%nat.

Section Halting.

Variable Precedence : token.Token -> Z.
Variable fuel : nat.

(** With fuel [fuel], each function of the parser halts on every parser
    that the fuel covers; the functions that begin with an operand consume
    a token unless none remains. *)
Definition operand_halts : Prop :=
  forall lhs p,
    within Precedence 2 p fuel ->
    halts (Parser.parseOperand Precedence fuel lhs p) (pred (remaining p)).

Definition args_halts : Prop :=
  forall p,
    (1 <= remaining p)%nat ->
    within Precedence 2 p fuel ->
    halts (Parser.parseArgs Precedence fuel p) (pred (remaining p)).

Definition primary_halts : Prop :=
  forall lhs p,
    within Precedence 3 p fuel ->
    halts (Parser.parsePrimaryExpr Precedence fuel lhs p) (pred (remaining p)).

Definition unary_halts : Prop :=
  forall lhs p,
    within Precedence 4 p fuel ->
    halts (Parser.parseUnaryExpr Precedence fuel lhs p) (pred (remaining p)).

Definition run_halts : Prop :=
  forall prec x p,
    1 <= prec ->
    within Precedence 2 p fuel ->
    halts (Parser.parseBinaryExpr_run Precedence fuel prec x p) (remaining p).

Definition levels_halts : Prop :=
  forall minPrec prec x p (k : nat),
    1 <= minPrec ->
    prec - minPrec < Z.of_nat k ->
    within Precedence (3 + k) p fuel ->
    halts (Parser.parseBinaryExpr_levels Precedence fuel minPrec prec x p)
      (remaining p).

Definition binary_halts : Prop :=
  forall lhs minPrec p,
    1 <= minPrec ->
    within Precedence (levels Precedence + 5) p fuel ->
    halts (Parser.parseBinaryExpr Precedence fuel lhs minPrec p)
      (pred (remaining p)).

Definition expr_halts : Prop :=
  forall lhs p,
    within Precedence (levels Precedence + 6) p fuel ->
    halts (Parser.parseExpr Precedence fuel lhs p) (pred (remaining p)).

Definition loop_halts : Prop :=
  forall args p,
    within Precedence (levels Precedence + 7) p fuel ->
    halts (Parser.parseArgs_loop Precedence fuel args p) (remaining p).

Definition all_halt : Prop :=
  operand_halts /\ args_halts /\ primary_halts /\ unary_halts /\ run_halts
  /\ levels_halts /\ binary_halts /\ expr_halts /\ loop_halts.

End Halting.

(** The parser after [ParseExpr] has loaded the first token. *)
Definition loaded (src : Scanner.Source) : Parser.parser :=
  Parser.mkParser (Scanner.mkT (Scanner.scan src) (Scanner.size src)) [].

End Measure.

(* ------------------------------------------------------------------ *)
(** ** Invariants of the parser and of the trees it builds *)

Module Inv.

Import expr.

(** [p'] is a state the parser can be in after [p]: the scanner has only
    moved forward over the same items, and the errors of [p] are still
    there, in place, before the new ones. *)
Definition follows (p p' : Parser.parser) : Prop :=
  (exists k, Scanner.items (Parser.s p') = List.skipn k (Scanner.items (Parser.s p)))
  /\ Scanner.eofOffset (Parser.s p') = Scanner.eofOffset (Parser.s p)
  /\ (exists new, Parser.err p' = (Parser.err p ++ new)%list).

(** Whenever [m] returns, the state it leaves is related by [R] to the
    state it was called on. *)
Definition keeps {A} (R : Parser.parser -> Parser.parser -> Prop)
    (m : Parser.M A) : Prop :=
  forall p a p', m p = Parser.Done a p' -> R p p'.

(** The items that are left once the comments at the front are dropped. *)
Fixpoint skip_comments (l : list Scanner.Item) : list Scanner.Item :=
  match l with
  | [] => []
  | i :: rest =>
      if token.eqb (Scanner.iToken i) token.Comment then skip_comments rest
      else l
  end.

Definition is_binary (e : Expr) : bool :=
  match e with
  | Binary _ _ _ => true
  | _ => false
  end.

(** What [parseOperand] returns: an identifier, a literal, a parenthesized
    expression or a [Bad] node. *)
Definition is_operand (e : Expr) : bool :=
  match e with
  | Ident _ | BasicLiteral _ | Bad _ => true
  | Unary op _ => token.eqb op token.LeftParen
  | _ => false
  end.

(** A [Binary] node at the root of [e] has an operator of level [m] at
    least. *)
Definition at_least (Precedence : token.Token -> Z) (m : Z) (e : Expr) : bool :=
  match e with
  | Binary op _ _ => m <=? Precedence op
  | _ => true
  end.

(** Every [Binary] node of [e] respects the operator table: a [Binary]
    node as its left operand has an operator of the same level or above, a
    [Binary] node as its right operand an operator of a strictly higher
    level. *)
Fixpoint ordered (Precedence : token.Token -> Z) (e : Expr) : bool :=
  match e with
  | Binary op l r =>
      at_least Precedence (Precedence op) l
      && at_least Precedence (Precedence op + 1) r
      && ordered Precedence l && ordered Precedence r
  | Unary _ x => ordered Precedence x
  | Selector l _ => ordered Precedence l
  | Call f args => ordered Precedence f && List.forallb (ordered Precedence) args
  | CompLiteral _ _ els => List.forallb (ordered Precedence) els
  | TableLiteral _ cols rows =>
      List.forallb (ordered Precedence) cols
      && List.forallb (List.forallb (ordered Precedence)) rows
  | TableIndex x _ c r =>
      ordered Precedence x
      && (ordered Precedence (Start c) && ordered Precedence (End_ c)
          && ordered Precedence (Exact c))
      && (ordered Precedence (Start r) && ordered Precedence (End_ r)
          && ordered Precedence (Exact r))
  | Nil | NilPtr _ | Bad _ | BasicLiteral _ | Ident _
  | FuncLiteral _ _ _ _ _ _ _ => true
  end.

(** The trees of the parser's grammar: [Binary], [Unary], [Bad],
    [BasicLiteral], [Ident] and [Call] nodes only, no nil anywhere; the
    operand of a prefix operator is not a [Binary] node, a [Unary] node with
    another operator is a parenthesized expression, and the function of a
    call is an operand. *)
Fixpoint shaped (e : Expr) : bool :=
  match e with
  | Binary _ l r => shaped l && shaped r
  | Unary op x =>
      shaped x
      && (if Sample.is_prefix op then negb (is_binary x)
          else token.eqb op token.LeftParen)
  | Bad _ | BasicLiteral _ | Ident _ => true
  | Call f args => is_operand f && shaped f && List.forallb shaped args
  | _ => false
  end.

(** An item the parser has a rule for: not one of the suffixes it panics
    on, and an identifier carries its name as a string. *)
Definition supported (i : Scanner.Item) : bool :=
  match Scanner.iToken i with
  | token.Period | token.LeftBracket | token.LeftBrace => false
  | token.Identifier =>
      match Scanner.iLiteral i with
      | LitString _ => true
      | _ => false
      end
  | _ => true
  end.

(** The result of a call that did not panic and, if it returned, left
    supported items only. *)
Definition safe {A} (r : Parser.result A) : Prop :=
  match r with
  | Parser.Done _ q => List.forallb supported (Scanner.items (Parser.s q)) = true
  | Parser.Panic _ => False
  | Parser.OutOfFuel => True
  end.

(** Whenever [m] panics, the message is one of [msgs]. *)
Definition raises {A} (msgs : list string) (m : Parser.M A) : Prop :=
  forall p msg, m p = Parser.Panic msg -> List.In msg msgs.

(** The messages the parser panics with. *)
Definition panics : list string :=
  [ "TODO parse selector"; "TODO parse type assertion";
    "TODO expect selector type assertion"; "TODO array index";
    "TODO could be composite literal";
    "interface conversion: interface is not string" ].

(** The offsets of the items do not decrease and do not exceed [eo]. *)
Fixpoint in_order (l : list Scanner.Item) (eo : Z) : Prop :=
  match l with
  | [] => True
  | i :: rest =>
      Scanner.iOffset i <= Scanner.Offset (Scanner.mkT rest eo)
      /\ in_order rest eo
  end.

(** The offsets of the errors do not decrease. *)
Fixpoint sorted (es : list Error) : Prop :=
  match es with
  | [] => True
  | e :: rest =>
      match rest with
      | [] => True
      | e' :: _ => Offset e <= Offset e'
      end /\ sorted rest
  end.

(** The scanner of [p] has its items in order; [p'] follows it with errors
    added that lie, in order, between the offsets of the two states. *)
Definition advances (p p' : Parser.parser) : Prop :=
  in_order (Scanner.items (Parser.s p)) (Scanner.eofOffset (Parser.s p)) ->
  in_order (Scanner.items (Parser.s p')) (Scanner.eofOffset (Parser.s p'))
  /\ Scanner.Offset (Parser.s p) <= Scanner.Offset (Parser.s p')
  /\ exists new,
       Parser.err p' = (Parser.err p ++ new)%list
       /\ sorted new
       /\ List.Forall
            (fun e => Scanner.Offset (Parser.s p) <= Offset e
                      <= Scanner.Offset (Parser.s p')) new.

(** The tree of a run of prefix operators cut short by the end of the
    input: the last operator is replaced by a [Bad] node with [io.EOF]. *)
Fixpoint dangling (ops : list token.Token) : Expr :=
  match ops with
  | [] => Bad (Some io_EOF)
  | [_] => Bad (Some io_EOF)
  | op :: rest => Unary op (dangling rest)
  end.

(** The prefix operators after which [parseUnaryExpr] looks at the
    scanner's error. *)
Definition is_sign (t : token.Token) : bool :=
  match t with
  | token.Add | token.Sub | token.Not => true
  | _ => false
  end.

(** One of these operators, scanned without error. *)
Definition sign_item (i : Scanner.Item) : bool :=
  is_sign (Scanner.iToken i)
  && match Scanner.iErr i with None => true | Some _ => false end.

(** The parser errors that the [Bad] nodes of [e] hold. *)
Fixpoint bad_errors (e : Expr) : list Error :=
  match e with
  | Bad (Some (ParserError err)) => [err]
  | Binary _ l r => bad_errors l ++ bad_errors r
  | Unary _ x => bad_errors x
  | Selector l _ => bad_errors l
  | Call f args => bad_errors f ++ List.flat_map bad_errors args
  | CompLiteral _ _ els => List.flat_map bad_errors els
  | TableLiteral _ cols rows =>
      List.flat_map bad_errors cols ++ List.flat_map (List.flat_map bad_errors) rows
  | TableIndex x _ c r =>
      bad_errors x
      ++ (bad_errors (Start c) ++ bad_errors (End_ c) ++ bad_errors (Exact c))
      ++ (bad_errors (Start r) ++ bad_errors (End_ r) ++ bad_errors (Exact r))
  | _ => []
  end%list.

(** The errors [es] say "expected operand" and are recorded in [q]. *)
Definition reported (es : list Error) (q : Parser.parser) : Prop :=
  List.Forall (fun err => Msg err = "expected operand"%string
                          /\ List.In err (Parser.err q)) es.

(** Every [Binary] node of [e] has an operator to which the table gives a
    level of 1 at least. *)
Fixpoint operators (Precedence : token.Token -> Z) (e : Expr) : bool :=
  match e with
  | Binary op l r =>
      (1 <=? Precedence op) && operators Precedence l && operators Precedence r
  | Unary _ x => operators Precedence x
  | Selector l _ => operators Precedence l
  | Call f args => operators Precedence f && List.forallb (operators Precedence) args
  | CompLiteral _ _ els => List.forallb (operators Precedence) els
  | TableLiteral _ cols rows =>
      List.forallb (operators Precedence) cols
      && List.forallb (List.forallb (operators Precedence)) rows
  | TableIndex x _ c r =>
      operators Precedence x
      && (operators Precedence (Start c) && operators Precedence (End_ c)
          && operators Precedence (Exact c))
      && (operators Precedence (Start r) && operators Precedence (End_ r)
          && operators Precedence (Exact r))
  | Nil | NilPtr _ | Bad _ | BasicLiteral _ | Ident _
  | FuncLiteral _ _ _ _ _ _ _ => true
  end.

Definition not_comment (i : Scanner.Item) : bool :=
  negb (token.eqb (Scanner.iToken i) token.Comment).

(** The parser [p] on a scanner that reports no comments. *)
Definition strip (p : Parser.parser) : Parser.parser :=
  Parser.mkParser
    (Scanner.mkT (List.filter not_comment (Scanner.items (Parser.s p)))
       (Scanner.eofOffset (Parser.s p)))
    (Parser.err p).

(** The current token is not a comment. *)
Definition clean (p : Parser.parser) : Prop :=
  Scanner.Token (Parser.s p) <> token.Comment.

(** Called off a comment, [m] returns on the scanner without comments what
    it returns on the scanner with them, and does not stop on a comment. *)
Definition commentless {A} (m : Parser.M A) : Prop :=
  forall p a q,
    clean p -> m p = Parser.Done a q ->
    m (strip p) = Parser.Done a (strip q) /\ clean q.

(** The source as a scanner that reports no comments hands it over. *)
Definition without_comments (src : Scanner.Source) : Scanner.Source :=
  Scanner.mkSource (List.filter not_comment (Scanner.scan src)) (Scanner.size src).

(** The messages of the errors the parser records: the one of
    [parseOperand], the one of [expect] for a closing parenthesis, and the
    one of [expectCommaOr] in an argument list. *)
Definition known_message (msg : string) : Prop :=
  msg = "expected operand"%string
  \/ (exists got,
        msg = ("expected " ++ fmt.quoted (token.Token_String token.RightParen)
                 ++ ", found " ++ fmt.quoted (token.Token_String got))%string)
  \/ (exists got,
        msg = ("missing ',' in arguments (got " ++ token.Token_String got ++ ")")%string).

Definition known_error (err : Error) : Prop := known_message (Msg err).

(** The leaves of [e] come from the items [l]: a [BasicLiteral] holds the
    literal of a literal token, an [Ident] the name of an identifier
    token. *)
Fixpoint sourced (l : list Scanner.Item) (e : Expr) : Prop :=
  match e with
  | BasicLiteral v =>
      exists i, List.In i l /\ Sample.is_literal (Scanner.iToken i) = true
                /\ Scanner.iLiteral i = v
  | Ident name =>
      exists i, List.In i l /\ Scanner.iToken i = token.Identifier
                /\ Scanner.iLiteral i = LitString name
  | Binary _ a b => sourced l a /\ sourced l b
  | Unary _ x => sourced l x
  | Call f args => sourced l f /\ List.fold_right (fun a P => sourced l a /\ P) True args
  | _ => True
  end.

Definition all_sourced (l : list Scanner.Item) (args : list Expr) : Prop :=
  List.fold_right (fun a P => sourced l a /\ P) True args.

(** The state [next] leaves: the current token and the comments after it
    are consumed. *)
Definition after_next (p : Parser.parser) : Parser.parser :=
  Parser.mkParser
    (Scanner.mkT (skip_comments (List.tl (Scanner.items (Parser.s p))))
       (Scanner.eofOffset (Parser.s p)))
    (Parser.err p).

(** The state [error] leaves when it records [e]. *)
Definition recorded (e : Error) (p : Parser.parser) : Parser.parser :=
  Parser.mkParser (Parser.s p) (Parser.err p ++ [e]).

(** The state [expect t] leaves: the token is not consumed, and an error
    is recorded, at its offset, when it is not [t]. *)
Definition required (t : token.Token) (p : Parser.parser) : Parser.parser :=
  if token.eqb t (Scanner.Token (Parser.s p)) then p
  else recorded (Sample.expected_found (Scanner.Offset (Parser.s p)) t
                   (Scanner.Token (Parser.s p))) p.

(** [parseUnaryExpr] called on [p] returns the operand [x] and leaves [q]. *)
Definition operand_at (Precedence : token.Token -> Z) (p : Parser.parser)
    (x : Expr) (q : Parser.parser) : Prop :=
  exists fuel lhs, Parser.parseUnaryExpr Precedence fuel lhs p = Parser.Done x q.

(** [parseExpr] called on [p] returns the tree [e] and leaves [q]. *)
Definition expr_at (Precedence : token.Token -> Z) (p : Parser.parser)
    (e : Expr) (q : Parser.parser) : Prop :=
  exists fuel lhs, Parser.parseExpr Precedence fuel lhs p = Parser.Done e q.

(** From [p] on, the text is read as operators with an operand each: the
    current token is taken as the operator, [next] is called, and
    [parseUnaryExpr] returns the operand; the same again from the state the
    operand leaves, up to [q]. *)
Inductive reads (Precedence : token.Token -> Z) :
    Parser.parser -> list (token.Token * Expr) -> Parser.parser -> Prop :=
  | reads_nil p : reads Precedence p [] p
  | reads_cons p p1 q x rest :
      operand_at Precedence (after_next p) x p1 ->
      reads Precedence p1 rest q ->
      reads Precedence p ((Scanner.Token (Parser.s p), x) :: rest) q.

(** Every operator of [rest] has level [m] at least. *)
Definition level_from (Precedence : token.Token -> Z) (m : Z)
    (rest : list (token.Token * Expr)) : Prop :=
  List.Forall (fun oy => m <= Precedence (fst oy)) rest.

(** From [p] on, the text is read as the arguments [args] of a call, up
    to the state [q] in which the closing parenthesis is looked for: no
    argument at a closing parenthesis or when the scanner has no rune left;
    otherwise an expression, which is the last one when a closing
    parenthesis follows it; after a comma, or after the missing-comma error
    is recorded at any other token, [next] is called and the arguments go
    on. *)
Inductive listed (Precedence : token.Token -> Z) :
    Parser.parser -> list Expr -> Parser.parser -> Prop :=
  | listed_end p :
      Scanner.Token (Parser.s p) = token.RightParen
      \/ Scanner.r (Parser.s p) <= 0 ->
      listed Precedence p [] p
  | listed_last p e p1 :
      Scanner.Token (Parser.s p) <> token.RightParen ->
      0 < Scanner.r (Parser.s p) ->
      expr_at Precedence p e p1 ->
      Scanner.Token (Parser.s p1) = token.RightParen ->
      listed Precedence p [e] p1
  | listed_comma p e p1 rest q :
      Scanner.Token (Parser.s p) <> token.RightParen ->
      0 < Scanner.r (Parser.s p) ->
      expr_at Precedence p e p1 ->
      Scanner.Token (Parser.s p1) = token.Comma ->
      listed Precedence (after_next p1) rest q ->
      listed Precedence p (e :: rest) q
  | listed_missing_comma p e p1 rest q :
      Scanner.Token (Parser.s p) <> token.RightParen ->
      0 < Scanner.r (Parser.s p) ->
      expr_at Precedence p e p1 ->
      Scanner.Token (Parser.s p1) <> token.Comma ->
      Scanner.Token (Parser.s p1) <> token.RightParen ->
      listed Precedence
        (after_next
           (recorded (Sample.missing_comma (Scanner.Offset (Parser.s p1))
                        (Scanner.Token (Parser.s p1))) p1)) rest q ->
      listed Precedence p (e :: rest) q.

(** The rune the scanner looks at when the first of the items [l] is the
    current token. *)
Definition first_r (l : list Scanner.Item) : Z := Scanner.r (Scanner.mkT l 0).

(** The scanner's error when the first of the items [l] is the current
    token. *)
Definition first_err (l : list Scanner.Item) : option error :=
  Scanner.err (Scanner.mkT l 0).

(** The items an operand of the grammar begins with. *)
Definition begins (l : list Scanner.Item) : Prop :=
  exists i rest,
    l = i :: rest
    /\ (Sample.is_leaf i = true \/ Sample.is_prefix (Scanner.iToken i) = true).

End Inv.

(* ------------------------------------------------------------------ *)
(** ** The grammar and its trees, as the spec describes them *)

Module Spec.

Import expr.

(** In the spec's words: precedence climbing.  The operator [op] and the
    operand [y] on its right are added to the tree [t] of what was read
    before.  An operator of a strictly higher level than the root of [t]
    binds tighter and goes to the right operand of the root; any other
    takes the whole of [t] as its left operand, so that operators of one
    level nest to the left. *)
Fixpoint attach (Precedence : token.Token -> Z) (t : Expr) (op : token.Token)
    (y : Expr) : Expr :=
  match t with
  | Binary o l r =>
      if Precedence o <? Precedence op
      then Binary o l (attach Precedence r op y)
      else Binary op t y
  | _ => Binary op t y
  end.

(** In the spec's words: the tree of a first operand and of the operators
    that follow it, each with the operand on its right, in the order of the
    text. *)
Definition tree_of (Precedence : token.Token -> Z) (x0 : Expr)
    (rest : list (token.Token * Expr)) : Expr :=
  List.fold_left (fun t oy => attach Precedence t (fst oy) (snd oy)) rest x0.

(** In the spec's words: the texts of the grammar, with the trees they
    stand for.  An operand is a literal or an identifier, a prefix operator
    before an operand, or a call: a literal or an identifier, an opening
    parenthesis, the arguments and a closing parenthesis.  An expression is
    an operand and then binary operators of any levels, each with an
    operand on its right; its tree is built by precedence climbing.  The
    arguments are expressions separated by commas; the first token of an
    argument is not the last token of the text (the scanner has a rune
    left).  Parenthesized operands, comments and tokens the parser has no
    rule for are not part of it. *)
Inductive operand_text (Precedence : token.Token -> Z) :
    list Scanner.Item -> Expr -> Prop :=
  | text_leaf i :
      Sample.is_leaf i = true ->
      operand_text Precedence [i] (Sample.leaf_of i)
  | text_sign s seg x :
      Inv.is_sign (Scanner.iToken s) = true ->
      Inv.first_err seg = None ->
      operand_text Precedence seg x ->
      operand_text Precedence (s :: seg) (Unary (Scanner.iToken s) x)
  | text_deref s seg x :
      Scanner.iToken s = token.Mul ->
      operand_text Precedence seg x ->
      operand_text Precedence (s :: seg) (Unary token.Mul x)
  | text_call f lparen args rparen es :
      Sample.is_leaf f = true ->
      Scanner.iToken lparen = token.LeftParen ->
      arguments_text Precedence args es ->
      Scanner.iToken rparen = token.RightParen ->
      operand_text Precedence (f :: lparen :: args ++ [rparen])
        (Call (Sample.leaf_of f) es)

with expr_text (Precedence : token.Token -> Z) :
    list Scanner.Item -> Expr -> Prop :=
  | text_expr seg x items rest :
      operand_text Precedence seg x ->
      chain_text Precedence items rest ->
      expr_text Precedence (seg ++ items) (tree_of Precedence x rest)

with chain_text (Precedence : token.Token -> Z) :
    list Scanner.Item -> list (token.Token * Expr) -> Prop :=
  | text_chain_nil : chain_text Precedence [] []
  | text_chain_cons o seg x items rest :
      1 <= Precedence (Scanner.iToken o) ->
      operand_text Precedence seg x ->
      chain_text Precedence items rest ->
      chain_text Precedence (o :: seg ++ items) ((Scanner.iToken o, x) :: rest)

with arguments_text (Precedence : token.Token -> Z) :
    list Scanner.Item -> list Expr -> Prop :=
  | text_args_nil : arguments_text Precedence [] []
  | text_args_last items e :
      expr_text Precedence items e ->
      0 < Inv.first_r items ->
      arguments_text Precedence items [e]
  | text_args_cons items e comma rest es :
      expr_text Precedence items e ->
      0 < Inv.first_r items ->
      Scanner.iToken comma = token.Comma ->
      es <> [] ->
      arguments_text Precedence rest es ->
      arguments_text Precedence (items ++ comma :: rest) (e :: es).

Scheme operand_text_mut := Minimality for operand_text Sort Prop
  with expr_text_mut := Minimality for expr_text Sort Prop
  with chain_text_mut := Minimality for chain_text Sort Prop
  with arguments_text_mut := Minimality for arguments_text Sort Prop.

Combined Scheme text_mutind
  from operand_text_mut, expr_text_mut, chain_text_mut, arguments_text_mut.

End Spec.

(* ------------------------------------------------------------------ *)
(** ** Properties of the scanner interface and of [next] *)

Import expr.

Local Open Scope list_scope.

Local Abbreviation loaded := Measure.loaded.

Lemma token_eqb_true (a b : token.Token) : token.eqb a b = true <-> a = b.
Proof.
  unfold token.eqb. destruct (token.eq_dec a b); split; congruence.
Qed.

Lemma token_eqb_false (a b : token.Token) : token.eqb a b = false <-> a <> b.
Proof.
  unfold token.eqb. destruct (token.eq_dec a b); split; congruence.
Qed.

Lemma token_eqb_refl (a : token.Token) : token.eqb a a = true.
Proof. apply token_eqb_true. reflexivity. Qed.

(** One call of [p.s.Next()] drops the current token and leaves the error
    list alone. *)
Lemma s_Next_spec (p : Parser.parser) :
  Parser.s_Next p
  = Parser.Done (Scanner.err (Scanner.mkT (tl (Scanner.items (Parser.s p)))
                                (Scanner.eofOffset (Parser.s p))))
      (Parser.mkParser (Scanner.mkT (tl (Scanner.items (Parser.s p)))
                          (Scanner.eofOffset (Parser.s p)))
         (Parser.err p)).
Proof. reflexivity. Qed.

(** [next] never stops on a comment, does not touch the error list, and
    leaves a suffix of the tokens it started from. *)
Lemma next_Done (fuel : nat) :
  forall p u p',
    Parser.next fuel p = Parser.Done u p' ->
    Scanner.Token (Parser.s p') <> token.Comment
    /\ Parser.err p' = Parser.err p
    /\ Scanner.eofOffset (Parser.s p') = Scanner.eofOffset (Parser.s p)
    /\ (Measure.remaining p' <= pred (Measure.remaining p))%nat.
Proof.
  induction fuel as [|fuel IH]; intros p u p' H; [discriminate|].
  cbn [Parser.next] in H. unfold Parser.bind in H.
  rewrite s_Next_spec in H. unfold Parser.Token in H.
  set (q := Parser.mkParser _ _) in H.
  destruct (token.eqb (Scanner.Token (Parser.s q)) token.Comment) eqn:E.
  - apply IH in H. destruct H as (Ht & He & Ho & Hr).
    repeat split; try assumption.
    unfold Measure.remaining, Scanner.remaining in *. subst q. cbn in *.
    destruct (Scanner.items (Parser.s p)); cbn in *; lia.
  - inversion H; subst u p'. repeat split.
    + apply token_eqb_false. exact E.
    + unfold Measure.remaining, Scanner.remaining. subst q. cbn.
      destruct (Scanner.items (Parser.s p)); cbn; lia.
Qed.

(** [next] returns as soon as the fuel exceeds the number of remaining
    tokens. *)
Lemma next_halts (fuel : nat) :
  forall p, (Measure.remaining p < fuel)%nat ->
    exists p', Parser.next fuel p = Parser.Done tt p'.
Proof.
  induction fuel as [|fuel IH]; intros p H; [lia|].
  cbn [Parser.next]. unfold Parser.bind.
  rewrite s_Next_spec. unfold Parser.Token.
  set (q := Parser.mkParser _ _).
  destruct (token.eqb (Scanner.Token (Parser.s q)) token.Comment) eqn:E.
  - apply IH. apply token_eqb_true in E.
    unfold Measure.remaining, Scanner.remaining in *. subst q. cbn in *.
    unfold Scanner.Token in E. cbn in E.
    destruct (Scanner.items (Parser.s p)) as [|i [|j l]]; cbn in *;
      try discriminate; lia.
  - eexists. reflexivity.
Qed.

(** [error] appends one [Error] that carries the offset of the current
    token, and returns it. *)
Lemma error_spec (msg : string) (p : Parser.parser) :
  Parser.error_ msg p
  = Parser.Done (ParserError (mkError (Scanner.Offset (Parser.s p)) msg))
      (Parser.mkParser (Parser.s p)
         (Parser.err p ++ [mkError (Scanner.Offset (Parser.s p)) msg])).
Proof. reflexivity. Qed.

(* ------------------------------------------------------------------ *)
(** ** The entry point on an empty source *)

(** C3: on an empty input [ParseExpr] returns the nil tree together with
    [io.ErrUnexpectedEOF], whatever the operator table and the fuel; it does
    not panic.  The error is not [io.EOF], the condition of a scanner that
    runs dry later: a source that holds one literal parses to that literal
    with no error although the scanner ends on [io.EOF]. *)
Theorem ParseExpr_empty_input :
  forall (Precedence : token.Token -> Z) (fuel : nat) (size : Z),
    Parser.ParseExpr Precedence fuel (Scanner.mkSource [] size)
    = Parser.Done (Nil, Some io_ErrUnexpectedEOF) (Sample.exhausted size [])
    /\ Lex.source "" = Scanner.mkSource [] 0
    /\ io_ErrUnexpectedEOF <> io_EOF
    /\ Parser.ParseExpr token.Precedence (6 + fuel) (Lex.source "1")
       = Parser.Done (Sample.int 1, None) (Sample.exhausted 1 [])
    /\ Scanner.err (Parser.s (Sample.exhausted 1 [])) = Some io_EOF.
Proof.
  intros Precedence fuel size.
  split; [reflexivity|].
  split; [reflexivity|].
  split; [discriminate|].
  split; reflexivity.
Qed.

(* ------------------------------------------------------------------ *)
(** ** Rendering of nil values *)

(** The nil interface and the nil receivers that are tested for. *)
Lemma exprSexp_nil_guarded :
  exprSexp Nil = Some "nilexpr"
  /\ exprSexp (NilPtr KBinary) = Some "nilbin"
  /\ exprSexp (NilPtr KUnary) = Some "nilunary"
  /\ exprSexp (NilPtr KSelector) = Some "nilsel"
  /\ exprSexp (NilPtr KBasicLiteral) = Some "nillit"
  /\ exprSexp (NilPtr KIdent) = Some "nilident"
  /\ exprSexp (NilPtr KCall) = Some "nilcall".
Proof. repeat split; reflexivity. Qed.

Lemma exprsStr_total (es : list Expr) :
  Forall (fun e => exists s, exprSexp e = Some s) es ->
  exists s, exprsStr exprSexp es = Some s.
Proof.
  induction 1 as [|e es [s He] _ [t Ht]]; [eexists; reflexivity|].
  cbn [exprsStr]. rewrite He. cbn [bindS].
  destruct es; [eexists; reflexivity|]. rewrite Ht. eexists. reflexivity.
Qed.

Lemma TableLiteral_rows_total (Rows : list (list Expr)) :
  Forall (Forall (fun e => exists s, exprSexp e = Some s)) Rows ->
  forall rows, exists s, TableLiteral_rows exprSexp rows Rows = Some s.
Proof.
  induction 1 as [|row Rows Hrow _ IH]; intros rows; [eexists; reflexivity|].
  cbn [TableLiteral_rows]. destruct (exprsStr_total row Hrow) as [r ->].
  cbn [bindS]. apply IH.
Qed.

Lemma rangeSexp_total (r : Range Expr) :
  (exists s, exprSexp (Start r) = Some s) ->
  (exists s, exprSexp (End_ r) = Some s) ->
  (exists s, exprSexp (Exact r) = Some s) ->
  exists s, rangeSexp exprSexp r = Some s.
Proof.
  intros [a Ha] [b Hb] [c Hc]. unfold rangeSexp. rewrite Ha, Hb, Hc.
  destruct (isNil (Start r)), (isNil (End_ r)), (isNil (Exact r));
    cbn; eexists; reflexivity.
Qed.

(** The serializer gives a string for every tree, with nil interfaces at
    any position, that holds no nil pointer to a [Bad], [FuncLiteral],
    [CompLiteral], [TableLiteral] or [TableIndex]. *)
Lemma exprSexp_total :
  forall e : Expr, guarded e = true -> exists s, exprSexp e = Some s.
Proof.
  fix IH 1. intros e.
  assert (IHs : forall es, forallb guarded es = true ->
                           Forall (fun e => exists s, exprSexp e = Some s) es).
  { induction es as [|a es IHes]; intros H; [constructor|].
    cbn in H. apply andb_true_iff in H. destruct H as [Ha Hes].
    constructor; [apply IH; exact Ha | apply IHes; exact Hes]. }
  destruct e as [ |k|Op l r|Op x|err|l right|v|n rn ptr ty pn rns b
                 |ty names els|ty cols rows|name|f args|x names c r];
    cbn [guarded]; intros H.
  - eexists; reflexivity.
  - destruct k; cbn in H |- *; try discriminate; eexists; reflexivity.
  - apply andb_true_iff in H. destruct H as [Hl Hr].
    destruct (IH l Hl) as [a Ha], (IH r Hr) as [b Hb].
    cbn [exprSexp]. unfold Binary_Sexp. rewrite Ha, Hb. eexists; reflexivity.
  - destruct (IH x H) as [a Ha].
    cbn [exprSexp]. unfold Unary_Sexp. rewrite Ha. eexists; reflexivity.
  - eexists; reflexivity.
  - destruct (IH l H) as [a Ha].
    cbn [exprSexp]. unfold Selector_Sexp. rewrite Ha.
    destruct right; eexists; reflexivity.
  - eexists; reflexivity.
  - cbn [exprSexp]. unfold FuncLiteral_Sexp.
    destruct (negb (String.eqb rn "")); eexists; reflexivity.
  - destruct (exprsStr_total els (IHs els H)) as [a Ha].
    cbn [exprSexp]. unfold CompLiteral_Sexp. rewrite Ha. eexists; reflexivity.
  - apply andb_true_iff in H. destruct H as [Hc Hr].
    assert (Hrows : Forall (Forall (fun e => exists s, exprSexp e = Some s)) rows).
    { clear Hc. induction rows as [|row rows IHrows]; [constructor|].
      cbn in Hr. apply andb_true_iff in Hr. destruct Hr as [Hrow Hr].
      constructor; [apply IHs; exact Hrow | apply IHrows; exact Hr]. }
    destruct (TableLiteral_rows_total rows Hrows "") as [a Ha].
    destruct (exprsStr_total cols (IHs cols Hc)) as [b Hb].
    cbn [exprSexp]. unfold TableLiteral_Sexp. rewrite Ha, Hb.
    eexists; reflexivity.
  - eexists; reflexivity.
  - apply andb_true_iff in H. destruct H as [Hf Ha].
    destruct (IH f Hf) as [a Hfa].
    destruct (exprsStr_total args (IHs args Ha)) as [b Hb].
    cbn [exprSexp]. unfold Call_Sexp. rewrite Hfa, Hb. eexists; reflexivity.
  - destruct c as [cs ce cx], r as [rs re rx]. cbn [Start End_ Exact] in *.
    repeat rewrite andb_true_iff in H.
    destruct H as [[Hx [[Hcs Hce] Hcx]] [[Hrs Hre] Hrx]].
    pose proof (IH x Hx) as H.
    destruct H as [a Ha].
    destruct (rangeSexp_total (mkRange cs ce cx)) as [b Hb];
      [apply IH; assumption ..|].
    destruct (rangeSexp_total (mkRange rs re rx)) as [d Hd];
      [apply IH; assumption ..|].
    cbn [exprSexp]. unfold TableIndex_Sexp. rewrite Ha, Hb, Hd.
    eexists; reflexivity.
Qed.

(** C4: the rendering of a nil [*Bad], [*FuncLiteral], [*CompLiteral],
    [*TableLiteral] or [*TableIndex] panics instead of giving a sentinel, and
    so does the rendering of a tree that holds such a pointer; the six other
    methods return their sentinel. *)
Theorem Sexp_nil_receiver_unguarded :
  exprSexp (NilPtr KBad) = None
  /\ exprSexp (NilPtr KFuncLiteral) = None
  /\ exprSexp (NilPtr KCompLiteral) = None
  /\ exprSexp (NilPtr KTableLiteral) = None
  /\ exprSexp (NilPtr KTableIndex) = None
  /\ exprSexp (Unary token.Not (NilPtr KBad)) = None
  /\ exprSexp (Call (Ident "f") [Nil; NilPtr KBad]) = None
  /\ exprSexp (Unary token.Not (NilPtr KBinary)) = Some "(Not nilbin)"
  /\ exprSexp (Call (Ident "f") [Nil; NilPtr KCall]) = Some "(call f nilexpr nilcall)".
Proof. repeat split; reflexivity. Qed.

(* ------------------------------------------------------------------ *)
(** ** Comments *)

(** C6: the first token is loaded with the scanner's own [Next], which does
    not skip comments: on a source that starts with a comment
    [parseOperand] sees the [Comment] token, records "expected operand" and
    returns a [Bad] node, and the literal after the comment is left
    unparsed.  Comments further on are skipped by [next]: in
    [1 + /*a*/ /*b*/ /*c*/ 2] they leave no trace. *)
Theorem ParseExpr_leading_comment :
  forall fuel : nat,
    Parser.ParseExpr token.Precedence (6 + fuel) Sample.comment_then_one
    = Parser.Done
        (Bad (Some (ParserError (Sample.expected_operand 8))),
         Some (ParserErrors [Sample.expected_operand 8]))
        (Parser.mkParser
           (Scanner.mkT [Scanner.mkItem token.Int (LitInt 1) 8 (-1) None] 9)
           [Sample.expected_operand 8])
    /\ Parser.ParseExpr token.Precedence (13 + fuel) Sample.commented
       = Parser.Done (Sample.add_1_2, None) (Sample.exhausted 23 []).
Proof.
  intros fuel. split; reflexivity.
Qed.

(* ------------------------------------------------------------------ *)
(** ** Lexer errors after a unary operator *)

(** After [+], [-] or [!] a scanner error makes [parseUnaryExpr] return a
    [Bad] node with that error, without parsing an operand. *)
Lemma parseUnaryExpr_scanner_error (Precedence : token.Token -> Z) :
  forall fuel lhs p p' e,
    Scanner.Token (Parser.s p) = token.Add
    \/ Scanner.Token (Parser.s p) = token.Sub
    \/ Scanner.Token (Parser.s p) = token.Not ->
    Parser.next fuel p = Parser.Done tt p' ->
    Scanner.err (Parser.s p') = Some e ->
    Parser.parseUnaryExpr Precedence (S fuel) lhs p
    = Parser.Done (Bad (Some e)) p'.
Proof.
  intros fuel lhs p p' e Hop Hnext Herr.
  cbn [Parser.parseUnaryExpr]. unfold Parser.bind at 1. unfold Parser.Token at 1.
  destruct Hop as [H | [H | H]]; rewrite H;
    unfold Parser.bind; rewrite Hnext; unfold Parser.s_err;
    rewrite Herr; reflexivity.
Qed.

(** After [*] the operand is parsed whatever the scanner's error is. *)
Lemma parseUnaryExpr_Mul (Precedence : token.Token -> Z) :
  forall fuel lhs p p',
    Scanner.Token (Parser.s p) = token.Mul ->
    Parser.next fuel p = Parser.Done tt p' ->
    Parser.parseUnaryExpr Precedence (S fuel) lhs p
    = Parser.bind (Parser.parseUnaryExpr Precedence fuel false)
        (fun x => Parser.ret (Unary token.Mul x)) p'.
Proof.
  intros fuel lhs p p' Hop Hnext.
  cbn [Parser.parseUnaryExpr]. unfold Parser.bind at 1, Parser.Token at 1.
  rewrite Hop. unfold Parser.bind at 1. rewrite Hnext. reflexivity.
Qed.

(** C7: after the prefix operator [*] the scanner's error is not looked at.
    On the source [*#], where the scanner reports an error for [#], and on
    the source [*], where it reports [io.EOF], the parser goes on into the
    operand and returns a [Unary] node around a "expected operand" [Bad]
    node; after [-] the same sources give the [Bad] node that carries the
    scanner's error. *)
Theorem parseUnaryExpr_Mul_ignores_scanner_error :
  forall fuel : nat,
    Parser.ParseExpr token.Precedence (8 + fuel) (Lex.source "*#")
    = Parser.Done
        (Unary token.Mul (Bad (Some (ParserError (Sample.expected_operand 2)))),
         Some (ParserErrors [Sample.expected_operand 2]))
        (Sample.exhausted 2 [Sample.expected_operand 2])
    /\ Parser.ParseExpr token.Precedence (8 + fuel) (Lex.source "-#")
       = Parser.Done
           (Bad (Some (ScanError "unexpected character")),
            Some (ScanError "unexpected character"))
           (Parser.mkParser
              (Scanner.mkT
                 [Scanner.mkItem token.Unknown LitNil 1 (-1)
                    (Some "unexpected character")] 2) [])
    /\ Parser.ParseExpr token.Precedence (8 + fuel) (Lex.source "*")
       = Parser.Done
           (Unary token.Mul (Bad (Some (ParserError (Sample.expected_operand 1)))),
            Some (ParserErrors [Sample.expected_operand 1]))
           (Sample.exhausted 1 [Sample.expected_operand 1])
    /\ Parser.ParseExpr token.Precedence (8 + fuel) (Lex.source "-")
       = Parser.Done (Bad (Some io_EOF), None) (Sample.exhausted 1 []).
Proof.
  intros fuel. repeat split; reflexivity.
Qed.

(* ------------------------------------------------------------------ *)
(** ** Offsets of recorded errors *)

(** At a token that cannot begin an operand, [parseOperand] advances and
    then records "expected operand" with the offset of the token it has
    advanced to. *)
Lemma parseOperand_expected_operand (Precedence : token.Token -> Z) :
  forall fuel lhs p p',
    Scanner.Token (Parser.s p) <> token.Identifier ->
    Sample.is_literal (Scanner.Token (Parser.s p)) = false ->
    Scanner.Token (Parser.s p) <> token.LeftParen ->
    Parser.next fuel p = Parser.Done tt p' ->
    Parser.parseOperand Precedence (S fuel) lhs p
    = Parser.Done
        (Bad (Some (ParserError
                      (Sample.expected_operand (Scanner.Offset (Parser.s p'))))))
        (Parser.mkParser (Parser.s p')
           (Parser.err p'
            ++ [Sample.expected_operand (Scanner.Offset (Parser.s p'))])).
Proof.
  intros fuel lhs p p' Hid Hlit Hpar Hnext.
  cbn [Parser.parseOperand]. unfold Parser.bind at 1, Parser.Token at 1.
  destruct (Scanner.Token (Parser.s p)); try discriminate; try congruence;
    unfold Parser.bind; rewrite Hnext; reflexivity.
Qed.

(** C9: [parseOperand] advances before it records "expected operand", so
    the error carries the offset of the token after the offending one: on the
    source [) 1] the offending [)] is at offset 0 and the recorded offset
    is 2, the offset of the literal.  The other errors are recorded before
    the parser advances: on [f(1 2)] the missing comma is recorded at
    offset 4, where the literal found in its place starts. *)
Theorem expected_operand_offset_is_next_token :
  forall fuel : nat,
    Parser.ParseExpr token.Precedence (6 + fuel) (Lex.source ") 1")
    = Parser.Done
        (Bad (Some (ParserError (mkError 2 "expected operand"))),
         Some (ParserErrors [mkError 2 "expected operand"]))
        (Parser.mkParser
           (Scanner.mkT [Scanner.mkItem token.Int (LitInt 1) 2 (-1) None] 3)
           [mkError 2 "expected operand"])
    /\ Scanner.scan (Lex.source ") 1")
       = [ Scanner.mkItem token.RightParen LitNil 0 32 None;
           Scanner.mkItem token.Int (LitInt 1) 2 (-1) None ]
    /\ Parser.ParseExpr token.Precedence (13 + fuel) (Lex.source "f(1 2)")
       = Parser.Done
           (Call (Ident "f") [Sample.int 1],
            Some (ParserErrors [Sample.missing_comma 4 token.Int]))
           (Sample.exhausted 6 [Sample.missing_comma 4 token.Int])
    /\ Scanner.scan (Lex.source "f(1 2)")
       = [ Scanner.mkItem token.Identifier (LitString "f") 0 40 None;
           Scanner.mkItem token.LeftParen LitNil 1 49 None;
           Scanner.mkItem token.Int (LitInt 1) 2 32 None;
           Scanner.mkItem token.Int (LitInt 2) 4 41 None;
           Scanner.mkItem token.RightParen LitNil 5 (-1) None ].
Proof.
  intros fuel. split; [|split; [|split]]; reflexivity.
Qed.

(* ------------------------------------------------------------------ *)
(** ** The error value of the entry point *)

Section EntryPoint.

Variable Precedence : token.Token -> Z.

Lemma ParseExpr_loaded (fuel : nat) (src : Scanner.Source) :
  Scanner.err (Parser.s (loaded src)) = None ->
  Parser.ParseExpr Precedence fuel src
  = match Parser.parseExpr Precedence fuel false (loaded src) with
    | Parser.Done x p =>
        Parser.Done
          (x, match Parser.err p with
              | [] => if is_EOF (Scanner.err (Parser.s p)) then None
                      else Scanner.err (Parser.s p)
              | _ :: _ => Some (ParserErrors (Parser.err p))
              end) p
    | Parser.Panic msg => Parser.Panic msg
    | Parser.OutOfFuel => Parser.OutOfFuel
    end.
Proof.
  intros H. unfold Parser.ParseExpr, Parser.bind at 1.
  rewrite s_Next_spec. cbn [Parser.newParser Scanner.NewScanner Scanner.items
    Scanner.eofOffset Parser.s Parser.err tl].
  unfold loaded in *. cbn [Parser.s] in H. rewrite H.
  unfold Parser.bind.
  destruct (Parser.parseExpr Precedence fuel false _) as [x p| |]; try reflexivity.
  destruct (Parser.err p) as [|e es] eqn:Herr.
  - cbn. destruct (is_EOF (Scanner.err (Parser.s p))); reflexivity.
  - destruct (Z.of_nat (Datatypes.length (e :: es)) >? 0) eqn:E; [reflexivity|].
    rewrite Z.gtb_ltb in E. apply Z.ltb_ge in E. cbn [Datatypes.length] in E. lia.
Qed.

(** C5: once the first token is loaded and the expression is parsed, the
    parser's recorded errors, if there are any, are returned as one [Errors]
    value and the scanner's state is not looked at; with no recorded error
    the result is nil when the scanner ended on [io.EOF], and otherwise
    whatever error the scanner holds, which is nil when tokens are merely
    left over. *)
Theorem ParseExpr_error_value :
  forall (fuel : nat) (src : Scanner.Source) (x : Expr) (p : Parser.parser),
    Scanner.err (Parser.s (loaded src)) = None ->
    Parser.parseExpr Precedence fuel false (loaded src) = Parser.Done x p ->
    (Parser.err p <> [] ->
       Parser.ParseExpr Precedence fuel src
       = Parser.Done (x, Some (ParserErrors (Parser.err p))) p)
    /\ (Parser.err p = [] -> Scanner.err (Parser.s p) = Some io_EOF ->
          Parser.ParseExpr Precedence fuel src = Parser.Done (x, None) p)
    /\ (Parser.err p = [] -> Scanner.err (Parser.s p) <> Some io_EOF ->
          Parser.ParseExpr Precedence fuel src
          = Parser.Done (x, Scanner.err (Parser.s p)) p).
Proof.
  intros fuel src x p Hfirst Hparse.
  rewrite (ParseExpr_loaded fuel src Hfirst), Hparse.
  repeat split.
  - intros Hne. destruct (Parser.err p); [congruence | reflexivity].
  - intros Hnil Heof. rewrite Hnil, Heof. reflexivity.
  - intros Hnil Hneof. rewrite Hnil.
    destruct (Scanner.err (Parser.s p)) as [[]|]; try reflexivity.
    congruence.
Qed.

End EntryPoint.

(** On the source [1 2] no error is recorded, the literal [2] is left
    unconsumed, and the returned error is nil. *)
Lemma ParseExpr_trailing_token_no_error :
  Parser.ParseExpr token.Precedence 6 (Lex.source "1 2")
  = Parser.Done (Sample.int 1, None)
      (Parser.mkParser
         (Scanner.mkT [Scanner.mkItem token.Int (LitInt 2) 2 (-1) None] 3) [])
  /\ Scanner.err
       (Scanner.mkT [Scanner.mkItem token.Int (LitInt 2) 2 (-1) None] 3)
     <> Some io_EOF.
Proof. split; [reflexivity | discriminate]. Qed.

(** The three cases of the error value, on the sources [1 +  )], [1] and
    [1 #]. *)
Lemma ParseExpr_error_value_witness :
  Parser.ParseExpr token.Precedence 9 (Lex.source "1 + )")
  = Parser.Done
      (Binary token.Add (Sample.int 1)
         (Bad (Some (ParserError (Sample.expected_operand 5)))),
       Some (ParserErrors [Sample.expected_operand 5]))
      (Sample.exhausted 5 [Sample.expected_operand 5])
  /\ Parser.ParseExpr token.Precedence 9 (Lex.source "1")
     = Parser.Done (Sample.int 1, None) (Sample.exhausted 1 [])
  /\ Parser.ParseExpr token.Precedence 9 (Lex.source "1 #")
     = Parser.Done (Sample.int 1, Some (ScanError "unexpected character"))
         (Parser.mkParser
            (Scanner.mkT
               [Scanner.mkItem token.Unknown LitNil 2 (-1)
                  (Some "unexpected character")] 3) []).
Proof.
  split; [|split].
  - destruct (ParseExpr_error_value token.Precedence 9 (Lex.source "1 + )")
                _ _ eq_refl eq_refl) as [H _].
    apply H. discriminate.
  - destruct (ParseExpr_error_value token.Precedence 9 (Lex.source "1")
                _ _ eq_refl eq_refl) as [_ [H _]].
    apply H; reflexivity.
  - destruct (ParseExpr_error_value token.Precedence 9 (Lex.source "1 #")
                _ _ eq_refl eq_refl) as [_ [_ H]].
    apply H; [reflexivity | discriminate].
Defined.

(* ------------------------------------------------------------------ *)
(** ** Precedence climbing *)

Lemma bind_Done {A B} (m : Parser.M A) (k : A -> Parser.M B) p b p' :
  Parser.bind m k p = Parser.Done b p' ->
  exists a p1, m p = Parser.Done a p1 /\ k a p1 = Parser.Done b p'.
Proof.
  unfold Parser.bind. destruct (m p) as [a p1| |]; try discriminate.
  intros H. exists a, p1. split; [reflexivity | exact H].
Qed.

Lemma bind_eq {A B} (m : Parser.M A) (k : A -> Parser.M B) p a p1 :
  m p = Parser.Done a p1 -> Parser.bind m k p = k a p1.
Proof. unfold Parser.bind. intros ->. reflexivity. Qed.

Section Climbing.

Variable Precedence : token.Token -> Z.

Local Abbreviation prec_of p := (Precedence (Scanner.Token (Parser.s p))).

(** One turn of the inner loop: an operator of the level of the run is
    consumed, its right operand is parsed with the minimum one above that
    level, and the loop goes on with the new [Binary] node as left operand. *)
Lemma parseBinaryExpr_run_step (fuel : nat) (prec : Z) (x y : Expr) p p1 p2 :
  prec_of p = prec ->
  Parser.next fuel p = Parser.Done tt p1 ->
  Parser.parseBinaryExpr Precedence fuel false (prec + 1) p1 = Parser.Done y p2 ->
  Parser.parseBinaryExpr_run Precedence (S fuel) prec x p
  = Parser.parseBinaryExpr_run Precedence fuel prec
      (Binary (Scanner.Token (Parser.s p)) x y) p2.
Proof.
  intros Hp Hn Hy. cbn [Parser.parseBinaryExpr_run].
  unfold Parser.bind at 1, Parser.Token at 1.
  rewrite Hp, Z.eqb_refl. cbn [negb].
  unfold Parser.bind at 1. rewrite Hn.
  unfold Parser.bind at 1. rewrite Hy. reflexivity.
Qed.

(** The inner loop stops, without consuming anything, at a token that is
    not an operator of its level. *)
Lemma parseBinaryExpr_run_stop (fuel : nat) (prec : Z) (x : Expr) p :
  prec_of p <> prec ->
  Parser.parseBinaryExpr_run Precedence (S fuel) prec x p = Parser.Done x p.
Proof.
  intros Hp. cbn [Parser.parseBinaryExpr_run].
  unfold Parser.bind, Parser.Token.
  apply Z.eqb_neq in Hp. rewrite Hp. reflexivity.
Qed.

(** The outer loop is over as soon as the level is below the minimum. *)
Lemma parseBinaryExpr_levels_stop (fuel : nat) (minPrec prec : Z) (x : Expr) p :
  prec < minPrec ->
  Parser.parseBinaryExpr_levels Precedence (S fuel) minPrec prec x p
  = Parser.Done x p.
Proof.
  intros H. cbn [Parser.parseBinaryExpr_levels].
  destruct (prec >=? minPrec) eqn:E; [|reflexivity].
  rewrite Z.geb_leb in E. apply Z.leb_le in E. lia.
Qed.

(** An operator below the minimum ends [parseBinaryExpr] and stays the
    current token. *)
Lemma parseBinaryExpr_below_minPrec (fuel : nat) (lhs : bool) (minPrec : Z)
    (x : Expr) p p1 :
  Parser.parseUnaryExpr Precedence (S fuel) lhs p = Parser.Done x p1 ->
  prec_of p1 < minPrec ->
  Parser.parseBinaryExpr Precedence (S (S fuel)) lhs minPrec p = Parser.Done x p1.
Proof.
  intros Hu Hlt.
  change (Parser.parseBinaryExpr Precedence (S (S fuel)) lhs minPrec p)
    with (Parser.bind (Parser.parseUnaryExpr Precedence (S fuel) lhs)
            (fun x => Parser.bind Parser.Token (fun tok =>
               Parser.parseBinaryExpr_levels Precedence (S fuel) minPrec
                 (Precedence tok) x)) p).
  rewrite (bind_eq _ _ _ _ _ Hu). unfold Parser.bind, Parser.Token.
  apply parseBinaryExpr_levels_stop. exact Hlt.
Qed.

(** What the three functions of [parseBinaryExpr] leave as current token. *)
Lemma climbing_post (fuel : nat) :
  (forall lhs minPrec p x p',
      Parser.parseBinaryExpr Precedence fuel lhs minPrec p = Parser.Done x p' ->
      prec_of p' < minPrec)
  /\ (forall minPrec prec x p x' p',
         Parser.parseBinaryExpr_levels Precedence fuel minPrec prec x p
         = Parser.Done x' p' ->
         prec_of p <= prec -> prec_of p' < minPrec)
  /\ (forall prec x p x' p',
         Parser.parseBinaryExpr_run Precedence fuel prec x p = Parser.Done x' p' ->
         prec_of p <= prec -> prec_of p' < prec).
Proof.
  induction fuel as [|fuel (IHbin & IHlev & IHrun)].
  { repeat split; intros; discriminate. }
  split; [|split].
  - intros lhs minPrec p x p' H. cbn [Parser.parseBinaryExpr] in H.
    apply bind_Done in H. destruct H as (x0 & p1 & _ & H).
    apply bind_Done in H. destruct H as (tok & p1' & Ht & H).
    unfold Parser.Token in Ht. inversion Ht; subst tok p1'.
    eapply IHlev; [exact H | lia].
  - intros minPrec prec x p x' p' H Hle. cbn [Parser.parseBinaryExpr_levels] in H.
    destruct (prec >=? minPrec) eqn:E.
    + apply bind_Done in H. destruct H as (x1 & p1 & Hr & H).
      apply IHrun in Hr; [|exact Hle].
      eapply IHlev; [exact H | lia].
    + inversion H; subst x' p'.
      rewrite Z.geb_leb in E. apply Z.leb_gt in E. lia.
  - intros prec x p x' p' H Hle. cbn [Parser.parseBinaryExpr_run] in H.
    apply bind_Done in H. destruct H as (op & p0 & Ht & H).
    unfold Parser.Token in Ht. inversion Ht; subst op p0.
    destruct (Precedence (Scanner.Token (Parser.s p)) =? prec) eqn:E; cbn [negb] in H.
    + apply bind_Done in H. destruct H as (u & p1 & _ & H).
      apply bind_Done in H. destruct H as (y & p2 & Hy & H).
      apply IHbin in Hy.
      eapply IHrun; [exact H | lia].
    + inversion H; subst x' p'. apply Z.eqb_neq in E. lia.
Qed.

(** When [parseBinaryExpr] returns, the current token is not an operator of
    the minimum level or above: all of these have been consumed. *)
Lemma parseBinaryExpr_post (fuel : nat) (lhs : bool) (minPrec : Z) (x : Expr) p p' :
  Parser.parseBinaryExpr Precedence fuel lhs minPrec p = Parser.Done x p' ->
  prec_of p' < minPrec.
Proof. apply (proj1 (climbing_post fuel)). Qed.

End Climbing.

(* ------------------------------------------------------------------ *)
(** ** Operands *)

Section Operands.

Variable Precedence : token.Token -> Z.

(** [next] on a scanner whose following token is not a comment. *)
Lemma next_one (fuel : nat) (i : Scanner.Item) (items : list Scanner.Item)
    (eo : Z) (errs : list Error) :
  Scanner.Token (Scanner.mkT items eo) <> token.Comment ->
  Parser.next (S fuel) (Parser.mkParser (Scanner.mkT (i :: items) eo) errs)
  = Parser.Done tt (Parser.mkParser (Scanner.mkT items eo) errs).
Proof.
  intros H. cbn [Parser.next]. unfold Parser.bind. rewrite s_Next_spec.
  unfold Parser.Token. cbn [Parser.s Parser.err Scanner.items Scanner.eofOffset tl].
  apply token_eqb_false in H. rewrite H. reflexivity.
Qed.

(** At a literal token [parseOperand] returns the literal and advances. *)
Lemma parseOperand_literal (fuel : nat) (lhs : bool) p p1 :
  Sample.is_literal (Scanner.Token (Parser.s p)) = true ->
  Parser.next fuel p = Parser.Done tt p1 ->
  Parser.parseOperand Precedence (S fuel) lhs p
  = Parser.Done (BasicLiteral (Scanner.Literal (Parser.s p))) p1.
Proof.
  intros Hlit Hnext. cbn [Parser.parseOperand].
  unfold Parser.bind at 1, Parser.Token at 1.
  destruct (Scanner.Token (Parser.s p)); try discriminate;
    unfold Parser.bind, Parser.Literal; rewrite Hnext; reflexivity.
Qed.

(** At an identifier with a string literal [parseOperand] returns the
    identifier and advances. *)
Lemma parseOperand_ident (fuel : nat) (lhs : bool) (name : string) p p1 :
  Scanner.Token (Parser.s p) = token.Identifier ->
  Scanner.Literal (Parser.s p) = LitString name ->
  Parser.next fuel p = Parser.Done tt p1 ->
  Parser.parseOperand Precedence (S fuel) lhs p = Parser.Done (Ident name) p1.
Proof.
  intros Ht Hl Hnext. cbn [Parser.parseOperand].
  unfold Parser.bind at 1, Parser.Token at 1. rewrite Ht.
  unfold Parser.parseIdent, Parser.expect.
  unfold Parser.bind, Parser.Token, Parser.Literal, Parser.ret.
  rewrite Ht. cbn. rewrite Hl, Hnext. reflexivity.
Qed.

(** Without a suffix after the operand, [parsePrimaryExpr] returns the
    operand. *)
Lemma parsePrimaryExpr_no_suffix (fuel : nat) (lhs : bool) (x : Expr) p p1 :
  Parser.parseOperand Precedence fuel lhs p = Parser.Done x p1 ->
  Sample.is_suffix (Scanner.Token (Parser.s p1)) = false ->
  Parser.parsePrimaryExpr Precedence (S fuel) lhs p = Parser.Done x p1.
Proof.
  intros Hop Hs. cbn [Parser.parsePrimaryExpr].
  rewrite (bind_eq _ _ _ _ _ Hop).
  unfold Parser.bind, Parser.Token.
  destruct (Scanner.Token (Parser.s p1)); try discriminate; reflexivity.
Qed.

(** At a token that is not a prefix operator [parseUnaryExpr] is
    [parsePrimaryExpr]. *)
Lemma parseUnaryExpr_no_prefix (fuel : nat) (lhs : bool) p :
  Sample.is_prefix (Scanner.Token (Parser.s p)) = false ->
  Parser.parseUnaryExpr Precedence (S fuel) lhs p
  = Parser.parsePrimaryExpr Precedence fuel lhs p.
Proof.
  intros H. cbn [Parser.parseUnaryExpr].
  unfold Parser.bind, Parser.Token.
  destruct (Scanner.Token (Parser.s p)); try discriminate; reflexivity.
Qed.

(** A literal that is followed by neither a suffix nor an operator of the
    minimum level or above is a whole binary expression. *)
Lemma parseBinaryExpr_literal (fuel : nat) (lhs : bool) (minPrec : Z) p p1 :
  Sample.is_literal (Scanner.Token (Parser.s p)) = true ->
  Parser.next fuel p = Parser.Done tt p1 ->
  Sample.is_suffix (Scanner.Token (Parser.s p1)) = false ->
  Precedence (Scanner.Token (Parser.s p1)) < minPrec ->
  Parser.parseBinaryExpr Precedence (S (S (S (S fuel)))) lhs minPrec p
  = Parser.Done (BasicLiteral (Scanner.Literal (Parser.s p))) p1.
Proof.
  intros Hlit Hnext Hsuf Hprec.
  apply parseBinaryExpr_below_minPrec; [|exact Hprec].
  rewrite parseUnaryExpr_no_prefix.
  - apply parsePrimaryExpr_no_suffix; [|exact Hsuf].
    apply parseOperand_literal; assumption.
  - destruct (Scanner.Token (Parser.s p)); try discriminate; reflexivity.
Qed.

(** With no operator of the minimum level or above in sight, the outer loop
    runs through its levels without consuming anything. *)
Lemma parseBinaryExpr_levels_idle (k : nat) :
  forall (fuel : nat) (minPrec prec : Z) (x : Expr) p,
    prec - minPrec < Z.of_nat k ->
    Precedence (Scanner.Token (Parser.s p)) < minPrec ->
    Parser.parseBinaryExpr_levels Precedence (S k + fuel) minPrec prec x p
    = Parser.Done x p.
Proof.
  induction k as [|k IH]; intros fuel minPrec prec x p Hk Hp.
  - apply parseBinaryExpr_levels_stop. lia.
  - change (S (S k) + fuel)%nat with (S (S k + fuel)).
    cbn [Parser.parseBinaryExpr_levels].
    destruct (prec >=? minPrec) eqn:E; [|reflexivity].
    rewrite Z.geb_leb in E. apply Z.leb_le in E.
    change (S k + fuel)%nat with (S (k + fuel)) at 1.
    rewrite (bind_eq _ _ _ x p).
    + apply IH; lia.
    + apply parseBinaryExpr_run_stop. lia.
Qed.

End Operands.

(* ------------------------------------------------------------------ *)
(** ** Chains of operators of one level *)

Lemma levels_bound (Precedence : token.Token -> Z) (t : token.Token) :
  Precedence t <= Z.of_nat (Measure.levels Precedence).
Proof.
  assert (Hin : In t token.all) by (destruct t; cbn; tauto).
  unfold Measure.levels. induction token.all as [|u l IH]; [contradiction|].
  cbn [fold_right]. destruct Hin as [-> | Hin].
  - lia.
  - specialize (IH Hin). lia.
Qed.

Lemma operands_length (rest : list (Scanner.Item * Scanner.Item)) :
  Datatypes.length (Sample.operands rest) = (2 * Datatypes.length rest)%nat.
Proof.
  induction rest as [|oi rest IH]; [reflexivity|].
  cbn [Sample.operands flat_map app Datatypes.length].
  fold (Sample.operands rest). rewrite IH. lia.
Qed.

Lemma Token_first_token (l : list Scanner.Item) (eo : Z) :
  Scanner.Token (Scanner.mkT l eo) = Sample.first_token l.
Proof. reflexivity. Qed.

Section Chains.

Variable Precedence : token.Token -> Z.
Hypothesis table : Sample.operator_table Precedence.

Lemma table_Unknown : Precedence token.Unknown < 1.
Proof.
  destruct (Z_lt_le_dec (Precedence token.Unknown) 1) as [H|H]; [exact H|].
  apply table in H. discriminate.
Qed.

(** The end of the input ends a chain. *)
Lemma stops_nil : Sample.stops Precedence [].
Proof.
  unfold Sample.stops, Sample.first_token, Scanner.Token; cbn.
  pose proof table_Unknown.
  repeat split; try discriminate; try reflexivity; lia.
Qed.

(** The token after an operand of a chain: an operator of the level, or the
    token at which the chain ends. *)
Lemma operands_head (q : Z) (rest : list (Scanner.Item * Scanner.Item))
    (tail : list Scanner.Item) :
  1 <= q ->
  Sample.same_level Precedence q rest ->
  Sample.stops Precedence tail ->
  let t := Sample.first_token (Sample.operands rest ++ tail) in
  t <> token.Comment /\ Sample.is_suffix t = false /\ Precedence t <= q
  /\ (rest = [] -> Precedence t < 1).
Proof.
  intros Hq Hall (Hc & Hs & Hp). destruct rest as [|[o i] rest]; cbn.
  - repeat split; try assumption; lia.
  - unfold Sample.first_token, Scanner.Token; cbn.
    destruct (Forall_inv Hall) as [Ho _].
    cbn in Ho. assert (Hb : Sample.is_binary_op (Scanner.iToken o) = true)
      by (apply table; lia).
    repeat split; try discriminate; try lia;
      destruct (Scanner.iToken o); try discriminate; reflexivity.
Qed.

(** The inner loop nests a chain of its level to the left and consumes it
    whole. *)
Lemma parseBinaryExpr_run_chain (q eo : Z) (errs : list Error)
    (tail : list Scanner.Item) :
  1 <= q ->
  Sample.stops Precedence tail ->
  forall (rest : list (Scanner.Item * Scanner.Item)) (x : Expr) (fuel : nat),
    Sample.same_level Precedence q rest ->
    Parser.parseBinaryExpr_run Precedence (Datatypes.length rest + 6 + fuel) q x
      (Parser.mkParser (Scanner.mkT (Sample.operands rest ++ tail) eo) errs)
    = Parser.Done (Sample.left_nested x rest)
        (Parser.mkParser (Scanner.mkT tail eo) errs).
Proof.
  intros Hq Hstop. induction rest as [|[o i] rest IH]; intros x fuel Hall.
  - apply parseBinaryExpr_run_stop. cbn [Parser.s Sample.operands flat_map app].
    rewrite Token_first_token. destruct Hstop as (_ & _ & Hp). lia.
  - destruct (Forall_inv Hall) as [Ho Hi].
    pose proof (Forall_inv_tail Hall) as Hrest. cbn in Ho, Hi.
    destruct (operands_head q rest tail Hq Hrest Hstop) as (Hc & Hs & Hle & _).
    change (Datatypes.length ((o, i) :: rest) + 6 + fuel)%nat
      with (S (Datatypes.length rest + 6 + fuel)).
    cbn [Sample.operands flat_map fst snd app].
    fold (Sample.operands rest).
    rewrite (parseBinaryExpr_run_step Precedence _ q x (Sample.literal_of i)
               _ (Parser.mkParser
                    (Scanner.mkT (i :: Sample.operands rest ++ tail) eo) errs)
               (Parser.mkParser (Scanner.mkT (Sample.operands rest ++ tail) eo) errs)).
    + cbn [Sample.left_nested fold_left fst snd Parser.s Scanner.Token Scanner.items].
      apply IH. exact Hrest.
    + exact Ho.
    + replace (Datatypes.length rest + 6 + fuel)%nat
        with (S (Datatypes.length rest + 5 + fuel)) by lia.
      apply next_one. unfold Scanner.Token; cbn.
      destruct (Scanner.iToken i); try discriminate.
    + replace (Datatypes.length rest + 6 + fuel)%nat
        with (S (S (S (S (S (Datatypes.length rest + 1 + fuel)))))) by lia.
      apply (parseBinaryExpr_literal Precedence _ false (q + 1)
               (Parser.mkParser
                  (Scanner.mkT (i :: Sample.operands rest ++ tail) eo) errs)
               (Parser.mkParser (Scanner.mkT (Sample.operands rest ++ tail) eo) errs)).
      * exact Hi.
      * apply next_one. rewrite Token_first_token. exact Hc.
      * cbn [Parser.s]. rewrite Token_first_token. exact Hs.
      * cbn [Parser.s]. rewrite Token_first_token. lia.
Qed.

Lemma parseUnaryExpr_literal (fuel : nat) (lhs : bool) p p1 :
  Sample.is_literal (Scanner.Token (Parser.s p)) = true ->
  Parser.next fuel p = Parser.Done tt p1 ->
  Sample.is_suffix (Scanner.Token (Parser.s p1)) = false ->
  Parser.parseUnaryExpr Precedence (S (S (S fuel))) lhs p
  = Parser.Done (BasicLiteral (Scanner.Literal (Parser.s p))) p1.
Proof.
  intros Hlit Hnext Hsuf. rewrite parseUnaryExpr_no_prefix.
  - apply parsePrimaryExpr_no_suffix; [|exact Hsuf].
    apply parseOperand_literal; assumption.
  - destruct (Scanner.Token (Parser.s p)); try discriminate; reflexivity.
Qed.

(** [parseBinaryExpr] when all the operators it consumes are found by the
    run of a single level: the run starts at the level of the token after
    the first operand, and the levels below it down to the minimum find
    nothing. *)
Lemma parseBinaryExpr_one_level (fuel : nat) (lhs : bool) (minPrec : Z)
    (x x' : Expr) p p1 p2 :
  Parser.parseUnaryExpr Precedence (S fuel) lhs p = Parser.Done x p1 ->
  1 <= minPrec <= Precedence (Scanner.Token (Parser.s p1)) ->
  Parser.parseBinaryExpr_run Precedence fuel
    (Precedence (Scanner.Token (Parser.s p1))) x p1 = Parser.Done x' p2 ->
  Precedence (Scanner.Token (Parser.s p2)) < minPrec ->
  (Measure.levels Precedence < fuel)%nat ->
  Parser.parseBinaryExpr Precedence (S (S fuel)) lhs minPrec p = Parser.Done x' p2.
Proof.
  intros Hun Hmin Hrun Hlow Hfuel.
  change (Parser.parseBinaryExpr Precedence (S (S fuel)) lhs minPrec p)
    with (Parser.bind (Parser.parseUnaryExpr Precedence (S fuel) lhs)
            (fun x => Parser.bind Parser.Token (fun tok =>
               Parser.parseBinaryExpr_levels Precedence (S fuel) minPrec
                 (Precedence tok) x)) p).
  rewrite (bind_eq _ _ _ _ _ Hun). unfold Parser.bind at 1, Parser.Token at 1.
  cbn [Parser.parseBinaryExpr_levels].
  destruct (_ >=? minPrec) eqn:E;
    [|rewrite Z.geb_leb in E; apply Z.leb_gt in E; lia].
  rewrite (bind_eq _ _ _ _ _ Hrun).
  replace fuel with (S (Measure.levels Precedence)
                     + (fuel - S (Measure.levels Precedence)))%nat by lia.
  apply parseBinaryExpr_levels_idle; [|exact Hlow].
  pose proof (levels_bound Precedence (Scanner.Token (Parser.s p1))). lia.
Qed.

(** A chain of one level, at that level or above the minimum, is a whole
    binary expression. *)
Lemma parseBinaryExpr_chain (q minPrec eo : Z) (errs : list Error)
    (first : Scanner.Item) (rest : list (Scanner.Item * Scanner.Item))
    (tail : list Scanner.Item) (lhs : bool) (fuel : nat) :
  1 <= minPrec <= q ->
  Sample.is_literal (Scanner.iToken first) = true ->
  Sample.same_level Precedence q rest ->
  Sample.stops Precedence tail ->
  (Datatypes.length rest + Measure.levels Precedence + 8 <= fuel)%nat ->
  Parser.parseBinaryExpr Precedence fuel lhs minPrec
    (Parser.mkParser (Scanner.mkT (Sample.chain first rest ++ tail) eo) errs)
  = Parser.Done (Sample.left_nested (Sample.literal_of first) rest)
      (Parser.mkParser (Scanner.mkT tail eo) errs).
Proof.
  intros Hq Hlit Hall Hstop Hfuel.
  assert (Hq1 : 1 <= q) by lia.
  pose proof (operands_head q rest tail Hq1 Hall Hstop) as (Hc & Hs & Hle & Hnil).
  set (p0 := Parser.mkParser (Scanner.mkT (Sample.chain first rest ++ tail) eo) errs).
  set (p1 := Parser.mkParser (Scanner.mkT (Sample.operands rest ++ tail) eo) errs).
  assert (Hun : forall f, Parser.parseUnaryExpr Precedence (S (S (S (S f)))) lhs p0
                = Parser.Done (Sample.literal_of first) p1).
  { intros f. apply (parseUnaryExpr_literal (S f) lhs p0 p1).
    - exact Hlit.
    - apply next_one. rewrite Token_first_token. exact Hc.
    - unfold p1. cbn [Parser.s]. rewrite Token_first_token. exact Hs. }
  assert (Hs1 : Scanner.Token (Parser.s p1)
                = Sample.first_token (Sample.operands rest ++ tail)) by reflexivity.
  destruct rest as [|[o i] rest'].
  - replace fuel with (S (S (S (S (S (fuel - 5)))))) by lia.
    apply (parseBinaryExpr_below_minPrec Precedence _ lhs minPrec _ p0 p1);
      [apply Hun|].
    specialize (Hnil eq_refl). rewrite Hs1. lia.
  - assert (Ht : Precedence (Scanner.Token (Parser.s p1)) = q)
      by (destruct (Forall_inv Hall) as [Ho _]; exact Ho).
    replace fuel with (S (S (S (S (S (fuel - 5)))))) by lia.
    apply (parseBinaryExpr_one_level _ lhs minPrec (Sample.literal_of first) _ p0 p1).
    + apply Hun.
    + lia.
    + rewrite Ht.
      replace (S (S (S (fuel - 5))))
        with (Datatypes.length ((o, i) :: rest') + 6
              + (fuel - 5 - Datatypes.length ((o, i) :: rest') - 3))%nat
        by (cbn [Datatypes.length] in *; lia).
      apply parseBinaryExpr_run_chain; assumption.
    + cbn [Parser.s]. rewrite Token_first_token. destruct Hstop as (_ & _ & Hp). lia.
    + cbn [Datatypes.length] in Hfuel. lia.
Qed.



End Chains.

(* ------------------------------------------------------------------ *)
(** ** The modelled operator table and the two sample expressions *)

Lemma token_Precedence_table : Sample.operator_table token.Precedence.
Proof. intros t H. destruct t; cbn in H; try lia; reflexivity. Qed.





(* ------------------------------------------------------------------ *)
(** ** Parenthesized operands *)

Section Parentheses.

Variable Precedence : token.Token -> Z.

Lemma expect_met (t : token.Token) p :
  Scanner.Token (Parser.s p) = t -> Parser.expect t p = Parser.Done true p.
Proof.
  intros H. unfold Parser.expect, Parser.bind, Parser.Token.
  rewrite H, token_eqb_refl. reflexivity.
Qed.

Lemma expect_unmet (t : token.Token) p :
  Scanner.Token (Parser.s p) <> t ->
  Parser.expect t p
  = Parser.Done false
      (Parser.mkParser (Parser.s p)
         (Parser.err p
          ++ [Sample.expected_found (Scanner.Offset (Parser.s p)) t
                (Scanner.Token (Parser.s p))])).
Proof.
  intros H. unfold Parser.expect, Parser.bind, Parser.Token.
  assert (E : token.eqb t (Scanner.Token (Parser.s p)) = false)
    by (apply token_eqb_false; congruence).
  rewrite E. reflexivity.
Qed.

(** At an opening parenthesis [parseOperand] consumes it, parses an
    expression and wraps it in a [Unary] node with operator [LeftParen];
    a token other than the closing parenthesis after the expression is
    recorded as an error at the offset of that token. *)
Lemma parseOperand_paren (fuel : nat) (lhs : bool) (e : Expr) p p1 p2 :
  Scanner.Token (Parser.s p) = token.LeftParen ->
  Parser.next fuel p = Parser.Done tt p1 ->
  Parser.parseExpr Precedence fuel false p1 = Parser.Done e p2 ->
  Parser.parseOperand Precedence (S fuel) lhs p
  = Parser.Done (Unary token.LeftParen e)
      (if token.eqb token.RightParen (Scanner.Token (Parser.s p2)) then p2
       else Parser.mkParser (Parser.s p2)
              (Parser.err p2
               ++ [Sample.expected_found (Scanner.Offset (Parser.s p2))
                     token.RightParen (Scanner.Token (Parser.s p2))])).
Proof.
  intros Ht Hn He. cbn [Parser.parseOperand].
  unfold Parser.bind at 1, Parser.Token at 1. rewrite Ht.
  rewrite (bind_eq _ _ _ _ _ Hn), (bind_eq _ _ _ _ _ He).
  destruct (token.eqb token.RightParen (Scanner.Token (Parser.s p2))) eqn:E.
  - apply token_eqb_true in E. rewrite (bind_eq _ _ _ true p2); [reflexivity|].
    apply expect_met. congruence.
  - apply token_eqb_false in E.
    rewrite (bind_eq _ _ _ _ _ (expect_unmet token.RightParen p2
                                  (fun H => E (eq_sym H)))).
    reflexivity.
Qed.

Hypothesis table : Sample.operator_table Precedence.

Lemma table_not_op (t : token.Token) :
  Sample.is_binary_op t = false -> Precedence t < 1.
Proof.
  intros H. destruct (Z_lt_le_dec (Precedence t) 1) as [L|L]; [exact L|].
  apply table in L. congruence.
Qed.

(** A parenthesized chain, whatever follows the chain: the operand is the
    [Unary] node around the tree of the chain; a missing closing
    parenthesis is recorded and the node is returned all the same. *)
Lemma parseOperand_paren_chain (q eo : Z) (errs : list Error)
    (lparen first : Scanner.Item) (rest : list (Scanner.Item * Scanner.Item))
    (tail : list Scanner.Item) (lhs : bool) (fuel : nat) :
  1 <= q ->
  Scanner.iToken lparen = token.LeftParen ->
  Sample.is_literal (Scanner.iToken first) = true ->
  Sample.same_level Precedence q rest ->
  Sample.stops Precedence tail ->
  (Datatypes.length rest + Measure.levels Precedence + 10 <= fuel)%nat ->
  Parser.parseOperand Precedence fuel lhs
    (Parser.mkParser
       (Scanner.mkT (lparen :: Sample.chain first rest ++ tail) eo) errs)
  = Parser.Done
      (Unary token.LeftParen (Sample.left_nested (Sample.literal_of first) rest))
      (Parser.mkParser (Scanner.mkT tail eo)
         (if token.eqb token.RightParen (Sample.first_token tail) then errs
          else errs ++ [Sample.expected_found (Scanner.Offset (Scanner.mkT tail eo))
                          token.RightParen (Sample.first_token tail)])).
Proof.
  intros Hq Hl Hlit Hall Hstop Hfuel.
  replace fuel with (S (S (S (fuel - 3)))) by lia.
  rewrite (parseOperand_paren _ lhs
             (Sample.left_nested (Sample.literal_of first) rest) _
             (Parser.mkParser (Scanner.mkT (Sample.chain first rest ++ tail) eo) errs)
             (Parser.mkParser (Scanner.mkT tail eo) errs)).
  - cbn [Parser.s Parser.err]. rewrite Token_first_token.
    destruct (token.eqb token.RightParen (Sample.first_token tail)); reflexivity.
  - exact Hl.
  - apply next_one. unfold Scanner.Token, Sample.chain; cbn.
    destruct (Scanner.iToken first); try discriminate.
  - cbn [Parser.parseExpr].
    apply (parseBinaryExpr_chain Precedence table q 1); try assumption; lia.
Qed.

(** An operand that is followed by a token that is neither a suffix nor an
    operator is a whole expression. *)
Lemma parseExpr_operand (fuel : nat) (lhs : bool) (x : Expr) p p1 :
  Sample.is_prefix (Scanner.Token (Parser.s p)) = false ->
  Parser.parseOperand Precedence fuel lhs p = Parser.Done x p1 ->
  Sample.is_suffix (Scanner.Token (Parser.s p1)) = false ->
  Precedence (Scanner.Token (Parser.s p1)) < 1 ->
  Parser.parseExpr Precedence (S (S (S (S fuel)))) lhs p = Parser.Done x p1.
Proof.
  intros Hpre Hop Hsuf Hlow. cbn [Parser.parseExpr].
  apply parseBinaryExpr_below_minPrec; [|exact Hlow].
  rewrite parseUnaryExpr_no_prefix by exact Hpre.
  apply parsePrimaryExpr_no_suffix; assumption.
Qed.

(** A source that is one parenthesized chain parses, with no error, to the
    [Unary] node around the tree of the chain. *)
Lemma ParseExpr_paren_chain (q size : Z)
    (lparen first rparen : Scanner.Item)
    (rest : list (Scanner.Item * Scanner.Item)) (fuel : nat) :
  1 <= q ->
  Scanner.iToken lparen = token.LeftParen ->
  Scanner.iErr lparen = None ->
  Scanner.iToken rparen = token.RightParen ->
  Scanner.iErr rparen = None ->
  Sample.is_literal (Scanner.iToken first) = true ->
  Sample.same_level Precedence q rest ->
  (Datatypes.length rest + Measure.levels Precedence + 15 <= fuel)%nat ->
  exists p,
    Parser.ParseExpr Precedence fuel
      (Scanner.mkSource (lparen :: Sample.chain first rest ++ [rparen]) size)
    = Parser.Done
        (Unary token.LeftParen (Sample.left_nested (Sample.literal_of first) rest),
         None) p
    /\ Parser.err p = [].
Proof.
  intros Hq Hl Hle Hr Hre Hlit Hall Hfuel.
  exists (Parser.mkParser (Scanner.mkT [rparen] size) []). split; [|reflexivity].
  rewrite ParseExpr_loaded;
    [|unfold loaded, Scanner.err; cbn; rewrite Hle; reflexivity].
  replace fuel with (S (S (S (S (fuel - 4))))) by lia.
  rewrite (parseExpr_operand _ false
             (Unary token.LeftParen (Sample.left_nested (Sample.literal_of first) rest))
             _ (Parser.mkParser (Scanner.mkT [rparen] size) [])).
  - unfold Scanner.err; cbn. rewrite Hre. reflexivity.
  - unfold loaded, Scanner.Token; cbn. rewrite Hl. reflexivity.
  - unfold loaded. cbn [Scanner.scan Scanner.size].
    rewrite (parseOperand_paren_chain q size [] lparen first rest [rparen] false);
      try assumption; try lia.
    + unfold Sample.first_token, Scanner.Token; cbn. rewrite Hr. reflexivity.
    + unfold Sample.stops, Sample.first_token, Scanner.Token; cbn. rewrite Hr.
      repeat split; try discriminate. apply table_not_op. reflexivity.
  - unfold Scanner.Token; cbn. rewrite Hr. reflexivity.
  - unfold Scanner.Token; cbn. rewrite Hr. apply table_not_op. reflexivity.
Qed.

(** Without the closing parenthesis the same tree is returned, together
    with the recorded error. *)
Lemma ParseExpr_paren_chain_unclosed (q size : Z)
    (lparen first : Scanner.Item)
    (rest : list (Scanner.Item * Scanner.Item)) (fuel : nat) :
  1 <= q ->
  Scanner.iToken lparen = token.LeftParen ->
  Scanner.iErr lparen = None ->
  Sample.is_literal (Scanner.iToken first) = true ->
  Sample.same_level Precedence q rest ->
  (Datatypes.length rest + Measure.levels Precedence + 15 <= fuel)%nat ->
  Parser.ParseExpr Precedence fuel
    (Scanner.mkSource (lparen :: Sample.chain first rest) size)
  = Parser.Done
      (Unary token.LeftParen (Sample.left_nested (Sample.literal_of first) rest),
       Some (ParserErrors
               [Sample.expected_found size token.RightParen token.Unknown]))
      (Sample.exhausted size
         [Sample.expected_found size token.RightParen token.Unknown]).
Proof.
  intros Hq Hl Hle Hlit Hall Hfuel.
  rewrite ParseExpr_loaded;
    [|unfold loaded, Scanner.err; cbn; rewrite Hle; reflexivity].
  replace fuel with (S (S (S (S (fuel - 4))))) by lia.
  rewrite (parseExpr_operand _ false
             (Unary token.LeftParen (Sample.left_nested (Sample.literal_of first) rest))
             _ (Sample.exhausted size
                  [Sample.expected_found size token.RightParen token.Unknown])).
  - reflexivity.
  - unfold loaded, Scanner.Token; cbn. rewrite Hl. reflexivity.
  - unfold loaded. cbn [Scanner.scan Scanner.size].
    rewrite <- (app_nil_r (Sample.chain first rest)).
    rewrite (parseOperand_paren_chain q size [] lparen first rest [] false);
      try assumption; try lia.
    + reflexivity.
    + apply (stops_nil Precedence table).
  - reflexivity.
  - unfold Scanner.Token; cbn. apply (table_Unknown Precedence table).
Qed.

End Parentheses.

Lemma exprSexp_paren_add :
  exprSexp Sample.paren_add
  = Some "(LeftParen (Add (lit *big.Int 1) (lit *big.Int 2)))".
Proof. reflexivity. Qed.

(** C2: at an opening parenthesis [parseOperand] calls [expect] for the
    closing parenthesis and returns without the call of [next] that
    [parseArgs] and [parseIdent] have after [expect], so the closing
    parenthesis stays the current token and ends the expression.
    - On the source [(1 + 2) * 3], [ParseExpr] returns the tree of [(1 + 2)]
      alone, with a nil error; the parser is left on the closing
      parenthesis, and [* 3] is not read.  The tree serializes as
      [(LeftParen (Add (lit *big.Int 1) (lit *big.Int 2)))]: there is no
      [Mul] node.
    - On the source [((1)], where one closing parenthesis is absent,
      [ParseExpr] returns two nested [Unary] nodes with a nil error: the
      closing parenthesis that is there is found by both calls of [expect].
    - After the closing parenthesis of a call, which [parseArgs] consumes,
      the operator is read: [f(1) * 3] parses to the product.
    - A closing parenthesis that is absent at the end of the text is
      recorded: [(1 + 2] parses to the tree of [(1 + 2)] with the error. *)
Theorem parseOperand_leaves_closing_paren :
  forall fuel : nat,
    Parser.ParseExpr token.Precedence (16 + fuel) (Lex.source "(1 + 2) * 3")
    = Parser.Done (Sample.paren_add, None) Sample.paren_times_three_at_close
    /\ Scanner.Token (Parser.s Sample.paren_times_three_at_close)
       = token.RightParen
    /\ exprSexp Sample.paren_add
       = Some "(LeftParen (Add (lit *big.Int 1) (lit *big.Int 2)))"
    /\ Scanner.scan (Lex.source "((1)")
       = [ Scanner.mkItem token.LeftParen LitNil 0 40 None;
           Scanner.mkItem token.LeftParen LitNil 1 49 None;
           Scanner.mkItem token.Int (LitInt 1) 2 41 None;
           Scanner.mkItem token.RightParen LitNil 3 (-1) None ]
    /\ Parser.ParseExpr token.Precedence (16 + fuel) (Lex.source "((1)")
       = Parser.Done (Sample.paren_paren_one, None) Sample.paren_paren_at_close
    /\ Parser.ParseExpr token.Precedence (16 + fuel) (Lex.source "f(1) * 3")
       = Parser.Done (Sample.call_times_three, None) (Sample.exhausted 8 [])
    /\ Parser.ParseExpr token.Precedence (16 + fuel) (Lex.source "(1 + 2")
       = Parser.Done
           (Sample.paren_add,
            Some (ParserErrors
                    [Sample.expected_found 6 token.RightParen token.Unknown]))
           (Sample.exhausted 6
              [Sample.expected_found 6 token.RightParen token.Unknown]).
Proof.
  intros fuel. repeat split; reflexivity.
Qed.

(* ------------------------------------------------------------------ *)
(** ** Argument lists *)

Section Calls.

Variable Precedence : token.Token -> Z.

Lemma expectCommaOr_comma (otherwise : token.Token) (msg : string) p :
  Scanner.Token (Parser.s p) = token.Comma ->
  Parser.expectCommaOr otherwise msg p = Parser.Done true p.
Proof.
  intros H. unfold Parser.expectCommaOr, Parser.bind, Parser.Token.
  rewrite H. reflexivity.
Qed.

Lemma expectCommaOr_otherwise (otherwise : token.Token) (msg : string) p :
  Scanner.Token (Parser.s p) = otherwise ->
  otherwise <> token.Comma ->
  Parser.expectCommaOr otherwise msg p = Parser.Done false p.
Proof.
  intros H Hne. unfold Parser.expectCommaOr, Parser.bind, Parser.Token.
  rewrite H. apply token_eqb_false in Hne. rewrite Hne, token_eqb_refl.
  reflexivity.
Qed.

(** A token that is neither a comma nor the closing token is recorded as a
    missing comma, and the answer is still "go on". *)
Lemma expectCommaOr_missing (otherwise : token.Token) (msg : string) p :
  Scanner.Token (Parser.s p) <> token.Comma ->
  Scanner.Token (Parser.s p) <> otherwise ->
  Parser.expectCommaOr otherwise msg p
  = Parser.Done true
      (Parser.mkParser (Parser.s p)
         (Parser.err p
          ++ [mkError (Scanner.Offset (Parser.s p))
                ("missing ',' in " ++ msg ++ " (got "
                   ++ token.Token_String (Scanner.Token (Parser.s p)) ++ ")")%string])).
Proof.
  intros Hc Ho. unfold Parser.expectCommaOr, Parser.bind, Parser.Token.
  apply token_eqb_false in Hc. apply token_eqb_false in Ho.
  rewrite Hc, Ho. reflexivity.
Qed.

(** The loop of [parseArgs] is over, with nothing consumed, at a closing
    parenthesis and at the end of the text. *)
Lemma parseArgs_loop_exit (fuel : nat) (args : list Expr) p :
  Scanner.Token (Parser.s p) = token.RightParen \/ Scanner.r (Parser.s p) <= 0 ->
  Parser.parseArgs_loop Precedence (S fuel) args p = Parser.Done args p.
Proof.
  intros H. cbn [Parser.parseArgs_loop].
  unfold Parser.bind, Parser.Token, Parser.s_r.
  destruct H as [H | H].
  - rewrite H. reflexivity.
  - assert (E : (Scanner.r (Parser.s p) >? 0) = false)
      by (rewrite Z.gtb_ltb; apply Z.ltb_ge; exact H).
    rewrite E, andb_false_r. reflexivity.
Qed.

Lemma parseArgs_loop_enter (fuel : nat) (args : list Expr) p :
  Scanner.Token (Parser.s p) <> token.RightParen ->
  0 < Scanner.r (Parser.s p) ->
  Parser.parseArgs_loop Precedence (S fuel) args p
  = Parser.bind (Parser.parseExpr Precedence fuel false)
      (fun e =>
         Parser.bind (Parser.expectCommaOr token.RightParen "arguments")
           (fun more =>
              if negb more then Parser.ret (args ++ [e])%list
              else Parser.bind (Parser.next fuel)
                     (fun _ => Parser.parseArgs_loop Precedence fuel
                                 (args ++ [e])%list))) p.
Proof.
  intros Ht Hr. cbn [Parser.parseArgs_loop].
  unfold Parser.bind at 1, Parser.Token at 1.
  unfold Parser.bind at 1, Parser.s_r at 1.
  apply token_eqb_false in Ht. rewrite Ht.
  assert (E : (Scanner.r (Parser.s p) >? 0) = true)
    by (rewrite Z.gtb_ltb; apply Z.ltb_lt; exact Hr).
  rewrite E. reflexivity.
Qed.

(** One argument followed by a comma: the argument is appended, the comma
    consumed, and the loop goes on. *)
Lemma parseArgs_loop_comma (fuel : nat) (args : list Expr) (e : Expr) p p1 p2 :
  Scanner.Token (Parser.s p) <> token.RightParen ->
  0 < Scanner.r (Parser.s p) ->
  Parser.parseExpr Precedence fuel false p = Parser.Done e p1 ->
  Scanner.Token (Parser.s p1) = token.Comma ->
  Parser.next fuel p1 = Parser.Done tt p2 ->
  Parser.parseArgs_loop Precedence (S fuel) args p
  = Parser.parseArgs_loop Precedence fuel (args ++ [e]) p2.
Proof.
  intros Ht Hr He Hc Hn. rewrite parseArgs_loop_enter by assumption.
  rewrite (bind_eq _ _ _ _ _ He).
  rewrite (bind_eq _ _ _ _ _ (expectCommaOr_comma _ _ p1 Hc)).
  cbn [negb]. rewrite (bind_eq _ _ _ _ _ Hn). reflexivity.
Qed.

(** One argument followed by the closing parenthesis: the argument is
    appended and the loop is left. *)
Lemma parseArgs_loop_last (fuel : nat) (args : list Expr) (e : Expr) p p1 :
  Scanner.Token (Parser.s p) <> token.RightParen ->
  0 < Scanner.r (Parser.s p) ->
  Parser.parseExpr Precedence fuel false p = Parser.Done e p1 ->
  Scanner.Token (Parser.s p1) = token.RightParen ->
  Parser.parseArgs_loop Precedence (S fuel) args p
  = Parser.Done (args ++ [e]) p1.
Proof.
  intros Ht Hr He Hc. rewrite parseArgs_loop_enter by assumption.
  rewrite (bind_eq _ _ _ _ _ He).
  rewrite (bind_eq _ _ _ false p1); [reflexivity|].
  apply expectCommaOr_otherwise; [exact Hc | discriminate].
Qed.

(** One argument followed by some other token: a missing comma is recorded
    at that token, the token is consumed in the comma's place, and the loop
    goes on. *)
Lemma parseArgs_loop_missing_comma (fuel : nat) (args : list Expr) (e : Expr)
    p p1 p2 :
  Scanner.Token (Parser.s p) <> token.RightParen ->
  0 < Scanner.r (Parser.s p) ->
  Parser.parseExpr Precedence fuel false p = Parser.Done e p1 ->
  Scanner.Token (Parser.s p1) <> token.Comma ->
  Scanner.Token (Parser.s p1) <> token.RightParen ->
  Parser.next fuel
    (Parser.mkParser (Parser.s p1)
       (Parser.err p1
        ++ [Sample.missing_comma (Scanner.Offset (Parser.s p1))
              (Scanner.Token (Parser.s p1))]))
  = Parser.Done tt p2 ->
  Parser.parseArgs_loop Precedence (S fuel) args p
  = Parser.parseArgs_loop Precedence fuel (args ++ [e]) p2.
Proof.
  intros Ht Hr He Hc Hp Hn. rewrite parseArgs_loop_enter by assumption.
  rewrite (bind_eq _ _ _ _ _ He).
  rewrite (bind_eq _ _ _ _ _ (expectCommaOr_missing _ _ p1 Hc Hp)).
  cbn [negb]. unfold Sample.missing_comma in Hn.
  rewrite (bind_eq _ _ _ _ _ Hn). reflexivity.
Qed.

(** A call suffix turns the operand into a [Call] node. *)
Lemma parsePrimaryExpr_call (fuel : nat) (lhs : bool) (x : Expr)
    (args : list Expr) p p1 p2 :
  Parser.parseOperand Precedence fuel lhs p = Parser.Done x p1 ->
  Scanner.Token (Parser.s p1) = token.LeftParen ->
  Parser.parseArgs Precedence fuel p1 = Parser.Done args p2 ->
  Parser.parsePrimaryExpr Precedence (S fuel) lhs p = Parser.Done (Call x args) p2.
Proof.
  intros Hop Ht Ha. cbn [Parser.parsePrimaryExpr].
  rewrite (bind_eq _ _ _ _ _ Hop).
  unfold Parser.bind at 1, Parser.Token at 1. rewrite Ht.
  rewrite (bind_eq _ _ _ _ _ Ha). reflexivity.
Qed.

Hypothesis table : Sample.operator_table Precedence.

(** A literal argument, followed by a comma or by the closing
    parenthesis. *)
Lemma parseExpr_literal_argument (fuel : nat) (i : Scanner.Item)
    (items : list Scanner.Item) (eo : Z) (errs : list Error) :
  Sample.is_literal (Scanner.iToken i) = true ->
  Sample.first_token items = token.Comma
  \/ Sample.first_token items = token.RightParen ->
  Parser.parseExpr Precedence (S (S (S (S (S (S fuel)))))) false
    (Parser.mkParser (Scanner.mkT (i :: items) eo) errs)
  = Parser.Done (Sample.literal_of i)
      (Parser.mkParser (Scanner.mkT items eo) errs).
Proof.
  intros Hlit Hnext.
  assert (Hc : Sample.first_token items <> token.Comment)
    by (destruct Hnext as [-> | ->]; discriminate).
  assert (Hs : Sample.is_suffix (Sample.first_token items) = false)
    by (destruct Hnext as [-> | ->]; reflexivity).
  assert (Hp : Precedence (Sample.first_token items) < 1)
    by (destruct Hnext as [-> | ->];
        apply (table_not_op Precedence table); reflexivity).
  apply (parseExpr_operand Precedence (S (S fuel)) false (Sample.literal_of i)
           (Parser.mkParser (Scanner.mkT (i :: items) eo) errs)
           (Parser.mkParser (Scanner.mkT items eo) errs)).
  - unfold Scanner.Token; cbn.
    destruct (Scanner.iToken i); try discriminate; reflexivity.
  - apply (parseOperand_literal Precedence (S fuel) false
             (Parser.mkParser (Scanner.mkT (i :: items) eo) errs)).
    + exact Hlit.
    + apply next_one. rewrite Token_first_token. exact Hc.
  - cbn [Parser.s]. rewrite Token_first_token. exact Hs.
  - cbn [Parser.s]. rewrite Token_first_token. exact Hp.
Qed.

(** The loop on literal arguments separated by commas: one tree for each
    argument, in order, and the loop ends at the closing parenthesis. *)
Lemma parseArgs_loop_literals (eo : Z) (errs : list Error)
    (rparen : Scanner.Item) (tail : list Scanner.Item) :
  Scanner.iToken rparen = token.RightParen ->
  forall (rest : list (Scanner.Item * Scanner.Item)) (first : Scanner.Item)
         (acc : list Expr) (fuel : nat),
    Sample.literal_arguments (Some (first, rest)) ->
    Parser.parseArgs_loop Precedence (Datatypes.length rest + 7 + fuel) acc
      (Parser.mkParser
         (Scanner.mkT (Sample.chain first rest ++ rparen :: tail) eo) errs)
    = Parser.Done (acc ++ Sample.arg_trees (Some (first, rest)))
        (Parser.mkParser (Scanner.mkT (rparen :: tail) eo) errs).
Proof.
  intros Hr. induction rest as [|[c a] rest IH];
    intros first acc fuel (Hlit & Hpos & Hall).
  - cbn [Sample.chain Sample.operands flat_map app Datatypes.length Nat.add].
    apply (parseArgs_loop_last _ acc (Sample.literal_of first) _
             (Parser.mkParser (Scanner.mkT (rparen :: tail) eo) errs)).
    + unfold Scanner.Token; cbn. destruct (Scanner.iToken first); discriminate.
    + exact Hpos.
    + apply parseExpr_literal_argument; [exact Hlit|].
      right. unfold Sample.first_token, Scanner.Token; cbn. exact Hr.
    + unfold Scanner.Token; cbn. exact Hr.
  - destruct (Forall_inv Hall) as (Hc & Ha & Hapos).
    pose proof (Forall_inv_tail Hall) as Hrest. cbn in Hc, Ha, Hapos.
    change (Datatypes.length ((c, a) :: rest) + 7 + fuel)%nat
      with (S (Datatypes.length rest + 7 + fuel)).
    cbn [Sample.chain Sample.operands flat_map fst snd app].
    fold (Sample.operands rest).
    rewrite (parseArgs_loop_comma _ acc (Sample.literal_of first) _
               (Parser.mkParser
                  (Scanner.mkT (c :: a :: Sample.operands rest ++ rparen :: tail) eo)
                  errs)
               (Parser.mkParser
                  (Scanner.mkT (a :: Sample.operands rest ++ rparen :: tail) eo)
                  errs)).
    + change (a :: Sample.operands rest ++ rparen :: tail)
        with (Sample.chain a rest ++ rparen :: tail).
      rewrite IH by (repeat split; assumption).
      cbn [Sample.arg_trees map snd]. rewrite <- app_assoc. reflexivity.
    + unfold Scanner.Token; cbn. destruct (Scanner.iToken first); discriminate.
    + exact Hpos.
    + replace (Datatypes.length rest + 7 + fuel)%nat
        with (S (S (S (S (S (S (Datatypes.length rest + 1 + fuel))))))) by lia.
      apply parseExpr_literal_argument; [exact Hlit|].
      left. unfold Sample.first_token, Scanner.Token; cbn. exact Hc.
    + unfold Scanner.Token; cbn. exact Hc.
    + replace (Datatypes.length rest + 7 + fuel)%nat
        with (S (Datatypes.length rest + 6 + fuel)) by lia.
      apply next_one. unfold Scanner.Token; cbn.
      destruct (Scanner.iToken a); discriminate.
Qed.

(** [parseArgs] on a parenthesized list of literal arguments: the list of
    their trees, both parentheses consumed, nothing recorded. *)
Lemma parseArgs_literals (eo : Z) (errs : list Error)
    (lparen rparen : Scanner.Item) (a : Sample.arguments)
    (tail : list Scanner.Item) (fuel : nat) :
  Scanner.iToken lparen = token.LeftParen ->
  Scanner.iToken rparen = token.RightParen ->
  Sample.literal_arguments a ->
  Sample.first_token tail <> token.Comment ->
  (Datatypes.length (Sample.arg_items a) + 9 <= fuel)%nat ->
  Parser.parseArgs Precedence fuel
    (Parser.mkParser
       (Scanner.mkT (lparen :: Sample.arg_items a ++ rparen :: tail) eo) errs)
  = Parser.Done (Sample.arg_trees a)
      (Parser.mkParser (Scanner.mkT tail eo) errs).
Proof.
  intros Hl Hr Hargs Htail Hfuel.
  replace fuel with (S (S (fuel - 2))) by lia.
  set (p0 := Parser.mkParser
               (Scanner.mkT (lparen :: Sample.arg_items a ++ rparen :: tail) eo) errs).
  set (p1 := Parser.mkParser
               (Scanner.mkT (Sample.arg_items a ++ rparen :: tail) eo) errs).
  set (p2 := Parser.mkParser (Scanner.mkT (rparen :: tail) eo) errs).
  set (p3 := Parser.mkParser (Scanner.mkT tail eo) errs).
  assert (H0 : Parser.expect token.LeftParen p0 = Parser.Done true p0)
    by (apply expect_met; exact Hl).
  assert (H1 : Parser.next (S (fuel - 2)) p0 = Parser.Done tt p1).
  { apply next_one. rewrite Token_first_token.
    destruct a as [[first rest]|]; unfold Sample.first_token, Scanner.Token; cbn.
    - destruct Hargs as (Hlit & _). destruct (Scanner.iToken first); discriminate.
    - rewrite Hr. discriminate. }
  assert (H2 : Parser.parseArgs_loop Precedence (S (fuel - 2)) [] p1
               = Parser.Done (Sample.arg_trees a) p2).
  { destruct a as [[first rest]|].
    - replace (S (fuel - 2))
        with (Datatypes.length rest + 7 + (fuel - 8 - Datatypes.length rest))%nat.
      + unfold p1. cbn [Sample.arg_items].
        rewrite (parseArgs_loop_literals eo errs rparen tail Hr rest first []);
          [reflexivity | exact Hargs].
      + cbn [Sample.arg_items Sample.chain Datatypes.length] in Hfuel.
        rewrite operands_length in Hfuel. lia.
    - apply parseArgs_loop_exit. left. exact Hr. }
  assert (H3 : Parser.expect token.RightParen p2 = Parser.Done true p2)
    by (apply expect_met; exact Hr).
  assert (H4 : Parser.next (S (fuel - 2)) p2 = Parser.Done tt p3)
    by (apply next_one; rewrite Token_first_token; exact Htail).
  cbn [Parser.parseArgs].
  rewrite (bind_eq _ _ _ _ _ H0), (bind_eq _ _ _ _ _ H1), (bind_eq _ _ _ _ _ H2),
    (bind_eq _ _ _ _ _ H3), (bind_eq _ _ _ _ _ H4).
  reflexivity.
Qed.

(** A source that is an identifier applied to literal arguments parses,
    with no error, to the [Call] node with one tree for each argument. *)
Lemma ParseExpr_call (size : Z) (name : string)
    (f lparen rparen : Scanner.Item) (a : Sample.arguments) (fuel : nat) :
  Scanner.iToken f = token.Identifier ->
  Scanner.iLiteral f = LitString name ->
  Scanner.iErr f = None ->
  Scanner.iToken lparen = token.LeftParen ->
  Scanner.iToken rparen = token.RightParen ->
  Sample.literal_arguments a ->
  (Datatypes.length (Sample.arg_items a) + 13 <= fuel)%nat ->
  Parser.ParseExpr Precedence fuel
    (Scanner.mkSource (f :: lparen :: Sample.arg_items a ++ [rparen]) size)
  = Parser.Done (Call (Ident name) (Sample.arg_trees a), None)
      (Sample.exhausted size []).
Proof.
  intros Hf Hname Hfe Hl Hr Hargs Hfuel.
  rewrite ParseExpr_loaded;
    [|unfold loaded, Scanner.err; cbn; rewrite Hfe; reflexivity].
  replace fuel with (S (S (S (S (fuel - 4))))) by lia.
  cbn [Parser.parseExpr].
  rewrite (parseBinaryExpr_below_minPrec Precedence _ false 1
             (Call (Ident name) (Sample.arg_trees a)) _
             (Sample.exhausted size [])).
  - reflexivity.
  - rewrite parseUnaryExpr_no_prefix
      by (unfold loaded, Scanner.Token; cbn; rewrite Hf; reflexivity).
    apply (parsePrimaryExpr_call _ false (Ident name) (Sample.arg_trees a) _
             (Parser.mkParser
                (Scanner.mkT (lparen :: Sample.arg_items a ++ [rparen]) size) [])).
    + replace (fuel - 4)%nat with (S (S (fuel - 6))) by lia.
      apply parseOperand_ident.
      * unfold loaded, Scanner.Token; cbn. exact Hf.
      * unfold loaded, Scanner.Literal; cbn. exact Hname.
      * apply next_one. unfold Scanner.Token; cbn. rewrite Hl. discriminate.
    + unfold Scanner.Token; cbn. exact Hl.
    + apply parseArgs_literals; try assumption; [discriminate | lia].
  - unfold Scanner.Token; cbn. apply (table_Unknown Precedence table).
Qed.

End Calls.

Lemma exprSexp_call_f_123 :
  exprSexp Sample.call_f_123
  = Some "(call f (lit *big.Int 1) (lit *big.Int 2) (lit *big.Int 3))".
Proof. reflexivity. Qed.

Lemma exprSexp_call_f : exprSexp Sample.call_f = Some "(call f )".
Proof. reflexivity. Qed.

(** The source [f(1, 2, 3)] parses to the call with three literal
    arguments, and that tree does not serialize as [(call f 1 2 3)]. *)
Lemma ParseExpr_call_literals_not_bare :
  Parser.ParseExpr token.Precedence 20 (Lex.source "f(1, 2, 3)")
  = Parser.Done (Sample.call_f_123, None) (Sample.exhausted 10 [])
  /\ exprSexp Sample.call_f_123 <> Some "(call f 1 2 3)".
Proof. split; [reflexivity | rewrite exprSexp_call_f_123; discriminate]. Qed.


(* ------------------------------------------------------------------ *)
(** ** Termination *)

Lemma halts_bind {A B} (m : Parser.M A) (k : A -> Parser.M B) p (n n' : nat) :
  Measure.halts (m p) n ->
  (forall a p1, (Measure.remaining p1 <= n)%nat -> Measure.halts (k a p1) n') ->
  Measure.halts (Parser.bind m k p) n'.
Proof.
  unfold Parser.bind. destruct (m p) as [a p1| |]; cbn; intros H K.
  - apply K. exact H.
  - exact I.
  - contradiction.
Qed.

Lemma halts_weaken {A} (r : Parser.result A) (n n' : nat) :
  Measure.halts r n -> (n <= n')%nat -> Measure.halts r n'.
Proof. destruct r; cbn; intros; try assumption. lia. Qed.

Lemma halts_next (fuel : nat) p (n : nat) :
  (Measure.remaining p < fuel)%nat ->
  (pred (Measure.remaining p) <= n)%nat ->
  Measure.halts (Parser.next fuel p) n.
Proof.
  intros Hf Hn. destruct (next_halts fuel p Hf) as (p' & H).
  rewrite H. cbn. apply next_Done in H. lia.
Qed.

Lemma halts_expect (t : token.Token) p (n : nat) :
  (Measure.remaining p <= n)%nat -> Measure.halts (Parser.expect t p) n.
Proof.
  intros H. unfold Parser.expect, Parser.bind, Parser.Token.
  destruct (negb _); cbn; exact H.
Qed.

Lemma halts_expectCommaOr (t : token.Token) (msg : string) p (n : nat) :
  (Measure.remaining p <= n)%nat ->
  Measure.halts (Parser.expectCommaOr t msg p) n.
Proof.
  intros H. unfold Parser.expectCommaOr, Parser.bind, Parser.Token.
  destruct (token.eqb _ token.Comma); [exact H|].
  destruct (negb _); cbn; exact H.
Qed.

Lemma halts_parseIdent (fuel : nat) p (n : nat) :
  (Measure.remaining p < fuel)%nat ->
  (pred (Measure.remaining p) <= n)%nat ->
  Measure.halts (Parser.parseIdent fuel p) n.
Proof.
  intros Hf Hn. unfold Parser.parseIdent.
  apply (halts_bind _ _ _ (Measure.remaining p)); [apply halts_expect; lia|].
  intros met p1 H1.
  apply (halts_bind _ _ _ (Measure.remaining p)).
  - destruct met; [|exact H1].
    unfold Parser.bind, Parser.Literal.
    destruct (Scanner.Literal (Parser.s p1)); cbn; try exact I; exact H1.
  - intros name p2 H2.
    apply (halts_bind _ _ _ n); [apply halts_next; lia|].
    intros _ p3 H3. exact H3.
Qed.

(** A parser without remaining tokens shows [Unknown] and a negative
    rune. *)
Lemma remaining_zero p :
  Measure.remaining p = O ->
  Scanner.Token (Parser.s p) = token.Unknown /\ Scanner.r (Parser.s p) = -1.
Proof.
  unfold Measure.remaining, Scanner.remaining, Scanner.Token, Scanner.r.
  destruct (Scanner.items (Parser.s p)); [split; reflexivity | discriminate].
Qed.

Lemma remaining_pos_token p :
  Scanner.Token (Parser.s p) <> token.Unknown -> (1 <= Measure.remaining p)%nat.
Proof.
  intros H. destruct (Measure.remaining p) eqn:E; [|lia].
  apply remaining_zero in E. tauto.
Qed.

Lemma remaining_pos_rune p :
  0 < Scanner.r (Parser.s p) -> (1 <= Measure.remaining p)%nat.
Proof.
  intros H. destruct (Measure.remaining p) eqn:E; [|lia].
  apply remaining_zero in E. lia.
Qed.

Section Termination.

Variable Precedence : token.Token -> Z.
Hypothesis Unknown_level : Precedence token.Unknown < 1.

Local Abbreviation L := (Measure.levels Precedence).
Local Abbreviation C := (Measure.cost Precedence).
Local Abbreviation rem := Measure.remaining.

Lemma cost_step (m m' : nat) :
  (1 <= m)%nat -> (m' <= pred m)%nat -> (C * m' + C <= C * m)%nat.
Proof. intros H1 H2. nia. Qed.

Lemma cost_mono (m m' : nat) : (m' <= m)%nat -> (C * m' <= C * m)%nat.
Proof. intros H. nia. Qed.

Lemma cost_covers (m : nat) : (m <= C * m)%nat.
Proof. unfold Measure.cost. nia. Qed.

Lemma operand_step (fuel : nat) :
  Measure.expr_halts Precedence fuel ->
  Measure.operand_halts Precedence (S fuel).
Proof.
  intros IHexpr lhs p Hw. unfold Measure.within in Hw.
  pose proof (cost_covers (rem p)) as Hc.
  assert (Hn : forall n, (pred (rem p) <= n)%nat ->
                         Measure.halts (Parser.next fuel p) n)
    by (intros n Hle; apply halts_next; lia).
  cbn [Parser.parseOperand]. unfold Parser.bind at 1, Parser.Token at 1.
  destruct (Scanner.Token (Parser.s p)) eqn:Etok;
    try (apply (halts_bind _ _ _ (pred (rem p))); [apply Hn; lia|];
         intros _ p1 H1;
         apply (halts_bind _ _ _ (pred (rem p))); [rewrite error_spec; exact H1|];
         intros e p2 H2; exact H2).
  - apply halts_parseIdent; lia.
  - unfold Parser.bind at 1, Parser.Literal at 1.
    apply (halts_bind _ _ _ (pred (rem p))); [apply Hn; lia|].
    intros _ p1 H1. exact H1.
  - unfold Parser.bind at 1, Parser.Literal at 1.
    apply (halts_bind _ _ _ (pred (rem p))); [apply Hn; lia|].
    intros _ p1 H1. exact H1.
  - unfold Parser.bind at 1, Parser.Literal at 1.
    apply (halts_bind _ _ _ (pred (rem p))); [apply Hn; lia|].
    intros _ p1 H1. exact H1.
  - unfold Parser.bind at 1, Parser.Literal at 1.
    apply (halts_bind _ _ _ (pred (rem p))); [apply Hn; lia|].
    intros _ p1 H1. exact H1.
  - assert (Hpos : (1 <= rem p)%nat)
      by (apply remaining_pos_token; rewrite Etok; discriminate).
    apply (halts_bind _ _ _ (pred (rem p))); [apply Hn; lia|].
    intros _ p1 H1.
    apply (halts_bind _ _ _ (pred (rem p))).
    + apply (halts_weaken _ (pred (rem p1))); [|lia].
      apply IHexpr. unfold Measure.within.
      pose proof (cost_step (rem p) (rem p1) Hpos H1). unfold Measure.cost in *. lia.
    + intros e p2 H2.
      apply (halts_bind _ _ _ (pred (rem p))); [apply halts_expect; exact H2|].
      intros _ p3 H3. exact H3.
Qed.

Lemma args_step (fuel : nat) :
  Measure.loop_halts Precedence fuel ->
  Measure.args_halts Precedence (S fuel).
Proof.
  intros IHloop p Hpos Hw. unfold Measure.within in Hw.
  pose proof (cost_covers (rem p)) as Hc.
  cbn [Parser.parseArgs].
  apply (halts_bind _ _ _ (rem p)); [apply halts_expect; lia|].
  intros _ p0 H0.
  apply (halts_bind _ _ _ (pred (rem p))); [apply halts_next; lia|].
  intros _ p1 H1.
  apply (halts_bind _ _ _ (pred (rem p))).
  - apply (halts_weaken _ (rem p1)); [|lia].
    apply IHloop. unfold Measure.within.
    pose proof (cost_step (rem p) (rem p1) Hpos H1). unfold Measure.cost in *. lia.
  - intros args p2 H2.
    apply (halts_bind _ _ _ (pred (rem p))); [apply halts_expect; exact H2|].
    intros _ p3 H3.
    apply (halts_bind _ _ _ (pred (rem p))); [apply halts_next; lia|].
    intros _ p4 H4. exact H4.
Qed.

Lemma primary_step (fuel : nat) :
  Measure.operand_halts Precedence fuel ->
  Measure.args_halts Precedence fuel ->
  Measure.primary_halts Precedence (S fuel).
Proof.
  intros IHop IHargs lhs p Hw. unfold Measure.within in Hw.
  pose proof (cost_covers (rem p)) as Hc.
  cbn [Parser.parsePrimaryExpr].
  apply (halts_bind _ _ _ (pred (rem p)));
    [apply IHop; unfold Measure.within; lia|].
  intros x p1 H1.
  unfold Parser.bind at 1, Parser.Token at 1.
  destruct (Scanner.Token (Parser.s p1)) eqn:Etok; try exact H1; try exact I.
  - assert (Hpos : (1 <= rem p1)%nat)
      by (apply remaining_pos_token; rewrite Etok; discriminate).
    pose proof (cost_mono (rem p) (rem p1)) as Hm.
    apply (halts_bind _ _ _ (pred (rem p))).
    + apply (halts_weaken _ (pred (rem p1))); [|lia].
      apply IHargs; [exact Hpos|]. unfold Measure.within. lia.
    + intros args p2 H2. exact H2.
  - pose proof (cost_mono (rem p) (rem p1)) as Hm.
    pose proof (cost_covers (rem p1)) as Hc1.
    apply (halts_bind _ _ _ (rem p)); [apply halts_next; lia|].
    intros _ p2 H2.
    unfold Parser.bind, Parser.Token.
    destruct (Scanner.Token (Parser.s p2)); exact I.
Qed.

Lemma unary_step (fuel : nat) :
  Measure.primary_halts Precedence fuel ->
  Measure.unary_halts Precedence fuel ->
  Measure.unary_halts Precedence (S fuel).
Proof.
  intros IHprim IHun lhs p Hw. unfold Measure.within in Hw.
  pose proof (cost_covers (rem p)) as Hc.
  assert (Hrec : (1 <= rem p)%nat ->
                 forall op, Measure.halts
                   (Parser.bind (Parser.next fuel)
                      (fun _ => Parser.bind (Parser.parseUnaryExpr Precedence fuel false)
                                  (fun x => Parser.ret (Unary op x))) p)
                   (pred (rem p))).
  { intros Hpos op.
    apply (halts_bind _ _ _ (pred (rem p))); [apply halts_next; lia|].
    intros _ p1 H1.
    apply (halts_bind _ _ _ (pred (rem p))).
    - apply (halts_weaken _ (pred (rem p1))); [|lia].
      apply IHun. unfold Measure.within.
      pose proof (cost_step (rem p) (rem p1) Hpos H1). unfold Measure.cost in *. lia.
    - intros x p2 H2. exact H2. }
  assert (Hchk : (1 <= rem p)%nat ->
                 forall op, Measure.halts
                   (Parser.bind (Parser.next fuel)
                      (fun _ => Parser.bind Parser.s_err
                         (fun e => match e with
                                   | Some _ => Parser.ret (Bad e)
                                   | None =>
                                       Parser.bind
                                         (Parser.parseUnaryExpr Precedence fuel false)
                                         (fun x => Parser.ret (Unary op x))
                                   end)) p)
                   (pred (rem p))).
  { intros Hpos op.
    apply (halts_bind _ _ _ (pred (rem p))); [apply halts_next; lia|].
    intros _ p1 H1.
    unfold Parser.bind at 1, Parser.s_err at 1.
    destruct (Scanner.err (Parser.s p1)); [exact H1|].
    apply (halts_bind _ _ _ (pred (rem p))).
    - apply (halts_weaken _ (pred (rem p1))); [|lia].
      apply IHun. unfold Measure.within.
      pose proof (cost_step (rem p) (rem p1) Hpos H1). unfold Measure.cost in *. lia.
    - intros x p2 H2. exact H2. }
  cbn [Parser.parseUnaryExpr]. unfold Parser.bind at 1, Parser.Token at 1.
  destruct (Scanner.Token (Parser.s p)) eqn:Etok;
    try (apply IHprim; unfold Measure.within; lia);
    try (apply Hchk; apply remaining_pos_token; rewrite Etok; discriminate).
  apply Hrec. apply remaining_pos_token. rewrite Etok. discriminate.
Qed.

Lemma run_step (fuel : nat) :
  Measure.binary_halts Precedence fuel ->
  Measure.run_halts Precedence fuel ->
  Measure.run_halts Precedence (S fuel).
Proof.
  intros IHbin IHrun prec x p Hprec Hw. unfold Measure.within in Hw.
  pose proof (cost_covers (rem p)) as Hc.
  cbn [Parser.parseBinaryExpr_run]. unfold Parser.bind at 1, Parser.Token at 1.
  destruct (Precedence (Scanner.Token (Parser.s p)) =? prec) eqn:E;
    cbn [negb]; [|cbn; lia].
  apply Z.eqb_eq in E.
  assert (Hpos : (1 <= rem p)%nat).
  { apply remaining_pos_token. intros Hu. rewrite Hu in E. lia. }
  apply (halts_bind _ _ _ (pred (rem p))); [apply halts_next; lia|].
  intros _ p1 H1.
  pose proof (cost_step (rem p) (rem p1) Hpos H1) as Hs.
  apply (halts_bind _ _ _ (pred (rem p))).
  - apply (halts_weaken _ (pred (rem p1))); [|lia].
    apply IHbin; [lia|]. unfold Measure.within. unfold Measure.cost in *. lia.
  - intros y p2 H2.
    apply (halts_weaken _ (rem p2)); [|lia].
    apply IHrun; [exact Hprec|]. unfold Measure.within.
    pose proof (cost_mono (pred (rem p)) (rem p2) H2).
    pose proof (cost_step (rem p) (pred (rem p)) Hpos (le_n _)).
    unfold Measure.cost in *. lia.
Qed.

Lemma levels_step (fuel : nat) :
  Measure.run_halts Precedence fuel ->
  Measure.levels_halts Precedence fuel ->
  Measure.levels_halts Precedence (S fuel).
Proof.
  intros IHrun IHlev minPrec prec x p k Hmin Hk Hw. unfold Measure.within in Hw.
  cbn [Parser.parseBinaryExpr_levels].
  destruct (prec >=? minPrec) eqn:E; [|cbn; lia].
  rewrite Z.geb_leb in E. apply Z.leb_le in E.
  destruct k as [|k]; [lia|].
  apply (halts_bind _ _ _ (rem p)).
  - apply IHrun; [lia|]. unfold Measure.within. lia.
  - intros x' p1 H1.
    apply (halts_weaken _ (rem p1)); [|lia].
    apply (IHlev minPrec (prec - 1) x' p1 k); [exact Hmin | lia |].
    unfold Measure.within. pose proof (cost_mono (rem p) (rem p1) H1). lia.
Qed.

Lemma binary_step (fuel : nat) :
  Measure.unary_halts Precedence fuel ->
  Measure.levels_halts Precedence fuel ->
  Measure.binary_halts Precedence (S fuel).
Proof.
  intros IHun IHlev lhs minPrec p Hmin Hw. unfold Measure.within in Hw.
  cbn [Parser.parseBinaryExpr].
  apply (halts_bind _ _ _ (pred (rem p))).
  - apply IHun. unfold Measure.within. lia.
  - intros x p1 H1. unfold Parser.bind at 1, Parser.Token at 1.
    apply (halts_weaken _ (rem p1)); [|lia].
    apply (IHlev minPrec _ x p1 L); [exact Hmin | |].
    + pose proof (levels_bound Precedence (Scanner.Token (Parser.s p1))). lia.
    + unfold Measure.within.
      pose proof (cost_mono (rem p) (rem p1)). lia.
Qed.

Lemma expr_step (fuel : nat) :
  Measure.binary_halts Precedence fuel ->
  Measure.expr_halts Precedence (S fuel).
Proof.
  intros IHbin lhs p Hw. unfold Measure.within in Hw.
  cbn [Parser.parseExpr]. apply IHbin; [lia|]. unfold Measure.within. lia.
Qed.

Lemma loop_step (fuel : nat) :
  Measure.expr_halts Precedence fuel ->
  Measure.loop_halts Precedence fuel ->
  Measure.loop_halts Precedence (S fuel).
Proof.
  intros IHexpr IHloop args p Hw. unfold Measure.within in Hw.
  cbn [Parser.parseArgs_loop].
  unfold Parser.bind at 1, Parser.Token at 1.
  unfold Parser.bind at 1, Parser.s_r at 1.
  destruct (negb (token.eqb (Scanner.Token (Parser.s p)) token.RightParen)
            && (Scanner.r (Parser.s p) >? 0)) eqn:E; [|cbn; lia].
  apply andb_true_iff in E. destruct E as [_ E].
  rewrite Z.gtb_ltb in E. apply Z.ltb_lt in E.
  pose proof (remaining_pos_rune p E) as Hpos.
  apply (halts_bind _ _ _ (pred (rem p))).
  - apply IHexpr. unfold Measure.within. lia.
  - intros e p1 H1.
    pose proof (cost_step (rem p) (rem p1) Hpos H1) as Hs.
    pose proof (cost_covers (rem p1)) as Hc1.
    apply (halts_bind _ _ _ (pred (rem p)));
      [apply halts_expectCommaOr; exact H1|].
    intros more p2 H2. destruct more; cbn [negb]; [|cbn; lia].
    pose proof (cost_mono (pred (rem p)) (rem p2) H2) as Hm2.
    pose proof (cost_step (rem p) (pred (rem p)) Hpos (le_n _)) as Hs2.
    pose proof (cost_covers (rem p2)) as Hc2.
    apply (halts_bind _ _ _ (pred (rem p)));
      [apply halts_next; unfold Measure.cost in *; lia|].
    intros _ p3 H3.
    apply (halts_weaken _ (rem p3)); [|lia].
    apply IHloop. unfold Measure.within.
    pose proof (cost_mono (pred (rem p)) (rem p3) H3).
    unfold Measure.cost in *. lia.
Qed.

(** Every function of the parser halts on every parser its fuel covers. *)
Lemma parser_halts (fuel : nat) : Measure.all_halt Precedence fuel.
Proof.
  induction fuel as [|fuel (IHop & IHargs & IHprim & IHun & IHrun & IHlev
                             & IHbin & IHexpr & IHloop)].
  - unfold Measure.all_halt. repeat split; intro; intros;
      unfold Measure.within in *; lia.
  - unfold Measure.all_halt. repeat split.
    + apply operand_step; assumption.
    + apply args_step; assumption.
    + apply primary_step; assumption.
    + apply unary_step; assumption.
    + apply run_step; assumption.
    + apply levels_step; assumption.
    + apply binary_step; assumption.
    + apply expr_step; assumption.
    + apply loop_step; assumption.
Qed.

(** [ParseExpr] halts with fuel linear in the number of items of the
    source. *)
Lemma ParseExpr_halts (fuel : nat) (src : Scanner.Source) :
  (Measure.enough Precedence (Datatypes.length (Scanner.scan src)) <= fuel)%nat ->
  Parser.ParseExpr Precedence fuel src <> Parser.OutOfFuel.
Proof.
  intros Hfuel.
  destruct (Scanner.err (Parser.s (loaded src))) as [e|] eqn:Eerr.
  - unfold Parser.ParseExpr, Parser.bind at 1. rewrite s_Next_spec.
    cbn [Parser.newParser Scanner.NewScanner Scanner.items Scanner.eofOffset
           Parser.s Parser.err tl].
    unfold loaded, Measure.loaded in Eerr. cbn [Parser.s] in Eerr. rewrite Eerr.
    discriminate.
  - rewrite (ParseExpr_loaded Precedence fuel src Eerr).
    destruct (parser_halts fuel) as (_ & _ & _ & _ & _ & _ & _ & Hexpr & _).
    specialize (Hexpr false (loaded src)).
    destruct (Parser.parseExpr Precedence fuel false (loaded src));
      try discriminate.
    exfalso. apply Hexpr.
    unfold Measure.within, Measure.enough, Measure.cost in *.
    unfold Measure.remaining, Scanner.remaining, loaded, Measure.loaded.
    cbn [Parser.s Scanner.items]. lia.
Qed.

End Termination.

(** An iteration of the loop over the levels at which the inner loop finds
    no operator: nothing is consumed, and the loop goes on one level
    below. *)
Lemma parseBinaryExpr_levels_idle_step (Precedence : token.Token -> Z)
    (fuel : nat) (minPrec prec : Z) (x : Expr) (p : Parser.parser) :
  minPrec <= prec ->
  Precedence (Scanner.Token (Parser.s p)) <> prec ->
  Parser.parseBinaryExpr_levels Precedence (S (S fuel)) minPrec prec x p
  = Parser.parseBinaryExpr_levels Precedence (S fuel) minPrec (prec - 1) x p.
Proof.
  intros Hle Hne.
  change (Parser.parseBinaryExpr_levels Precedence (S (S fuel)) minPrec prec x p)
    with ((if prec >=? minPrec
           then Parser.bind (Parser.parseBinaryExpr_run Precedence (S fuel) prec x)
                  (fun x' => Parser.parseBinaryExpr_levels Precedence (S fuel)
                               minPrec (prec - 1) x')
           else Parser.ret x) p).
  destruct (prec >=? minPrec) eqn:E;
    [|rewrite Z.geb_leb in E; apply Z.leb_gt in E; lia].
  rewrite (bind_eq _ _ _ x p); [reflexivity|].
  apply parseBinaryExpr_run_stop. exact Hne.
Qed.

(** Two things a parse does that are not a loop turn that consumes a
    token or leaves the loop, nor a call nested as deep as the expression.
    - On [1 * 2] the loop over the levels, after the level of [*], takes its
      turn at level 4 with the whole source consumed: the inner loop
      finds nothing, and the loop is not left but goes on at level 3.
    - On [1 + /*a*/ /*b*/ /*c*/ 2] the tree has nesting depth 2, and
      [next], called on [+], calls itself once for each comment: three
      nested calls are not enough, four are. *)
Lemma idle_level_turn_and_comment_depth :
  Parser.ParseExpr token.Precedence 20 (Lex.source "1 * 2")
  = Parser.Done (Sample.mul_1_2, None) (Sample.exhausted 5 [])
  /\ Parser.parseBinaryExpr_run token.Precedence 5 4 Sample.mul_1_2
       (Sample.exhausted 5 [])
     = Parser.Done Sample.mul_1_2 (Sample.exhausted 5 [])
  /\ Parser.parseBinaryExpr_levels token.Precedence 6 1 4 Sample.mul_1_2
       (Sample.exhausted 5 [])
     = Parser.parseBinaryExpr_levels token.Precedence 5 1 3 Sample.mul_1_2
         (Sample.exhausted 5 [])
  /\ (3 >=? 1) = true
  /\ Parser.ParseExpr token.Precedence 20 Sample.commented
     = Parser.Done (Sample.add_1_2, None) (Sample.exhausted 23 [])
  /\ Measure.depth Sample.add_1_2 = 2%nat
  /\ Parser.next 3 Sample.commented_at_plus = Parser.OutOfFuel
  /\ Parser.next 4 Sample.commented_at_plus
     = Parser.Done tt Sample.commented_at_two.
Proof. repeat split; reflexivity. Qed.

(** C10: for every operator table that gives the exhausted scanner's token
    no level, and every source, given as the finite list of the scanner's
    items, [ParseExpr] ends: with fuel linear in the number of items, where
    every nested call and every loop turn takes one unit, it returns or
    panics.
    - A turn of the inner operator loop consumes a token, or the loop is
      left with nothing consumed.
    - A turn of the argument loop parses an expression, which consumes a
      token; the loop is left at once on an exhausted scanner.
    - A turn of the loop over the levels at which no operator is found
      consumes nothing and goes on one level below; the loop is left below
      the minimum.
    - [next] leaves one token less, and calls itself no deeper than there
      are tokens.
    - Every function of the parser halts on the fuel that covers its
      remaining tokens. *)
Theorem parse_terminates :
  forall Precedence : token.Token -> Z,
    Precedence token.Unknown < 1 ->
    (forall (fuel : nat) (src : Scanner.Source),
        (Measure.enough Precedence (Datatypes.length (Scanner.scan src)) <= fuel)%nat ->
        (exists x e p, Parser.ParseExpr Precedence fuel src = Parser.Done (x, e) p)
        \/ (exists msg, Parser.ParseExpr Precedence fuel src = Parser.Panic msg))
    /\ (forall (fuel : nat) (prec : Z) (x : Expr) (p p1 : Parser.parser),
           1 <= prec ->
           Precedence (Scanner.Token (Parser.s p)) = prec ->
           Parser.next fuel p = Parser.Done tt p1 ->
           (Measure.remaining p1 < Measure.remaining p)%nat)
    /\ (forall (fuel : nat) (prec : Z) (x : Expr) (p : Parser.parser),
           Precedence (Scanner.Token (Parser.s p)) <> prec ->
           Parser.parseBinaryExpr_run Precedence (S fuel) prec x p = Parser.Done x p)
    /\ (forall (fuel : nat) (lhs : bool) (e : Expr) (p p1 : Parser.parser),
           0 < Scanner.r (Parser.s p) ->
           Measure.within Precedence (Measure.levels Precedence + 6) p fuel ->
           Parser.parseExpr Precedence fuel lhs p = Parser.Done e p1 ->
           (Measure.remaining p1 < Measure.remaining p)%nat)
    /\ (forall (fuel : nat) (args : list Expr) (p : Parser.parser),
           Measure.remaining p = O ->
           Parser.parseArgs_loop Precedence (S fuel) args p = Parser.Done args p)
    /\ (forall (fuel : nat) (minPrec prec : Z) (x : Expr) (p : Parser.parser),
           minPrec <= prec ->
           Precedence (Scanner.Token (Parser.s p)) <> prec ->
           Parser.parseBinaryExpr_levels Precedence (S (S fuel)) minPrec prec x p
           = Parser.parseBinaryExpr_levels Precedence (S fuel) minPrec (prec - 1) x p)
    /\ (forall (fuel : nat) (minPrec prec : Z) (x : Expr) (p : Parser.parser),
           prec < minPrec ->
           Parser.parseBinaryExpr_levels Precedence (S fuel) minPrec prec x p
           = Parser.Done x p)
    /\ (forall (fuel : nat) (p p' : Parser.parser) (u : unit),
           Parser.next fuel p = Parser.Done u p' ->
           (Measure.remaining p' <= pred (Measure.remaining p))%nat)
    /\ (forall (fuel : nat) (p : Parser.parser),
           (Measure.remaining p < fuel)%nat ->
           exists p', Parser.next fuel p = Parser.Done tt p')
    /\ (forall fuel : nat, Measure.all_halt Precedence fuel).
Proof.
  intros Precedence HU.
  split.
  { intros fuel src Hfuel.
    pose proof (ParseExpr_halts Precedence HU fuel src Hfuel) as H.
    destruct (Parser.ParseExpr Precedence fuel src) as [[x e] p|msg|].
    - left. exists x, e, p. reflexivity.
    - right. exists msg. reflexivity.
    - congruence. }
  split.
  { intros fuel prec x p p1 Hprec Htok Hnext.
    assert (Hpos : (1 <= Measure.remaining p)%nat).
    { apply remaining_pos_token. intros Hu. rewrite Hu in Htok. lia. }
    apply next_Done in Hnext. lia. }
  split; [intros; apply parseBinaryExpr_run_stop; assumption|].
  split.
  { intros fuel lhs e p p1 Hr Hw Hparse.
    pose proof (remaining_pos_rune p Hr) as Hpos.
    destruct (parser_halts Precedence HU fuel)
      as (_ & _ & _ & _ & _ & _ & _ & Hexpr & _).
    specialize (Hexpr lhs p Hw). rewrite Hparse in Hexpr. cbn in Hexpr. lia. }
  split.
  { intros fuel args p H. apply parseArgs_loop_exit. right.
    apply remaining_zero in H. lia. }
  split; [intros; apply parseBinaryExpr_levels_idle_step; assumption|].
  split; [intros; apply parseBinaryExpr_levels_stop; assumption|].
  split; [intros fuel p p' u H; apply next_Done in H; tauto|].
  split; [intros fuel p H; apply next_halts; exact H|].
  apply parser_halts. exact HU.
Qed.

(** The theorem at the modelled operator table, on the source
    [f(1, 2, 3)] of eight tokens. *)
Lemma parse_terminates_witness :
  token.Precedence token.Unknown < 1
  /\ ((exists x e p,
          Parser.ParseExpr token.Precedence 99 (Lex.source "f(1, 2, 3)")
          = Parser.Done (x, e) p)
      \/ (exists msg,
             Parser.ParseExpr token.Precedence 99 (Lex.source "f(1, 2, 3)")
             = Parser.Panic msg)).
Proof.
  assert (HU : token.Precedence token.Unknown < 1) by (cbn; lia).
  split; [exact HU|].
  destruct (parse_terminates token.Precedence HU) as (H & _).
  apply H. vm_compute. lia.
Defined.

(* ------------------------------------------------------------------ *)
(** ** What every method of the parser preserves *)

Section Frame.

Variable Precedence : token.Token -> Z.
Variable R : Parser.parser -> Parser.parser -> Prop.

Hypothesis R_refl : forall p, R p p.
Hypothesis R_trans : forall p q r, R p q -> R q r -> R p r.
Hypothesis R_Next :
  forall p,
    R p (Parser.mkParser
           (Scanner.mkT (tl (Scanner.items (Parser.s p)))
              (Scanner.eofOffset (Parser.s p)))
           (Parser.err p)).
Hypothesis R_error :
  forall p msg,
    R p (Parser.mkParser (Parser.s p)
           (Parser.err p ++ [mkError (Scanner.Offset (Parser.s p)) msg])).

Lemma keeps_ret {A} (a : A) : Inv.keeps R (Parser.ret a).
Proof. intros p b p' H. inversion H; subst. apply R_refl. Qed.

Lemma keeps_panic {A} (msg : string) : Inv.keeps R (@Parser.panic A msg).
Proof. intros p b p' H. discriminate. Qed.

Lemma keeps_out {A} : Inv.keeps R (fun _ => @Parser.OutOfFuel A).
Proof. intros p b p' H. discriminate. Qed.

Lemma keeps_bind {A B} (m : Parser.M A) (k : A -> Parser.M B) :
  Inv.keeps R m -> (forall a, Inv.keeps R (k a)) -> Inv.keeps R (Parser.bind m k).
Proof.
  intros Hm Hk p b p' H. apply bind_Done in H. destruct H as (a & p1 & H1 & H2).
  eapply R_trans; [eapply Hm; exact H1 | eapply Hk; exact H2].
Qed.

Lemma keeps_Token : Inv.keeps R Parser.Token.
Proof. intros p b p' H. inversion H; subst. apply R_refl. Qed.

Lemma keeps_Literal : Inv.keeps R Parser.Literal.
Proof. intros p b p' H. inversion H; subst. apply R_refl. Qed.

Lemma keeps_s_err : Inv.keeps R Parser.s_err.
Proof. intros p b p' H. inversion H; subst. apply R_refl. Qed.

Lemma keeps_s_r : Inv.keeps R Parser.s_r.
Proof. intros p b p' H. inversion H; subst. apply R_refl. Qed.

Lemma keeps_s_Next : Inv.keeps R Parser.s_Next.
Proof. intros p b p' H. rewrite s_Next_spec in H. inversion H; subst. apply R_Next. Qed.

Lemma keeps_error (msg : string) : Inv.keeps R (Parser.error_ msg).
Proof. intros p b p' H. rewrite error_spec in H. inversion H; subst. apply R_error. Qed.

Ltac keeps_step :=
  first
    [ apply keeps_ret | apply keeps_panic | apply keeps_out
    | apply keeps_Token | apply keeps_Literal | apply keeps_s_err
    | apply keeps_s_r | apply keeps_s_Next | apply keeps_error
    | match goal with H : context [Inv.keeps] |- _ => apply H end
    | apply keeps_bind; [|intro]
    | match goal with
      | |- Inv.keeps _ (match ?x with _ => _ end) => destruct x
      | |- Inv.keeps _ (if ?b then _ else _) => destruct b
      end ].

Lemma keeps_next (fuel : nat) : Inv.keeps R (Parser.next fuel).
Proof.
  induction fuel as [|fuel IH]; [apply keeps_out|].
  cbn [Parser.next]. repeat keeps_step.
Qed.

Lemma keeps_expect (t : token.Token) : Inv.keeps R (Parser.expect t).
Proof. unfold Parser.expect. repeat keeps_step. Qed.

Lemma keeps_expectCommaOr (t : token.Token) (msg : string) :
  Inv.keeps R (Parser.expectCommaOr t msg).
Proof. unfold Parser.expectCommaOr. repeat keeps_step. Qed.

Lemma keeps_parseIdent (fuel : nat) : Inv.keeps R (Parser.parseIdent fuel).
Proof.
  unfold Parser.parseIdent. pose proof (keeps_next fuel).
  pose proof (keeps_expect token.Identifier). repeat keeps_step.
Qed.

(** Every method of the parser leaves a state that [R] relates to the
    state it was called on. *)
Lemma keeps_parser (fuel : nat) :
  (forall lhs, Inv.keeps R (Parser.parseExpr Precedence fuel lhs))
  /\ (forall lhs minPrec, Inv.keeps R (Parser.parseBinaryExpr Precedence fuel lhs minPrec))
  /\ (forall minPrec prec x,
         Inv.keeps R (Parser.parseBinaryExpr_levels Precedence fuel minPrec prec x))
  /\ (forall prec x, Inv.keeps R (Parser.parseBinaryExpr_run Precedence fuel prec x))
  /\ (forall lhs, Inv.keeps R (Parser.parseUnaryExpr Precedence fuel lhs))
  /\ (forall lhs, Inv.keeps R (Parser.parsePrimaryExpr Precedence fuel lhs))
  /\ (forall lhs, Inv.keeps R (Parser.parseOperand Precedence fuel lhs))
  /\ Inv.keeps R (Parser.parseArgs Precedence fuel)
  /\ (forall args, Inv.keeps R (Parser.parseArgs_loop Precedence fuel args)).
Proof.
  induction fuel as [|fuel (IHexpr & IHbin & IHlev & IHrun & IHun & IHprim
                             & IHop & IHargs & IHloop)].
  { repeat split; intros; apply keeps_out. }
  pose proof (keeps_next fuel) as Hnext.
  pose proof (keeps_parseIdent fuel) as Hident.
  pose proof keeps_expect as Hexpect.
  pose proof keeps_expectCommaOr as Hcomma.
  repeat split; intros.
  - cbn [Parser.parseExpr]. apply IHbin.
  - cbn [Parser.parseBinaryExpr]. repeat keeps_step.
  - cbn [Parser.parseBinaryExpr_levels]. repeat keeps_step.
  - cbn [Parser.parseBinaryExpr_run]. repeat keeps_step.
  - cbn [Parser.parseUnaryExpr]. repeat keeps_step.
  - cbn [Parser.parsePrimaryExpr]. repeat keeps_step.
  - cbn [Parser.parseOperand]. repeat keeps_step.
  - cbn [Parser.parseArgs]. repeat keeps_step.
  - cbn [Parser.parseArgs_loop]. repeat keeps_step.
Qed.

End Frame.

(* ------------------------------------------------------------------ *)
(** ** Running a method of the parser step by step *)

(** From [H : m p = Done a p'], the calls that [m] made, one hypothesis
    each, and the branch it took. *)
Ltac exec H :=
  cbv beta iota zeta in H;
  lazymatch type of H with
  | Parser.bind Parser.Token _ _ = _ =>
      unfold Parser.bind at 1, Parser.Token at 1 in H; exec H
  | Parser.bind Parser.Literal _ _ = _ =>
      unfold Parser.bind at 1, Parser.Literal at 1 in H; exec H
  | Parser.bind Parser.s_err _ _ = _ =>
      unfold Parser.bind at 1, Parser.s_err at 1 in H; exec H
  | Parser.bind Parser.s_r _ _ = _ =>
      unfold Parser.bind at 1, Parser.s_r at 1 in H; exec H
  | Parser.bind _ _ _ = _ =>
      let a := fresh "a" in
      let q := fresh "q" in
      let H1 := fresh "Hcall" in
      apply bind_Done in H; destruct H as (a & q & H1 & H); exec H
  | Parser.panic _ _ = _ => discriminate H
  | Parser.OutOfFuel = _ => discriminate H
  | (match ?t with _ => _ end) _ = _ => destruct t eqn:?; exec H
  | (if ?b then _ else _) _ = _ => destruct b eqn:?; exec H
  | _ => idtac
  end.

(** From [H : ret a p = Done a' p'], the two equations. *)
Ltac ret_inv H :=
  unfold Parser.ret in H; injection H as ? ?; subst.

(** [parseIdent] returns an [Ident] node. *)
Lemma parseIdent_Ident (fuel : nat) p x p' :
  Parser.parseIdent fuel p = Parser.Done x p' -> exists name, x = Ident name.
Proof.
  unfold Parser.parseIdent. intros H. exec H; ret_inv H; eexists; reflexivity.
Qed.

(* ------------------------------------------------------------------ *)
(** ** The trees the parser builds *)

Section Shape.

Variable Precedence : token.Token -> Z.

Lemma forallb_snoc {A} (f : A -> bool) l a :
  forallb f l = true -> f a = true -> forallb f (l ++ [a]) = true.
Proof. intros Hl Ha. rewrite forallb_app, Hl. cbn. rewrite Ha. reflexivity. Qed.

(** Every method of the parser returns trees of the grammar; the two loops
    keep the tree they are given in the grammar. *)
Lemma parser_shaped (fuel : nat) :
  (forall lhs p x p',
      Parser.parseExpr Precedence fuel lhs p = Parser.Done x p' ->
      Inv.shaped x = true)
  /\ (forall lhs minPrec p x p',
         Parser.parseBinaryExpr Precedence fuel lhs minPrec p = Parser.Done x p' ->
         Inv.shaped x = true)
  /\ (forall minPrec prec x0 p x p',
         Inv.shaped x0 = true ->
         Parser.parseBinaryExpr_levels Precedence fuel minPrec prec x0 p
         = Parser.Done x p' ->
         Inv.shaped x = true)
  /\ (forall prec x0 p x p',
         Inv.shaped x0 = true ->
         Parser.parseBinaryExpr_run Precedence fuel prec x0 p = Parser.Done x p' ->
         Inv.shaped x = true)
  /\ (forall lhs p x p',
         Parser.parseUnaryExpr Precedence fuel lhs p = Parser.Done x p' ->
         Inv.shaped x = true /\ Inv.is_binary x = false)
  /\ (forall lhs p x p',
         Parser.parsePrimaryExpr Precedence fuel lhs p = Parser.Done x p' ->
         Inv.shaped x = true /\ Inv.is_binary x = false)
  /\ (forall lhs p x p',
         Parser.parseOperand Precedence fuel lhs p = Parser.Done x p' ->
         Inv.shaped x = true /\ Inv.is_operand x = true)
  /\ (forall p args p',
         Parser.parseArgs Precedence fuel p = Parser.Done args p' ->
         forallb Inv.shaped args = true)
  /\ (forall args0 p args p',
         forallb Inv.shaped args0 = true ->
         Parser.parseArgs_loop Precedence fuel args0 p = Parser.Done args p' ->
         forallb Inv.shaped args = true).
Proof.
  induction fuel as [|fuel (IHexpr & IHbin & IHlev & IHrun & IHun & IHprim
                             & IHop & IHargs & IHloop)].
  { repeat match goal with |- _ /\ _ => split end; intros; discriminate. }
  repeat match goal with |- _ /\ _ => split end.
  - intros lhs p x p' H. cbn [Parser.parseExpr] in H. eapply IHbin; exact H.
  - intros lhs minPrec p x p' H. cbn [Parser.parseBinaryExpr] in H. exec H.
    apply IHun in Hcall. eapply IHlev; [apply Hcall | exact H].
  - intros minPrec prec x0 p x p' Hx H. cbn [Parser.parseBinaryExpr_levels] in H.
    exec H.
    + eapply IHlev; [|exact H]. eapply IHrun; [exact Hx | exact Hcall].
    + ret_inv H. exact Hx.
  - intros prec x0 p x p' Hx H. cbn [Parser.parseBinaryExpr_run] in H. exec H.
    + ret_inv H. exact Hx.
    + eapply IHrun; [|exact H]. cbn [Inv.shaped]. rewrite Hx.
      apply IHbin in Hcall0. rewrite Hcall0. reflexivity.
  - intros lhs p x p' H. cbn [Parser.parseUnaryExpr] in H. exec H;
      try (apply IHprim in H; exact H);
      try (ret_inv H; try (split; reflexivity);
           match goal with
           | Hc : Parser.parseUnaryExpr _ _ _ _ = _ |- _ =>
               apply IHun in Hc; destruct Hc as [Hs Hb];
               cbn [Inv.shaped Sample.is_prefix Inv.is_binary];
               rewrite Hs, Hb; split; reflexivity
           end).
  - intros lhs p x p' H. cbn [Parser.parsePrimaryExpr] in H. exec H;
      try (ret_inv H; apply IHop in Hcall; destruct Hcall as [Hs Ho];
           split; [exact Hs|]; destruct x; try discriminate; reflexivity).
    ret_inv H. apply IHop in Hcall. destruct Hcall as [Hs Ho].
    apply IHargs in Hcall0. cbn [Inv.shaped Inv.is_binary].
    rewrite Hs, Ho, Hcall0. split; reflexivity.
  - intros lhs p x p' H. cbn [Parser.parseOperand] in H. exec H;
      try (ret_inv H; split; reflexivity);
      try (apply parseIdent_Ident in H; destruct H as [name ->]; split; reflexivity).
    ret_inv H. apply IHexpr in Hcall0. cbn [Inv.shaped Sample.is_prefix Inv.is_operand].
    rewrite Hcall0. split; reflexivity.
  - intros p args p' H. cbn [Parser.parseArgs] in H. exec H. ret_inv H.
    eapply IHloop; [|exact Hcall1]. reflexivity.
  - intros args0 p args p' Hargs H. cbn [Parser.parseArgs_loop] in H. exec H.
    + ret_inv H. apply forallb_snoc; [exact Hargs | eapply IHexpr; exact Hcall].
    + eapply IHloop; [|exact H].
      apply forallb_snoc; [exact Hargs | eapply IHexpr; exact Hcall].
    + ret_inv H. exact Hargs.
Qed.

Lemma at_least_not_binary m x :
  Inv.is_binary x = false -> Inv.at_least Precedence m x = true.
Proof. destruct x; try reflexivity. discriminate. Qed.

Lemma at_least_weaken m m' x :
  m' <= m -> Inv.at_least Precedence m x = true -> Inv.at_least Precedence m' x = true.
Proof.
  intros Hle. destruct x; try reflexivity. cbn [Inv.at_least].
  intros H. apply Z.leb_le in H. apply Z.leb_le. lia.
Qed.

(** Every method of the parser returns trees that respect the operator
    table.  [parseBinaryExpr] returns a tree whose root, when it is a
    [Binary] node, has level [minPrec] at least; the inner loop at level
    [prec] keeps the root at level [prec] at least; the loop over the levels
    is entered with a root above the level it starts from. *)
Lemma parser_ordered (fuel : nat) :
  (forall lhs p x p',
      Parser.parseExpr Precedence fuel lhs p = Parser.Done x p' ->
      Inv.ordered Precedence x = true)
  /\ (forall lhs minPrec p x p',
         Parser.parseBinaryExpr Precedence fuel lhs minPrec p = Parser.Done x p' ->
         Inv.ordered Precedence x = true
         /\ Inv.at_least Precedence minPrec x = true)
  /\ (forall minPrec prec x0 p x p',
         Inv.ordered Precedence x0 = true ->
         Inv.at_least Precedence (prec + 1) x0 = true ->
         Inv.at_least Precedence minPrec x0 = true ->
         Parser.parseBinaryExpr_levels Precedence fuel minPrec prec x0 p
         = Parser.Done x p' ->
         Inv.ordered Precedence x = true
         /\ Inv.at_least Precedence minPrec x = true)
  /\ (forall prec x0 p x p',
         Inv.ordered Precedence x0 = true ->
         Inv.at_least Precedence prec x0 = true ->
         Parser.parseBinaryExpr_run Precedence fuel prec x0 p = Parser.Done x p' ->
         Inv.ordered Precedence x = true
         /\ Inv.at_least Precedence prec x = true)
  /\ (forall lhs p x p',
         Parser.parseUnaryExpr Precedence fuel lhs p = Parser.Done x p' ->
         Inv.ordered Precedence x = true)
  /\ (forall lhs p x p',
         Parser.parsePrimaryExpr Precedence fuel lhs p = Parser.Done x p' ->
         Inv.ordered Precedence x = true)
  /\ (forall lhs p x p',
         Parser.parseOperand Precedence fuel lhs p = Parser.Done x p' ->
         Inv.ordered Precedence x = true)
  /\ (forall p args p',
         Parser.parseArgs Precedence fuel p = Parser.Done args p' ->
         forallb (Inv.ordered Precedence) args = true)
  /\ (forall args0 p args p',
         forallb (Inv.ordered Precedence) args0 = true ->
         Parser.parseArgs_loop Precedence fuel args0 p = Parser.Done args p' ->
         forallb (Inv.ordered Precedence) args = true).
Proof.
  induction fuel as [|fuel (IHexpr & IHbin & IHlev & IHrun & IHun & IHprim
                             & IHop & IHargs & IHloop)].
  { repeat match goal with |- _ /\ _ => split end; intros; discriminate. }
  repeat match goal with |- _ /\ _ => split end.
  - intros lhs p x p' H. cbn [Parser.parseExpr] in H. eapply IHbin; exact H.
  - intros lhs minPrec p x p' H. cbn [Parser.parseBinaryExpr] in H. exec H.
    pose proof (proj2 (proj1 (proj2 (proj2 (proj2 (proj2 (parser_shaped fuel)))))
                         _ _ _ _ Hcall)) as Hnb.
    apply IHun in Hcall.
    eapply IHlev; [exact Hcall | | | exact H]; apply at_least_not_binary; exact Hnb.
  - intros minPrec prec x0 p x p' Hx Hp Hm H.
    cbn [Parser.parseBinaryExpr_levels] in H. exec H.
    + destruct (IHrun _ _ _ _ _ Hx
                  (at_least_weaken (prec + 1) prec x0 ltac:(lia) Hp) Hcall)
        as [Ho Ha].
      assert (Hge : minPrec <= prec).
      { rewrite Z.geb_leb in Heqb. apply Z.leb_le in Heqb. exact Heqb. }
      eapply IHlev; [exact Ho | | | exact H].
      * replace (prec - 1 + 1) with prec by lia. exact Ha.
      * apply (at_least_weaken prec); assumption.
    + ret_inv H. split; assumption.
  - intros prec x0 p x p' Hx Hp H. cbn [Parser.parseBinaryExpr_run] in H. exec H.
    + ret_inv H. split; assumption.
    + apply negb_false_iff in Heqb. apply Z.eqb_eq in Heqb.
      apply IHbin in Hcall0. destruct Hcall0 as [Hyo Hya].
      eapply IHrun; [| |exact H].
      * cbn [Inv.ordered]. rewrite Heqb, Hp, Hya, Hx, Hyo. reflexivity.
      * cbn [Inv.at_least]. apply Z.leb_le. lia.
  - intros lhs p x p' H. cbn [Parser.parseUnaryExpr] in H. exec H;
      try (apply IHprim in H; exact H);
      try (ret_inv H; try reflexivity;
           match goal with
           | Hc : Parser.parseUnaryExpr _ _ _ _ = _ |- _ =>
               apply IHun in Hc; cbn [Inv.ordered]; exact Hc
           end).
  - intros lhs p x p' H. cbn [Parser.parsePrimaryExpr] in H. exec H;
      try (ret_inv H; apply IHop in Hcall; exact Hcall).
    ret_inv H. apply IHop in Hcall. apply IHargs in Hcall0.
    cbn [Inv.ordered]. rewrite Hcall, Hcall0. reflexivity.
  - intros lhs p x p' H. cbn [Parser.parseOperand] in H. exec H;
      try (ret_inv H; reflexivity);
      try (apply parseIdent_Ident in H; destruct H as [name ->]; reflexivity).
    ret_inv H. apply IHexpr in Hcall0. exact Hcall0.
  - intros p args p' H. cbn [Parser.parseArgs] in H. exec H. ret_inv H.
    eapply IHloop; [|exact Hcall1]. reflexivity.
  - intros args0 p args p' Hargs H. cbn [Parser.parseArgs_loop] in H. exec H.
    + ret_inv H. apply forallb_snoc; [exact Hargs | eapply IHexpr; exact Hcall].
    + eapply IHloop; [|exact H].
      apply forallb_snoc; [exact Hargs | eapply IHexpr; exact Hcall].
    + ret_inv H. exact Hargs.
Qed.
End Shape.

(* ------------------------------------------------------------------ *)
(** ** What [ParseExpr] returns *)

(** The scanner's error is nil, [io.EOF] or an error of its own. *)
Lemma Scanner_err_cases (s : Scanner.T) :
  Scanner.err s = None \/ Scanner.err s = Some io_EOF
  \/ exists msg, Scanner.err s = Some (ScanError msg).
Proof.
  unfold Scanner.err. destruct (Scanner.items s) as [|i rest]; [auto|].
  destruct (Scanner.iErr i) as [msg|]; cbn; eauto.
Qed.

(** [ParseExpr] returns either at once, with the nil tree and the error of
    the first [Next], or what [parseExpr] returned on the loaded parser. *)
Lemma ParseExpr_Done (Precedence : token.Token -> Z) (fuel : nat)
    (src : Scanner.Source) x e p :
  Parser.ParseExpr Precedence fuel src = Parser.Done (x, e) p ->
  (x = Nil /\ p = loaded src
   /\ ((Scanner.err (Parser.s (loaded src)) = Some io_EOF
        /\ e = Some io_ErrUnexpectedEOF)
       \/ (exists msg, Scanner.err (Parser.s (loaded src)) = Some (ScanError msg)
                       /\ e = Some (ScanError msg))))
  \/ (Scanner.err (Parser.s (loaded src)) = None
      /\ Parser.parseExpr Precedence fuel false (loaded src) = Parser.Done x p).
Proof.
  intros H.
  destruct (Scanner.err (Parser.s (loaded src))) as [e0|] eqn:E.
  - left. unfold Parser.ParseExpr, Parser.bind at 1 in H. rewrite s_Next_spec in H.
    cbn [Parser.newParser Scanner.NewScanner Scanner.items Scanner.eofOffset
           Parser.s Parser.err tl] in H.
    pose proof E as E'. unfold loaded in E'. cbn [Parser.s] in E'.
    rewrite E' in H. ret_inv H. split; [reflexivity|]. split; [reflexivity|].
    destruct (Scanner_err_cases (Parser.s (loaded src)))
      as [H|[H|[msg H]]]; rewrite H in E; try discriminate;
      injection E as <-; [left | right; exists msg]; split; reflexivity.
  - right. split; [reflexivity|].
    rewrite (ParseExpr_loaded Precedence fuel src E) in H.
    destruct (Parser.parseExpr Precedence fuel false (loaded src))
      as [x' p'| |]; try discriminate.
    injection H as -> _ ->. reflexivity.
Qed.

(** Whatever the source and the operator table, the tree that [ParseExpr]
    returns respects the table: in every [Binary] node, a [Binary] node as
    left operand has an operator of the same level or above, and a [Binary]
    node as right operand an operator of a strictly higher level.  This
    holds inside parentheses and call arguments too, and for sources with
    errors. *)
Theorem ParseExpr_ordered :
  forall (Precedence : token.Token -> Z) (fuel : nat) (src : Scanner.Source)
         (x : Expr) (e : option error) (p : Parser.parser),
    Parser.ParseExpr Precedence fuel src = Parser.Done (x, e) p ->
    Inv.ordered Precedence x = true.
Proof.
  intros Precedence fuel src x e p H.
  apply ParseExpr_Done in H. destruct H as [(-> & _)|[_ H]]; [reflexivity|].
  destruct (parser_ordered Precedence fuel) as (Hexpr & _).
  eapply Hexpr. exact H.
Qed.

(** The theorem on [1 + 2 * 3 - 4]. *)
Lemma ParseExpr_ordered_witness :
  Parser.ParseExpr token.Precedence 40 (Lex.source "1 + 2 * 3 - 4")
  = Parser.Done
      (Binary token.Sub (Sample.add_mul) (Sample.int 4), None)
      (Sample.exhausted 13 [])
  /\ Inv.ordered token.Precedence (Binary token.Sub (Sample.add_mul) (Sample.int 4))
     = true.
Proof.
  assert (H : Parser.ParseExpr token.Precedence 40 (Lex.source "1 + 2 * 3 - 4")
              = Parser.Done
                  (Binary token.Sub (Sample.add_mul) (Sample.int 4), None)
                  (Sample.exhausted 13 []))
    by (vm_compute; reflexivity).
  split; [exact H|].
  exact (ParseExpr_ordered _ _ _ _ _ _ H).
Defined.

(** A tree of the grammar holds no nil pointer. *)
Lemma shaped_guarded : forall e : Expr, Inv.shaped e = true -> guarded e = true.
Proof.
  fix IH 1. intros e.
  assert (IHs : forall es, forallb Inv.shaped es = true -> forallb guarded es = true).
  { induction es as [|a es IHes]; intros H; [reflexivity|].
    cbn in H. apply andb_true_iff in H. destruct H as [Ha Hes].
    cbn. rewrite (IH a Ha), (IHes Hes). reflexivity. }
  destruct e as [ |k|Op l r|Op x|err|l right|v|n rn ptr ty pn rns b
                 |ty names els|ty cols rows|name|f args|x names c r];
    cbn [Inv.shaped guarded]; intros H; try discriminate; try reflexivity.
  - apply andb_true_iff in H. destruct H as [Hl Hr].
    rewrite (IH l Hl), (IH r Hr). reflexivity.
  - apply andb_true_iff in H. destruct H as [Hx _]. apply IH. exact Hx.
  - apply andb_true_iff in H. destruct H as [H Ha].
    apply andb_true_iff in H. destruct H as [_ Hf].
    rewrite (IH f Hf), (IHs args Ha). reflexivity.
Qed.

(** [ParseExpr] returns the nil tree exactly when the first token cannot
    be loaded, and then with an error.  Otherwise the tree is one of the
    parser's grammar: it is built from [Binary], [Unary], [Bad],
    [BasicLiteral], [Ident] and [Call] nodes only and holds no nil; the
    operand of a prefix operator is never a [Binary] node, every other
    [Unary] node is a parenthesized expression, and the function of a call
    is an operand, never a call or an operator expression. *)
Theorem ParseExpr_shaped :
  forall (Precedence : token.Token -> Z) (fuel : nat) (src : Scanner.Source)
         (x : Expr) (e : option error) (p : Parser.parser),
    Parser.ParseExpr Precedence fuel src = Parser.Done (x, e) p ->
    (Scanner.err (Parser.s (loaded src)) <> None /\ x = Nil /\ e <> None)
    \/ (Scanner.err (Parser.s (loaded src)) = None /\ Inv.shaped x = true).
Proof.
  intros Precedence fuel src x e p H.
  apply ParseExpr_Done in H. destruct H as [(-> & _ & H)|[H1 H]].
  - left. destruct H as [[H ->]|(msg & H & ->)]; rewrite H;
      repeat split; discriminate.
  - right. split; [exact H1|].
    destruct (parser_shaped Precedence fuel) as (Hexpr & _).
    eapply Hexpr. exact H.
Qed.

(** The theorem on [f(1, 2) * -3]. *)
Lemma ParseExpr_shaped_witness :
  Parser.ParseExpr token.Precedence 60 (Lex.source "f(1, 2) * -3")
  = Parser.Done (Sample.call_times_neg, None) (Sample.exhausted 12 [])
  /\ ((Scanner.err (Parser.s (loaded (Lex.source "f(1, 2) * -3"))) <> None
       /\ Sample.call_times_neg = Nil /\ @None error <> None)
      \/ (Scanner.err (Parser.s (loaded (Lex.source "f(1, 2) * -3"))) = None
          /\ Inv.shaped Sample.call_times_neg = true)).
Proof.
  assert (H : Parser.ParseExpr token.Precedence 60 (Lex.source "f(1, 2) * -3")
              = Parser.Done (Sample.call_times_neg, None) (Sample.exhausted 12 []))
    by (vm_compute; reflexivity).
  split; [exact H|].
  exact (ParseExpr_shaped _ _ _ _ _ _ H).
Defined.

(** Parsing and then serializing never panics: [exprSexp] gives a string
    for every tree that [ParseExpr] returns, and so does the tree's own
    [Sexp] method, except on the nil tree, which [ParseExpr] returns only
    together with an error. *)
Theorem ParseExpr_then_exprSexp :
  forall (Precedence : token.Token -> Z) (fuel : nat) (src : Scanner.Source)
         (x : Expr) (e : option error) (p : Parser.parser),
    Parser.ParseExpr Precedence fuel src = Parser.Done (x, e) p ->
    exists s,
      exprSexp x = Some s
      /\ (Sexp x = Some s \/ (x = Nil /\ e <> None)).
Proof.
  intros Precedence fuel src x e p H.
  apply ParseExpr_Done in H. destruct H as [(-> & _ & H)|[H1 H]].
  - exists "nilexpr"%string. split; [reflexivity|]. right. split; [reflexivity|].
    destruct H as [[_ ->]|(msg & _ & ->)]; discriminate.
  - destruct (parser_shaped Precedence fuel) as (Hexpr & _).
    apply Hexpr in H. destruct (exprSexp_total x (shaped_guarded x H)) as [s Hs].
    exists s. split; [exact Hs|]. left. destruct x; try exact Hs. discriminate.
Qed.

(** The theorem on [f(1, 2) * -3]. *)
Lemma ParseExpr_then_exprSexp_witness :
  Parser.ParseExpr token.Precedence 60 (Lex.source "f(1, 2) * -3")
  = Parser.Done (Sample.call_times_neg, None) (Sample.exhausted 12 [])
  /\ exists s,
       exprSexp Sample.call_times_neg = Some s
       /\ (Sexp Sample.call_times_neg = Some s
           \/ (Sample.call_times_neg = Nil /\ @None error <> None)).
Proof.
  assert (H : Parser.ParseExpr token.Precedence 60 (Lex.source "f(1, 2) * -3")
              = Parser.Done (Sample.call_times_neg, None) (Sample.exhausted 12 []))
    by (vm_compute; reflexivity).
  split; [exact H|].
  exact (ParseExpr_then_exprSexp _ _ _ _ _ _ H).
Defined.

(* ------------------------------------------------------------------ *)
(** ** The parser only moves forward *)

Lemma follows_refl p : Inv.follows p p.
Proof.
  repeat split; [exists O; reflexivity | exists []; rewrite app_nil_r; reflexivity].
Qed.

Lemma follows_trans p q r : Inv.follows p q -> Inv.follows q r -> Inv.follows p r.
Proof.
  intros ([k1 H1] & E1 & [n1 N1]) ([k2 H2] & E2 & [n2 N2]).
  repeat split.
  - exists (k2 + k1)%nat. rewrite H2, H1. apply skipn_skipn.
  - congruence.
  - exists (n1 ++ n2). rewrite N2, N1, app_assoc. reflexivity.
Qed.

Lemma follows_Next p :
  Inv.follows p
    (Parser.mkParser
       (Scanner.mkT (tl (Scanner.items (Parser.s p)))
          (Scanner.eofOffset (Parser.s p)))
       (Parser.err p)).
Proof.
  repeat split; cbn.
  - exists 1%nat. destruct (Scanner.items (Parser.s p)); reflexivity.
  - exists []. rewrite app_nil_r. reflexivity.
Qed.

Lemma follows_error p msg :
  Inv.follows p
    (Parser.mkParser (Parser.s p)
       (Parser.err p ++ [mkError (Scanner.Offset (Parser.s p)) msg])).
Proof.
  repeat split; cbn; [exists O; reflexivity | eexists; reflexivity].
Qed.

(** Every method of the parser leaves a state that follows the one it was
    called on. *)
Lemma parser_follows (Precedence : token.Token -> Z) (fuel : nat) :
  (forall lhs, Inv.keeps Inv.follows (Parser.parseExpr Precedence fuel lhs))
  /\ (forall lhs minPrec,
         Inv.keeps Inv.follows (Parser.parseBinaryExpr Precedence fuel lhs minPrec))
  /\ (forall minPrec prec x,
         Inv.keeps Inv.follows
           (Parser.parseBinaryExpr_levels Precedence fuel minPrec prec x))
  /\ (forall prec x,
         Inv.keeps Inv.follows (Parser.parseBinaryExpr_run Precedence fuel prec x))
  /\ (forall lhs, Inv.keeps Inv.follows (Parser.parseUnaryExpr Precedence fuel lhs))
  /\ (forall lhs, Inv.keeps Inv.follows (Parser.parsePrimaryExpr Precedence fuel lhs))
  /\ (forall lhs, Inv.keeps Inv.follows (Parser.parseOperand Precedence fuel lhs))
  /\ Inv.keeps Inv.follows (Parser.parseArgs Precedence fuel)
  /\ (forall args, Inv.keeps Inv.follows (Parser.parseArgs_loop Precedence fuel args)).
Proof.
  apply keeps_parser;
    [exact follows_refl | exact follows_trans | exact follows_Next | exact follows_error].
Qed.

(** [parseExpr], and with it every method it calls, only moves forward:
    when it returns, the scanner is left on a suffix of the items it was
    called on, the offset of the end of the source is untouched, and the
    errors recorded before the call are all still there, in place, before
    the errors the call added. *)
Theorem parser_never_rewinds :
  forall (Precedence : token.Token -> Z) (fuel : nat) (lhs : bool)
         (p p' : Parser.parser) (x : Expr),
    Parser.parseExpr Precedence fuel lhs p = Parser.Done x p' ->
    (exists k, Scanner.items (Parser.s p') = skipn k (Scanner.items (Parser.s p)))
    /\ Scanner.eofOffset (Parser.s p') = Scanner.eofOffset (Parser.s p)
    /\ (exists new, Parser.err p' = Parser.err p ++ new).
Proof.
  intros Precedence fuel lhs p p' x H.
  destruct (parser_follows Precedence fuel) as (Hexpr & _).
  exact (Hexpr lhs p x p' H).
Qed.

(** The theorem on [1 2], where the literal [2] is left. *)
Lemma parser_never_rewinds_witness :
  Parser.parseExpr token.Precedence 40 false (loaded (Lex.source "1 2"))
  = Parser.Done (Sample.int 1) Sample.one_two_at_two
  /\ (exists k,
         Scanner.items (Parser.s Sample.one_two_at_two)
         = skipn k (Scanner.items (Parser.s (loaded (Lex.source "1 2")))))
  /\ Scanner.eofOffset (Parser.s Sample.one_two_at_two)
     = Scanner.eofOffset (Parser.s (loaded (Lex.source "1 2")))
  /\ (exists new,
         Parser.err Sample.one_two_at_two
         = Parser.err (loaded (Lex.source "1 2")) ++ new).
Proof.
  assert (H : Parser.parseExpr token.Precedence 40 false (loaded (Lex.source "1 2"))
              = Parser.Done (Sample.int 1) Sample.one_two_at_two)
    by (vm_compute; reflexivity).
  split; [exact H|].
  exact (parser_never_rewinds _ _ _ _ _ _ H).
Defined.

(* ------------------------------------------------------------------ *)
(** ** The order of the recorded errors *)

Lemma sorted_app (a b : list Error) (m : Z) :
  Inv.sorted a -> Inv.sorted b ->
  Forall (fun e => Offset e <= m) a -> Forall (fun e => m <= Offset e) b ->
  Inv.sorted (a ++ b).
Proof.
  induction a as [|e a IH]; intros Ha Hb Fa Fb; [exact Hb|].
  cbn [app Inv.sorted] in *. destruct Ha as [Hhd Ha].
  split.
  - destruct a as [|e' a']; cbn [app].
    + destruct b as [|e' b']; [exact I|].
      apply Forall_inv in Fa. apply Forall_inv in Fb. lia.
    + exact Hhd.
  - apply IH; [exact Ha | exact Hb | exact (Forall_inv_tail Fa) | exact Fb].
Qed.

Lemma advances_refl p : Inv.advances p p.
Proof.
  intros H. split; [exact H|]. split; [lia|].
  exists []. rewrite app_nil_r. repeat split; constructor.
Qed.

Lemma advances_trans p q r : Inv.advances p q -> Inv.advances q r -> Inv.advances p r.
Proof.
  intros Hpq Hqr Hp.
  destruct (Hpq Hp) as (Hq & Lpq & n1 & E1 & S1 & F1).
  destruct (Hqr Hq) as (Hr & Lqr & n2 & E2 & S2 & F2).
  split; [exact Hr|]. split; [lia|].
  exists (n1 ++ n2). split; [rewrite E2, E1, app_assoc; reflexivity|].
  split.
  - apply (sorted_app n1 n2 (Scanner.Offset (Parser.s q))); [exact S1 | exact S2 | |].
    + eapply Forall_impl; [|exact F1]. cbn. intros; lia.
    + eapply Forall_impl; [|exact F2]. cbn. intros; lia.
  - apply Forall_app. split.
    + eapply Forall_impl; [|exact F1]. cbn. intros; lia.
    + eapply Forall_impl; [|exact F2]. cbn. intros; lia.
Qed.

Lemma advances_Next p :
  Inv.advances p
    (Parser.mkParser
       (Scanner.mkT (tl (Scanner.items (Parser.s p)))
          (Scanner.eofOffset (Parser.s p)))
       (Parser.err p)).
Proof.
  intros H. unfold Scanner.Offset. cbn [Parser.s Parser.err Scanner.items Scanner.eofOffset].
  destruct (Scanner.items (Parser.s p)) as [|i rest]; cbn [tl Inv.in_order] in *.
  - split; [exact I|]. split; [lia|].
    exists []. rewrite app_nil_r. repeat split; constructor.
  - destruct H as [Hi Hrest]. split; [exact Hrest|].
    split; [exact Hi|].
    exists []. rewrite app_nil_r. repeat split; constructor.
Qed.

Lemma advances_error p msg :
  Inv.advances p
    (Parser.mkParser (Parser.s p)
       (Parser.err p ++ [mkError (Scanner.Offset (Parser.s p)) msg])).
Proof.
  intros H. cbn [Parser.s Parser.err]. split; [exact H|]. split; [lia|].
  eexists. split; [reflexivity|]. split; [cbn; auto|].
  constructor; [cbn; lia | constructor].
Qed.

(** [parseExpr] records its errors in the order of the source. *)
Lemma parseExpr_advances (Precedence : token.Token -> Z) (fuel : nat) (lhs : bool) :
  Inv.keeps Inv.advances (Parser.parseExpr Precedence fuel lhs).
Proof.
  apply keeps_parser;
    [exact advances_refl | exact advances_trans | exact advances_Next
    | exact advances_error].
Qed.

Lemma in_order_Offset l eo :
  Inv.in_order l eo -> Scanner.Offset (Scanner.mkT l eo) <= eo.
Proof.
  unfold Scanner.Offset. cbn [Scanner.items Scanner.eofOffset].
  induction l as [|i rest IH]; cbn [Inv.in_order]; [lia|].
  intros [Hi Hrest]. specialize (IH Hrest).
  unfold Scanner.Offset in Hi. cbn [Scanner.items Scanner.eofOffset] in Hi.
  destruct rest; lia.
Qed.

(** On a source whose items come with offsets that do not decrease and do
    not exceed the length of the source, the [Errors] value that
    [ParseExpr] returns is not empty and lists its errors in the order of
    the source: the offsets do not decrease, and each lies between the
    offset of the first token and the length of the source. *)
Theorem ParseExpr_errors_in_order :
  forall (Precedence : token.Token -> Z) (fuel : nat) (src : Scanner.Source)
         (x : Expr) (es : list Error) (p : Parser.parser),
    Inv.in_order (Scanner.scan src) (Scanner.size src) ->
    Parser.ParseExpr Precedence fuel src = Parser.Done (x, Some (ParserErrors es)) p ->
    es <> []
    /\ Inv.sorted es
    /\ Forall (fun e => Scanner.Offset (Parser.s (loaded src)) <= Offset e
                        <= Scanner.size src) es.
Proof.
  intros Precedence fuel src x es p Hsrc H.
  apply ParseExpr_Done in H as Hd.
  destruct Hd as [(_ & _ & [[_ Hd]|(msg & _ & Hd)])|[H1 Hd]]; try discriminate.
  rewrite (ParseExpr_loaded Precedence fuel src H1), Hd in H.
  destruct (Parser.err p) as [|e0 es0] eqn:Herr.
  - destruct (Scanner_err_cases (Parser.s p)) as [E|[E|[msg E]]];
      rewrite E in H; discriminate.
  - injection H as <-. split; [discriminate|].
    destruct (parseExpr_advances Precedence fuel false _ _ _ Hd Hsrc)
      as (Hin & Hle & new & Hnew & Hsorted & Hall).
    rewrite Herr in Hnew. cbn [loaded Parser.err app] in Hnew. subst new.
    split; [exact Hsorted|].
    eapply Forall_impl; [|exact Hall]. cbn beta. intros e [Hlo Hhi].
    split; [exact Hlo|].
    pose proof (in_order_Offset _ _ Hin) as Hend.
    destruct (parser_follows Precedence fuel) as (Hexpr & _).
    destruct (Hexpr false _ _ _ Hd) as (_ & Heo & _).
    cbn [loaded Parser.s Scanner.eofOffset] in Heo.
    destruct (Parser.s p) as [l eo]. cbn [Scanner.items Scanner.eofOffset] in *.
    subst eo. lia.
Qed.

(** The theorem on [f(, 1], which records three errors. *)
Lemma ParseExpr_errors_in_order_witness :
  Inv.in_order (Scanner.scan (Lex.source "f(, 1")) (Scanner.size (Lex.source "f(, 1"))
  /\ Parser.ParseExpr token.Precedence 60 (Lex.source "f(, 1")
     = Parser.Done
         (Call (Ident "f") [Bad (Some (ParserError (Sample.expected_operand 4)))],
          Some (ParserErrors Sample.three_errors))
         (Sample.exhausted 5 Sample.three_errors)
  /\ Sample.three_errors <> []
  /\ Inv.sorted Sample.three_errors
  /\ Forall (fun e => Scanner.Offset (Parser.s (loaded (Lex.source "f(, 1")))
                      <= Offset e <= Scanner.size (Lex.source "f(, 1"))
       Sample.three_errors.
Proof.
  assert (Hsrc : Inv.in_order (Scanner.scan (Lex.source "f(, 1"))
                   (Scanner.size (Lex.source "f(, 1")))
    by (vm_compute; repeat split; discriminate).
  assert (H : Parser.ParseExpr token.Precedence 60 (Lex.source "f(, 1")
              = Parser.Done
                  (Call (Ident "f")
                     [Bad (Some (ParserError (Sample.expected_operand 4)))],
                   Some (ParserErrors Sample.three_errors))
                  (Sample.exhausted 5 Sample.three_errors))
    by (vm_compute; reflexivity).
  split; [exact Hsrc|]. split; [exact H|].
  exact (ParseExpr_errors_in_order _ _ _ _ _ _ Hsrc H).
Defined.

(* ------------------------------------------------------------------ *)
(** ** Panics *)

Local Abbreviation supported_from p :=
  (forallb Inv.supported (Scanner.items (Parser.s p)) = true).

Lemma safe_bind {A B} (m : Parser.M A) (k : A -> Parser.M B) p :
  Inv.safe (m p) ->
  (forall a q, m p = Parser.Done a q -> supported_from q -> Inv.safe (k a q)) ->
  Inv.safe (Parser.bind m k p).
Proof.
  unfold Parser.bind. destruct (m p) as [a q| |]; cbn [Inv.safe]; intros H Hk.
  - apply Hk; [reflexivity | exact H].
  - exact H.
  - exact I.
Qed.

Lemma supported_Token p :
  supported_from p ->
  Scanner.Token (Parser.s p) <> token.Period
  /\ Scanner.Token (Parser.s p) <> token.LeftBracket
  /\ Scanner.Token (Parser.s p) <> token.LeftBrace
  /\ (Scanner.Token (Parser.s p) = token.Identifier ->
      exists name, Scanner.Literal (Parser.s p) = LitString name).
Proof.
  unfold Scanner.Token, Scanner.Literal.
  destruct (Scanner.items (Parser.s p)) as [|i rest]; cbn [forallb].
  - intros _. repeat split; discriminate.
  - intros H. apply andb_true_iff in H. destruct H as [H _].
    unfold Inv.supported in H.
    destruct (Scanner.iToken i); try discriminate; repeat split; try discriminate.
    intros _. destruct (Scanner.iLiteral i); try discriminate. eexists; reflexivity.
Qed.

Lemma supported_tl p :
  supported_from p ->
  supported_from
    (Parser.mkParser
       (Scanner.mkT (tl (Scanner.items (Parser.s p)))
          (Scanner.eofOffset (Parser.s p)))
       (Parser.err p)).
Proof.
  cbn [Parser.s Scanner.items].
  destruct (Scanner.items (Parser.s p)) as [|i rest]; cbn [tl forallb]; [auto|].
  intros H. apply andb_true_iff in H. tauto.
Qed.

Lemma safe_next (fuel : nat) p : supported_from p -> Inv.safe (Parser.next fuel p).
Proof.
  revert p. induction fuel as [|fuel IH]; intros p Hp; [exact I|].
  cbn [Parser.next]. unfold Parser.bind at 1. rewrite s_Next_spec.
  unfold Parser.bind at 1, Parser.Token at 1. cbv beta iota.
  apply supported_tl in Hp.
  destruct (token.eqb _ _); [apply IH; exact Hp | exact Hp].
Qed.

Lemma safe_error (msg : string) p : supported_from p -> Inv.safe (Parser.error_ msg p).
Proof. intros Hp. rewrite error_spec. exact Hp. Qed.

Lemma safe_expect (t : token.Token) p : supported_from p -> Inv.safe (Parser.expect t p).
Proof.
  intros Hp. unfold Parser.expect, Parser.bind at 1, Parser.Token at 1. cbv beta iota zeta.
  destruct (negb _); [|exact Hp].
  apply safe_bind; [apply safe_error; exact Hp|]. intros a q _ Hq. exact Hq.
Qed.

Lemma safe_expectCommaOr (t : token.Token) (msg : string) p :
  supported_from p -> Inv.safe (Parser.expectCommaOr t msg p).
Proof.
  intros Hp. unfold Parser.expectCommaOr, Parser.bind at 1, Parser.Token at 1.
  cbv beta iota zeta.
  destruct (token.eqb _ _); [exact Hp|].
  destruct (negb _); [|exact Hp].
  apply safe_bind; [apply safe_error; exact Hp|]. intros a q _ Hq. exact Hq.
Qed.

Lemma expect_Done (t : token.Token) p met q :
  Parser.expect t p = Parser.Done met q ->
  Parser.s q = Parser.s p /\ met = token.eqb t (Scanner.Token (Parser.s p)).
Proof.
  unfold Parser.expect, Parser.bind at 1, Parser.Token at 1. cbv beta iota zeta.
  destruct (token.eqb t _) eqn:E; cbn [negb].
  - intros H. ret_inv H. split; reflexivity.
  - unfold Parser.bind. rewrite error_spec. intros H. ret_inv H. split; reflexivity.
Qed.

Lemma safe_parseIdent (fuel : nat) p :
  supported_from p -> Inv.safe (Parser.parseIdent fuel p).
Proof.
  intros Hp. unfold Parser.parseIdent.
  apply safe_bind; [apply safe_expect; exact Hp|]. intros met q Hcall Hq.
  apply expect_Done in Hcall. destruct Hcall as [Hs ->].
  apply safe_bind.
  - destruct (token.eqb _ _) eqn:E.
    + unfold Parser.bind, Parser.Literal. apply token_eqb_true in E.
      destruct (supported_Token q Hq) as (_ & _ & _ & Hid).
      rewrite <- Hs in E. symmetry in E. destruct (Hid E) as [name Hname].
      rewrite Hname. exact Hq.
    + exact Hq.
  - intros name q1 _ Hq1. apply safe_bind; [apply safe_next; exact Hq1|].
    intros u q2 _ Hq2. exact Hq2.
Qed.

Ltac safe_leaf :=
  match goal with
  | Hq : forallb Inv.supported (Scanner.items (Parser.s ?q)) = true |- Inv.safe (Parser.ret _ ?q) =>
      exact Hq
  | Hq : forallb Inv.supported (Scanner.items (Parser.s ?q)) = true,
    Ht : Scanner.Token (Parser.s ?q) = _ |- _ =>
      exfalso; destruct (supported_Token q Hq) as (? & ? & ? & _); congruence
  end.

Ltac safe_step :=
  cbv beta iota zeta;
  lazymatch goal with
  | |- Inv.safe (Parser.bind Parser.Token _ _) =>
      unfold Parser.bind at 1, Parser.Token at 1
  | |- Inv.safe (Parser.bind Parser.Literal _ _) =>
      unfold Parser.bind at 1, Parser.Literal at 1
  | |- Inv.safe (Parser.bind Parser.s_err _ _) =>
      unfold Parser.bind at 1, Parser.s_err at 1
  | |- Inv.safe (Parser.bind Parser.s_r _ _) =>
      unfold Parser.bind at 1, Parser.s_r at 1
  | |- Inv.safe (Parser.bind _ _ _) =>
      apply safe_bind;
      [ first [ apply safe_next | apply safe_expect | apply safe_expectCommaOr
              | apply safe_error | apply safe_parseIdent
              | match goal with IH : _ |- _ => apply IH end ];
        assumption
      | let a := fresh "a" in
        let q := fresh "q" in
        let Hcall := fresh "Hcall" in
        let Hq := fresh "Hq" in
        intros a q Hcall Hq ]
  | |- Inv.safe ((match ?t with _ => _ end) _) => destruct t eqn:?
  | |- Inv.safe ((if ?b then _ else _) _) => destruct b eqn:?
  | |- Inv.safe (Parser.ret _ _) => assumption
  | |- _ =>
      first [ apply safe_parseIdent; assumption
            | match goal with IH : _ |- _ => apply IH; assumption end
            | safe_leaf ]
  end.

Section Safe.
Variable Precedence : token.Token -> Z.

(** On supported items no method of the parser panics, and each leaves
    supported items. *)
Lemma parser_safe (fuel : nat) :
  (forall lhs p, supported_from p -> Inv.safe (Parser.parseExpr Precedence fuel lhs p))
  /\ (forall lhs minPrec p,
         supported_from p ->
         Inv.safe (Parser.parseBinaryExpr Precedence fuel lhs minPrec p))
  /\ (forall minPrec prec x p,
         supported_from p ->
         Inv.safe (Parser.parseBinaryExpr_levels Precedence fuel minPrec prec x p))
  /\ (forall prec x p,
         supported_from p ->
         Inv.safe (Parser.parseBinaryExpr_run Precedence fuel prec x p))
  /\ (forall lhs p,
         supported_from p -> Inv.safe (Parser.parseUnaryExpr Precedence fuel lhs p))
  /\ (forall lhs p,
         supported_from p -> Inv.safe (Parser.parsePrimaryExpr Precedence fuel lhs p))
  /\ (forall lhs p,
         supported_from p -> Inv.safe (Parser.parseOperand Precedence fuel lhs p))
  /\ (forall p, supported_from p -> Inv.safe (Parser.parseArgs Precedence fuel p))
  /\ (forall args p,
         supported_from p -> Inv.safe (Parser.parseArgs_loop Precedence fuel args p)).
Proof.
  induction fuel as [|fuel (IHexpr & IHbin & IHlev & IHrun & IHun & IHprim
                             & IHop & IHargs & IHloop)].
  { repeat match goal with |- _ /\ _ => split end; intros; exact I. }
  repeat match goal with |- _ /\ _ => split end.
  - intros lhs p Hp. cbn [Parser.parseExpr]. apply IHbin. exact Hp.
  - intros lhs minPrec p Hp. cbn [Parser.parseBinaryExpr]. repeat safe_step.
  - intros minPrec prec x p Hp. cbn [Parser.parseBinaryExpr_levels]. repeat safe_step.
  - intros prec x p Hp. cbn [Parser.parseBinaryExpr_run]. repeat safe_step.
  - intros lhs p Hp. cbn [Parser.parseUnaryExpr]. repeat safe_step.
  - intros lhs p Hp. cbn [Parser.parsePrimaryExpr]. repeat safe_step.
  - intros lhs p Hp. cbn [Parser.parseOperand]. repeat safe_step.
  - intros p Hp. cbn [Parser.parseArgs]. repeat safe_step.
  - intros args p Hp. cbn [Parser.parseArgs_loop]. repeat safe_step.
Qed.
End Safe.

Lemma raises_bind {A B} msgs (m : Parser.M A) (k : A -> Parser.M B) :
  Inv.raises msgs m -> (forall a, Inv.raises msgs (k a)) ->
  Inv.raises msgs (Parser.bind m k).
Proof.
  intros Hm Hk p msg. unfold Parser.bind.
  destruct (m p) as [a q|msg'|] eqn:E; intros H.
  - eapply Hk. exact H.
  - injection H as <-. eapply Hm. exact E.
  - discriminate.
Qed.

Lemma raises_total {A} msgs (m : Parser.M A) :
  (forall p, exists a q, m p = Parser.Done a q) -> Inv.raises msgs m.
Proof. intros H p msg E. destruct (H p) as (a & q & Hd). congruence. Qed.

Lemma raises_out {A} msgs : Inv.raises msgs (fun _ => @Parser.OutOfFuel A).
Proof. intros p msg H. discriminate. Qed.

Lemma raises_panic {A} msgs msg : In msg msgs -> Inv.raises msgs (@Parser.panic A msg).
Proof. intros Hin p msg' H. injection H as <-. exact Hin. Qed.

Ltac raises_step :=
  first
    [ apply raises_out
    | apply raises_total; intro; eexists; eexists; reflexivity
    | apply raises_panic; cbn; tauto
    | match goal with H : context [Inv.raises] |- _ => apply H end
    | apply raises_bind; [|intro]
    | match goal with
      | |- Inv.raises _ (match ?x with _ => _ end) => destruct x
      | |- Inv.raises _ (if ?b then _ else _) => destruct b
      end ].

Lemma raises_next msgs (fuel : nat) : Inv.raises msgs (Parser.next fuel).
Proof.
  induction fuel as [|fuel IH]; [apply raises_out|].
  cbn [Parser.next]. repeat raises_step.
Qed.

Lemma raises_expect msgs (t : token.Token) : Inv.raises msgs (Parser.expect t).
Proof. unfold Parser.expect. repeat raises_step. Qed.

Lemma raises_expectCommaOr msgs (t : token.Token) (msg : string) :
  Inv.raises msgs (Parser.expectCommaOr t msg).
Proof. unfold Parser.expectCommaOr. repeat raises_step. Qed.

Lemma raises_parseIdent (fuel : nat) : Inv.raises Inv.panics (Parser.parseIdent fuel).
Proof.
  unfold Parser.parseIdent.
  pose proof (raises_next Inv.panics fuel).
  pose proof (raises_expect Inv.panics token.Identifier).
  repeat raises_step.
Qed.

(** The methods of the parser panic with the six messages only. *)
Lemma parser_raises (Precedence : token.Token -> Z) (fuel : nat) :
  (forall lhs, Inv.raises Inv.panics (Parser.parseExpr Precedence fuel lhs))
  /\ (forall lhs minPrec,
         Inv.raises Inv.panics (Parser.parseBinaryExpr Precedence fuel lhs minPrec))
  /\ (forall minPrec prec x,
         Inv.raises Inv.panics
           (Parser.parseBinaryExpr_levels Precedence fuel minPrec prec x))
  /\ (forall prec x,
         Inv.raises Inv.panics (Parser.parseBinaryExpr_run Precedence fuel prec x))
  /\ (forall lhs, Inv.raises Inv.panics (Parser.parseUnaryExpr Precedence fuel lhs))
  /\ (forall lhs, Inv.raises Inv.panics (Parser.parsePrimaryExpr Precedence fuel lhs))
  /\ (forall lhs, Inv.raises Inv.panics (Parser.parseOperand Precedence fuel lhs))
  /\ Inv.raises Inv.panics (Parser.parseArgs Precedence fuel)
  /\ (forall args,
         Inv.raises Inv.panics (Parser.parseArgs_loop Precedence fuel args)).
Proof.
  induction fuel as [|fuel (IHexpr & IHbin & IHlev & IHrun & IHun & IHprim
                             & IHop & IHargs & IHloop)].
  { repeat match goal with |- _ /\ _ => split end; intros; apply raises_out. }
  pose proof (raises_next Inv.panics fuel) as Hnext.
  pose proof (raises_parseIdent fuel) as Hident.
  pose proof (raises_expect Inv.panics) as Hexpect.
  pose proof (raises_expectCommaOr Inv.panics) as Hcomma.
  repeat match goal with |- _ /\ _ => split end; intros.
  - cbn [Parser.parseExpr]. apply IHbin.
  - cbn [Parser.parseBinaryExpr]. repeat raises_step.
  - cbn [Parser.parseBinaryExpr_levels]. repeat raises_step.
  - cbn [Parser.parseBinaryExpr_run]. repeat raises_step.
  - cbn [Parser.parseUnaryExpr]. repeat raises_step.
  - cbn [Parser.parsePrimaryExpr]. repeat raises_step.
  - cbn [Parser.parseOperand]. repeat raises_step.
  - cbn [Parser.parseArgs]. repeat raises_step.
  - cbn [Parser.parseArgs_loop]. repeat raises_step.
Qed.

(** A panic of [ParseExpr] is a panic of [parseExpr]. *)
Lemma ParseExpr_Panic (Precedence : token.Token -> Z) (fuel : nat)
    (src : Scanner.Source) (msg : string) :
  Parser.ParseExpr Precedence fuel src = Parser.Panic msg ->
  Parser.parseExpr Precedence fuel false (loaded src) = Parser.Panic msg.
Proof.
  intros H.
  destruct (Scanner.err (Parser.s (loaded src))) as [e0|] eqn:E.
  - unfold Parser.ParseExpr, Parser.bind at 1 in H. rewrite s_Next_spec in H.
    cbn [Parser.newParser Scanner.NewScanner Scanner.items Scanner.eofOffset
           Parser.s Parser.err tl] in H.
    unfold loaded in E. cbn [Parser.s] in E. rewrite E in H. discriminate.
  - rewrite (ParseExpr_loaded Precedence fuel src E) in H.
    destruct (Parser.parseExpr Precedence fuel false (loaded src));
      try discriminate. injection H as ->. reflexivity.
Qed.

(** [ParseExpr] panics only on the constructs its grammar leaves open: the
    message is one of the five [TODO] messages of [parsePrimaryExpr] or the
    failed type assertion of [parseIdent], and the source holds a [.], a
    [[], a [{] or an identifier whose literal is not a string. *)
Theorem ParseExpr_panics_on_unsupported :
  forall (Precedence : token.Token -> Z) (fuel : nat) (src : Scanner.Source)
         (msg : string),
    Parser.ParseExpr Precedence fuel src = Parser.Panic msg ->
    In msg Inv.panics
    /\ forallb Inv.supported (Scanner.scan src) = false.
Proof.
  intros Precedence fuel src msg H. apply ParseExpr_Panic in H. split.
  - destruct (parser_raises Precedence fuel) as (Hexpr & _). eapply Hexpr. exact H.
  - destruct (forallb Inv.supported (Scanner.scan src)) eqn:E; [|reflexivity].
    destruct (parser_safe Precedence fuel) as (Hexpr & _).
    specialize (Hexpr false (loaded src) E). rewrite H in Hexpr.
    destruct Hexpr.
Qed.

(** The theorem on [a.b], a selector. *)
Lemma ParseExpr_panics_on_unsupported_witness :
  Parser.ParseExpr token.Precedence 60 (Lex.source "a.b")
  = Parser.Panic "TODO parse selector"
  /\ In "TODO parse selector"%string Inv.panics
  /\ forallb Inv.supported (Scanner.scan (Lex.source "a.b")) = false.
Proof.
  assert (H : Parser.ParseExpr token.Precedence 60 (Lex.source "a.b")
              = Parser.Panic "TODO parse selector")
    by (vm_compute; reflexivity).
  split; [exact H|].
  exact (ParseExpr_panics_on_unsupported _ _ _ _ H).
Defined.

(** On a source without [.], [[] and [{], in which every identifier
    carries its name, [ParseExpr] returns a tree and an error value: it
    neither panics nor runs on, whatever else the source holds.  The fuel
    is linear in the number of items, and the operator table gives no level
    to the token of the exhausted scanner. *)
Theorem ParseExpr_returns_on_supported :
  forall (Precedence : token.Token -> Z) (fuel : nat) (src : Scanner.Source),
    Precedence token.Unknown < 1 ->
    forallb Inv.supported (Scanner.scan src) = true ->
    (Measure.enough Precedence (Datatypes.length (Scanner.scan src)) <= fuel)%nat ->
    exists x e p, Parser.ParseExpr Precedence fuel src = Parser.Done (x, e) p.
Proof.
  intros Precedence fuel src HU Hsup Hfuel.
  pose proof (ParseExpr_halts Precedence HU fuel src Hfuel) as Hh.
  destruct (Parser.ParseExpr Precedence fuel src) as [[x e] p|msg|] eqn:E.
  - exists x, e, p. reflexivity.
  - exfalso. apply ParseExpr_Panic in E.
    destruct (parser_safe Precedence fuel) as (Hexpr & _).
    specialize (Hexpr false (loaded src) Hsup). rewrite E in Hexpr.
    exact Hexpr.
  - congruence.
Qed.

(** The theorem on [f(1, 2) * -3], at the modelled operator table. *)
Lemma ParseExpr_returns_on_supported_witness :
  token.Precedence token.Unknown < 1
  /\ forallb Inv.supported (Scanner.scan (Lex.source "f(1, 2) * -3")) = true
  /\ (Measure.enough token.Precedence
        (Datatypes.length (Scanner.scan (Lex.source "f(1, 2) * -3"))) <= 120)%nat
  /\ exists x e p,
       Parser.ParseExpr token.Precedence 120 (Lex.source "f(1, 2) * -3")
       = Parser.Done (x, e) p.
Proof.
  assert (HU : token.Precedence token.Unknown < 1) by (cbn; lia).
  assert (Hsup : forallb Inv.supported (Scanner.scan (Lex.source "f(1, 2) * -3")) = true)
    by (vm_compute; reflexivity).
  assert (Hfuel : (Measure.enough token.Precedence
                     (Datatypes.length (Scanner.scan (Lex.source "f(1, 2) * -3")))
                   <= 120)%nat)
    by (vm_compute; lia).
  split; [exact HU|]. split; [exact Hsup|]. split; [exact Hfuel|].
  exact (ParseExpr_returns_on_supported _ _ _ HU Hsup Hfuel).
Defined.

(* ------------------------------------------------------------------ *)
(** ** What [next] leaves *)

(** [next] drops the current token and every comment that follows it, and
    nothing else: it leaves the scanner on the first token after the current
    one that is not a comment, or exhausted when there is none, with the
    errors and the end offset untouched.  One unit of fuel per dropped
    token is enough. *)
Theorem next_skips_comments :
  forall (fuel : nat) (p : Parser.parser),
    (Datatypes.length (tl (Scanner.items (Parser.s p))) < fuel)%nat ->
    Parser.next fuel p
    = Parser.Done tt
        (Parser.mkParser
           (Scanner.mkT (Inv.skip_comments (tl (Scanner.items (Parser.s p))))
              (Scanner.eofOffset (Parser.s p)))
           (Parser.err p)).
Proof.
  induction fuel as [|fuel IH]; intros p Hlen; [lia|].
  cbn [Parser.next]. unfold Parser.bind at 1. rewrite s_Next_spec.
  unfold Parser.bind at 1, Parser.Token at 1. cbv beta iota.
  unfold Scanner.Token. cbn [Parser.s Scanner.items].
  destruct (tl (Scanner.items (Parser.s p))) as [|i rest] eqn:E.
  - reflexivity.
  - cbn [Inv.skip_comments].
    destruct (token.eqb (Scanner.iToken i) token.Comment) eqn:Ec; [|reflexivity].
    rewrite IH; cbn [Parser.s Parser.err Scanner.items Scanner.eofOffset tl].
    + reflexivity.
    + cbn [Datatypes.length] in Hlen. lia.
Qed.

(** The theorem on [1 + /*a*/ /*b*/ /*c*/ 2], after the operator. *)
Lemma next_skips_comments_witness :
  (Datatypes.length (tl (Scanner.items (Parser.s Sample.commented_at_plus))) < 5)%nat
  /\ Parser.next 5 Sample.commented_at_plus
     = Parser.Done tt
         (Parser.mkParser
            (Scanner.mkT
               (Inv.skip_comments (tl (Scanner.items (Parser.s Sample.commented_at_plus))))
               (Scanner.eofOffset (Parser.s Sample.commented_at_plus)))
            (Parser.err Sample.commented_at_plus))
  /\ Inv.skip_comments (tl (Scanner.items (Parser.s Sample.commented_at_plus)))
     = Scanner.items (Parser.s Sample.commented_at_two).
Proof.
  assert (H : (Datatypes.length
                 (tl (Scanner.items (Parser.s Sample.commented_at_plus))) < 5)%nat)
    by (vm_compute; lia).
  split; [exact H|].
  split; [exact (next_skips_comments 5 Sample.commented_at_plus H) | reflexivity].
Defined.

(* ------------------------------------------------------------------ *)
(** ** The parameter [lhs] *)

Lemma bind_Token {B} (k : token.Token -> Parser.M B) p :
  Parser.bind Parser.Token k p = k (Scanner.Token (Parser.s p)) p.
Proof. reflexivity. Qed.

Lemma bind_ext {A B} (m m' : Parser.M A) (k : A -> Parser.M B) p :
  m p = m' p -> Parser.bind m k p = Parser.bind m' k p.
Proof. unfold Parser.bind. intros ->. reflexivity. Qed.

(** The parameter [lhs] that [parseExpr], [parseBinaryExpr],
    [parseUnaryExpr], [parsePrimaryExpr] and [parseOperand] hand to each
    other has no influence on what they do: with either value they return
    the same tree and leave the same state, or panic alike. *)
Theorem parser_ignores_lhs (Precedence : token.Token -> Z) (fuel : nat) :
  (forall lhs lhs' p,
      Parser.parseExpr Precedence fuel lhs p = Parser.parseExpr Precedence fuel lhs' p)
  /\ (forall lhs lhs' minPrec p,
         Parser.parseBinaryExpr Precedence fuel lhs minPrec p
         = Parser.parseBinaryExpr Precedence fuel lhs' minPrec p)
  /\ (forall lhs lhs' p,
         Parser.parseUnaryExpr Precedence fuel lhs p
         = Parser.parseUnaryExpr Precedence fuel lhs' p)
  /\ (forall lhs lhs' p,
         Parser.parsePrimaryExpr Precedence fuel lhs p
         = Parser.parsePrimaryExpr Precedence fuel lhs' p)
  /\ (forall lhs lhs' p,
         Parser.parseOperand Precedence fuel lhs p
         = Parser.parseOperand Precedence fuel lhs' p).
Proof.
  induction fuel as [|fuel (IHexpr & IHbin & IHun & IHprim & IHop)].
  { repeat match goal with |- _ /\ _ => split end; intros; reflexivity. }
  repeat match goal with |- _ /\ _ => split end; intros.
  - cbn [Parser.parseExpr]. apply IHbin.
  - cbn [Parser.parseBinaryExpr]. apply bind_ext. apply IHun.
  - cbn [Parser.parseUnaryExpr]. rewrite !bind_Token.
    destruct (Scanner.Token (Parser.s p)); try reflexivity; apply IHprim.
  - cbn [Parser.parsePrimaryExpr]. apply bind_ext. apply IHop.
  - cbn [Parser.parseOperand]. reflexivity.
Qed.

(* ------------------------------------------------------------------ *)
(** ** When the serializer panics *)

Lemma exprsStr_None (es : list Expr) :
  Exists (fun e => exprSexp e = None) es -> exprsStr exprSexp es = None.
Proof.
  induction es as [|a es IH]; intros H; [inversion H|].
  cbn [exprsStr]. destruct (exprSexp a) as [sa|] eqn:Ea; [|reflexivity].
  cbn [bindS].
  assert (Hes : Exists (fun e => exprSexp e = None) es).
  { apply Exists_cons in H. destruct H as [H|H]; [congruence | exact H]. }
  rewrite (IH Hes). destruct es; [inversion Hes | reflexivity].
Qed.

Lemma TableLiteral_rows_None (Rows : list (list Expr)) :
  Exists (Exists (fun e => exprSexp e = None)) Rows ->
  forall rows, TableLiteral_rows exprSexp rows Rows = None.
Proof.
  induction Rows as [|row Rows IH]; intros H rows; [inversion H|].
  cbn [TableLiteral_rows]. apply Exists_cons in H.
  destruct (exprsStr exprSexp row) as [r|] eqn:Er; [|reflexivity].
  cbn [bindS]. destruct H as [H|H]; [|apply IH; exact H].
  rewrite (exprsStr_None row H) in Er. discriminate.
Qed.

Lemma exprSexp_None_not_Nil (e : Expr) : exprSexp e = None -> isNil e = false.
Proof. destruct e; intros H; try reflexivity. discriminate. Qed.

Lemma rangeSexp_None (r : Range Expr) :
  exprSexp (Start r) = None \/ exprSexp (End_ r) = None \/ exprSexp (Exact r) = None ->
  rangeSexp exprSexp r = None.
Proof.
  unfold rangeSexp. intros [H|[H|H]]; rewrite (exprSexp_None_not_Nil _ H), H.
  - reflexivity.
  - destruct (isNil (Start r)); [reflexivity|].
    destruct (exprSexp (Start r)); reflexivity.
  - destruct (isNil (Start r)), (isNil (End_ r)),
      (exprSexp (Start r)), (exprSexp (End_ r)); reflexivity.
Qed.

(** A nil pointer to a [Bad], [FuncLiteral], [CompLiteral], [TableLiteral]
    or [TableIndex], wherever it is in the tree, makes [exprSexp] panic. *)
Lemma exprSexp_unguarded :
  forall e : Expr, guarded e = false -> exprSexp e = None.
Proof.
  fix IH 1. intros e.
  assert (IHs : forall es, forallb guarded es = false ->
                           Exists (fun e => exprSexp e = None) es).
  { induction es as [|a es IHes]; intros H; [discriminate|].
    cbn [forallb] in H. apply andb_false_iff in H. destruct H as [H|H].
    - apply Exists_cons_hd. apply IH. exact H.
    - apply Exists_cons_tl. apply IHes. exact H. }
  destruct e as [ |k|Op l r|Op x|err|l right|v|n rn ptr ty pn rns b
                 |ty names els|ty cols rows|name|f args|x names c r];
    cbn [guarded]; intros H; try discriminate.
  - cbn [exprSexp]. destruct (Sexp_nil k); [discriminate | reflexivity].
  - cbn [exprSexp]. unfold Binary_Sexp.
    apply andb_false_iff in H. destruct H as [H|H].
    + rewrite (IH l H). reflexivity.
    + rewrite (IH r H). destruct (exprSexp l); reflexivity.
  - cbn [exprSexp]. unfold Unary_Sexp. rewrite (IH x H). reflexivity.
  - cbn [exprSexp]. unfold Selector_Sexp. rewrite (IH l H). reflexivity.
  - cbn [exprSexp]. unfold CompLiteral_Sexp.
    rewrite (exprsStr_None els (IHs els H)). reflexivity.
  - cbn [exprSexp]. unfold TableLiteral_Sexp.
    apply andb_false_iff in H. destruct H as [H|H].
    + rewrite (exprsStr_None cols (IHs cols H)).
      destruct (TableLiteral_rows exprSexp "" rows); reflexivity.
    + rewrite TableLiteral_rows_None; [reflexivity|].
      induction rows as [|row rows IHrows]; [discriminate|].
      cbn [forallb] in H. apply andb_false_iff in H. destruct H as [H|H].
      * apply Exists_cons_hd. apply IHs. exact H.
      * apply Exists_cons_tl. apply IHrows. exact H.
  - cbn [exprSexp]. unfold Call_Sexp.
    apply andb_false_iff in H. destruct H as [H|H].
    + rewrite (IH f H). reflexivity.
    + rewrite (exprsStr_None args (IHs args H)).
      destruct (exprSexp f); reflexivity.
  - cbn [exprSexp]. unfold TableIndex_Sexp.
    assert (Hr : forall q : Range Expr,
               guarded (Start q) && guarded (End_ q) && guarded (Exact q) = false ->
               rangeSexp exprSexp q = None).
    { intros q Hq. apply rangeSexp_None.
      apply andb_false_iff in Hq. destruct Hq as [Hq|Hq].
      - apply andb_false_iff in Hq. destruct Hq as [Hq|Hq]; [left | right; left];
          apply IH; exact Hq.
      - right; right. apply IH. exact Hq. }
    apply andb_false_iff in H. destruct H as [H|H].
    + apply andb_false_iff in H. destruct H as [H|H].
      * rewrite (IH x H). reflexivity.
      * rewrite (Hr c H). destruct (exprSexp x); reflexivity.
    + rewrite (Hr r H). destruct (exprSexp x); [|reflexivity].
      destruct (rangeSexp exprSexp c); reflexivity.
Qed.

(** [exprSexp] panics on exactly the trees that hold, at any depth, a nil
    pointer to a [Bad], [FuncLiteral], [CompLiteral], [TableLiteral] or
    [TableIndex]; on every other tree, with nil interfaces and nil pointers
    of the six guarded types anywhere, it returns a string. *)
Theorem exprSexp_panics_iff_unguarded :
  forall e : Expr,
    (exprSexp e = None <-> guarded e = false)
    /\ ((exists s, exprSexp e = Some s) <-> guarded e = true).
Proof.
  intros e. destruct (guarded e) eqn:G.
  - destruct (exprSexp_total e G) as [s Hs]. rewrite Hs. split; split; intros H.
    + discriminate.
    + discriminate.
    + reflexivity.
    + exists s. reflexivity.
  - rewrite (exprSexp_unguarded e G). split; split; intros H.
    + reflexivity.
    + reflexivity.
    + destruct H as [s H]. discriminate.
    + discriminate.
Qed.

(* ------------------------------------------------------------------ *)
(** ** [Bad] nodes and the recorded errors *)

Lemma reported_app es es' q :
  Inv.reported es q -> Inv.reported es' q -> Inv.reported (es ++ es') q.
Proof. intros H H'. apply Forall_app. split; assumption. Qed.

Lemma reported_keeps {A} (m : Parser.M A) es p a q :
  Inv.keeps Inv.follows m -> m p = Parser.Done a q ->
  Inv.reported es p -> Inv.reported es q.
Proof.
  intros Hm H Hes. destruct (Hm p a q H) as (_ & _ & new & Hnew).
  eapply Forall_impl; [|exact Hes]. cbn beta. intros err [Hmsg Hin].
  split; [exact Hmsg|]. rewrite Hnew. apply in_or_app. left. exact Hin.
Qed.

Lemma follows_next (fuel : nat) : Inv.keeps Inv.follows (Parser.next fuel).
Proof.
  apply keeps_next;
    first [exact follows_refl | exact follows_trans | exact follows_Next
          | exact follows_error].
Qed.

Lemma follows_expect (t : token.Token) : Inv.keeps Inv.follows (Parser.expect t).
Proof.
  apply keeps_expect;
    first [exact follows_refl | exact follows_trans | exact follows_Next
          | exact follows_error].
Qed.

Lemma follows_expectCommaOr (t : token.Token) (msg : string) :
  Inv.keeps Inv.follows (Parser.expectCommaOr t msg).
Proof.
  apply keeps_expectCommaOr;
    first [exact follows_refl | exact follows_trans | exact follows_Next
          | exact follows_error].
Qed.

Lemma Bad_scanner_error (s : Scanner.T) (e : error) :
  Scanner.err s = Some e -> Inv.bad_errors (Bad (Some e)) = [].
Proof.
  intros H. destruct (Scanner_err_cases s) as [E|[E|[msg E]]];
    rewrite E in H; try discriminate; injection H as <-; reflexivity.
Qed.

(** What is reported before the call [H] is reported after it. *)
Ltac over H :=
  eapply reported_keeps; [ | exact H | ];
  [ first [ apply follows_next | apply follows_expect
          | apply follows_expectCommaOr
          | match goal with F : _ |- _ => apply F end ] | ].

Section Reported.

Variable Precedence : token.Token -> Z.

(** The parser errors in the [Bad] nodes of a tree that a method returns
    are among the recorded errors, with the message "expected operand". *)
Lemma parser_reported (fuel : nat) :
  (forall lhs p x q,
      Parser.parseExpr Precedence fuel lhs p = Parser.Done x q ->
      Inv.reported (Inv.bad_errors x) q)
  /\ (forall lhs minPrec p x q,
         Parser.parseBinaryExpr Precedence fuel lhs minPrec p = Parser.Done x q ->
         Inv.reported (Inv.bad_errors x) q)
  /\ (forall minPrec prec x0 p x q,
         Inv.reported (Inv.bad_errors x0) p ->
         Parser.parseBinaryExpr_levels Precedence fuel minPrec prec x0 p
         = Parser.Done x q ->
         Inv.reported (Inv.bad_errors x) q)
  /\ (forall prec x0 p x q,
         Inv.reported (Inv.bad_errors x0) p ->
         Parser.parseBinaryExpr_run Precedence fuel prec x0 p = Parser.Done x q ->
         Inv.reported (Inv.bad_errors x) q)
  /\ (forall lhs p x q,
         Parser.parseUnaryExpr Precedence fuel lhs p = Parser.Done x q ->
         Inv.reported (Inv.bad_errors x) q)
  /\ (forall lhs p x q,
         Parser.parsePrimaryExpr Precedence fuel lhs p = Parser.Done x q ->
         Inv.reported (Inv.bad_errors x) q)
  /\ (forall lhs p x q,
         Parser.parseOperand Precedence fuel lhs p = Parser.Done x q ->
         Inv.reported (Inv.bad_errors x) q)
  /\ (forall p args q,
         Parser.parseArgs Precedence fuel p = Parser.Done args q ->
         Inv.reported (flat_map Inv.bad_errors args) q)
  /\ (forall args0 p args q,
         Inv.reported (flat_map Inv.bad_errors args0) p ->
         Parser.parseArgs_loop Precedence fuel args0 p = Parser.Done args q ->
         Inv.reported (flat_map Inv.bad_errors args) q).
Proof.
  induction fuel as [|fuel (IHexpr & IHbin & IHlev & IHrun & IHun & IHprim
                             & IHop & IHargs & IHloop)].
  { repeat match goal with |- _ /\ _ => split end; intros; discriminate. }
  destruct (parser_follows Precedence fuel)
    as (Fexpr & Fbin & Flev & Frun & Fun_ & Fprim & Fop & Fargs & Floop).
  repeat match goal with |- _ /\ _ => split end.
  - intros lhs p x q H. cbn [Parser.parseExpr] in H. eapply IHbin; exact H.
  - intros lhs minPrec p x q H. cbn [Parser.parseBinaryExpr] in H. exec H.
    eapply IHlev; [|exact H]. eapply IHun; exact Hcall.
  - intros minPrec prec x0 p x q Hx H. cbn [Parser.parseBinaryExpr_levels] in H.
    exec H.
    + eapply IHlev; [|exact H]. eapply IHrun; [exact Hx | exact Hcall].
    + ret_inv H. exact Hx.
  - intros prec x0 p x q Hx H. cbn [Parser.parseBinaryExpr_run] in H. exec H.
    + ret_inv H. exact Hx.
    + eapply IHrun; [|exact H]. cbn [Inv.bad_errors]. apply reported_app.
      * over Hcall0. over Hcall. exact Hx.
      * eapply IHbin; exact Hcall0.
  - intros lhs p x q H. cbn [Parser.parseUnaryExpr] in H. exec H;
      try (eapply IHprim; exact H);
      try (ret_inv H;
           first [ erewrite Bad_scanner_error by eassumption; constructor
                 | cbn [Inv.bad_errors]; eapply IHun; eassumption ]).
  - intros lhs p x q H. cbn [Parser.parsePrimaryExpr] in H. exec H;
      try (ret_inv H; eapply IHop; exact Hcall).
    ret_inv H. cbn [Inv.bad_errors]. apply reported_app.
    + over Hcall0. eapply IHop; exact Hcall.
    + eapply IHargs; exact Hcall0.
  - intros lhs p x q H. cbn [Parser.parseOperand] in H. exec H;
      try (apply parseIdent_Ident in H; destruct H as [name ->]; constructor);
      try (ret_inv H; cbn [Inv.bad_errors];
           first [ constructor; fail
                 | over Hcall1; eapply IHexpr; exact Hcall0
                 | idtac ]).
    all: rewrite error_spec in Hcall0; injection Hcall0 as <- <-.
    all: cbn [Inv.bad_errors]; constructor; [|constructor].
    all: split; [reflexivity|]; cbn [Parser.err]; apply in_or_app; right;
      left; reflexivity.
  - intros p args q H. cbn [Parser.parseArgs] in H. exec H. ret_inv H.
    over Hcall3. over Hcall2. eapply IHloop; [|exact Hcall1]. constructor.
  - intros args0 p args q Hargs H. cbn [Parser.parseArgs_loop] in H. exec H.
    + ret_inv H. rewrite flat_map_app. apply reported_app.
      * over Hcall0. over Hcall. exact Hargs.
      * cbn [flat_map]. rewrite app_nil_r. over Hcall0. eapply IHexpr; exact Hcall.
    + eapply IHloop; [|exact H]. rewrite flat_map_app. apply reported_app.
      * over Hcall1. over Hcall0. over Hcall. exact Hargs.
      * cbn [flat_map]. rewrite app_nil_r. over Hcall1. over Hcall0.
        eapply IHexpr; exact Hcall.
    + ret_inv H. exact Hargs.
Qed.
End Reported.

(** Every parser error that sits in a [Bad] node of the tree [ParseExpr]
    returns says "expected operand" and is listed in the [Errors] value
    returned with the tree; so a tree returned with a nil error holds no
    such node. *)
Theorem ParseExpr_bad_nodes_reported :
  forall (Precedence : token.Token -> Z) (fuel : nat) (src : Scanner.Source)
         (x : Expr) (e : option error) (p : Parser.parser),
    Parser.ParseExpr Precedence fuel src = Parser.Done (x, e) p ->
    (forall err, In err (Inv.bad_errors x) ->
       Msg err = "expected operand"%string
       /\ exists es, e = Some (ParserErrors es) /\ In err es)
    /\ (e = None -> Inv.bad_errors x = []).
Proof.
  intros Precedence fuel src x e p H.
  assert (Hall : forall err, In err (Inv.bad_errors x) ->
            Msg err = "expected operand"%string
            /\ exists es, e = Some (ParserErrors es) /\ In err es).
  { apply ParseExpr_Done in H as Hd.
    destruct Hd as [(-> & _)|[H1 Hd]]; [intros err []|].
    destruct (parser_reported Precedence fuel) as (Hexpr & _).
    pose proof (Hexpr _ _ _ _ Hd) as Hrep.
    intros err Hin. unfold Inv.reported in Hrep. rewrite Forall_forall in Hrep.
    destruct (Hrep err Hin) as [Hmsg Herr]. split; [exact Hmsg|].
    rewrite (ParseExpr_loaded Precedence fuel src H1), Hd in H.
    destruct (Parser.err p) as [|e0 es0] eqn:E; [destruct Herr|].
    injection H as <-. exists (e0 :: es0). split; [reflexivity | exact Herr]. }
  split; [exact Hall|].
  intros ->. destruct (Inv.bad_errors x) as [|err l]; [reflexivity|].
  destruct (Hall err (or_introl eq_refl)) as (_ & es & Hes & _). discriminate.
Qed.

(** The theorem on [f(, 1]. *)
Lemma ParseExpr_bad_nodes_reported_witness :
  Parser.ParseExpr token.Precedence 60 (Lex.source "f(, 1")
  = Parser.Done
      (Call (Ident "f") [Bad (Some (ParserError (Sample.expected_operand 4)))],
       Some (ParserErrors Sample.three_errors))
      (Sample.exhausted 5 Sample.three_errors)
  /\ (forall err,
        In err (Inv.bad_errors
                  (Call (Ident "f")
                     [Bad (Some (ParserError (Sample.expected_operand 4)))])) ->
        Msg err = "expected operand"%string
        /\ exists es, Some (ParserErrors Sample.three_errors) = Some (ParserErrors es)
                      /\ In err es)
  /\ (Some (ParserErrors Sample.three_errors) = None ->
      Inv.bad_errors
        (Call (Ident "f") [Bad (Some (ParserError (Sample.expected_operand 4)))])
      = []).
Proof.
  assert (H : Parser.ParseExpr token.Precedence 60 (Lex.source "f(, 1")
              = Parser.Done
                  (Call (Ident "f")
                     [Bad (Some (ParserError (Sample.expected_operand 4)))],
                   Some (ParserErrors Sample.three_errors))
                  (Sample.exhausted 5 Sample.three_errors))
    by (vm_compute; reflexivity).
  split; [exact H|].
  exact (ParseExpr_bad_nodes_reported _ _ _ _ _ _ H).
Defined.

(* ------------------------------------------------------------------ *)
(** ** Prefix operators at the end of the source *)


(** On a run of [+], [-] and [!] that ends the source, [parseUnaryExpr]
    nests the operators and ends on a [Bad] node with [io.EOF] in the place
    of the last one. *)
Lemma parseUnaryExpr_signs (Precedence : token.Token -> Z) :
  forall (l : list Scanner.Item) (i : Scanner.Item) (eo : Z) (errs : list Error)
         (lhs : bool) (fuel : nat),
    forallb Inv.sign_item (i :: l) = true ->
    Parser.parseUnaryExpr Precedence (2 * Datatypes.length l + 2 + fuel) lhs
      (Parser.mkParser (Scanner.mkT (i :: l) eo) errs)
    = Parser.Done (Inv.dangling (map Scanner.iToken (i :: l)))
        (Sample.exhausted eo errs).
Proof.
  induction l as [|j l IH]; intros i eo errs lhs fuel Hall.
  - cbn [forallb] in Hall. rewrite andb_true_r in Hall.
    unfold Inv.sign_item in Hall. apply andb_true_iff in Hall.
    destruct Hall as [Ht _]. cbn [Datatypes.length Nat.mul Nat.add].
    cbn [Parser.parseUnaryExpr]. rewrite bind_Token.
    unfold Scanner.Token. cbn [Parser.s Scanner.items].
    destruct (Scanner.iToken i); try discriminate; reflexivity.
  - cbn [forallb] in Hall. apply andb_true_iff in Hall. destruct Hall as [Hi Hall].
    specialize (IH j eo errs false (S fuel) Hall).
    cbn [forallb] in Hall. apply andb_true_iff in Hall. destruct Hall as [Hj _].
    unfold Inv.sign_item in Hi, Hj.
    apply andb_true_iff in Hi. destruct Hi as [Hti _].
    apply andb_true_iff in Hj. destruct Hj as [Htj Hej].
    replace (2 * Datatypes.length (j :: l) + 2 + fuel)%nat
      with (S (S (2 * Datatypes.length l + 2 + fuel)))%nat
      by (cbn [Datatypes.length]; lia).
    replace (2 * Datatypes.length l + 2 + S fuel)%nat
      with (S (2 * Datatypes.length l + 2 + fuel))%nat in IH by lia.
    set (n := (2 * Datatypes.length l + 2 + fuel)%nat) in *.
    assert (Hnext : Parser.next (S n)
                      (Parser.mkParser (Scanner.mkT (i :: j :: l) eo) errs)
                    = Parser.Done tt (Parser.mkParser (Scanner.mkT (j :: l) eo) errs)).
    { cbn [Parser.next]. unfold Parser.bind at 1. rewrite s_Next_spec.
      rewrite bind_Token. unfold Scanner.Token. cbn [Parser.s Scanner.items tl].
      destruct (Scanner.iToken j); try discriminate; reflexivity. }
    assert (Herr : Scanner.err (Scanner.mkT (j :: l) eo) = None).
    { unfold Scanner.err. cbn [Scanner.items].
      destruct (Scanner.iErr j); [discriminate | reflexivity]. }
    change (Parser.parseUnaryExpr Precedence (S (S n)) lhs)
      with (Parser.bind Parser.Token (fun tok =>
              match tok with
              | token.Add | token.Sub | token.Not =>
                  Parser.bind (Parser.next (S n)) (fun _ =>
                  Parser.bind Parser.s_err (fun e =>
                    match e with
                    | Some _ => Parser.ret (Bad e)
                    | None =>
                        Parser.bind (Parser.parseUnaryExpr Precedence (S n) false)
                          (fun x => Parser.ret (Unary tok x))
                    end))
              | token.Mul =>
                  Parser.bind (Parser.next (S n)) (fun _ =>
                  Parser.bind (Parser.parseUnaryExpr Precedence (S n) false)
                    (fun x => Parser.ret (Unary token.Mul x)))
              | _ => Parser.parsePrimaryExpr Precedence (S n) lhs
              end)).
    rewrite bind_Token. unfold Scanner.Token. cbn [Parser.s Scanner.items].
    change (Inv.dangling (map Scanner.iToken (i :: j :: l)))
      with (Unary (Scanner.iToken i) (Inv.dangling (map Scanner.iToken (j :: l)))).
    destruct (Scanner.iToken i); try discriminate;
      rewrite (bind_eq _ _ _ _ _ Hnext);
      unfold Parser.bind at 1, Parser.s_err at 1; cbn [Parser.s];
      rewrite Herr;
      rewrite (bind_eq _ _ _ _ _ IH); reflexivity.
Qed.

(** A source that consists of prefix operators [+], [-] and [!] only is
    parsed without any error: [ParseExpr] returns a nil error and a tree in
    which the last operator is replaced by a [Bad] node holding [io.EOF],
    under the [Unary] nodes of the operators before it. *)
Theorem ParseExpr_dangling_signs :
  forall (Precedence : token.Token -> Z) (src : Scanner.Source) (fuel : nat),
    Precedence token.Unknown < 1 ->
    Scanner.scan src <> [] ->
    forallb Inv.sign_item (Scanner.scan src) = true ->
    Parser.ParseExpr Precedence (2 * Datatypes.length (Scanner.scan src) + 4 + fuel) src
    = Parser.Done (Inv.dangling (map Scanner.iToken (Scanner.scan src)), None)
        (Sample.exhausted (Scanner.size src) []).
Proof.
  intros Precedence [[|i l] size] fuel HU Hne Hall; [exfalso; apply Hne; reflexivity|].
  cbn [Scanner.scan Scanner.size] in *.
  assert (Hfirst : Scanner.err (Parser.s (loaded (Scanner.mkSource (i :: l) size))) = None).
  { unfold Scanner.err. cbn. cbn [forallb] in Hall. apply andb_true_iff in Hall.
    destruct Hall as [Hi _]. unfold Inv.sign_item in Hi.
    apply andb_true_iff in Hi. destruct Hi as [_ Hi].
    destruct (Scanner.iErr i); [discriminate | reflexivity]. }
  rewrite (ParseExpr_loaded Precedence _ _ Hfirst).
  replace (2 * Datatypes.length (i :: l) + 4 + fuel)%nat
    with (S (S (2 * Datatypes.length l + 2 + (S (S fuel)))))%nat
    by (cbn [Datatypes.length]; lia).
  cbn [Parser.parseExpr Parser.parseBinaryExpr].
  unfold loaded, Measure.loaded. cbn [Scanner.scan Scanner.size].
  rewrite (bind_eq _ _ _ _ _
             (parseUnaryExpr_signs Precedence l i size [] false (S (S fuel)) Hall)).
  rewrite bind_Token.
  replace (2 * Datatypes.length l + 2 + S (S fuel))%nat
    with (S (2 * Datatypes.length l + 2 + S fuel))%nat by lia.
  cbn [Parser.parseBinaryExpr_levels].
  unfold Scanner.Token, Sample.exhausted. cbn [Parser.s Scanner.items].
  destruct (Precedence token.Unknown >=? 1) eqn:E.
  - rewrite Z.geb_leb in E. apply Z.leb_le in E. lia.
  - reflexivity.
Qed.

(** The theorem on [- + !]. *)
Lemma ParseExpr_dangling_signs_witness :
  token.Precedence token.Unknown < 1
  /\ Scanner.scan (Lex.source "- + !") <> []
  /\ forallb Inv.sign_item (Scanner.scan (Lex.source "- + !")) = true
  /\ Parser.ParseExpr token.Precedence
       (2 * Datatypes.length (Scanner.scan (Lex.source "- + !")) + 4 + 0)
       (Lex.source "- + !")
     = Parser.Done
         (Inv.dangling (map Scanner.iToken (Scanner.scan (Lex.source "- + !"))), None)
         (Sample.exhausted (Scanner.size (Lex.source "- + !")) [])
  /\ Inv.dangling (map Scanner.iToken (Scanner.scan (Lex.source "- + !")))
     = Unary token.Sub (Unary token.Add (Bad (Some io_EOF))).
Proof.
  assert (HU : token.Precedence token.Unknown < 1) by (cbn; lia).
  assert (Hne : Scanner.scan (Lex.source "- + !") <> []) by (vm_compute; discriminate).
  assert (Hall : forallb Inv.sign_item (Scanner.scan (Lex.source "- + !")) = true)
    by (vm_compute; reflexivity).
  split; [exact HU|]. split; [exact Hne|]. split; [exact Hall|].
  split; [exact (ParseExpr_dangling_signs _ _ 0%nat HU Hne Hall) | reflexivity].
Defined.

(* ------------------------------------------------------------------ *)
(** ** A call cut short by the end of the source *)


(** When the source ends one token after the opening parenthesis of a call,
    as in [f(1], that token is not parsed as an argument: the loop of
    [parseArgs] is not entered on the last token of a source.  The call has
    no arguments, and the one recorded error says that the closing
    parenthesis was expected where the token is. *)
Theorem ParseExpr_call_last_token_dropped :
  forall (Precedence : token.Token -> Z) (fuel : nat) (name : string)
         (f open last : Scanner.Item) (size : Z),
    Precedence token.Unknown < 1 ->
    Scanner.iToken f = token.Identifier ->
    Scanner.iLiteral f = LitString name ->
    Scanner.iErr f = None ->
    Scanner.iToken open = token.LeftParen ->
    Scanner.iToken last <> token.RightParen ->
    Scanner.iToken last <> token.Comment ->
    Scanner.iR last <= 0 ->
    Parser.ParseExpr Precedence (7 + fuel) (Scanner.mkSource [f; open; last] size)
    = Parser.Done
        (Call (Ident name) [],
         Some (ParserErrors
                 [Sample.expected_found (Scanner.iOffset last) token.RightParen
                    (Scanner.iToken last)]))
        (Sample.exhausted size
           [Sample.expected_found (Scanner.iOffset last) token.RightParen
              (Scanner.iToken last)]).
Proof.
  intros Precedence fuel name f open last size HU Hf Hname Hferr Hopen Hlast Hcomment Hr.
  set (e := Sample.expected_found (Scanner.iOffset last) token.RightParen
              (Scanner.iToken last)).
  set (p0 := Parser.mkParser (Scanner.mkT [f; open; last] size) []).
  set (p1 := Parser.mkParser (Scanner.mkT [open; last] size) []).
  set (p2 := Parser.mkParser (Scanner.mkT [last] size) []).
  set (p3 := Parser.mkParser (Scanner.mkT [last] size) [e]).
  assert (Hfirst : Scanner.err (Parser.s (loaded (Scanner.mkSource [f; open; last] size)))
                   = None).
  { unfold Scanner.err. cbn. rewrite Hferr. reflexivity. }
  rewrite (ParseExpr_loaded Precedence _ _ Hfirst).
  change (loaded (Scanner.mkSource [f; open; last] size)) with p0.
  assert (H01 : Parser.next (S (S fuel)) p0 = Parser.Done tt p1).
  { apply next_one. unfold Scanner.Token. cbn. rewrite Hopen. discriminate. }
  assert (Hop : Parser.parseOperand Precedence (S (S (S fuel))) false p0
                = Parser.Done (Ident name) p1).
  { apply parseOperand_ident; [exact Hf | exact Hname | exact H01]. }
  assert (Hprim : Parser.parsePrimaryExpr Precedence (S (S (S (S fuel)))) false p0
                  = Parser.Done (Call (Ident name) []) (Sample.exhausted size [e])).
  { eapply parsePrimaryExpr_call; [exact Hop | exact Hopen |].
    cbn [Parser.parseArgs].
    rewrite (bind_eq _ _ _ _ _ (expect_met token.LeftParen p1 Hopen)).
    assert (H12' : Parser.next (S (S fuel)) p1 = Parser.Done tt p2)
      by (apply next_one; exact Hcomment).
    rewrite (bind_eq _ _ _ _ _ H12').
    rewrite (bind_eq _ _ _ [] p2);
      [|apply parseArgs_loop_exit; right; exact Hr].
    rewrite (bind_eq _ _ _ _ _ (expect_unmet token.RightParen p2 Hlast)).
    change (Parser.mkParser (Parser.s p2) (Parser.err p2 ++ _)) with p3.
    assert (H34' : Parser.next (S (S fuel)) p3
                   = Parser.Done tt (Sample.exhausted size [e]))
      by (apply next_one; discriminate).
    rewrite (bind_eq _ _ _ _ _ H34'). reflexivity. }
  assert (Hun : Parser.parseUnaryExpr Precedence (S (S (S (S (S fuel))))) false p0
                = Parser.Done (Call (Ident name) []) (Sample.exhausted size [e])).
  { rewrite parseUnaryExpr_no_prefix; [exact Hprim|].
    unfold Scanner.Token. cbn. rewrite Hf. reflexivity. }
  assert (Hbin : Parser.parseBinaryExpr Precedence (S (S (S (S (S (S fuel)))))) false 1 p0
                 = Parser.Done (Call (Ident name) []) (Sample.exhausted size [e])).
  { apply parseBinaryExpr_below_minPrec; [exact Hun | exact HU]. }
  change (7 + fuel)%nat with (S (S (S (S (S (S (S fuel))))))).
  cbn [Parser.parseExpr]. rewrite Hbin. reflexivity.
Qed.

(** The theorem on [f(1]. *)
Lemma ParseExpr_call_last_token_dropped_witness :
  token.Precedence token.Unknown < 1
  /\ Scanner.scan (Lex.source "f(1") = Sample.call_cut_short
  /\ Parser.ParseExpr token.Precedence (7 + 0) (Scanner.mkSource Sample.call_cut_short 3)
     = Parser.Done
         (Call (Ident "f") [],
          Some (ParserErrors
                  [Sample.expected_found 2 token.RightParen token.Int]))
         (Sample.exhausted 3 [Sample.expected_found 2 token.RightParen token.Int]).
Proof.
  assert (HU : token.Precedence token.Unknown < 1) by (cbn; lia).
  split; [exact HU|]. split; [reflexivity|].
  apply (ParseExpr_call_last_token_dropped token.Precedence 0 "f"
           (Scanner.mkItem token.Identifier (LitString "f") 0 40 None)
           (Scanner.mkItem token.LeftParen LitNil 1 49 None)
           (Scanner.mkItem token.Int (LitInt 1) 2 (-1) None) 3 HU);
    first [reflexivity | discriminate | cbn; lia].
Defined.

(* ------------------------------------------------------------------ *)
(** ** The operators of [Binary] nodes *)


Section Operators.
Variable Precedence : token.Token -> Z.

(** Every method of the parser returns trees whose [Binary] nodes have
    operators of level 1 at least. *)
Lemma parser_operators (fuel : nat) :
  (forall lhs p x p',
      Parser.parseExpr Precedence fuel lhs p = Parser.Done x p' ->
      Inv.operators Precedence x = true)
  /\ (forall lhs minPrec p x p',
         1 <= minPrec ->
         Parser.parseBinaryExpr Precedence fuel lhs minPrec p = Parser.Done x p' ->
         Inv.operators Precedence x = true)
  /\ (forall minPrec prec x0 p x p',
         1 <= minPrec ->
         Inv.operators Precedence x0 = true ->
         Parser.parseBinaryExpr_levels Precedence fuel minPrec prec x0 p
         = Parser.Done x p' ->
         Inv.operators Precedence x = true)
  /\ (forall prec x0 p x p',
         1 <= prec ->
         Inv.operators Precedence x0 = true ->
         Parser.parseBinaryExpr_run Precedence fuel prec x0 p = Parser.Done x p' ->
         Inv.operators Precedence x = true)
  /\ (forall lhs p x p',
         Parser.parseUnaryExpr Precedence fuel lhs p = Parser.Done x p' ->
         Inv.operators Precedence x = true)
  /\ (forall lhs p x p',
         Parser.parsePrimaryExpr Precedence fuel lhs p = Parser.Done x p' ->
         Inv.operators Precedence x = true)
  /\ (forall lhs p x p',
         Parser.parseOperand Precedence fuel lhs p = Parser.Done x p' ->
         Inv.operators Precedence x = true)
  /\ (forall p args p',
         Parser.parseArgs Precedence fuel p = Parser.Done args p' ->
         forallb (Inv.operators Precedence) args = true)
  /\ (forall args0 p args p',
         forallb (Inv.operators Precedence) args0 = true ->
         Parser.parseArgs_loop Precedence fuel args0 p = Parser.Done args p' ->
         forallb (Inv.operators Precedence) args = true).
Proof.
  induction fuel as [|fuel (IHexpr & IHbin & IHlev & IHrun & IHun & IHprim
                             & IHop & IHargs & IHloop)].
  { repeat match goal with |- _ /\ _ => split end; intros; discriminate. }
  repeat match goal with |- _ /\ _ => split end.
  - intros lhs p x p' H. cbn [Parser.parseExpr] in H.
    eapply IHbin; [|exact H]. lia.
  - intros lhs minPrec p x p' Hm H. cbn [Parser.parseBinaryExpr] in H. exec H.
    apply IHun in Hcall. eapply IHlev; [exact Hm | exact Hcall | exact H].
  - intros minPrec prec x0 p x p' Hm Hx H.
    cbn [Parser.parseBinaryExpr_levels] in H. exec H.
    + rewrite Z.geb_leb in Heqb. apply Z.leb_le in Heqb.
      eapply IHlev; [exact Hm | | exact H].
      eapply IHrun; [|exact Hx | exact Hcall]. lia.
    + ret_inv H. exact Hx.
  - intros prec x0 p x p' Hp Hx H. cbn [Parser.parseBinaryExpr_run] in H. exec H.
    + ret_inv H. exact Hx.
    + apply negb_false_iff in Heqb. apply Z.eqb_eq in Heqb.
      eapply IHrun; [exact Hp | | exact H].
      cbn [Inv.operators]. rewrite Heqb, Hx.
      rewrite (IHbin false (prec + 1) _ _ _ ltac:(lia) Hcall0).
      rewrite andb_true_r, andb_true_r. apply Z.leb_le. exact Hp.
  - intros lhs p x p' H. cbn [Parser.parseUnaryExpr] in H. exec H;
      try (apply IHprim in H; exact H);
      try (ret_inv H; try reflexivity;
           match goal with
           | Hc : Parser.parseUnaryExpr _ _ _ _ = _ |- _ =>
               apply IHun in Hc; cbn [Inv.operators]; exact Hc
           end).
  - intros lhs p x p' H. cbn [Parser.parsePrimaryExpr] in H. exec H;
      try (ret_inv H; apply IHop in Hcall; exact Hcall).
    ret_inv H. apply IHop in Hcall. apply IHargs in Hcall0.
    cbn [Inv.operators]. rewrite Hcall, Hcall0. reflexivity.
  - intros lhs p x p' H. cbn [Parser.parseOperand] in H. exec H;
      try (ret_inv H; reflexivity);
      try (apply parseIdent_Ident in H; destruct H as [name ->]; reflexivity).
    ret_inv H. apply IHexpr in Hcall0. exact Hcall0.
  - intros p args p' H. cbn [Parser.parseArgs] in H. exec H. ret_inv H.
    eapply IHloop; [|exact Hcall1]. reflexivity.
  - intros args0 p args p' Hargs H. cbn [Parser.parseArgs_loop] in H. exec H.
    + ret_inv H. apply forallb_snoc; [exact Hargs | eapply IHexpr; exact Hcall].
    + eapply IHloop; [|exact H].
      apply forallb_snoc; [exact Hargs | eapply IHexpr; exact Hcall].
    + ret_inv H. exact Hargs.
Qed.
End Operators.

(** Only a token to which the operator table gives a level of 1 or more
    becomes the operator of a [Binary] node: in the tree [ParseExpr]
    returns, whatever the source, no [Binary] node holds a token of level 0
    or below. *)
Theorem ParseExpr_operators :
  forall (Precedence : token.Token -> Z) (fuel : nat) (src : Scanner.Source)
         (x : Expr) (e : option error) (p : Parser.parser),
    Parser.ParseExpr Precedence fuel src = Parser.Done (x, e) p ->
    Inv.operators Precedence x = true.
Proof.
  intros Precedence fuel src x e p H.
  apply ParseExpr_Done in H. destruct H as [(-> & _)|[_ H]]; [reflexivity|].
  destruct (parser_operators Precedence fuel) as (Hexpr & _).
  eapply Hexpr. exact H.
Qed.

(** The theorem on [f(1, 2) * -3]. *)
Lemma ParseExpr_operators_witness :
  Parser.ParseExpr token.Precedence 60 (Lex.source "f(1, 2) * -3")
  = Parser.Done (Sample.call_times_neg, None) (Sample.exhausted 12 [])
  /\ Inv.operators token.Precedence Sample.call_times_neg = true.
Proof.
  assert (H : Parser.ParseExpr token.Precedence 60 (Lex.source "f(1, 2) * -3")
              = Parser.Done (Sample.call_times_neg, None) (Sample.exhausted 12 []))
    by (vm_compute; reflexivity).
  split; [exact H|].
  exact (ParseExpr_operators _ _ _ _ _ _ H).
Defined.

(* ------------------------------------------------------------------ *)
(** ** Comments after the first token *)


(** Without its comments, a scanner that is not on a comment shows the
    same current token. *)
Lemma strip_head p :
  Inv.clean p ->
  Scanner.Token (Parser.s (Inv.strip p)) = Scanner.Token (Parser.s p)
  /\ Scanner.Literal (Parser.s (Inv.strip p)) = Scanner.Literal (Parser.s p)
  /\ Scanner.Offset (Parser.s (Inv.strip p)) = Scanner.Offset (Parser.s p)
  /\ Scanner.r (Parser.s (Inv.strip p)) = Scanner.r (Parser.s p)
  /\ Scanner.err (Parser.s (Inv.strip p)) = Scanner.err (Parser.s p).
Proof.
  unfold Inv.clean, Inv.strip, Scanner.Token, Scanner.Literal, Scanner.Offset,
    Scanner.r, Scanner.err.
  cbn [Parser.s Scanner.items Scanner.eofOffset].
  destruct (Scanner.items (Parser.s p)) as [|i rest]; cbn [filter].
  - intros _. repeat split.
  - intros H. apply token_eqb_false in H. unfold Inv.not_comment. rewrite H.
    cbn [negb]. repeat split.
Qed.

Lemma commentless_ret {A} (a : A) : Inv.commentless (Parser.ret a).
Proof. intros p b q Hc H. ret_inv H. split; [reflexivity | exact Hc]. Qed.

Lemma commentless_panic {A} (msg : string) : Inv.commentless (@Parser.panic A msg).
Proof. intros p b q _ H. discriminate. Qed.

Lemma commentless_out {A} : Inv.commentless (fun _ => @Parser.OutOfFuel A).
Proof. intros p b q _ H. discriminate. Qed.

Lemma commentless_bind {A B} (m : Parser.M A) (k : A -> Parser.M B) :
  Inv.commentless m -> (forall a, Inv.commentless (k a)) ->
  Inv.commentless (Parser.bind m k).
Proof.
  intros Hm Hk p b q Hc H. apply bind_Done in H. destruct H as (a & p1 & H1 & H2).
  destruct (Hm p a p1 Hc H1) as [E1 Hc1].
  destruct (Hk a p1 b q Hc1 H2) as [E2 Hc2].
  split; [|exact Hc2]. rewrite (bind_eq _ _ _ _ _ E1). exact E2.
Qed.

Lemma commentless_Token : Inv.commentless Parser.Token.
Proof.
  intros p a q Hc H. unfold Parser.Token in *. injection H as <- <-.
  destruct (strip_head p Hc) as (-> & _). split; [reflexivity | exact Hc].
Qed.

Lemma commentless_Literal : Inv.commentless Parser.Literal.
Proof.
  intros p a q Hc H. unfold Parser.Literal in *. injection H as <- <-.
  destruct (strip_head p Hc) as (_ & -> & _). split; [reflexivity | exact Hc].
Qed.

Lemma commentless_s_err : Inv.commentless Parser.s_err.
Proof.
  intros p a q Hc H. unfold Parser.s_err in *. injection H as <- <-.
  destruct (strip_head p Hc) as (_ & _ & _ & _ & ->). split; [reflexivity | exact Hc].
Qed.

Lemma commentless_s_r : Inv.commentless Parser.s_r.
Proof.
  intros p a q Hc H. unfold Parser.s_r in *. injection H as <- <-.
  destruct (strip_head p Hc) as (_ & _ & _ & -> & _). split; [reflexivity | exact Hc].
Qed.

Lemma commentless_error (msg : string) : Inv.commentless (Parser.error_ msg).
Proof.
  intros p a q Hc H. rewrite error_spec in *. injection H as <- <-.
  destruct (strip_head p Hc) as (_ & _ & -> & _). split; [reflexivity | exact Hc].
Qed.

Lemma not_comment_eqb (i : Scanner.Item) :
  token.eqb (Scanner.iToken i) token.Comment = negb (Inv.not_comment i).
Proof. unfold Inv.not_comment. rewrite negb_involutive. reflexivity. Qed.

Lemma filter_skip_comments (l : list Scanner.Item) :
  filter Inv.not_comment (Inv.skip_comments l) = filter Inv.not_comment l.
Proof.
  induction l as [|i l IH]; [reflexivity|].
  cbn [Inv.skip_comments]. rewrite not_comment_eqb. cbn [filter].
  destruct (Inv.not_comment i) eqn:E; cbn [negb].
  - cbn [filter]. rewrite E. reflexivity.
  - exact IH.
Qed.

Lemma skip_comments_clean (l : list Scanner.Item) (eo : Z) :
  Scanner.Token (Scanner.mkT (Inv.skip_comments l) eo) <> token.Comment.
Proof.
  induction l as [|i l IH]; [discriminate|].
  cbn [Inv.skip_comments].
  destruct (token.eqb (Scanner.iToken i) token.Comment) eqn:E; [exact IH|].
  apply token_eqb_false in E. exact E.
Qed.

Lemma skip_comments_filter (l : list Scanner.Item) :
  Inv.skip_comments (filter Inv.not_comment l) = filter Inv.not_comment l.
Proof.
  induction l as [|i l IH]; [reflexivity|].
  cbn [filter]. destruct (Inv.not_comment i) eqn:E.
  - cbn [Inv.skip_comments]. rewrite not_comment_eqb, E. reflexivity.
  - exact IH.
Qed.

Lemma filter_tl_clean (l : list Scanner.Item) (eo : Z) :
  Scanner.Token (Scanner.mkT l eo) <> token.Comment ->
  tl (filter Inv.not_comment l) = filter Inv.not_comment (tl l).
Proof.
  destruct l as [|i l]; [reflexivity|]. unfold Scanner.Token. cbn [Scanner.items].
  intros H. apply token_eqb_false in H. cbn [filter tl].
  unfold Inv.not_comment at 1. rewrite H. reflexivity.
Qed.

Lemma next_total (fuel : nat) (p : Parser.parser) u q :
  Parser.next fuel p = Parser.Done u q ->
  q = Parser.mkParser
        (Scanner.mkT (Inv.skip_comments (tl (Scanner.items (Parser.s p))))
           (Scanner.eofOffset (Parser.s p)))
        (Parser.err p).
Proof.
  revert p. induction fuel as [|fuel IH]; intros p H; [discriminate|].
  cbn [Parser.next] in H. unfold Parser.bind at 1 in H. rewrite s_Next_spec in H.
  rewrite bind_Token in H. unfold Scanner.Token in H.
  cbn [Parser.s Scanner.items] in H.
  destruct (tl (Scanner.items (Parser.s p))) as [|i rest] eqn:E.
  - cbn in H. ret_inv H. reflexivity.
  - cbn [Inv.skip_comments].
    destruct (token.eqb (Scanner.iToken i) token.Comment) eqn:Ec.
    + apply IH in H. cbn [Parser.s Parser.err Scanner.items Scanner.eofOffset tl] in H.
      exact H.
    + ret_inv H. reflexivity.
Qed.

Lemma next_at_token (fuel : nat) (p : Parser.parser) :
  Scanner.Token (Scanner.mkT (tl (Scanner.items (Parser.s p)))
                   (Scanner.eofOffset (Parser.s p))) <> token.Comment ->
  Parser.next (S fuel) p
  = Parser.Done tt
      (Parser.mkParser
         (Scanner.mkT (tl (Scanner.items (Parser.s p)))
            (Scanner.eofOffset (Parser.s p)))
         (Parser.err p)).
Proof.
  intros H. cbn [Parser.next]. unfold Parser.bind at 1. rewrite s_Next_spec.
  rewrite bind_Token. cbn [Parser.s]. apply token_eqb_false in H. rewrite H.
  reflexivity.
Qed.

Lemma filter_clean (l : list Scanner.Item) (eo : Z) :
  Scanner.Token (Scanner.mkT (filter Inv.not_comment l) eo) <> token.Comment.
Proof.
  rewrite <- skip_comments_filter. apply skip_comments_clean.
Qed.

Lemma commentless_next (fuel : nat) : Inv.commentless (Parser.next fuel).
Proof.
  intros p u q Hc H. destruct u.
  assert (Hfuel : exists n, fuel = S n) by (destruct fuel; [discriminate | eauto]).
  destruct Hfuel as [n ->].
  apply next_total in H. subst q. split; [|apply skip_comments_clean].
  assert (Htl : tl (filter Inv.not_comment (Scanner.items (Parser.s p)))
                = filter Inv.not_comment (tl (Scanner.items (Parser.s p)))).
  { apply (filter_tl_clean _ (Scanner.eofOffset (Parser.s p))).
    unfold Inv.clean, Scanner.Token in Hc |- *. exact Hc. }
  rewrite next_at_token.
  - unfold Inv.strip. cbn [Parser.s Parser.err Scanner.items Scanner.eofOffset].
    rewrite filter_skip_comments, Htl. reflexivity.
  - unfold Inv.strip. cbn [Parser.s Scanner.items Scanner.eofOffset].
    rewrite Htl. apply filter_clean.
Qed.

Ltac commentless_step :=
  first
    [ apply commentless_ret | apply commentless_panic | apply commentless_out
    | apply commentless_Token | apply commentless_Literal | apply commentless_s_err
    | apply commentless_s_r | apply commentless_error | apply commentless_next
    | match goal with H : context [Inv.commentless] |- _ => apply H end
    | apply commentless_bind; [|intro]
    | match goal with
      | |- Inv.commentless (match ?x with _ => _ end) => destruct x
      | |- Inv.commentless (if ?b then _ else _) => destruct b
      end ].

Lemma commentless_expect (t : token.Token) : Inv.commentless (Parser.expect t).
Proof. unfold Parser.expect. repeat commentless_step. Qed.

Lemma commentless_expectCommaOr (t : token.Token) (msg : string) :
  Inv.commentless (Parser.expectCommaOr t msg).
Proof. unfold Parser.expectCommaOr. repeat commentless_step. Qed.

Lemma commentless_parseIdent (fuel : nat) : Inv.commentless (Parser.parseIdent fuel).
Proof.
  unfold Parser.parseIdent. pose proof (commentless_expect token.Identifier).
  repeat commentless_step.
Qed.

(** Every method of the parser does on a scanner without the comments what
    it does on the scanner with them. *)
Lemma commentless_parser (Precedence : token.Token -> Z) (fuel : nat) :
  (forall lhs, Inv.commentless (Parser.parseExpr Precedence fuel lhs))
  /\ (forall lhs minPrec,
         Inv.commentless (Parser.parseBinaryExpr Precedence fuel lhs minPrec))
  /\ (forall minPrec prec x,
         Inv.commentless (Parser.parseBinaryExpr_levels Precedence fuel minPrec prec x))
  /\ (forall prec x,
         Inv.commentless (Parser.parseBinaryExpr_run Precedence fuel prec x))
  /\ (forall lhs, Inv.commentless (Parser.parseUnaryExpr Precedence fuel lhs))
  /\ (forall lhs, Inv.commentless (Parser.parsePrimaryExpr Precedence fuel lhs))
  /\ (forall lhs, Inv.commentless (Parser.parseOperand Precedence fuel lhs))
  /\ Inv.commentless (Parser.parseArgs Precedence fuel)
  /\ (forall args, Inv.commentless (Parser.parseArgs_loop Precedence fuel args)).
Proof.
  induction fuel as [|fuel (IHexpr & IHbin & IHlev & IHrun & IHun & IHprim
                             & IHop & IHargs & IHloop)].
  { repeat match goal with |- _ /\ _ => split end; intros; apply commentless_out. }
  pose proof (commentless_parseIdent fuel) as Hident.
  pose proof commentless_expect as Hexpect.
  pose proof commentless_expectCommaOr as Hcomma.
  repeat match goal with |- _ /\ _ => split end; intros.
  - cbn [Parser.parseExpr]. apply IHbin.
  - cbn [Parser.parseBinaryExpr]. repeat commentless_step.
  - cbn [Parser.parseBinaryExpr_levels]. repeat commentless_step.
  - cbn [Parser.parseBinaryExpr_run]. repeat commentless_step.
  - cbn [Parser.parseUnaryExpr]. repeat commentless_step.
  - cbn [Parser.parsePrimaryExpr]. repeat commentless_step.
  - cbn [Parser.parseOperand]. repeat commentless_step.
  - cbn [Parser.parseArgs]. repeat commentless_step.
  - cbn [Parser.parseArgs_loop]. repeat commentless_step.
Qed.

(** When the first token cannot be loaded, [ParseExpr] returns at once. *)
Lemma ParseExpr_unloaded (Precedence : token.Token -> Z) (fuel : nat)
    (src : Scanner.Source) (e0 : error) :
  Scanner.err (Parser.s (loaded src)) = Some e0 ->
  Parser.ParseExpr Precedence fuel src
  = Parser.Done
      (Nil, Some match e0 with io_EOF => io_ErrUnexpectedEOF | _ => e0 end)
      (loaded src).
Proof.
  intros E. unfold Parser.ParseExpr, Parser.bind at 1. rewrite s_Next_spec.
  cbn [Parser.newParser Scanner.NewScanner Scanner.items Scanner.eofOffset
         Parser.s Parser.err tl].
  unfold loaded, Measure.loaded in E. cbn [Parser.s] in E. rewrite E. reflexivity.
Qed.

(** Comments after the first token have no influence on the result: when
    the source does not start with a comment, [ParseExpr] returns on the
    source without its comment tokens the tree and the error that it
    returns on the source itself, the offsets in the errors included. *)
Theorem ParseExpr_ignores_comments :
  forall (Precedence : token.Token -> Z) (fuel : nat) (src : Scanner.Source)
         (x : Expr) (e : option error) (p : Parser.parser),
    Inv.clean (loaded src) ->
    Parser.ParseExpr Precedence fuel src = Parser.Done (x, e) p ->
    Parser.ParseExpr Precedence fuel (Inv.without_comments src)
    = Parser.Done (x, e) (Inv.strip p).
Proof.
  intros Precedence fuel src x e p Hc H.
  assert (Hl : loaded (Inv.without_comments src) = Inv.strip (loaded src)) by reflexivity.
  destruct (strip_head (loaded src) Hc) as (_ & _ & _ & _ & Herr).
  destruct (Scanner.err (Parser.s (loaded src))) as [e0|] eqn:E.
  - rewrite (ParseExpr_unloaded Precedence fuel src e0 E) in H.
    injection H as <- <- <-.
    rewrite (ParseExpr_unloaded Precedence fuel (Inv.without_comments src) e0);
      [rewrite Hl; reflexivity | rewrite Hl; exact Herr].
  - rewrite (ParseExpr_loaded Precedence fuel src E) in H.
    rewrite (ParseExpr_loaded Precedence fuel (Inv.without_comments src))
      by (rewrite Hl; exact Herr).
    rewrite Hl.
    destruct (Parser.parseExpr Precedence fuel false (loaded src)) as [x' q| |] eqn:Hd;
      try discriminate.
    destruct (commentless_parser Precedence fuel) as (Hexpr & _).
    destruct (Hexpr false _ _ _ Hc Hd) as [E' Hq]. rewrite E'.
    destruct (strip_head q Hq) as (_ & _ & _ & _ & Hperr). rewrite Hperr.
    cbn [Inv.strip Parser.err]. injection H as <- <- <-. reflexivity.
Qed.

(** The theorem on [1 + /*a*/ /*b*/ /*c*/ 2]. *)
Lemma ParseExpr_ignores_comments_witness :
  Inv.clean (loaded Sample.commented)
  /\ Parser.ParseExpr token.Precedence 20 Sample.commented
     = Parser.Done (Sample.add_1_2, None) (Sample.exhausted 23 [])
  /\ Parser.ParseExpr token.Precedence 20 (Inv.without_comments Sample.commented)
     = Parser.Done (Sample.add_1_2, None) (Inv.strip (Sample.exhausted 23 []))
  /\ Datatypes.length (Scanner.scan Sample.commented) = 6%nat
  /\ Datatypes.length (Scanner.scan (Inv.without_comments Sample.commented)) = 3%nat.
Proof.
  assert (Hc : Inv.clean (loaded Sample.commented)) by (vm_compute; discriminate).
  assert (H : Parser.ParseExpr token.Precedence 20 Sample.commented
              = Parser.Done (Sample.add_1_2, None) (Sample.exhausted 23 []))
    by (vm_compute; reflexivity).
  split; [exact Hc|]. split; [exact H|].
  split; [exact (ParseExpr_ignores_comments _ _ _ _ _ _ Hc H)|].
  split; reflexivity.
Defined.

(* ------------------------------------------------------------------ *)
(** ** The kinds of error [ParseExpr] returns *)


(** The error [ParseExpr] returns is nil, [io.ErrUnexpectedEOF], an error
    of the scanner, or a non-empty [Errors] list; it is never [io.EOF] and
    never a single [Error].  [io.ErrUnexpectedEOF] comes with the nil tree
    and only on a source without tokens; an [Errors] list comes with a tree
    that is not nil. *)
Theorem ParseExpr_error_kinds :
  forall (Precedence : token.Token -> Z) (fuel : nat) (src : Scanner.Source)
         (x : Expr) (e : option error) (p : Parser.parser),
    Parser.ParseExpr Precedence fuel src = Parser.Done (x, e) p ->
    e = None
    \/ (e = Some io_ErrUnexpectedEOF /\ x = Nil /\ Scanner.scan src = [])
    \/ (exists msg, e = Some (ScanError msg))
    \/ (exists es, e = Some (ParserErrors es) /\ es <> [] /\ x <> Nil).
Proof.
  intros Precedence fuel src x e p H.
  apply ParseExpr_Done in H as Hd.
  destruct Hd as [(-> & -> & [[Hd ->]|(msg & Hd & ->)])|[H1 Hd]].
  - right; left. repeat split. unfold Scanner.err in Hd. cbn in Hd.
    destruct (Scanner.scan src) as [|i rest]; [reflexivity|].
    destruct (Scanner.iErr i); discriminate.
  - right; right; left. exists msg. reflexivity.
  - rewrite (ParseExpr_loaded Precedence fuel src H1), Hd in H.
    destruct (Parser.err p) as [|e0 es0] eqn:Herr.
    + destruct (Scanner_err_cases (Parser.s p)) as [E|[E|[msg E]]];
        rewrite E in H; cbn in H; injection H as <-.
      * left. reflexivity.
      * left. reflexivity.
      * right; right; left. exists msg. reflexivity.
    + injection H as <-. right; right; right. exists (e0 :: es0).
      split; [reflexivity|]. split; [discriminate|].
      destruct (parser_shaped Precedence fuel) as (Hexpr & _).
      apply Hexpr in Hd. intros ->. discriminate.
Qed.

(** The theorem on [(1 + ) 2], which records two errors. *)
Lemma ParseExpr_error_kinds_witness :
  Parser.ParseExpr token.Precedence 60 (Lex.source "(1 + ) 2")
  = Parser.Done
      (Unary token.LeftParen
         (Binary token.Add (Sample.int 1)
            (Bad (Some (ParserError (Sample.expected_operand 7))))),
       Some (ParserErrors Sample.two_errors))
      (Parser.mkParser
         (Scanner.mkT [Scanner.mkItem token.Int (LitInt 2) 7 (-1) None] 8)
         Sample.two_errors)
  /\ (Some (ParserErrors Sample.two_errors) = None
      \/ (Some (ParserErrors Sample.two_errors) = Some io_ErrUnexpectedEOF
          /\ Unary token.LeftParen
               (Binary token.Add (Sample.int 1)
                  (Bad (Some (ParserError (Sample.expected_operand 7))))) = Nil
          /\ Scanner.scan (Lex.source "(1 + ) 2") = [])
      \/ (exists msg, Some (ParserErrors Sample.two_errors) = Some (ScanError msg))
      \/ (exists es,
             Some (ParserErrors Sample.two_errors) = Some (ParserErrors es)
             /\ es <> []
             /\ Unary token.LeftParen
                  (Binary token.Add (Sample.int 1)
                     (Bad (Some (ParserError (Sample.expected_operand 7))))) <> Nil)).
Proof.
  assert (H : Parser.ParseExpr token.Precedence 60 (Lex.source "(1 + ) 2")
              = Parser.Done
                  (Unary token.LeftParen
                     (Binary token.Add (Sample.int 1)
                        (Bad (Some (ParserError (Sample.expected_operand 7))))),
                   Some (ParserErrors Sample.two_errors))
                  (Parser.mkParser
                     (Scanner.mkT [Scanner.mkItem token.Int (LitInt 2) 7 (-1) None] 8)
                     Sample.two_errors))
    by (vm_compute; reflexivity).
  split; [exact H|].
  exact (ParseExpr_error_kinds _ _ _ _ _ _ H).
Defined.

(* ------------------------------------------------------------------ *)
(** ** Where [ParseExpr] stops *)

(** When [ParseExpr] returns a tree, the token the parser stopped at is not
    a binary operator: the operator table gives it no level of 1 or more,
    whatever the table and the source. *)
Theorem ParseExpr_stops_at_non_operator :
  forall (Precedence : token.Token -> Z) (fuel : nat) (src : Scanner.Source)
         (x : Expr) (e : option error) (p : Parser.parser),
    x <> Nil ->
    Parser.ParseExpr Precedence fuel src = Parser.Done (x, e) p ->
    Precedence (Scanner.Token (Parser.s p)) < 1.
Proof.
  intros Precedence fuel src x e p Hx H.
  apply ParseExpr_Done in H. destruct H as [(-> & _)|[_ H]]; [congruence|].
  destruct fuel as [|fuel]; [discriminate|].
  cbn [Parser.parseExpr] in H.
  exact (parseBinaryExpr_post Precedence fuel false 1 x _ _ H).
Qed.

(** The theorem on [1 2], where the parser stops at the literal [2]. *)
Lemma ParseExpr_stops_at_non_operator_witness :
  Sample.int 1 <> Nil
  /\ Parser.ParseExpr token.Precedence 20 (Lex.source "1 2")
     = Parser.Done (Sample.int 1, None) Sample.one_two_at_two
  /\ token.Precedence (Scanner.Token (Parser.s Sample.one_two_at_two)) < 1.
Proof.
  assert (Hx : Sample.int 1 <> Nil) by discriminate.
  assert (H : Parser.ParseExpr token.Precedence 20 (Lex.source "1 2")
              = Parser.Done (Sample.int 1, None) Sample.one_two_at_two)
    by (vm_compute; reflexivity).
  split; [exact Hx|]. split; [exact H|].
  exact (ParseExpr_stops_at_non_operator _ _ _ _ _ _ Hx H).
Defined.

(* ------------------------------------------------------------------ *)
(** ** A source that starts with a parenthesis *)

Lemma follows_no_errors p q :
  Inv.follows p q -> Parser.err q = [] -> Parser.err p = [].
Proof.
  intros (_ & _ & new & Hnew) Hq. rewrite Hq in Hnew. symmetry in Hnew.
  apply app_eq_nil in Hnew. tauto.
Qed.

Lemma expect_no_errors (t : token.Token) p met q :
  Parser.expect t p = Parser.Done met q ->
  Parser.err q = [] ->
  q = p /\ Scanner.Token (Parser.s p) = t.
Proof.
  unfold Parser.expect. rewrite bind_Token. cbv beta zeta.
  destruct (token.eqb t (Scanner.Token (Parser.s p))) eqn:E; cbn [negb].
  - intros H _. ret_inv H. apply token_eqb_true in E. split; congruence.
  - unfold Parser.bind. rewrite error_spec. intros H Hq. ret_inv H.
    cbn [Parser.err] in Hq. apply app_eq_nil in Hq. destruct Hq as [_ Hq].
    discriminate.
Qed.

Section ParenRoot.
Variable Precedence : token.Token -> Z.

(** A parenthesized operand parsed without error is a [Unary] node, and
    the closing parenthesis is still the current token. *)
Lemma parseOperand_paren_stops (fuel : nat) (lhs : bool) p x q :
  Scanner.Token (Parser.s p) = token.LeftParen ->
  Parser.parseOperand Precedence fuel lhs p = Parser.Done x q ->
  Parser.err q = [] ->
  (exists y, x = Unary token.LeftParen y)
  /\ Scanner.Token (Parser.s q) = token.RightParen
  /\ Precedence token.RightParen < 1.
Proof.
  intros Hopen H Herr. destruct fuel as [|fuel]; [discriminate|].
  cbn [Parser.parseOperand] in H. rewrite bind_Token, Hopen in H. exec H.
  ret_inv H. destruct (expect_no_errors _ _ _ _ Hcall1 Herr) as [-> Htok].
  split; [eexists; reflexivity|]. split; [exact Htok|].
  destruct fuel as [|fuel]; [discriminate|]. cbn [Parser.parseExpr] in Hcall0.
  rewrite <- Htok. exact (parseBinaryExpr_post Precedence fuel false 1 _ _ _ Hcall0).
Qed.

Lemma parsePrimaryExpr_paren_stops (fuel : nat) (lhs : bool) p x q :
  Scanner.Token (Parser.s p) = token.LeftParen ->
  Parser.parsePrimaryExpr Precedence fuel lhs p = Parser.Done x q ->
  Parser.err q = [] ->
  (exists y, x = Unary token.LeftParen y)
  /\ Scanner.Token (Parser.s q) = token.RightParen
  /\ Precedence token.RightParen < 1.
Proof.
  intros Hopen H Herr. destruct fuel as [|fuel]; [discriminate|].
  cbn [Parser.parsePrimaryExpr] in H.
  destruct (parser_follows Precedence fuel) as (_ & _ & _ & _ & _ & _ & _ & Fargs & _).
  exec H;
    try (ret_inv H; exact (parseOperand_paren_stops _ _ _ _ _ Hopen Hcall Herr)).
  ret_inv H.
  assert (Hq : Parser.err q0 = [])
    by (eapply follows_no_errors; [eapply Fargs; exact Hcall0 | exact Herr]).
  destruct (parseOperand_paren_stops _ _ _ _ _ Hopen Hcall Hq) as (_ & Htok & _).
  congruence.
Qed.

Lemma parseBinaryExpr_paren_stops (fuel : nat) (lhs : bool) p x q :
  Scanner.Token (Parser.s p) = token.LeftParen ->
  Parser.parseBinaryExpr Precedence fuel lhs 1 p = Parser.Done x q ->
  Parser.err q = [] ->
  (exists y, x = Unary token.LeftParen y)
  /\ Scanner.Token (Parser.s q) = token.RightParen.
Proof.
  intros Hopen H Herr. destruct fuel as [|fuel]; [discriminate|].
  cbn [Parser.parseBinaryExpr] in H.
  apply bind_Done in H. destruct H as (x0 & q0 & Hun & H).
  rewrite bind_Token in H.
  destruct (parser_follows Precedence fuel) as (_ & _ & Flev & _).
  assert (Hq : Parser.err q0 = [])
    by (eapply follows_no_errors; [eapply Flev; exact H | exact Herr]).
  destruct fuel as [|fuel]; [discriminate|].
  cbn [Parser.parseUnaryExpr] in Hun. rewrite bind_Token, Hopen in Hun.
  destruct (parsePrimaryExpr_paren_stops _ _ _ _ _ Hopen Hun Hq) as (Hy & Htok & Hlt).
  rewrite Htok in H.
  rewrite parseBinaryExpr_levels_stop in H by exact Hlt.
  injection H as <- <-. split; [exact Hy | exact Htok].
Qed.

End ParenRoot.

(** When a source that starts with an opening parenthesis is parsed
    without any error, the tree is the parenthesized expression alone and
    the parser has stopped at its closing parenthesis: whatever follows the
    closing parenthesis is not parsed, and not reported. *)
Theorem ParseExpr_paren_root :
  forall (Precedence : token.Token -> Z) (fuel : nat) (src : Scanner.Source)
         (x : Expr) (p : Parser.parser),
    Scanner.Token (Parser.s (loaded src)) = token.LeftParen ->
    Parser.ParseExpr Precedence fuel src = Parser.Done (x, None) p ->
    exists y, x = Unary token.LeftParen y
              /\ Scanner.Token (Parser.s p) = token.RightParen.
Proof.
  intros Precedence fuel src x p Hopen H.
  apply ParseExpr_Done in H as Hd.
  destruct Hd as [(_ & _ & [[_ Hd]|(msg & _ & Hd)])|[H1 Hd]]; try discriminate.
  assert (Herr : Parser.err p = []).
  { rewrite (ParseExpr_loaded Precedence fuel src H1), Hd in H.
    destruct (Parser.err p); [reflexivity | discriminate]. }
  destruct fuel as [|fuel]; [discriminate|]. cbn [Parser.parseExpr] in Hd.
  destruct (parseBinaryExpr_paren_stops Precedence _ _ _ _ _ Hopen Hd Herr)
    as [[y ->] Htok].
  exists y. split; [reflexivity | exact Htok].
Qed.

(** The theorem on [(1 + 2) * 3]. *)
Lemma ParseExpr_paren_root_witness :
  Scanner.Token (Parser.s (loaded (Lex.source "(1 + 2) * 3"))) = token.LeftParen
  /\ Parser.ParseExpr token.Precedence 20 (Lex.source "(1 + 2) * 3")
     = Parser.Done (Sample.paren_add, None) Sample.paren_times_three_at_close
  /\ exists y, Sample.paren_add = Unary token.LeftParen y
               /\ Scanner.Token (Parser.s Sample.paren_times_three_at_close)
                  = token.RightParen.
Proof.
  assert (Hopen : Scanner.Token (Parser.s (loaded (Lex.source "(1 + 2) * 3")))
                  = token.LeftParen)
    by (vm_compute; reflexivity).
  assert (H : Parser.ParseExpr token.Precedence 20 (Lex.source "(1 + 2) * 3")
              = Parser.Done (Sample.paren_add, None) Sample.paren_times_three_at_close)
    by (vm_compute; reflexivity).
  split; [exact Hopen|]. split; [exact H|].
  exact (ParseExpr_paren_root _ _ _ _ _ Hopen H).
Defined.

(* ------------------------------------------------------------------ *)
(** ** The messages of the recorded errors *)

Local Abbreviation known p := (Forall Inv.known_error (Parser.err p)).

Lemma known_next (fuel : nat) p u q :
  known p -> Parser.next fuel p = Parser.Done u q -> known q.
Proof. intros K H. apply next_Done in H. destruct H as (_ & -> & _). exact K. Qed.

Lemma known_error_ p a q :
  known p -> Parser.error_ "expected operand" p = Parser.Done a q -> known q.
Proof.
  intros K H. rewrite error_spec in H. injection H as _ <-. cbn [Parser.err].
  apply Forall_app. split; [exact K|]. constructor; [|constructor].
  left. reflexivity.
Qed.

Lemma known_expect_RightParen p met q :
  known p -> Parser.expect token.RightParen p = Parser.Done met q -> known q.
Proof.
  intros K H. unfold Parser.expect in H. rewrite bind_Token in H. cbv beta zeta in H.
  destruct (negb _).
  - unfold Parser.bind in H. rewrite error_spec in H. ret_inv H. cbn [Parser.err].
    apply Forall_app. split; [exact K|]. constructor; [|constructor].
    right; left. eexists. reflexivity.
  - ret_inv H. exact K.
Qed.

Lemma known_expect_met (t : token.Token) p met q :
  known p -> Scanner.Token (Parser.s p) = t ->
  Parser.expect t p = Parser.Done met q -> known q.
Proof.
  intros K Ht H. rewrite (expect_met t p Ht) in H. ret_inv H. exact K.
Qed.

Lemma known_expectCommaOr p more q :
  known p ->
  Parser.expectCommaOr token.RightParen "arguments" p = Parser.Done more q ->
  known q.
Proof.
  intros K H. unfold Parser.expectCommaOr in H. rewrite bind_Token in H.
  cbv beta in H.
  destruct (token.eqb _ token.Comma); [ret_inv H; exact K|].
  destruct (negb _).
  - unfold Parser.bind in H. rewrite error_spec in H. ret_inv H. cbn [Parser.err].
    apply Forall_app. split; [exact K|]. constructor; [|constructor].
    right; right. eexists. reflexivity.
  - ret_inv H. exact K.
Qed.

Lemma known_parseIdent (fuel : nat) p x q :
  known p -> Scanner.Token (Parser.s p) = token.Identifier ->
  Parser.parseIdent fuel p = Parser.Done x q -> known q.
Proof.
  intros K Ht H. unfold Parser.parseIdent in H.
  rewrite (bind_eq _ _ _ _ _ (expect_met token.Identifier p Ht)) in H.
  exec H. exec Hcall. ret_inv Hcall. ret_inv H. eapply known_next; eassumption.
Qed.

Section Messages.
Variable Precedence : token.Token -> Z.

(** No method of the parser records an error with another message; the
    call [expect(LeftParen)] of [parseArgs] is made at an opening
    parenthesis, and the call [expect(Identifier)] of [parseIdent] at an
    identifier, so neither records anything. *)
Lemma parser_known (fuel : nat) :
  (forall lhs p x q,
      known p -> Parser.parseExpr Precedence fuel lhs p = Parser.Done x q -> known q)
  /\ (forall lhs minPrec p x q,
         known p ->
         Parser.parseBinaryExpr Precedence fuel lhs minPrec p = Parser.Done x q ->
         known q)
  /\ (forall minPrec prec x0 p x q,
         known p ->
         Parser.parseBinaryExpr_levels Precedence fuel minPrec prec x0 p
         = Parser.Done x q ->
         known q)
  /\ (forall prec x0 p x q,
         known p ->
         Parser.parseBinaryExpr_run Precedence fuel prec x0 p = Parser.Done x q ->
         known q)
  /\ (forall lhs p x q,
         known p -> Parser.parseUnaryExpr Precedence fuel lhs p = Parser.Done x q ->
         known q)
  /\ (forall lhs p x q,
         known p -> Parser.parsePrimaryExpr Precedence fuel lhs p = Parser.Done x q ->
         known q)
  /\ (forall lhs p x q,
         known p -> Parser.parseOperand Precedence fuel lhs p = Parser.Done x q ->
         known q)
  /\ (forall p args q,
         known p -> Scanner.Token (Parser.s p) = token.LeftParen ->
         Parser.parseArgs Precedence fuel p = Parser.Done args q -> known q)
  /\ (forall args0 p args q,
         known p -> Parser.parseArgs_loop Precedence fuel args0 p = Parser.Done args q ->
         known q).
Proof.
  induction fuel as [|fuel (IHexpr & IHbin & IHlev & IHrun & IHun & IHprim
                             & IHop & IHargs & IHloop)].
  { repeat match goal with |- _ /\ _ => split end; intros; discriminate. }
  repeat match goal with |- _ /\ _ => split end.
  - intros lhs p x q K H. cbn [Parser.parseExpr] in H. eapply IHbin; eassumption.
  - intros lhs minPrec p x q K H. cbn [Parser.parseBinaryExpr] in H. exec H.
    eapply IHlev; [|exact H]. eapply IHun; eassumption.
  - intros minPrec prec x0 p x q K H. cbn [Parser.parseBinaryExpr_levels] in H.
    exec H.
    + eapply IHlev; [|exact H]. eapply IHrun; eassumption.
    + ret_inv H. exact K.
  - intros prec x0 p x q K H. cbn [Parser.parseBinaryExpr_run] in H. exec H.
    + ret_inv H. exact K.
    + eapply IHrun; [|exact H]. eapply IHbin; [|exact Hcall0].
      eapply known_next; eassumption.
  - intros lhs p x q K H. cbn [Parser.parseUnaryExpr] in H. exec H;
      try (eapply IHprim; eassumption);
      try (ret_inv H;
           first [ eapply IHun; [|eassumption]; eapply known_next; eassumption
                 | eapply known_next; eassumption ]).
  - intros lhs p x q K H. cbn [Parser.parsePrimaryExpr] in H. exec H;
      try (ret_inv H; eapply IHop; eassumption).
    ret_inv H. eapply IHargs; [|eassumption|exact Hcall0]. eapply IHop; eassumption.
  - intros lhs p x q K H. cbn [Parser.parseOperand] in H. exec H;
      try (eapply known_parseIdent; eassumption);
      try (ret_inv H;
           first [ eapply known_next; eassumption
                 | eapply known_error_; [|eassumption]; eapply known_next; eassumption
                 | idtac ]).
    eapply known_expect_RightParen; [|exact Hcall1].
    eapply IHexpr; [|exact Hcall0]. eapply known_next; eassumption.
  - intros p args q K Ht H. cbn [Parser.parseArgs] in H. exec H. ret_inv H.
    eapply known_next; [|exact Hcall3].
    eapply known_expect_RightParen; [|exact Hcall2].
    eapply IHloop; [|exact Hcall1].
    eapply known_next; [|exact Hcall0].
    eapply known_expect_met; [exact K | exact Ht | exact Hcall].
  - intros args0 p args q K H. cbn [Parser.parseArgs_loop] in H. exec H.
    + ret_inv H. eapply known_expectCommaOr; [|exact Hcall0].
      eapply IHexpr; eassumption.
    + eapply IHloop; [|exact H]. eapply known_next; [|exact Hcall1].
      eapply known_expectCommaOr; [|exact Hcall0]. eapply IHexpr; eassumption.
    + ret_inv H. exact K.
Qed.
End Messages.

(** The errors in the [Errors] value that [ParseExpr] returns have one of
    three messages: "expected operand", the message of [expect] for a
    missing closing parenthesis, or the message of [expectCommaOr] for a
    missing comma between arguments.  The parser never reports a missing
    opening parenthesis or a missing identifier. *)
Theorem ParseExpr_error_messages :
  forall (Precedence : token.Token -> Z) (fuel : nat) (src : Scanner.Source)
         (x : Expr) (es : list Error) (p : Parser.parser),
    Parser.ParseExpr Precedence fuel src = Parser.Done (x, Some (ParserErrors es)) p ->
    Forall Inv.known_error es.
Proof.
  intros Precedence fuel src x es p H.
  apply ParseExpr_Done in H as Hd.
  destruct Hd as [(_ & _ & [[_ Hd]|(msg & _ & Hd)])|[H1 Hd]]; try discriminate.
  rewrite (ParseExpr_loaded Precedence fuel src H1), Hd in H.
  destruct (parser_known Precedence fuel) as (Hexpr & _).
  assert (K : known p) by (eapply Hexpr; [|exact Hd]; constructor).
  destruct (Parser.err p) as [|e0 es0] eqn:Herr.
  - destruct (Scanner_err_cases (Parser.s p)) as [E|[E|[msg E]]];
      rewrite E in H; discriminate.
  - injection H as <-. exact K.
Qed.

(** The theorem on [f(, 1], which records one error of each kind. *)
Lemma ParseExpr_error_messages_witness :
  Parser.ParseExpr token.Precedence 60 (Lex.source "f(, 1")
  = Parser.Done
      (Call (Ident "f") [Bad (Some (ParserError (Sample.expected_operand 4)))],
       Some (ParserErrors Sample.three_errors))
      (Sample.exhausted 5 Sample.three_errors)
  /\ Forall Inv.known_error Sample.three_errors.
Proof.
  assert (H : Parser.ParseExpr token.Precedence 60 (Lex.source "f(, 1")
              = Parser.Done
                  (Call (Ident "f")
                     [Bad (Some (ParserError (Sample.expected_operand 4)))],
                   Some (ParserErrors Sample.three_errors))
                  (Sample.exhausted 5 Sample.three_errors))
    by (vm_compute; reflexivity).
  split; [exact H|].
  exact (ParseExpr_error_messages _ _ _ _ _ _ H).
Defined.

(* ------------------------------------------------------------------ *)
(** ** The leaves of the tree *)

Lemma all_sourced_snoc l args a :
  Inv.all_sourced l args -> Inv.sourced l a -> Inv.all_sourced l (args ++ [a]).
Proof.
  unfold Inv.all_sourced. induction args as [|b args IH]; cbn [app fold_right].
  - intros _ Ha. split; [exact Ha | exact I].
  - intros [Hb Hargs] Ha. split; [exact Hb | apply IH; assumption].
Qed.

Lemma incl_keeps {A} (m : Parser.M A) (all : list Scanner.Item) p a q :
  Inv.keeps Inv.follows m -> m p = Parser.Done a q ->
  incl (Scanner.items (Parser.s p)) all -> incl (Scanner.items (Parser.s q)) all.
Proof.
  intros Hm H Hp. destruct (Hm p a q H) as ([k Hk] & _). rewrite Hk.
  intros i Hi. apply Hp. clear Hk. revert Hi.
  generalize (Scanner.items (Parser.s p)).
  induction k as [|k IH]; intros l Hi; [exact Hi|].
  destruct l as [|j l]; [destruct Hi|]. right. apply IH. exact Hi.
Qed.

Lemma head_item (p : Parser.parser) (t : token.Token) :
  Scanner.Token (Parser.s p) = t -> t <> token.Unknown ->
  exists i, In i (Scanner.items (Parser.s p)) /\ Scanner.iToken i = t
            /\ Scanner.iLiteral i = Scanner.Literal (Parser.s p).
Proof.
  unfold Scanner.Token, Scanner.Literal.
  destruct (Scanner.items (Parser.s p)) as [|i rest]; intros Ht Hne; [congruence|].
  exists i. split; [left; reflexivity|]. split; [exact Ht | reflexivity].
Qed.

Lemma parseIdent_sourced (fuel : nat) p x q :
  Scanner.Token (Parser.s p) = token.Identifier ->
  Parser.parseIdent fuel p = Parser.Done x q ->
  Inv.sourced (Scanner.items (Parser.s p)) x.
Proof.
  intros Ht H. unfold Parser.parseIdent in H.
  rewrite (bind_eq _ _ _ _ _ (expect_met token.Identifier p Ht)) in H.
  exec H. exec Hcall. ret_inv Hcall. ret_inv H.
  destruct (head_item _ _ Ht ltac:(discriminate)) as (i & Hin & Hi & Hl).
  exists i. split; [exact Hin|]. split; [exact Hi|]. congruence.
Qed.

Lemma sourced_incl l l' :
  incl l l' -> forall e, Inv.sourced l e -> Inv.sourced l' e.
Proof.
  intros Hl. fix IH 1. intros e.
  destruct e as [ |k|Op a b|Op x|err|a right|v|n rn ptr ty pn rns bd
                 |ty names els|ty cols rows|name|f args|x names c r];
    cbn [Inv.sourced]; try (intros; exact I).
  - intros [Ha Hb]. split; apply IH; assumption.
  - apply IH.
  - intros (i & Hin & H). exists i. split; [apply Hl; exact Hin | exact H].
  - intros (i & Hin & H). exists i. split; [apply Hl; exact Hin | exact H].
  - intros [Hf Hargs]. split; [apply IH; exact Hf|].
    induction args as [|a args IHargs]; [exact I|].
    cbn [fold_right] in *. destruct Hargs as [Ha Hargs].
    split; [apply IH; exact Ha | apply IHargs; exact Hargs].
Qed.

(** The items that remain after the call [H] are among [all]. *)
Ltac ahead H :=
  eapply incl_keeps; [ | exact H | ];
  [ first [ apply follows_next | apply follows_expect
          | apply follows_expectCommaOr
          | match goal with F : _ |- _ => apply F end ] | ].

Section Sourced.
Variable Precedence : token.Token -> Z.
Variable all : list Scanner.Item.

Local Abbreviation inside p := (incl (Scanner.items (Parser.s p)) all).

(** Called on items of [all], every method of the parser returns a tree
    whose leaves come from [all]. *)
Lemma parser_sourced (fuel : nat) :
  (forall lhs p x q,
      inside p -> Parser.parseExpr Precedence fuel lhs p = Parser.Done x q ->
      Inv.sourced all x)
  /\ (forall lhs minPrec p x q,
         inside p ->
         Parser.parseBinaryExpr Precedence fuel lhs minPrec p = Parser.Done x q ->
         Inv.sourced all x)
  /\ (forall minPrec prec x0 p x q,
         inside p -> Inv.sourced all x0 ->
         Parser.parseBinaryExpr_levels Precedence fuel minPrec prec x0 p
         = Parser.Done x q ->
         Inv.sourced all x)
  /\ (forall prec x0 p x q,
         inside p -> Inv.sourced all x0 ->
         Parser.parseBinaryExpr_run Precedence fuel prec x0 p = Parser.Done x q ->
         Inv.sourced all x)
  /\ (forall lhs p x q,
         inside p -> Parser.parseUnaryExpr Precedence fuel lhs p = Parser.Done x q ->
         Inv.sourced all x)
  /\ (forall lhs p x q,
         inside p -> Parser.parsePrimaryExpr Precedence fuel lhs p = Parser.Done x q ->
         Inv.sourced all x)
  /\ (forall lhs p x q,
         inside p -> Parser.parseOperand Precedence fuel lhs p = Parser.Done x q ->
         Inv.sourced all x)
  /\ (forall p args q,
         inside p -> Parser.parseArgs Precedence fuel p = Parser.Done args q ->
         Inv.all_sourced all args)
  /\ (forall args0 p args q,
         inside p -> Inv.all_sourced all args0 ->
         Parser.parseArgs_loop Precedence fuel args0 p = Parser.Done args q ->
         Inv.all_sourced all args).
Proof.
  induction fuel as [|fuel (IHexpr & IHbin & IHlev & IHrun & IHun & IHprim
                             & IHop & IHargs & IHloop)].
  { repeat match goal with |- _ /\ _ => split end; intros; discriminate. }
  destruct (parser_follows Precedence fuel)
    as (Fexpr & Fbin & Flev & Frun & Fun_ & Fprim & Fop & Fargs & Floop).
  repeat match goal with |- _ /\ _ => split end.
  - intros lhs p x q W H. cbn [Parser.parseExpr] in H. eapply IHbin; eassumption.
  - intros lhs minPrec p x q W H. cbn [Parser.parseBinaryExpr] in H. exec H.
    eapply IHlev; [| |exact H].
    + ahead Hcall. exact W.
    + eapply IHun; eassumption.
  - intros minPrec prec x0 p x q W Hx H. cbn [Parser.parseBinaryExpr_levels] in H.
    exec H.
    + eapply IHlev; [| |exact H].
      * ahead Hcall. exact W.
      * eapply IHrun; eassumption.
    + ret_inv H. exact Hx.
  - intros prec x0 p x q W Hx H. cbn [Parser.parseBinaryExpr_run] in H. exec H.
    + ret_inv H. exact Hx.
    + eapply IHrun; [| |exact H].
      * ahead Hcall0. ahead Hcall. exact W.
      * cbn [Inv.sourced]. split; [exact Hx|].
        eapply IHbin; [|exact Hcall0]. ahead Hcall. exact W.
  - intros lhs p x q W H. cbn [Parser.parseUnaryExpr] in H. exec H;
      try (eapply IHprim; eassumption);
      try (ret_inv H;
           first [ exact I
                 | cbn [Inv.sourced]; eapply IHun; [|eassumption];
                   ahead Hcall; exact W ]).
  - intros lhs p x q W H. cbn [Parser.parsePrimaryExpr] in H. exec H;
      try (ret_inv H; eapply IHop; eassumption).
    ret_inv H. cbn [Inv.sourced]. split; [eapply IHop; eassumption|].
    eapply IHargs; [|exact Hcall0]. ahead Hcall. exact W.
  - intros lhs p x q W H. cbn [Parser.parseOperand] in H. exec H;
      try (eapply sourced_incl; [exact W|]; eapply parseIdent_sourced; eassumption);
      try (ret_inv H; cbn [Inv.sourced];
           first [ exact I
                 | eapply IHexpr; [|exact Hcall0]; ahead Hcall; exact W
                 | match goal with
                   | Ht : Scanner.Token (Parser.s p) = _ |- _ =>
                       destruct (head_item _ _ Ht ltac:(discriminate))
                         as (i & Hin & Hi & Hl);
                       exists i; split; [apply W; exact Hin|];
                       split; [rewrite Hi; reflexivity | exact Hl]
                   end ]).
  - intros p args q W H. cbn [Parser.parseArgs] in H. exec H. ret_inv H.
    eapply IHloop; [| |exact Hcall1].
    + ahead Hcall0. ahead Hcall. exact W.
    + exact I.
  - intros args0 p args q W Hargs H. cbn [Parser.parseArgs_loop] in H. exec H.
    + ret_inv H. apply all_sourced_snoc; [exact Hargs|]. eapply IHexpr; eassumption.
    + eapply IHloop; [| |exact H].
      * ahead Hcall1. ahead Hcall0. ahead Hcall. exact W.
      * apply all_sourced_snoc; [exact Hargs|]. eapply IHexpr; eassumption.
    + ret_inv H. exact Hargs.
Qed.
End Sourced.

(** The parser invents no leaf: in the tree [ParseExpr] returns, every
    [BasicLiteral] holds the literal of a literal token of the source, and
    every [Ident] the name that an identifier token of the source carries;
    the placeholder name of [parseIdent] never gets into a tree. *)
Theorem ParseExpr_leaves_from_tokens :
  forall (Precedence : token.Token -> Z) (fuel : nat) (src : Scanner.Source)
         (x : Expr) (e : option error) (p : Parser.parser),
    Parser.ParseExpr Precedence fuel src = Parser.Done (x, e) p ->
    Inv.sourced (Scanner.scan src) x.
Proof.
  intros Precedence fuel src x e p H.
  apply ParseExpr_Done in H. destruct H as [(-> & _)|[_ H]]; [exact I|].
  destruct (parser_sourced Precedence (Scanner.scan src) fuel) as (Hexpr & _).
  eapply Hexpr; [|exact H]. apply incl_refl.
Qed.

(** The theorem on [f(1, 2) * -3]. *)
Lemma ParseExpr_leaves_from_tokens_witness :
  Parser.ParseExpr token.Precedence 60 (Lex.source "f(1, 2) * -3")
  = Parser.Done (Sample.call_times_neg, None) (Sample.exhausted 12 [])
  /\ Inv.sourced (Scanner.scan (Lex.source "f(1, 2) * -3")) Sample.call_times_neg.
Proof.
  assert (H : Parser.ParseExpr token.Precedence 60 (Lex.source "f(1, 2) * -3")
              = Parser.Done (Sample.call_times_neg, None) (Sample.exhausted 12 []))
    by (vm_compute; reflexivity).
  split; [exact H|].
  exact (ParseExpr_leaves_from_tokens _ _ _ _ _ _ H).
Defined.

(* ------------------------------------------------------------------ *)
(** ** Precedence climbing and argument lists, from any state *)

(** Whenever [next] returns, it leaves the state [Inv.after_next]. *)
Lemma next_after_next (fuel : nat) p u q :
  Parser.next fuel p = Parser.Done u q -> q = Inv.after_next p.
Proof. apply next_total. Qed.

(** [expect] always returns, and leaves the state [Inv.required]. *)
Lemma expect_required (t : token.Token) p :
  Parser.expect t p
  = Parser.Done (token.eqb t (Scanner.Token (Parser.s p))) (Inv.required t p).
Proof.
  unfold Parser.expect, Inv.required, Inv.recorded. rewrite bind_Token.
  cbv beta zeta.
  destruct (token.eqb t (Scanner.Token (Parser.s p))); reflexivity.
Qed.

Section Tree.
Variable Precedence : token.Token -> Z.

Local Abbreviation tree := (Spec.tree_of Precedence).

(** An operator takes the whole tree as its left operand when the root of
    the tree has its level at least. *)
Lemma attach_at_least (x : Expr) (op : token.Token) (y : Expr) :
  Inv.at_least Precedence (Precedence op) x = true ->
  Spec.attach Precedence x op y = Binary op x y.
Proof.
  destruct x; try reflexivity. cbn [Inv.at_least Spec.attach]. intros H.
  apply Z.leb_le in H.
  destruct (Precedence Op <? Precedence op) eqn:E; [|reflexivity].
  apply Z.ltb_lt in E. lia.
Qed.

Lemma tree_of_app x0 rest rest' :
  tree x0 (rest ++ rest') = tree (tree x0 rest) rest'.
Proof. unfold Spec.tree_of. apply fold_left_app. Qed.

(** Operators of a strictly higher level than the root go to the right
    operand of the root. *)
Lemma tree_of_under (op : token.Token) (x : Expr) (rest : list (token.Token * Expr)) :
  Inv.level_from Precedence (Precedence op + 1) rest ->
  forall y, tree (Binary op x y) rest = Binary op x (tree y rest).
Proof.
  unfold Inv.level_from, Spec.tree_of.
  induction rest as [|[o z] rest IH]; intros H y; [reflexivity|].
  cbn [fold_left fst snd Spec.attach].
  pose proof (Forall_inv H) as Ho. cbn [fst] in Ho.
  assert (E : (Precedence op <? Precedence o) = true) by (apply Z.ltb_lt; lia).
  rewrite E. apply IH. exact (Forall_inv_tail H).
Qed.

Lemma reads_app p rest q rest' q' :
  Inv.reads Precedence p rest q -> Inv.reads Precedence q rest' q' ->
  Inv.reads Precedence p (rest ++ rest') q'.
Proof.
  induction 1 as [p|p p1 q x rest Ho _ IH]; intros H'; [exact H'|].
  cbn [app]. econstructor; [exact Ho | apply IH; exact H'].
Qed.

Lemma level_from_weaken m m' rest :
  m' <= m -> Inv.level_from Precedence m rest -> Inv.level_from Precedence m' rest.
Proof.
  intros Hle H. eapply Forall_impl; [|exact H]. cbn beta. intros; lia.
Qed.

(** Whenever [parseBinaryExpr] returns, its tree is the tree of the first
    operand and of the operators read after it; every one of them has the
    minimum level at least. *)
Lemma climbing_tree (fuel : nat) :
  (forall lhs minPrec p t q,
      Parser.parseBinaryExpr Precedence fuel lhs minPrec p = Parser.Done t q ->
      exists x0 p0 rest,
        Inv.operand_at Precedence p x0 p0
        /\ Inv.reads Precedence p0 rest q
        /\ t = tree x0 rest
        /\ Inv.level_from Precedence minPrec rest
        /\ Inv.at_least Precedence minPrec t = true)
  /\ (forall minPrec prec x p t q,
         Inv.at_least Precedence (prec + 1) x = true ->
         Inv.at_least Precedence minPrec x = true ->
         Parser.parseBinaryExpr_levels Precedence fuel minPrec prec x p
         = Parser.Done t q ->
         exists rest,
           Inv.reads Precedence p rest q
           /\ t = tree x rest
           /\ Inv.level_from Precedence minPrec rest
           /\ Inv.at_least Precedence minPrec t = true)
  /\ (forall prec x p t q,
         Inv.at_least Precedence prec x = true ->
         Parser.parseBinaryExpr_run Precedence fuel prec x p = Parser.Done t q ->
         exists rest,
           Inv.reads Precedence p rest q
           /\ t = tree x rest
           /\ Inv.level_from Precedence prec rest
           /\ Inv.at_least Precedence prec t = true).
Proof.
  induction fuel as [|fuel (IHbin & IHlev & IHrun)].
  { repeat match goal with |- _ /\ _ => split end; intros; discriminate. }
  repeat match goal with |- _ /\ _ => split end.
  - intros lhs minPrec p t q H. cbn [Parser.parseBinaryExpr] in H. exec H.
    pose proof (proj2 (proj1 (proj2 (proj2 (proj2 (proj2
                  (parser_shaped Precedence fuel))))) _ _ _ _ Hcall)) as Hnb.
    destruct (IHlev _ _ _ _ _ _
                (at_least_not_binary Precedence _ _ Hnb)
                (at_least_not_binary Precedence _ _ Hnb) H)
      as (rest & Hr & -> & Hl & Ha).
    exists a, q0, rest. split; [exists fuel, lhs; exact Hcall|].
    repeat split; assumption.
  - intros minPrec prec x p t q Hp Hm H.
    cbn [Parser.parseBinaryExpr_levels] in H. exec H.
    + rewrite Z.geb_leb in Heqb. apply Z.leb_le in Heqb.
      destruct (IHrun _ _ _ _ _
                  (at_least_weaken Precedence (prec + 1) prec x ltac:(lia) Hp) Hcall)
        as (rest1 & Hr1 & -> & Hl1 & Ha1).
      destruct (IHlev minPrec (prec - 1) _ _ _ _
                  ltac:(replace (prec - 1 + 1) with prec by lia; exact Ha1)
                  (at_least_weaken Precedence prec minPrec _ Heqb Ha1) H)
        as (rest2 & Hr2 & -> & Hl2 & Ha2).
      exists (rest1 ++ rest2). split; [eapply reads_app; eassumption|].
      split; [symmetry; apply tree_of_app|].
      split; [|exact Ha2].
      apply Forall_app. split; [|exact Hl2].
      eapply level_from_weaken; [|exact Hl1]. exact Heqb.
    + ret_inv H. exists []. split; [constructor|].
      split; [reflexivity|]. split; [constructor | exact Hm].
  - intros prec x p t q Hx H. cbn [Parser.parseBinaryExpr_run] in H. exec H.
    + ret_inv H. exists []. split; [constructor|].
      split; [reflexivity|]. split; [constructor | exact Hx].
    + apply negb_false_iff in Heqb. apply Z.eqb_eq in Heqb.
      destruct a. apply next_after_next in Hcall. subst q0.
      destruct (IHbin _ _ _ _ _ Hcall0)
        as (y0 & p1 & resty & Hy0 & Hry & -> & Hly & Hay).
      assert (Hroot : Inv.at_least Precedence prec
                        (Binary (Scanner.Token (Parser.s p)) x (tree y0 resty)) = true).
      { cbn [Inv.at_least]. apply Z.leb_le. lia. }
      destruct (IHrun _ _ _ _ _ Hroot H) as (rest' & Hr' & -> & Hl' & Ha').
      exists ((Scanner.Token (Parser.s p), y0) :: resty ++ rest').
      split.
      { econstructor; [exact Hy0|]. eapply reads_app; eassumption. }
      split.
      { change ((Scanner.Token (Parser.s p), y0) :: resty ++ rest')
          with (([(Scanner.Token (Parser.s p), y0)] ++ resty) ++ rest').
        rewrite tree_of_app. f_equal. rewrite tree_of_app.
        change (tree x [(Scanner.Token (Parser.s p), y0)])
          with (Spec.attach Precedence x (Scanner.Token (Parser.s p)) y0).
        rewrite attach_at_least by (rewrite Heqb; exact Hx).
        symmetry. apply tree_of_under. rewrite Heqb. exact Hly. }
      split; [|exact Ha'].
      constructor; [cbn [fst]; lia|].
      apply Forall_app. split; [|exact Hl'].
      eapply level_from_weaken; [|exact Hly]. lia.
Qed.

(** The tree [parseBinaryExpr] returns and the token it stops at. *)
Lemma parseBinaryExpr_tree (fuel : nat) (lhs : bool) (minPrec : Z) p t q :
  Parser.parseBinaryExpr Precedence fuel lhs minPrec p = Parser.Done t q ->
  exists x0 p0 rest,
    Inv.operand_at Precedence p x0 p0
    /\ Inv.reads Precedence p0 rest q
    /\ t = tree x0 rest
    /\ Inv.level_from Precedence minPrec rest
    /\ Precedence (Scanner.Token (Parser.s q)) < minPrec.
Proof.
  intros H.
  pose proof (parseBinaryExpr_post Precedence fuel lhs minPrec _ _ _ H) as Hpost.
  destruct (climbing_tree fuel) as (Hbin & _).
  destruct (Hbin _ _ _ _ _ H) as (x0 & p0 & rest & Hx0 & Hr & Ht & Hl & _).
  exists x0, p0, rest. repeat split; assumption.
Qed.

(** The same for [parseExpr], whose minimum is 1. *)
Lemma parseExpr_tree p t q :
  Inv.expr_at Precedence p t q ->
  exists x0 p0 rest,
    Inv.operand_at Precedence p x0 p0
    /\ Inv.reads Precedence p0 rest q
    /\ t = tree x0 rest
    /\ Inv.level_from Precedence 1 rest
    /\ Precedence (Scanner.Token (Parser.s q)) < 1.
Proof.
  intros (fuel & lhs & H). destruct fuel as [|fuel]; [discriminate|].
  cbn [Parser.parseExpr] in H. exact (parseBinaryExpr_tree _ _ _ _ _ _ H).
Qed.


End Tree.


(** On a source the parser has a rule for, [ParseExpr] returns when the
    fuel is linear in the number of items. *)
Lemma ParseExpr_Done_supported (Precedence : token.Token -> Z) (fuel : nat)
    (src : Scanner.Source) :
  Precedence token.Unknown < 1 ->
  forallb Inv.supported (Scanner.scan src) = true ->
  (Measure.enough Precedence (Datatypes.length (Scanner.scan src)) <= fuel)%nat ->
  exists t e q, Parser.ParseExpr Precedence fuel src = Parser.Done (t, e) q.
Proof.
  intros HU Hsup Hfuel.
  pose proof (ParseExpr_halts Precedence HU fuel src Hfuel) as Hh.
  destruct (Parser.ParseExpr Precedence fuel src) as [[x e] p|msg|] eqn:E.
  - exists x, e, p. reflexivity.
  - exfalso. apply ParseExpr_Panic in E.
    destruct (parser_safe Precedence fuel) as (Hexpr & _).
    specialize (Hexpr false (loaded src) Hsup). rewrite E in Hexpr.
    exact Hexpr.
  - congruence.
Qed.

(** Nothing is skipped at a token that is not a comment. *)
Lemma skip_comments_at_token (l : list Scanner.Item) :
  Sample.first_token l <> token.Comment -> Inv.skip_comments l = l.
Proof.
  destruct l as [|i l]; [reflexivity|]. intros H. cbn [Inv.skip_comments].
  apply token_eqb_false in H. unfold Sample.first_token, Scanner.Token in H.
  cbn in H. rewrite H. reflexivity.
Qed.

Section Leaves.
Variable Precedence : token.Token -> Z.
Hypothesis table : Sample.operator_table Precedence.

(** On a leaf that no suffix follows, [parseUnaryExpr] returns the leaf and
    consumes its one token. *)
Lemma operand_at_leaf (i : Scanner.Item) (l : list Scanner.Item) (eo : Z)
    (errs : list Error) x q :
  Sample.is_leaf i = true ->
  Sample.first_token l <> token.Comment ->
  Sample.is_suffix (Sample.first_token l) = false ->
  Inv.operand_at Precedence (Parser.mkParser (Scanner.mkT (i :: l) eo) errs) x q ->
  x = Sample.leaf_of i /\ q = Parser.mkParser (Scanner.mkT l eo) errs.
Proof.
  intros Hleaf Hc Hs (fuel & lhs & H).
  destruct fuel as [|fuel]; [discriminate|].
  destruct i as [tok lit off r e]. unfold Sample.is_leaf in Hleaf.
  unfold Sample.leaf_of. cbn [Scanner.iToken Scanner.iLiteral] in *.
  cbn [Parser.parseUnaryExpr] in H. rewrite bind_Token in H.
  unfold Scanner.Token in H at 1. cbn [Parser.s Scanner.items Scanner.iToken] in H.
  destruct tok; try discriminate Hleaf;
    (destruct fuel as [|fuel]; [discriminate|]);
    cbn [Parser.parsePrimaryExpr] in H;
    apply bind_Done in H; destruct H as (a & q0 & Hop & H);
    (destruct fuel as [|fuel]; [discriminate|]);
    cbn [Parser.parseOperand] in Hop; rewrite bind_Token in Hop;
    unfold Scanner.Token in Hop at 1;
    cbn [Parser.s Scanner.items Scanner.iToken] in Hop.
  1:{ destruct lit; try discriminate Hleaf.
      unfold Parser.parseIdent in Hop. exec Hop. ret_inv Hop.
      rewrite expect_required in Hcall. injection Hcall as <- <-.
      unfold Inv.required, Scanner.Token, Scanner.Literal in Hcall0.
      cbn in Hcall0. ret_inv Hcall0.
      apply next_after_next in Hcall1. subst.
      unfold Inv.after_next in H.
      cbn [Parser.s Parser.err Scanner.items Scanner.eofOffset tl] in H.
      rewrite (skip_comments_at_token l Hc) in H.
      rewrite bind_Token in H; cbn [Parser.s] in H; rewrite Token_first_token in H.
      destruct (Sample.first_token l); try discriminate Hs;
        ret_inv H; split; reflexivity. }
  all: exec Hop; ret_inv Hop.
  all: apply next_after_next in Hcall; subst.
  all: unfold Inv.after_next in H;
    cbn [Parser.s Parser.err Scanner.items Scanner.eofOffset tl] in H;
    rewrite (skip_comments_at_token l Hc) in H;
    rewrite bind_Token in H; cbn [Parser.s] in H; rewrite Token_first_token in H;
    destruct (Sample.first_token l); try discriminate Hs;
    ret_inv H; split; reflexivity.
Qed.

(** An operator with a level is neither a comment nor a suffix. *)
Lemma level_not_suffix (t : token.Token) :
  1 <= Precedence t -> t <> token.Comment /\ Sample.is_suffix t = false.
Proof.
  intros H. apply table in H. destruct t; try discriminate H;
    split; try discriminate; reflexivity.
Qed.

End Leaves.

(** What [expectCommaOr] returns in an argument list, by the current
    token. *)
Lemma expectCommaOr_cases p more q :
  Parser.expectCommaOr token.RightParen "arguments" p = Parser.Done more q ->
  (Scanner.Token (Parser.s p) = token.Comma /\ more = true /\ q = p)
  \/ (Scanner.Token (Parser.s p) = token.RightParen /\ more = false /\ q = p)
  \/ (Scanner.Token (Parser.s p) <> token.Comma
      /\ Scanner.Token (Parser.s p) <> token.RightParen
      /\ more = true
      /\ q = Inv.recorded (Sample.missing_comma (Scanner.Offset (Parser.s p))
                              (Scanner.Token (Parser.s p))) p).
Proof.
  unfold Parser.expectCommaOr. rewrite bind_Token. cbv beta.
  destruct (token.eqb (Scanner.Token (Parser.s p)) token.Comma) eqn:Ec.
  - intros H. ret_inv H. apply token_eqb_true in Ec. left. auto.
  - apply token_eqb_false in Ec.
    destruct (token.eqb (Scanner.Token (Parser.s p)) token.RightParen) eqn:Er;
      cbn [negb].
    + intros H. ret_inv H. apply token_eqb_true in Er. right; left. auto.
    + apply token_eqb_false in Er. unfold Parser.bind. rewrite error_spec.
      intros H. ret_inv H. right; right. repeat split; assumption.
Qed.

Section Arguments.
Variable Precedence : token.Token -> Z.

(** Whenever the loop of [parseArgs] returns, it has added to its list the
    arguments read from the state it started in. *)
Lemma parseArgs_loop_listed (fuel : nat) :
  forall acc p args q,
    Parser.parseArgs_loop Precedence fuel acc p = Parser.Done args q ->
    exists new, args = acc ++ new /\ Inv.listed Precedence p new q.
Proof.
  induction fuel as [|fuel IH]; intros acc p args q H; [discriminate|].
  cbn [Parser.parseArgs_loop] in H. exec H.
  - apply andb_true_iff in Heqb. destruct Heqb as [Ht Hr].
    apply negb_true_iff, token_eqb_false in Ht.
    rewrite Z.gtb_ltb in Hr. apply Z.ltb_lt in Hr.
    ret_inv H. apply negb_true_iff in Heqb0. subst a0.
    destruct (expectCommaOr_cases _ _ _ Hcall0)
      as [(_ & Hm & _)|[(Htok & _ & ->)|(_ & _ & Hm & _)]]; try discriminate.
    exists [a]. split; [reflexivity|].
    apply Inv.listed_last; try assumption. exists fuel, false. exact Hcall.
  - apply andb_true_iff in Heqb. destruct Heqb as [Ht Hr].
    apply negb_true_iff, token_eqb_false in Ht.
    rewrite Z.gtb_ltb in Hr. apply Z.ltb_lt in Hr.
    destruct a1. apply next_after_next in Hcall1. subst q2.
    destruct (IH _ _ _ _ H) as (new & -> & Hnew).
    exists (a :: new). split; [rewrite <- app_assoc; reflexivity|].
    destruct (expectCommaOr_cases _ _ _ Hcall0)
      as [(Htok & _ & ->)|[(_ & Hm & _)|(Hc & Hp & _ & ->)]].
    + eapply Inv.listed_comma; try eassumption. exists fuel, false. exact Hcall.
    + apply negb_false_iff in Heqb0. congruence.
    + eapply Inv.listed_missing_comma; try eassumption.
      exists fuel, false. exact Hcall.
  - ret_inv H. exists []. split; [rewrite app_nil_r; reflexivity|].
    apply Inv.listed_end. apply andb_false_iff in Heqb. destruct Heqb as [Ht|Hr].
    + left. apply negb_false_iff, token_eqb_true in Ht. exact Ht.
    + right. rewrite Z.gtb_ltb in Hr. apply Z.ltb_ge in Hr. exact Hr.
Qed.

(** Whenever [parseArgs] returns: the opening parenthesis was required and
    consumed, the arguments were read, and the closing parenthesis was
    required, where the arguments ended, and consumed. *)
Lemma parseArgs_listed (fuel : nat) p args q :
  Parser.parseArgs Precedence fuel p = Parser.Done args q ->
  exists p1,
    Inv.listed Precedence (Inv.after_next (Inv.required token.LeftParen p)) args p1
    /\ q = Inv.after_next (Inv.required token.RightParen p1).
Proof.
  intros H. destruct fuel as [|fuel]; [discriminate|].
  cbn [Parser.parseArgs] in H. exec H. ret_inv H.
  rewrite expect_required in Hcall, Hcall2.
  injection Hcall as _ <-. injection Hcall2 as _ <-. destruct a0, a3.
  apply next_after_next in Hcall0, Hcall3. subst.
  destruct (parseArgs_loop_listed _ _ _ _ _ Hcall1) as (new & -> & Hnew).
  exists q2. split; [exact Hnew | reflexivity].
Qed.

(** Whenever [parsePrimaryExpr] returns: at an opening parenthesis after
    the operand, the [Call] node of the operand and of the arguments read;
    otherwise the operand. *)
Lemma parsePrimaryExpr_listed (fuel : nat) (lhs : bool) p x q :
  Parser.parsePrimaryExpr Precedence fuel lhs p = Parser.Done x q ->
  exists f p0,
    (exists fuel', Parser.parseOperand Precedence fuel' lhs p = Parser.Done f p0)
    /\ ((Scanner.Token (Parser.s p0) = token.LeftParen
         /\ exists args p1,
              x = Call f args
              /\ Inv.listed Precedence (Inv.after_next p0) args p1
              /\ q = Inv.after_next (Inv.required token.RightParen p1))
        \/ (Scanner.Token (Parser.s p0) <> token.LeftParen /\ x = f /\ q = p0)).
Proof.
  intros H. destruct fuel as [|fuel]; [discriminate|].
  cbn [Parser.parsePrimaryExpr] in H. exec H;
    try (ret_inv H; exists x, q; split; [exists fuel; exact Hcall|];
         right; split; [congruence|]; split; reflexivity).
  ret_inv H. exists a, q0. split; [exists fuel; exact Hcall|]. left.
  split; [assumption|].
  destruct (parseArgs_listed _ _ _ _ Hcall0) as (p1 & H1 & H2).
  unfold Inv.required in H1 at 1.
  replace (token.eqb token.LeftParen (Scanner.Token (Parser.s q0))) with true in H1
    by (symmetry; apply token_eqb_true; congruence).
  exists a0, p1. repeat split; assumption.
Qed.
End Arguments.

(* ------------------------------------------------------------------ *)
(** ** The parser on the texts of the grammar *)

Local Abbreviation at_items l eo errs := (Parser.mkParser (Scanner.mkT l eo) errs).

(** An operand of the grammar begins with a token that is neither a
    comment nor a closing parenthesis. *)
Lemma begins_first (l : list Scanner.Item) :
  Inv.begins l ->
  Sample.first_token l <> token.Comment
  /\ Sample.first_token l <> token.RightParen.
Proof.
  intros (i & rest & -> & H). unfold Sample.first_token, Scanner.Token.
  cbn [Scanner.items]. unfold Sample.is_leaf in H.
  destruct (Scanner.iToken i); split; try discriminate;
    destruct H as [H|H]; discriminate H.
Qed.

Lemma begins_app (l tail : list Scanner.Item) :
  Inv.begins l -> Inv.begins (l ++ tail).
Proof. intros (i & rest & -> & H). exists i, (rest ++ tail). split; [reflexivity|exact H]. Qed.

Lemma begins_first_r (l tail : list Scanner.Item) :
  Inv.begins l -> Inv.first_r (l ++ tail) = Inv.first_r l.
Proof. intros (i & rest & -> & _). reflexivity. Qed.

Lemma begins_first_err (l tail : list Scanner.Item) :
  Inv.begins l -> Inv.first_err (l ++ tail) = Inv.first_err l.
Proof. intros (i & rest & -> & _). reflexivity. Qed.

(** The texts of the grammar begin as an operand does. *)
Lemma operand_text_begins Precedence seg x :
  Spec.operand_text Precedence seg x -> Inv.begins seg.
Proof.
  destruct 1 as [i Hi|s seg x Hs _ _|s seg x Hs _|f lp args rp es Hf _ _ _].
  - exists i, []. auto.
  - exists s, seg. split; [reflexivity|]. right.
    destruct (Scanner.iToken s); try discriminate Hs; reflexivity.
  - exists s, seg. split; [reflexivity|]. right. rewrite Hs. reflexivity.
  - eexists f, _. split; [reflexivity|]. left. exact Hf.
Qed.

Lemma expr_text_begins Precedence items e :
  Spec.expr_text Precedence items e -> Inv.begins items.
Proof.
  destruct 1 as [seg x items rest Hseg _].
  apply begins_app. exact (operand_text_begins _ _ _ Hseg).
Qed.

Lemma arguments_text_begins Precedence items es :
  Spec.arguments_text Precedence items es -> es <> [] -> Inv.begins items.
Proof.
  destruct 1 as [|items e He _|items e c rest es He _ _ _ _]; intros Hne.
  - congruence.
  - exact (expr_text_begins _ _ _ He).
  - apply begins_app. exact (expr_text_begins _ _ _ He).
Qed.

Section Inversions.
Variable Precedence : token.Token -> Z.

(** After a sign that a token without scanner error follows,
    [parseUnaryExpr] returns the [Unary] node of the operand it parses
    next. *)
Lemma operand_at_sign p y q :
  Inv.is_sign (Scanner.Token (Parser.s p)) = true ->
  Scanner.err (Parser.s (Inv.after_next p)) = None ->
  Inv.operand_at Precedence p y q ->
  exists x,
    y = Unary (Scanner.Token (Parser.s p)) x
    /\ Inv.operand_at Precedence (Inv.after_next p) x q.
Proof.
  intros Hs He (fuel & lhs & H). destruct fuel as [|fuel]; [discriminate|].
  cbn [Parser.parseUnaryExpr] in H. rewrite bind_Token in H.
  destruct (Scanner.Token (Parser.s p)); try discriminate Hs.
  all: exec H; apply next_after_next in Hcall; subst q0;
    try (rewrite He in Heqo; discriminate).
  all: ret_inv H; eexists; split; [reflexivity|]; exists fuel, false; exact Hcall0.
Qed.

(** After the prefix operator [*], likewise, whatever the scanner's
    error. *)
Lemma operand_at_deref p y q :
  Scanner.Token (Parser.s p) = token.Mul ->
  Inv.operand_at Precedence p y q ->
  exists x,
    y = Unary token.Mul x /\ Inv.operand_at Precedence (Inv.after_next p) x q.
Proof.
  intros Hs (fuel & lhs & H). destruct fuel as [|fuel]; [discriminate|].
  cbn [Parser.parseUnaryExpr] in H. rewrite bind_Token in H. rewrite Hs in H.
  exec H. apply next_after_next in Hcall. subst q0.
  ret_inv H. eexists. split; [reflexivity|]. exists fuel, false. exact Hcall0.
Qed.

(** At any other token [parseUnaryExpr] returns what [parsePrimaryExpr]
    returns. *)
Lemma operand_at_primary p y q :
  Sample.is_prefix (Scanner.Token (Parser.s p)) = false ->
  Inv.operand_at Precedence p y q ->
  exists fuel lhs, Parser.parsePrimaryExpr Precedence fuel lhs p = Parser.Done y q.
Proof.
  intros Hs (fuel & lhs & H). destruct fuel as [|fuel]; [discriminate|].
  cbn [Parser.parseUnaryExpr] in H. rewrite bind_Token in H.
  destruct (Scanner.Token (Parser.s p)); try discriminate Hs;
    exists fuel, lhs; exact H.
Qed.

(** On a leaf, [parseOperand] returns the leaf and calls [next]. *)
Lemma parseOperand_leaf (fuel : nat) (lhs : bool) (i : Scanner.Item)
    (l : list Scanner.Item) (eo : Z) (errs : list Error) f p0 :
  Sample.is_leaf i = true ->
  Parser.parseOperand Precedence fuel lhs (at_items (i :: l) eo errs)
  = Parser.Done f p0 ->
  f = Sample.leaf_of i /\ p0 = at_items (Inv.skip_comments l) eo errs.
Proof.
  intros Hleaf Hop. destruct fuel as [|fuel]; [discriminate|].
  destruct i as [tok lit off r e]. unfold Sample.is_leaf in Hleaf.
  unfold Sample.leaf_of. cbn [Scanner.iToken Scanner.iLiteral] in *.
  cbn [Parser.parseOperand] in Hop. rewrite bind_Token in Hop.
  unfold Scanner.Token in Hop at 1.
  cbn [Parser.s Scanner.items Scanner.iToken] in Hop.
  destruct tok; try discriminate Hleaf.
  1:{ destruct lit; try discriminate Hleaf.
      unfold Parser.parseIdent in Hop. exec Hop. ret_inv Hop.
      rewrite expect_required in Hcall. injection Hcall as <- <-.
      unfold Inv.required, Scanner.Token, Scanner.Literal in Hcall0.
      cbn in Hcall0. ret_inv Hcall0.
      apply next_after_next in Hcall1. subst. split; reflexivity. }
  all: exec Hop; ret_inv Hop; apply next_after_next in Hcall; subst;
    split; reflexivity.
Qed.
End Inversions.

Section Text.
Variable Precedence : token.Token -> Z.
Hypothesis table : Sample.operator_table Precedence.

Lemma is_leaf_not_prefix (i : Scanner.Item) :
  Sample.is_leaf i = true -> Sample.is_prefix (Scanner.iToken i) = false.
Proof.
  unfold Sample.is_leaf. destruct (Scanner.iToken i); try discriminate; reflexivity.
Qed.

(** A token that is not a binary operator, a comment or a suffix ends an
    expression. *)
Lemma stops_at (t : token.Token) (tail : list Scanner.Item) :
  Sample.first_token tail = t ->
  Sample.is_binary_op t = false -> t <> token.Comment -> Sample.is_suffix t = false ->
  Sample.stops Precedence tail.
Proof.
  intros <- Hb Hc Hs. repeat split; try assumption.
  apply (table_not_op Precedence table). exact Hb.
Qed.

(** The parser reads a text of the grammar as the grammar does: from a
    state that holds the text and then [tail], each method returns the tree
    of the text and leaves [tail]. *)
Lemma text_sound :
  (forall seg x,
      Spec.operand_text Precedence seg x ->
      forall tail eo errs y q,
        Sample.first_token tail <> token.Comment ->
        Sample.is_suffix (Sample.first_token tail) = false ->
        Inv.operand_at Precedence (at_items (seg ++ tail) eo errs) y q ->
        y = x /\ q = at_items tail eo errs)
  /\ (forall items t,
         Spec.expr_text Precedence items t ->
         forall tail eo errs y q,
           Sample.stops Precedence tail ->
           Inv.expr_at Precedence (at_items (items ++ tail) eo errs) y q ->
           y = t /\ q = at_items tail eo errs)
  /\ (forall items rest,
         Spec.chain_text Precedence items rest ->
         forall tail eo errs read q,
           Sample.stops Precedence tail ->
           Inv.reads Precedence (at_items (items ++ tail) eo errs) read q ->
           Inv.level_from Precedence 1 read ->
           Precedence (Scanner.Token (Parser.s q)) < 1 ->
           read = rest /\ q = at_items tail eo errs)
  /\ (forall items es,
         Spec.arguments_text Precedence items es ->
         forall tail eo errs args q,
           Sample.first_token tail = token.RightParen ->
           Inv.listed Precedence (at_items (items ++ tail) eo errs) args q ->
           args = es /\ q = at_items tail eo errs).
Proof.
  apply Spec.text_mutind.
  - (* a leaf *)
    intros i Hi tail eo errs y q Hc Hs H. cbn [app] in H.
    exact (operand_at_leaf Precedence i tail eo errs y q Hi Hc Hs H).
  - (* a sign and its operand *)
    intros s seg x Hsign Herr Hseg IH tail eo errs y q Hc Hs H.
    pose proof (operand_text_begins _ _ _ Hseg) as Hb.
    destruct (begins_first _ (begins_app _ tail Hb)) as [Hbc _].
    cbn [app] in H.
    assert (Ha : Inv.after_next (at_items (s :: seg ++ tail) eo errs)
                 = at_items (seg ++ tail) eo errs).
    { unfold Inv.after_next. cbn [Parser.s Parser.err Scanner.items Scanner.eofOffset tl].
      rewrite (skip_comments_at_token _ Hbc). reflexivity. }
    apply operand_at_sign in H; [|exact Hsign|].
    2:{ rewrite Ha. cbn [Parser.s].
        change (Inv.first_err (seg ++ tail) = None).
        rewrite (begins_first_err _ _ Hb). exact Herr. }
    destruct H as (x' & -> & H). rewrite Ha in H.
    destruct (IH _ _ _ _ _ Hc Hs H) as [-> ->]. split; reflexivity.
  - (* the prefix operator Mul and its operand *)
    intros s seg x Hmul Hseg IH tail eo errs y q Hc Hs H.
    pose proof (operand_text_begins _ _ _ Hseg) as Hb.
    destruct (begins_first _ (begins_app _ tail Hb)) as [Hbc _].
    cbn [app] in H.
    assert (Ha : Inv.after_next (at_items (s :: seg ++ tail) eo errs)
                 = at_items (seg ++ tail) eo errs).
    { unfold Inv.after_next. cbn [Parser.s Parser.err Scanner.items Scanner.eofOffset tl].
      rewrite (skip_comments_at_token _ Hbc). reflexivity. }
    apply operand_at_deref in H; [|exact Hmul].
    destruct H as (x' & -> & H). rewrite Ha in H.
    destruct (IH _ _ _ _ _ Hc Hs H) as [-> ->]. split; reflexivity.
  - (* a call *)
    intros f lp args rp es Hf Hlp Hargs IH Hrp tail eo errs y q Hc Hs H.
    cbn [app] in H. rewrite <- app_assoc in H. cbn [app] in H.
    apply operand_at_primary in H; [|exact (is_leaf_not_prefix f Hf)].
    destruct H as (fuel & lhs & H).
    destruct (parsePrimaryExpr_listed _ _ _ _ _ _ H)
      as (f' & p0 & (fuel' & Hop) & Hcase).
    destruct (parseOperand_leaf _ _ _ _ _ _ _ _ _ Hf Hop) as [-> ->].
    cbn [Inv.skip_comments] in Hcase. rewrite Hlp in Hcase.
    cbn [token.eqb] in Hcase.
    replace (token.eqb token.LeftParen token.Comment) with false in Hcase
      by reflexivity.
    destruct Hcase as [(_ & args' & p1 & -> & Hl & ->)|(Hne & _)].
    2:{ exfalso. apply Hne. unfold Scanner.Token. cbn. exact Hlp. }
    assert (Hb : Sample.first_token (args ++ rp :: tail) <> token.Comment).
    { destruct es as [|e es].
      - inversion Hargs; subst. cbn [app]. unfold Sample.first_token, Scanner.Token.
        cbn. rewrite Hrp. discriminate.
      - apply begins_first, begins_app.
        apply (arguments_text_begins _ _ _ Hargs). discriminate. }
    unfold Inv.after_next in Hl at 1.
    cbn [Parser.s Parser.err Scanner.items Scanner.eofOffset tl] in Hl.
    rewrite (skip_comments_at_token _ Hb) in Hl.
    destruct (IH (rp :: tail) eo errs args' p1) as [-> ->]; [|exact Hl|].
    { unfold Sample.first_token, Scanner.Token. cbn. exact Hrp. }
    split; [reflexivity|].
    unfold Inv.required, Scanner.Token. cbn [Parser.s Scanner.items].
    rewrite Hrp. cbn [token.eqb]. rewrite token_eqb_refl.
    unfold Inv.after_next.
    cbn [Parser.s Parser.err Scanner.items Scanner.eofOffset tl].
    rewrite (skip_comments_at_token _ Hc). reflexivity.
  - (* an expression *)
    intros seg x items rest Hseg IHseg Hchain IHchain tail eo errs y q Hstop H.
    apply parseExpr_tree in H.
    destruct H as (x0 & p0 & read & Hx0 & Hr & -> & Hl & Hq).
    rewrite <- app_assoc in Hx0.
    assert (Hnext : Sample.first_token (items ++ tail) <> token.Comment
                    /\ Sample.is_suffix (Sample.first_token (items ++ tail)) = false).
    { destruct Hchain as [|o seg' x' items' rest' Ho _ _].
      - destruct Hstop as (Hc & Hs & _). split; assumption.
      - cbn [app]. apply (level_not_suffix Precedence table) in Ho. exact Ho. }
    destruct Hnext as [Hc Hs].
    destruct (IHseg _ _ _ _ _ Hc Hs Hx0) as [-> ->].
    destruct (IHchain _ _ _ _ _ Hstop Hr Hl Hq) as [-> ->].
    split; reflexivity.
  - (* the end of a chain *)
    intros tail eo errs read q Hstop Hr Hl Hq. cbn [app] in Hr.
    inversion Hr as [|p0 p1 q0 x0 rest0 H1 H5]; subst.
    + split; reflexivity.
    + exfalso. apply Forall_inv in Hl. cbn [fst] in Hl.
      cbn [Parser.s] in Hl. rewrite Token_first_token in Hl.
      destruct Hstop as (_ & _ & Hlt). lia.
  - (* an operator and its operand *)
    intros o seg x items rest Ho Hseg IHseg Hchain IHchain tail eo errs read q
           Hstop Hr Hl Hq.
    cbn [app] in Hr. rewrite <- app_assoc in Hr.
    pose proof (operand_text_begins _ _ _ Hseg) as Hb.
    destruct (begins_first _ (begins_app _ (items ++ tail) Hb)) as [Hbc _].
    inversion Hr as [|p0 p1 q0 x0 rest0 H1 H5]; subst.
    + exfalso. cbn in Hq. lia.
    + unfold Inv.after_next in H1.
      cbn [Parser.s Parser.err Scanner.items Scanner.eofOffset tl] in H1.
      rewrite (skip_comments_at_token _ Hbc) in H1.
      assert (Hnext : Sample.first_token (items ++ tail) <> token.Comment
                      /\ Sample.is_suffix (Sample.first_token (items ++ tail)) = false).
      { destruct Hchain as [|o' seg' x' items' rest' Ho' _ _].
        - destruct Hstop as (Hc & Hs & _). split; assumption.
        - cbn [app]. apply (level_not_suffix Precedence table) in Ho'. exact Ho'. }
      destruct Hnext as [Hc Hs].
      destruct (IHseg _ _ _ _ _ Hc Hs H1) as [-> ->].
      destruct (IHchain _ _ _ _ _ Hstop H5 (Forall_inv_tail Hl) Hq) as [-> ->].
      split; reflexivity.
  - (* no argument *)
    intros tail eo errs args q Htail Hl. cbn [app] in Hl.
    inversion Hl as [p0 _|p0 e p1 Hne _ _ _|p0 e p1 rest q0 Hne _ _ _ _
                     |p0 e p1 rest q0 Hne _ _ _ _ _]; subst;
      try (exfalso; apply Hne; exact Htail).
    split; reflexivity.
  - (* the last argument *)
    intros items e He IHe Hr tail eo errs args q Htail Hl.
    pose proof (expr_text_begins _ _ _ He) as Hb.
    destruct (begins_first _ (begins_app _ tail Hb)) as [_ Hbp].
    assert (Hstop : Sample.stops Precedence tail).
    { apply (stops_at token.RightParen); try assumption; try reflexivity; discriminate. }
    inversion Hl as [p0 Hend|p0 e' p1 _ _ Hat Hp1|p0 e' p1 rest q0 _ _ Hat Hp1 _
                     |p0 e' p1 rest q0 _ _ Hat _ Hp1 _]; subst.
    + exfalso. destruct Hend as [Hend|Hend].
      * apply Hbp. exact Hend.
      * change (Inv.first_r (items ++ tail) <= 0) in Hend.
        rewrite (begins_first_r _ _ Hb) in Hend. lia.
    + destruct (IHe _ _ _ _ _ Hstop Hat) as [-> ->]. split; reflexivity.
    + exfalso. destruct (IHe _ _ _ _ _ Hstop Hat) as [_ ->].
      cbn [Parser.s] in Hp1. rewrite Token_first_token, Htail in Hp1. discriminate.
    + exfalso. destruct (IHe _ _ _ _ _ Hstop Hat) as [_ ->].
      apply Hp1. exact Htail.
  - (* an argument, a comma and more arguments *)
    intros items e c rest es He IHe Hr Hc Hne Hrest IHrest tail eo errs args q
           Htail Hl.
    pose proof (expr_text_begins _ _ _ He) as Hb.
    rewrite <- app_assoc in Hl. cbn [app] in Hl.
    destruct (begins_first _ (begins_app _ (c :: rest ++ tail) Hb)) as [_ Hbp].
    assert (Hstop : Sample.stops Precedence (c :: rest ++ tail)).
    { apply (stops_at token.Comma); try reflexivity; try discriminate.
      unfold Sample.first_token, Scanner.Token. cbn. exact Hc. }
    pose proof (arguments_text_begins _ _ _ Hrest Hne) as Hbr.
    destruct (begins_first _ (begins_app _ tail Hbr)) as [Hbrc _].
    inversion Hl as [p0 Hend|p0 e' p1 _ _ Hat Hp1|p0 e' p1 rest' q0 _ _ Hat Hp1 Hmore
                     |p0 e' p1 rest' q0 _ _ Hat Hp1 _ _]; subst.
    + exfalso. destruct Hend as [Hend|Hend].
      * apply Hbp. exact Hend.
      * change (Inv.first_r (items ++ c :: rest ++ tail) <= 0) in Hend.
        rewrite (begins_first_r _ _ Hb) in Hend. lia.
    + exfalso. destruct (IHe _ _ _ _ _ Hstop Hat) as [_ ->].
      unfold Scanner.Token in Hp1. cbn in Hp1. congruence.
    + destruct (IHe _ _ _ _ _ Hstop Hat) as [-> ->].
      unfold Inv.after_next in Hmore.
      cbn [Parser.s Parser.err Scanner.items Scanner.eofOffset tl] in Hmore.
      rewrite (skip_comments_at_token _ Hbrc) in Hmore.
      destruct (IHrest _ _ _ _ _ Htail Hmore) as [-> ->]. split; reflexivity.
    + exfalso. destruct (IHe _ _ _ _ _ Hstop Hat) as [_ ->].
      apply Hp1. unfold Scanner.Token. cbn. exact Hc.
Qed.

Lemma is_leaf_supported (i : Scanner.Item) :
  Sample.is_leaf i = true -> Inv.supported i = true.
Proof.
  unfold Sample.is_leaf, Inv.supported.
  destruct (Scanner.iToken i); try discriminate; try reflexivity. auto.
Qed.

Lemma token_supported (i : Scanner.Item) (t : token.Token) :
  Scanner.iToken i = t ->
  Sample.is_suffix t = false \/ t = token.LeftParen ->
  t <> token.Identifier ->
  Inv.supported i = true.
Proof.
  intros <- H Hid. unfold Inv.supported.
  destruct (Scanner.iToken i); try reflexivity; try congruence;
    destruct H as [H|H]; discriminate H.
Qed.

(** The parser has a rule for every item of a text of the grammar. *)
Lemma text_supported :
  (forall seg x,
      Spec.operand_text Precedence seg x -> forallb Inv.supported seg = true)
  /\ (forall items t,
         Spec.expr_text Precedence items t -> forallb Inv.supported items = true)
  /\ (forall items rest,
         Spec.chain_text Precedence items rest -> forallb Inv.supported items = true)
  /\ (forall items es,
         Spec.arguments_text Precedence items es ->
         forallb Inv.supported items = true).
Proof.
  apply Spec.text_mutind; intros;
    repeat first [ rewrite forallb_app | progress cbn [forallb] ];
    repeat (apply andb_true_iff; split);
    try assumption; try reflexivity;
    try (apply is_leaf_supported; assumption).
  - apply (token_supported s (Scanner.iToken s)); [reflexivity| |];
      destruct (Scanner.iToken s); try discriminate; auto.
  - apply (token_supported s token.Mul); auto; discriminate.
  - apply (token_supported lparen token.LeftParen); auto; discriminate.
  - apply (token_supported rparen token.RightParen); auto; discriminate.
  - pose proof (table _ H) as Hb.
    apply (token_supported o (Scanner.iToken o)); [reflexivity| |];
      destruct (Scanner.iToken o); try discriminate; auto.
  - apply (token_supported comma token.Comma); auto; discriminate.
Qed.

(** A source that is a text of the grammar parses, with no error, to the
    tree of the text, and is consumed whole. *)
Lemma ParseExpr_text (size : Z) (items : list Scanner.Item) (t : Expr) (fuel : nat) :
  Spec.expr_text Precedence items t ->
  Inv.first_err items = None ->
  (Measure.enough Precedence (Datatypes.length items) <= fuel)%nat ->
  Parser.ParseExpr Precedence fuel (Scanner.mkSource items size)
  = Parser.Done (t, None) (Sample.exhausted size []).
Proof.
  intros Htext Herr Hfuel.
  set (src := Scanner.mkSource items size).
  destruct text_supported as (_ & Hsup & _).
  destruct (ParseExpr_Done_supported Precedence fuel src (table_Unknown Precedence table)
              (Hsup _ _ Htext) Hfuel) as (y & e & q & H).
  rewrite H. pose proof H as H'.
  rewrite (ParseExpr_loaded Precedence fuel src Herr) in H'.
  destruct (Parser.parseExpr Precedence fuel false (loaded src)) as [t' q'| |] eqn:Hd;
    try discriminate.
  injection H' as -> He ->.
  destruct text_sound as (_ & Hexpr & _).
  destruct (Hexpr _ _ Htext [] size [] y q (stops_nil Precedence table)) as [-> ->].
  { exists fuel, false. unfold loaded, Measure.loaded in Hd. subst src.
    cbn [Scanner.scan Scanner.size] in Hd. rewrite app_nil_r. exact Hd. }
  rewrite <- He. reflexivity.
Qed.
End Text.

(* ------------------------------------------------------------------ *)
(** ** Argument lists of the grammar *)

(** On a state the parser has a rule for, [parseArgs] returns when the
    fuel covers the tokens that remain. *)
Lemma parseArgs_Done_supported (Precedence : token.Token -> Z) (fuel : nat)
    (p : Parser.parser) :
  Precedence token.Unknown < 1 ->
  supported_from p ->
  (1 <= Measure.remaining p)%nat ->
  Measure.within Precedence 2 p fuel ->
  exists args q, Parser.parseArgs Precedence fuel p = Parser.Done args q.
Proof.
  intros HU Hp Hrem Hfuel.
  destruct (parser_halts Precedence HU fuel) as (_ & Hhalt & _).
  destruct (parser_safe Precedence fuel) as (_ & _ & _ & _ & _ & _ & _ & Hsafe & _).
  specialize (Hsafe p Hp). specialize (Hhalt p Hrem Hfuel).
  destruct (Parser.parseArgs Precedence fuel p) as [args q| |].
  - exists args, q. reflexivity.
  - exfalso. exact Hsafe.
  - exfalso. exact Hhalt.
Qed.

Section TextArguments.
Variable Precedence : token.Token -> Z.
Hypothesis table : Sample.operator_table Precedence.

(** [parseArgs] on an opening parenthesis, arguments of the grammar and a
    closing parenthesis consumes both parentheses and returns the trees of
    the arguments, in order, whatever follows. *)
Lemma parseArgs_text (fuel : nat) (lparen rparen : Scanner.Item)
    (args tail : list Scanner.Item) (es : list Expr) (eo : Z) (errs : list Error) :
  Scanner.iToken lparen = token.LeftParen ->
  Spec.arguments_text Precedence args es ->
  Scanner.iToken rparen = token.RightParen ->
  Sample.first_token tail <> token.Comment ->
  forallb Inv.supported tail = true ->
  (Measure.cost Precedence * (Datatypes.length (args ++ tail) + 2) + 2 <= fuel)%nat ->
  Parser.parseArgs Precedence fuel (at_items (lparen :: args ++ rparen :: tail) eo errs)
  = Parser.Done es (at_items tail eo errs).
Proof.
  intros Hlp Hargs Hrp Hc Hsup Hfuel.
  set (p := at_items (lparen :: args ++ rparen :: tail) eo errs).
  assert (Hp : supported_from p).
  { subst p. cbn [Parser.s Scanner.items forallb]. rewrite forallb_app.
    cbn [forallb]. destruct (text_supported Precedence table) as (_ & _ & _ & Ha).
    rewrite (Ha _ _ Hargs), Hsup.
    rewrite (token_supported lparen token.LeftParen), (token_supported rparen token.RightParen);
      auto; discriminate. }
  destruct (parser_halts Precedence (table_Unknown Precedence table) fuel)
    as (_ & Hhalt & _).
  destruct (parser_safe Precedence fuel) as (_ & _ & _ & _ & _ & _ & _ & Hsafe & _).
  specialize (Hsafe p Hp). specialize (Hhalt p).
  destruct (Parser.parseArgs Precedence fuel p) as [result q| |] eqn:E.
  - destruct (parseArgs_listed Precedence _ _ _ _ E) as (p1 & Hl & ->).
    subst p. unfold Inv.required in Hl at 1. unfold Scanner.Token in Hl at 1.
    cbn [Parser.s Scanner.items] in Hl. rewrite Hlp, token_eqb_refl in Hl.
    unfold Inv.after_next in Hl at 1.
    cbn [Parser.s Parser.err Scanner.items Scanner.eofOffset tl] in Hl.
    assert (Hb : Sample.first_token (args ++ rparen :: tail) <> token.Comment).
    { destruct es as [|e es].
      - inversion Hargs; subst. cbn [app]. unfold Sample.first_token, Scanner.Token.
        cbn. rewrite Hrp. discriminate.
      - apply begins_first, begins_app.
        apply (arguments_text_begins _ _ _ Hargs). discriminate. }
    rewrite (skip_comments_at_token _ Hb) in Hl.
    destruct (text_sound Precedence table) as (_ & _ & _ & Hsound).
    destruct (Hsound _ _ Hargs (rparen :: tail) eo errs result p1) as [-> ->];
      [unfold Sample.first_token, Scanner.Token; cbn; exact Hrp | exact Hl |].
    f_equal. unfold Inv.required, Scanner.Token. cbn [Parser.s Scanner.items].
    rewrite Hrp, token_eqb_refl. unfold Inv.after_next.
    cbn [Parser.s Parser.err Scanner.items Scanner.eofOffset tl].
    rewrite (skip_comments_at_token _ Hc). reflexivity.
  - exfalso. exact Hsafe.
  - exfalso. apply Hhalt.
    + subst p. unfold Measure.remaining, Scanner.remaining.
      cbn [Parser.s Scanner.items Datatypes.length]. lia.
    + subst p. unfold Measure.within, Measure.remaining, Scanner.remaining.
      cbn [Parser.s Scanner.items Datatypes.length].
      rewrite length_app in *. cbn [Datatypes.length] in *. nia.
Qed.

(** A source that is a call of the grammar parses, with no error, to the
    [Call] node of the trees of the arguments. *)
Lemma ParseExpr_call_text (size : Z) (f lparen rparen : Scanner.Item)
    (args : list Scanner.Item) (es : list Expr) (fuel : nat) :
  Sample.is_leaf f = true ->
  Scanner.iErr f = None ->
  Scanner.iToken lparen = token.LeftParen ->
  Spec.arguments_text Precedence args es ->
  Scanner.iToken rparen = token.RightParen ->
  (Measure.enough Precedence (Datatypes.length args + 3) <= fuel)%nat ->
  Parser.ParseExpr Precedence fuel
    (Scanner.mkSource (f :: lparen :: args ++ [rparen]) size)
  = Parser.Done (Call (Sample.leaf_of f) es, None) (Sample.exhausted size []).
Proof.
  intros Hf Herr Hlp Hargs Hrp Hfuel.
  change (Call (Sample.leaf_of f) es)
    with (Spec.tree_of Precedence (Call (Sample.leaf_of f) es) []).
  apply (ParseExpr_text Precedence table).
  - rewrite <- (app_nil_r (f :: lparen :: args ++ [rparen])).
    apply Spec.text_expr; [|constructor].
    apply Spec.text_call; assumption.
  - unfold Inv.first_err, Scanner.err. cbn. rewrite Herr. reflexivity.
  - cbn [Datatypes.length]. rewrite length_app. cbn [Datatypes.length].
    replace (S (S (Datatypes.length args + 1))) with (Datatypes.length args + 3)%nat
      by lia.
    exact Hfuel.
Qed.
End TextArguments.

(* ------------------------------------------------------------------ *)
(** ** Texts of the grammar with comments *)




(* ------------------------------------------------------------------ *)
(** ** Precedence climbing, whatever the operands *)



(* ------------------------------------------------------------------ *)
(** ** Argument lists, whatever the arguments *)

(** C8: argument lists, whatever the operator table.
    - Whenever [parseArgs] returns, in whatever state it was called: the
      opening parenthesis was required, with an error recorded if another
      token was there, and [next] was called; the arguments were read, one
      expression as [parseExpr] returns it for each, while the current token
      was not the closing parenthesis and the scanner had a rune left, a
      comma or the closing parenthesis being looked for after each and any
      other token recorded as a missing comma; and at last the closing
      parenthesis was required in the state the arguments ended in, with an
      error recorded if another token was there, and [next] was called.
    - Whenever [parsePrimaryExpr] returns with an opening parenthesis after
      its operand, its tree is the [Call] node of the operand and of these
      arguments.
    - On a state the parser has a rule for, [parseArgs] returns when the
      fuel covers the tokens that remain.
    - The loop is over, with nothing consumed, when the current token is the
      closing parenthesis or the scanner has no rune left.
    - After an argument a comma is consumed and the loop goes on; any other
      token than a comma or the closing parenthesis is recorded as a
      missing comma at its offset, and the loop goes on as well.
    - For a table that gives positive levels to binary operators only,
      [parseArgs] on an opening parenthesis, arguments of the grammar
      (expressions separated by commas) and a closing parenthesis consumes
      both parentheses and returns the tree of each argument, in order; a
      literal or an identifier followed by such a list parses to the [Call]
      node, with no error.  So it is with literal arguments.
    - [f(1, 2, 3)] parses to the tree that serializes as
      [(call f (lit *big.Int 1) (lit *big.Int 2) (lit *big.Int 3))] and
      [f()] to the tree that serializes as [(call f )].
    - Without the closing parenthesis, [f(1, 2] and [f(1] parse to a call
      and the error "expected RightParen" is returned, at the offset of the
      token found in its place. *)
Theorem argument_lists :
  forall Precedence : token.Token -> Z,
    (forall (fuel : nat) (p : Parser.parser) (args : list Expr) (q : Parser.parser),
        Parser.parseArgs Precedence fuel p = Parser.Done args q ->
        exists p1,
          Inv.listed Precedence
            (Inv.after_next (Inv.required token.LeftParen p)) args p1
          /\ q = Inv.after_next (Inv.required token.RightParen p1))
    /\ (forall (fuel : nat) (lhs : bool) (p : Parser.parser) (x : Expr)
               (q : Parser.parser),
           Parser.parsePrimaryExpr Precedence fuel lhs p = Parser.Done x q ->
           exists f p0,
             (exists fuel',
                 Parser.parseOperand Precedence fuel' lhs p = Parser.Done f p0)
             /\ ((Scanner.Token (Parser.s p0) = token.LeftParen
                  /\ exists args p1,
                       x = Call f args
                       /\ Inv.listed Precedence (Inv.after_next p0) args p1
                       /\ q = Inv.after_next (Inv.required token.RightParen p1))
                 \/ (Scanner.Token (Parser.s p0) <> token.LeftParen
                     /\ x = f /\ q = p0)))
    /\ (forall (fuel : nat) (p : Parser.parser),
           Precedence token.Unknown < 1 ->
           forallb Inv.supported (Scanner.items (Parser.s p)) = true ->
           (1 <= Measure.remaining p)%nat ->
           Measure.within Precedence 2 p fuel ->
           exists args q, Parser.parseArgs Precedence fuel p = Parser.Done args q)
    /\ (forall (fuel : nat) (args : list Expr) (p : Parser.parser),
           Scanner.Token (Parser.s p) = token.RightParen
           \/ Scanner.r (Parser.s p) <= 0 ->
           Parser.parseArgs_loop Precedence (S fuel) args p = Parser.Done args p)
    /\ (forall (fuel : nat) (args : list Expr) (e : Expr) (p p1 p2 : Parser.parser),
           Scanner.Token (Parser.s p) <> token.RightParen ->
           0 < Scanner.r (Parser.s p) ->
           Parser.parseExpr Precedence fuel false p = Parser.Done e p1 ->
           Scanner.Token (Parser.s p1) = token.Comma ->
           Parser.next fuel p1 = Parser.Done tt p2 ->
           Parser.parseArgs_loop Precedence (S fuel) args p
           = Parser.parseArgs_loop Precedence fuel (args ++ [e]) p2)
    /\ (forall (fuel : nat) (args : list Expr) (e : Expr) (p p1 p2 : Parser.parser),
           Scanner.Token (Parser.s p) <> token.RightParen ->
           0 < Scanner.r (Parser.s p) ->
           Parser.parseExpr Precedence fuel false p = Parser.Done e p1 ->
           Scanner.Token (Parser.s p1) <> token.Comma ->
           Scanner.Token (Parser.s p1) <> token.RightParen ->
           Parser.next fuel
             (Parser.mkParser (Parser.s p1)
                (Parser.err p1
                 ++ [Sample.missing_comma (Scanner.Offset (Parser.s p1))
                       (Scanner.Token (Parser.s p1))]))
           = Parser.Done tt p2 ->
           Parser.parseArgs_loop Precedence (S fuel) args p
           = Parser.parseArgs_loop Precedence fuel (args ++ [e]) p2)
    /\ (Sample.operator_table Precedence ->
        (forall (fuel : nat) (lparen rparen : Scanner.Item)
                (args tail : list Scanner.Item) (es : list Expr) (eo : Z)
                (errs : list Error),
            Scanner.iToken lparen = token.LeftParen ->
            Spec.arguments_text Precedence args es ->
            Scanner.iToken rparen = token.RightParen ->
            Sample.first_token tail <> token.Comment ->
            forallb Inv.supported tail = true ->
            (Measure.cost Precedence * (Datatypes.length (args ++ tail) + 2) + 2
             <= fuel)%nat ->
            Parser.parseArgs Precedence fuel
              (Parser.mkParser
                 (Scanner.mkT (lparen :: args ++ rparen :: tail) eo) errs)
            = Parser.Done es (Parser.mkParser (Scanner.mkT tail eo) errs))
        /\ (forall (size : Z) (f lparen rparen : Scanner.Item)
                   (args : list Scanner.Item) (es : list Expr) (fuel : nat),
               Sample.is_leaf f = true ->
               Scanner.iErr f = None ->
               Scanner.iToken lparen = token.LeftParen ->
               Spec.arguments_text Precedence args es ->
               Scanner.iToken rparen = token.RightParen ->
               (Measure.enough Precedence (Datatypes.length args + 3) <= fuel)%nat ->
               Parser.ParseExpr Precedence fuel
                 (Scanner.mkSource (f :: lparen :: args ++ [rparen]) size)
               = Parser.Done (Call (Sample.leaf_of f) es, None)
                   (Sample.exhausted size []))
        /\ (forall (eo : Z) (errs : list Error) (lparen rparen : Scanner.Item)
                   (a : Sample.arguments) (tail : list Scanner.Item) (fuel : nat),
               Scanner.iToken lparen = token.LeftParen ->
               Scanner.iToken rparen = token.RightParen ->
               Sample.literal_arguments a ->
               Sample.first_token tail <> token.Comment ->
               (Datatypes.length (Sample.arg_items a) + 9 <= fuel)%nat ->
               Parser.parseArgs Precedence fuel
                 (Parser.mkParser
                    (Scanner.mkT (lparen :: Sample.arg_items a ++ rparen :: tail) eo)
                    errs)
               = Parser.Done (Sample.arg_trees a)
                   (Parser.mkParser (Scanner.mkT tail eo) errs))
        /\ (forall (size : Z) (name : string) (f lparen rparen : Scanner.Item)
                   (a : Sample.arguments) (fuel : nat),
               Scanner.iToken f = token.Identifier ->
               Scanner.iLiteral f = LitString name ->
               Scanner.iErr f = None ->
               Scanner.iToken lparen = token.LeftParen ->
               Scanner.iToken rparen = token.RightParen ->
               Sample.literal_arguments a ->
               (Datatypes.length (Sample.arg_items a) + 13 <= fuel)%nat ->
               Parser.ParseExpr Precedence fuel
                 (Scanner.mkSource (f :: lparen :: Sample.arg_items a ++ [rparen])
                    size)
               = Parser.Done (Call (Ident name) (Sample.arg_trees a), None)
                   (Sample.exhausted size []))
        /\ (forall fuel : nat,
               (19 <= fuel)%nat ->
               Parser.ParseExpr Precedence fuel (Lex.source "f(1, 2, 3)")
               = Parser.Done (Sample.call_f_123, None) (Sample.exhausted 10 []))
        /\ (forall fuel : nat,
               (13 <= fuel)%nat ->
               Parser.ParseExpr Precedence fuel (Lex.source "f()")
               = Parser.Done (Sample.call_f, None) (Sample.exhausted 3 [])))
    /\ exprSexp Sample.call_f_123
       = Some "(call f (lit *big.Int 1) (lit *big.Int 2) (lit *big.Int 3))"
    /\ exprSexp Sample.call_f = Some "(call f )"
    /\ (forall fuel : nat,
           Parser.ParseExpr token.Precedence (12 + fuel) (Lex.source "f(1, 2")
           = Parser.Done
               (Call (Ident "f") [Sample.int 1],
                Some (ParserErrors
                        [Sample.expected_found 5 token.RightParen token.Int]))
               (Sample.exhausted 6
                  [Sample.expected_found 5 token.RightParen token.Int]))
    /\ (forall fuel : nat,
           Parser.ParseExpr token.Precedence (12 + fuel) (Lex.source "f(1")
           = Parser.Done
               (Call (Ident "f") [],
                Some (ParserErrors
                        [Sample.expected_found 2 token.RightParen token.Int]))
               (Sample.exhausted 3
                  [Sample.expected_found 2 token.RightParen token.Int])).
Proof.
  intros Precedence.
  split; [intros fuel p args q H; exact (parseArgs_listed Precedence fuel p args q H)|].
  split; [intros fuel lhs p x q H;
          exact (parsePrimaryExpr_listed Precedence fuel lhs p x q H)|].
  split; [intros fuel p HU Hp Hrem Hfuel;
          exact (parseArgs_Done_supported Precedence fuel p HU Hp Hrem Hfuel)|].
  split; [intros; apply parseArgs_loop_exit; assumption|].
  split; [intros fuel args e p p1 p2 H1 H2 H3 H4 H5;
          exact (parseArgs_loop_comma Precedence fuel args e p p1 p2 H1 H2 H3 H4 H5)|].
  split; [intros fuel args e p p1 p2 H1 H2 H3 H4 H5 H6;
          exact (parseArgs_loop_missing_comma Precedence fuel args e p p1 p2
                   H1 H2 H3 H4 H5 H6)|].
  split.
  { intros table.
    split; [intros fuel lparen rparen args tail es eo errs H1 H2 H3 H4 H5 H6;
            exact (parseArgs_text Precedence table fuel lparen rparen args tail es
                     eo errs H1 H2 H3 H4 H5 H6)|].
    split; [intros size f lparen rparen args es fuel H1 H2 H3 H4 H5 H6;
            exact (ParseExpr_call_text Precedence table size f lparen rparen args es
                     fuel H1 H2 H3 H4 H5 H6)|].
    split; [intros; apply (parseArgs_literals Precedence table); assumption|].
    split; [intros; apply (ParseExpr_call Precedence table); assumption|].
    split.
    { intros fuel Hfuel.
      apply (ParseExpr_call Precedence table 10 "f"
               (Scanner.mkItem token.Identifier (LitString "f") 0 40 None)
               (Scanner.mkItem token.LeftParen LitNil 1 49 None)
               (Scanner.mkItem token.RightParen LitNil 9 (-1) None)
               (Some (Scanner.mkItem token.Int (LitInt 1) 2 44 None,
                      [ (Scanner.mkItem token.Comma LitNil 3 32 None,
                         Scanner.mkItem token.Int (LitInt 2) 5 44 None);
                        (Scanner.mkItem token.Comma LitNil 6 32 None,
                         Scanner.mkItem token.Int (LitInt 3) 8 41 None) ])));
        try reflexivity.
      - cbn. repeat split; try lia. repeat constructor; cbn; lia.
      - cbn. lia. }
    intros fuel Hfuel.
    apply (ParseExpr_call Precedence table 3 "f"
             (Scanner.mkItem token.Identifier (LitString "f") 0 40 None)
             (Scanner.mkItem token.LeftParen LitNil 1 41 None)
             (Scanner.mkItem token.RightParen LitNil 2 (-1) None) None);
      try reflexivity; try exact I.
    cbn. lia. }
  split; [reflexivity|].
  split; [reflexivity|].
  split; intros fuel; reflexivity.
Qed.

(** The theorem at the modelled operator table: the arguments of
    [f(a + 1, -b)] are arguments of the grammar, and the source parses to
    the call of their trees; [f(1, 2, 3)] and [f()]; and on [f(1, 2], where
    [parseArgs] returns without having found the closing parenthesis, what
    it has read. *)
Lemma argument_lists_witness :
  Sample.operator_table token.Precedence
  /\ Spec.arguments_text token.Precedence Sample.sum_and_negation_items
       Sample.sum_and_negation
  /\ Parser.ParseExpr token.Precedence 110 (Lex.source "f(a + 1, -b)")
     = Parser.Done (Call (Ident "f") Sample.sum_and_negation, None)
         (Sample.exhausted 12 [])
  /\ Parser.ParseExpr token.Precedence 19 (Lex.source "f(1, 2, 3)")
     = Parser.Done (Sample.call_f_123, None) (Sample.exhausted 10 [])
  /\ Parser.ParseExpr token.Precedence 13 (Lex.source "f()")
     = Parser.Done (Sample.call_f, None) (Sample.exhausted 3 [])
  /\ Parser.parseArgs token.Precedence 12 Sample.unclosed_call_at_paren
     = Parser.Done [Sample.int 1]
         (Sample.exhausted 6 [Sample.expected_found 5 token.RightParen token.Int])
  /\ exists p1,
       Inv.listed token.Precedence
         (Inv.after_next (Inv.required token.LeftParen Sample.unclosed_call_at_paren))
         [Sample.int 1] p1
       /\ Sample.exhausted 6 [Sample.expected_found 5 token.RightParen token.Int]
          = Inv.after_next (Inv.required token.RightParen p1).
Proof.
  destruct (argument_lists token.Precedence)
    as (Hargs & _ & _ & _ & _ & _ & Htable & _).
  destruct (Htable token_Precedence_table) as (_ & Hcall & _ & _ & H123 & Hnone).
  assert (Hitems : Spec.arguments_text token.Precedence Sample.sum_and_negation_items
                     Sample.sum_and_negation).
  { apply (Spec.text_args_cons token.Precedence
             [ Scanner.mkItem token.Identifier (LitString "a") 2 32 None;
               Scanner.mkItem token.Add LitNil 4 32 None;
               Scanner.mkItem token.Int (LitInt 1) 6 44 None ]
             (Binary token.Add (Ident "a") (Sample.int 1))
             (Scanner.mkItem token.Comma LitNil 7 32 None)
             [ Scanner.mkItem token.Sub LitNil 9 98 None;
               Scanner.mkItem token.Identifier (LitString "b") 10 41 None ]);
      try reflexivity; try discriminate.
    - apply (Spec.text_expr token.Precedence
               [Scanner.mkItem token.Identifier (LitString "a") 2 32 None]
               (Ident "a")
               (Scanner.mkItem token.Add LitNil 4 32 None
                  :: [Scanner.mkItem token.Int (LitInt 1) 6 44 None] ++ [])
               [(token.Add, Sample.int 1)]).
      + apply (Spec.text_leaf token.Precedence
                 (Scanner.mkItem token.Identifier (LitString "a") 2 32 None)).
        reflexivity.
      + apply (Spec.text_chain_cons token.Precedence
                 (Scanner.mkItem token.Add LitNil 4 32 None)
                 [Scanner.mkItem token.Int (LitInt 1) 6 44 None]
                 (Sample.int 1) [] []); [cbn; lia| |constructor].
        apply (Spec.text_leaf token.Precedence
                 (Scanner.mkItem token.Int (LitInt 1) 6 44 None)).
        reflexivity.
    - apply Spec.text_args_last; [|reflexivity].
      apply (Spec.text_expr token.Precedence
               [ Scanner.mkItem token.Sub LitNil 9 98 None;
                 Scanner.mkItem token.Identifier (LitString "b") 10 41 None ]
               (Unary token.Sub (Ident "b")) [] []); [|constructor].
      apply (Spec.text_sign token.Precedence
               (Scanner.mkItem token.Sub LitNil 9 98 None)
               [Scanner.mkItem token.Identifier (LitString "b") 10 41 None]
               (Ident "b")); try reflexivity.
      apply (Spec.text_leaf token.Precedence
               (Scanner.mkItem token.Identifier (LitString "b") 10 41 None)).
      reflexivity. }
  assert (Hunclosed :
            Parser.parseArgs token.Precedence 12 Sample.unclosed_call_at_paren
            = Parser.Done [Sample.int 1]
                (Sample.exhausted 6
                   [Sample.expected_found 5 token.RightParen token.Int]))
    by (vm_compute; reflexivity).
  split; [exact token_Precedence_table|].
  split; [exact Hitems|].
  split.
  { apply (Hcall 12 (Scanner.mkItem token.Identifier (LitString "f") 0 40 None)
             (Scanner.mkItem token.LeftParen LitNil 1 97 None)
             (Scanner.mkItem token.RightParen LitNil 11 (-1) None)
             Sample.sum_and_negation_items Sample.sum_and_negation 110%nat);
      try reflexivity; try exact Hitems; vm_compute; lia. }
  split; [apply H123; lia|].
  split; [apply Hnone; lia|].
  split; [exact Hunclosed|].
  exact (Hargs 12%nat Sample.unclosed_call_at_paren _ _ Hunclosed).
Defined.
